(** * Dungeon crawler: the server-side turn engine, shallowly embedded

    The definitions below follow
      - packages/shared/src/index.ts          (types, tables, XP formulas)
      - apps/api/src/services/mapGenerator.ts (generateMap, initializeFog)
      - apps/api/src/services/gameLogic.ts    (turn engine, AI, deltas)

    Conventions of the embedding
      - JavaScript numbers that hold grid coordinates, hit points and other
        integer statistics are [Z];
      - arrays are lists; an index out of range reads [None] (JavaScript
        [undefined]);
      - objects mutated in place are threaded explicitly: every function
        that mutates the [GameState] returns the new state;
      - an enemy object is identified by its position in [state.enemies]
        (the source compares enemy objects by reference);
      - event ids ([Date.now()] plus a counter) and the human readable
        message strings are not part of the embedding;
      - [Math.random()], [randomUUID()] and [new Date()] are read from an
        environment [Env];
      - a [TypeError] of the source (an index into [undefined]) inside
        [generateMap] is the result [None]; elsewhere the source indexes
        the map and the fog only after a bounds check against the map, and
        the embedding is meant for states whose map is rectangular, whose
        fog has the shape of the map and whose player stands on the map. *)

From Stdlib Require Import ZArith List String Ascii Bool Lia Permutation.
Import ListNotations.

Open Scope string_scope.
Open Scope list_scope.
Open Scope Z_scope.

(* ------------------------------------------------------------------ *)
(** ** packages/shared/src/index.ts : data model *)

Inductive CharacterType := dwarf | elf | bandit | wizard.

Record CharacterStats := {
  cs_hp : Z;
  cs_maxHp : Z;
  cs_attack : Z;
  cs_defense : Z;
  cs_rangedDamage : Z;
  cs_rangedRange : Z
}.

Definition CHARACTER_STATS (c : CharacterType) : CharacterStats :=
  match c with
  | dwarf  => {| cs_hp := 28; cs_maxHp := 28; cs_attack := 6; cs_defense := 3;
                 cs_rangedDamage := 3; cs_rangedRange := 2 |}
  | bandit => {| cs_hp := 24; cs_maxHp := 24; cs_attack := 4; cs_defense := 4;
                 cs_rangedDamage := 6; cs_rangedRange := 3 |}
  | elf    => {| cs_hp := 22; cs_maxHp := 22; cs_attack := 5; cs_defense := 3;
                 cs_rangedDamage := 6; cs_rangedRange := 3 |}
  | wizard => {| cs_hp := 20; cs_maxHp := 20; cs_attack := 4; cs_defense := 2;
                 cs_rangedDamage := 7; cs_rangedRange := 4 |}
  end.

Inductive FacingDirection := face_left | face_right.

Inductive TileType := tile_floor | tile_wall | tile_stairs | tile_door.

Record Tile := { t_type : TileType; t_x : Z; t_y : Z }.

Inductive ItemType := health_potion | equipment.

Inductive EquipmentSlot := weapon | shield | armor | ranged.

Record Equipment := {
  eq_id : string;
  eq_slot : EquipmentSlot;
  eq_name : string;
  attackBonus : Z;
  defenseBonus : Z;
  hpBonus : Z;
  rangedDamageBonus : Z;
  rangedRangeBonus : Z;
  tier : Z
}.

(** [Item] and [EquipmentItem]: the optional field [equipment] is present
    exactly on equipment items. *)
Record Item := {
  i_id : string;
  i_type : ItemType;
  i_name : string;
  i_x : Z;
  i_y : Z;
  i_value : Z;
  i_equipment : option Equipment
}.

Definition isEquipmentItem (item : Item) : option Equipment :=
  match i_type item with
  | equipment => i_equipment item
  | health_potion => None
  end.

Definition mkEquipment (id : string) (slot : EquipmentSlot) (name : string)
    (atk def hp rdmg rrng t : Z) : Equipment :=
  {| eq_id := id; eq_slot := slot; eq_name := name; attackBonus := atk;
     defenseBonus := def; hpBonus := hp; rangedDamageBonus := rdmg;
     rangedRangeBonus := rrng; tier := t |}.

Definition EQUIPMENT_DEFINITIONS : list Equipment :=
  [ mkEquipment "rusty_sword" weapon "Rusty Sword" 2 0 0 0 0 1;
    mkEquipment "iron_sword" weapon "Iron Sword" 4 0 0 0 0 3;
    mkEquipment "steel_sword" weapon "Steel Sword" 7 0 0 0 0 6;
    mkEquipment "wooden_shield" shield "Wooden Shield" 0 2 0 0 0 1;
    mkEquipment "iron_shield" shield "Iron Shield" 0 4 0 0 0 4;
    mkEquipment "leather_armor" armor "Leather Armor" 0 1 10 0 0 1;
    mkEquipment "chain_mail" armor "Chain Mail" 0 3 15 0 0 3;
    mkEquipment "plate_armor" armor "Plate Armor" 0 5 25 0 0 6;
    mkEquipment "throwing_daggers" ranged "Throwing Daggers" 0 0 0 2 0 1;
    mkEquipment "magic_daggers" ranged "Magic Daggers" 0 0 0 4 1 4;
    mkEquipment "crossbow" ranged "Crossbow" 0 0 0 2 0 1;
    mkEquipment "large_crossbow" ranged "Large Crossbow" 0 0 0 4 1 4;
    mkEquipment "crystal_staff" ranged "Crystal Staff" 0 0 0 2 0 1;
    mkEquipment "flame_staff" ranged "Flame Staff" 0 0 0 5 1 5 ].

Definition getEquipmentForFloor (floor : Z) : list Equipment :=
  filter (fun e => tier e <=? floor + 1) EQUIPMENT_DEFINITIONS.

Inductive EnemyType := rat | skeleton | orc | dragon.
Inductive EnemyVariant := normal | elite | champion.
Inductive AIBehavior := aggressive | patrol | flee | stationary.

Record Coordinate := { c_x : Z; c_y : Z }.

Record Enemy := {
  e_id : string;
  e_type : EnemyType;
  e_variant : EnemyVariant;
  e_displayName : string;
  e_x : Z;
  e_y : Z;
  e_hp : Z;
  e_maxHp : Z;
  e_attack : Z;
  e_defense : Z;
  e_behavior : AIBehavior;
  e_lastSeenPlayer : option Coordinate
}.

Record PlayerEquipment := {
  pe_weapon : option Equipment;
  pe_shield : option Equipment;
  pe_armor : option Equipment;
  pe_ranged : option Equipment
}.

Record Player := {
  p_x : Z;
  p_y : Z;
  p_hp : Z;
  p_maxHp : Z;
  p_attack : Z;
  p_defense : Z;
  p_inventory : list Item;
  p_xp : Z;
  p_level : Z;
  p_xpToNextLevel : Z;
  p_equipment : PlayerEquipment;
  p_character : CharacterType;
  p_facingDirection : FacingDirection
}.

Inductive GameStatus := active | dead | won.

Record GameState := {
  g_id : string;
  g_playerId : string;
  g_playerName : string;
  g_floor : Z;
  g_player : Player;
  g_map : list (list Tile);
  g_enemies : list Enemy;
  g_items : list Item;
  g_fog : list (list bool);
  g_status : GameStatus;
  g_score : Z;
  g_createdAt : Z;
  g_updatedAt : Z
}.

Inductive Direction := dir_up | dir_down | dir_left | dir_right.

Inductive GameEventType :=
  | player_moved | player_attacked | player_damaged | player_healed
  | potion_refused | attack_missed | ranged_attack | ranged_missed
  | enemy_killed | item_picked_up | floor_descended | player_died
  | game_won | xp_gained | level_up | equipment_equipped | equipment_found.

Inductive AttackType := bolt | dagger | magic_dagger | spell.

Inductive GameEventData :=
  | PlayerAttackedEventData (targetX targetY damage : Z) (enemyId : string)
  | PlayerDiedEventData (killedBy : EnemyType)
  | PlayerHealedEventData (itemId : string) (healAmount : Z)
  | ItemPickedUpEventData (itemId itemName : string)
  | EnemyKilledEventData (enemyId : string) (enemyType : EnemyType)
  | XpGainedEventData (amount totalXp : Z)
  | LevelUpEventData (newLevel hpGained attackGained defenseGained : Z)
  | EquipmentEquippedEventData (itemId : string) (eq : Equipment)
      (slot : EquipmentSlot)
  | EquipmentFoundEventData (eq : Equipment) (notBetter : bool)
  | RangedAttackEventData (targetX targetY damage : Z)
      (enemyId : option string) (attackType : AttackType).

Record GameEvent := {
  ev_type : GameEventType;
  ev_data : option GameEventData
}.

Definition event (t : GameEventType) : GameEvent :=
  {| ev_type := t; ev_data := None |}.
Definition eventWith (t : GameEventType) (d : GameEventData) : GameEvent :=
  {| ev_type := t; ev_data := Some d |}.

Definition MAP_WIDTH : Z := 40.
Definition MAP_HEIGHT : Z := 24.
Definition VISION_RADIUS : Z := 5.

Record BaseEnemyStats := {
  bs_hp : Z; bs_attack : Z; bs_defense : Z; bs_xpReward : Z
}.

Definition ENEMY_STATS (t : EnemyType) : BaseEnemyStats :=
  match t with
  | rat      => {| bs_hp := 6;  bs_attack := 4;  bs_defense := 0; bs_xpReward := 8 |}
  | skeleton => {| bs_hp := 15; bs_attack := 8;  bs_defense := 2; bs_xpReward := 30 |}
  | orc      => {| bs_hp := 25; bs_attack := 13; bs_defense := 4; bs_xpReward := 60 |}
  | dragon   => {| bs_hp := 45; bs_attack := 20; bs_defense := 8; bs_xpReward := 200 |}
  end.

(** [VARIANT_MULTIPLIERS]: the multipliers 1.5, 1.2, 2.5, 1.8 are kept as
    tenths, so that [Math.floor(base * mult)] is [base * tenths / 10]. *)
Record VariantMultipliers := {
  hpMult10 : Z; attackMult10 : Z; defenseMult10 : Z; xpMult10 : Z;
  namePrefix : string
}.

Definition VARIANT_MULTIPLIERS (v : EnemyVariant) : VariantMultipliers :=
  match v with
  | normal   => {| hpMult10 := 10; attackMult10 := 10; defenseMult10 := 10;
                   xpMult10 := 10; namePrefix := "" |}
  | elite    => {| hpMult10 := 15; attackMult10 := 15; defenseMult10 := 12;
                   xpMult10 := 25; namePrefix := "Elite " |}
  | champion => {| hpMult10 := 25; attackMult10 := 18; defenseMult10 := 15;
                   xpMult10 := 40; namePrefix := "Champion " |}
  end.

Definition floorMul10 (base tenths : Z) : Z := (base * tenths) / 10.

Definition getEnemyXpReward (enemy : Enemy) : Z :=
  floorMul10 (bs_xpReward (ENEMY_STATS (e_type enemy)))
             (xpMult10 (VARIANT_MULTIPLIERS (e_variant enemy))).

Definition getXpToNextLevel (level : Z) : Z := level * 50.

(** Delta types for incremental updates ([GameDelta]).  The optional
    fields of [player_stats] are options. *)
Record VisibleGameState := {
  v_id : string;
  v_playerName : string;
  v_floor : Z;
  v_player : Player;
  v_visibleTiles : list Tile;
  v_visibleEnemies : list Enemy;
  v_visibleItems : list Item;
  v_fog : list (list bool);
  v_status : GameStatus;
  v_score : Z
}.

Inductive GameDelta :=
  | delta_player_pos (x y : Z) (facingDirection : FacingDirection)
  | delta_player_stats (hp maxHp attack defense xp level xpToNextLevel : option Z)
  | delta_player_equipment (eq : PlayerEquipment)
  | delta_score (score : Z)
  | delta_floor (floor : Z)
  | delta_enemy_visible (enemy : Enemy)
  | delta_enemy_moved (enemyId : string) (x y : Z)
  | delta_enemy_damaged (enemyId : string) (hp : Z)
  | delta_enemy_killed (enemyId : string)
  | delta_enemy_hidden (enemyId : string)
  | delta_item_visible (item : Item)
  | delta_item_removed (itemId : string)
  | delta_fog_reveal (cells : list (Z * Z))
  | delta_tiles_reveal (tiles : list Tile)
  | delta_game_status (status : GameStatus)
  | delta_event (ev : GameEvent)
  | delta_new_floor (visibleState : VisibleGameState).

(* ------------------------------------------------------------------ *)
(** ** Field updates (JavaScript assignments to object fields) *)

Definition set_p_pos (x y : Z) (p : Player) : Player :=
  {| p_x := x; p_y := y; p_hp := p_hp p; p_maxHp := p_maxHp p;
     p_attack := p_attack p; p_defense := p_defense p;
     p_inventory := p_inventory p; p_xp := p_xp p; p_level := p_level p;
     p_xpToNextLevel := p_xpToNextLevel p; p_equipment := p_equipment p;
     p_character := p_character p;
     p_facingDirection := p_facingDirection p |}.

Definition set_p_hp (hp : Z) (p : Player) : Player :=
  {| p_x := p_x p; p_y := p_y p; p_hp := hp; p_maxHp := p_maxHp p;
     p_attack := p_attack p; p_defense := p_defense p;
     p_inventory := p_inventory p; p_xp := p_xp p; p_level := p_level p;
     p_xpToNextLevel := p_xpToNextLevel p; p_equipment := p_equipment p;
     p_character := p_character p;
     p_facingDirection := p_facingDirection p |}.

Definition set_p_stats (attack defense maxHp : Z) (p : Player) : Player :=
  {| p_x := p_x p; p_y := p_y p; p_hp := p_hp p; p_maxHp := maxHp;
     p_attack := attack; p_defense := defense;
     p_inventory := p_inventory p; p_xp := p_xp p; p_level := p_level p;
     p_xpToNextLevel := p_xpToNextLevel p; p_equipment := p_equipment p;
     p_character := p_character p;
     p_facingDirection := p_facingDirection p |}.

Definition set_p_inventory (inv : list Item) (p : Player) : Player :=
  {| p_x := p_x p; p_y := p_y p; p_hp := p_hp p; p_maxHp := p_maxHp p;
     p_attack := p_attack p; p_defense := p_defense p;
     p_inventory := inv; p_xp := p_xp p; p_level := p_level p;
     p_xpToNextLevel := p_xpToNextLevel p; p_equipment := p_equipment p;
     p_character := p_character p;
     p_facingDirection := p_facingDirection p |}.

Definition set_p_xp (xp : Z) (p : Player) : Player :=
  {| p_x := p_x p; p_y := p_y p; p_hp := p_hp p; p_maxHp := p_maxHp p;
     p_attack := p_attack p; p_defense := p_defense p;
     p_inventory := p_inventory p; p_xp := xp; p_level := p_level p;
     p_xpToNextLevel := p_xpToNextLevel p; p_equipment := p_equipment p;
     p_character := p_character p;
     p_facingDirection := p_facingDirection p |}.

Definition set_p_equipment (eq : PlayerEquipment) (p : Player) : Player :=
  {| p_x := p_x p; p_y := p_y p; p_hp := p_hp p; p_maxHp := p_maxHp p;
     p_attack := p_attack p; p_defense := p_defense p;
     p_inventory := p_inventory p; p_xp := p_xp p; p_level := p_level p;
     p_xpToNextLevel := p_xpToNextLevel p; p_equipment := eq;
     p_character := p_character p;
     p_facingDirection := p_facingDirection p |}.

Definition set_p_facingDirection (f : FacingDirection) (p : Player) : Player :=
  {| p_x := p_x p; p_y := p_y p; p_hp := p_hp p; p_maxHp := p_maxHp p;
     p_attack := p_attack p; p_defense := p_defense p;
     p_inventory := p_inventory p; p_xp := p_xp p; p_level := p_level p;
     p_xpToNextLevel := p_xpToNextLevel p; p_equipment := p_equipment p;
     p_character := p_character p; p_facingDirection := f |}.

Definition set_e_pos (x y : Z) (e : Enemy) : Enemy :=
  {| e_id := e_id e; e_type := e_type e; e_variant := e_variant e;
     e_displayName := e_displayName e; e_x := x; e_y := y; e_hp := e_hp e;
     e_maxHp := e_maxHp e; e_attack := e_attack e; e_defense := e_defense e;
     e_behavior := e_behavior e; e_lastSeenPlayer := e_lastSeenPlayer e |}.

Definition set_e_hp (hp : Z) (e : Enemy) : Enemy :=
  {| e_id := e_id e; e_type := e_type e; e_variant := e_variant e;
     e_displayName := e_displayName e; e_x := e_x e; e_y := e_y e; e_hp := hp;
     e_maxHp := e_maxHp e; e_attack := e_attack e; e_defense := e_defense e;
     e_behavior := e_behavior e; e_lastSeenPlayer := e_lastSeenPlayer e |}.

Definition set_e_lastSeenPlayer (c : option Coordinate) (e : Enemy) : Enemy :=
  {| e_id := e_id e; e_type := e_type e; e_variant := e_variant e;
     e_displayName := e_displayName e; e_x := e_x e; e_y := e_y e;
     e_hp := e_hp e; e_maxHp := e_maxHp e; e_attack := e_attack e;
     e_defense := e_defense e; e_behavior := e_behavior e;
     e_lastSeenPlayer := c |}.

Definition set_g_player (p : Player) (s : GameState) : GameState :=
  {| g_id := g_id s; g_playerId := g_playerId s;
     g_playerName := g_playerName s; g_floor := g_floor s; g_player := p;
     g_map := g_map s; g_enemies := g_enemies s; g_items := g_items s;
     g_fog := g_fog s; g_status := g_status s; g_score := g_score s;
     g_createdAt := g_createdAt s; g_updatedAt := g_updatedAt s |}.

Definition set_g_enemies (es : list Enemy) (s : GameState) : GameState :=
  {| g_id := g_id s; g_playerId := g_playerId s;
     g_playerName := g_playerName s; g_floor := g_floor s;
     g_player := g_player s; g_map := g_map s; g_enemies := es;
     g_items := g_items s; g_fog := g_fog s; g_status := g_status s;
     g_score := g_score s; g_createdAt := g_createdAt s;
     g_updatedAt := g_updatedAt s |}.

Definition set_g_items (its : list Item) (s : GameState) : GameState :=
  {| g_id := g_id s; g_playerId := g_playerId s;
     g_playerName := g_playerName s; g_floor := g_floor s;
     g_player := g_player s; g_map := g_map s; g_enemies := g_enemies s;
     g_items := its; g_fog := g_fog s; g_status := g_status s;
     g_score := g_score s; g_createdAt := g_createdAt s;
     g_updatedAt := g_updatedAt s |}.

Definition set_g_fog (fog : list (list bool)) (s : GameState) : GameState :=
  {| g_id := g_id s; g_playerId := g_playerId s;
     g_playerName := g_playerName s; g_floor := g_floor s;
     g_player := g_player s; g_map := g_map s; g_enemies := g_enemies s;
     g_items := g_items s; g_fog := fog; g_status := g_status s;
     g_score := g_score s; g_createdAt := g_createdAt s;
     g_updatedAt := g_updatedAt s |}.

Definition set_g_map (m : list (list Tile)) (s : GameState) : GameState :=
  {| g_id := g_id s; g_playerId := g_playerId s;
     g_playerName := g_playerName s; g_floor := g_floor s;
     g_player := g_player s; g_map := m; g_enemies := g_enemies s;
     g_items := g_items s; g_fog := g_fog s; g_status := g_status s;
     g_score := g_score s; g_createdAt := g_createdAt s;
     g_updatedAt := g_updatedAt s |}.

Definition set_g_floor (f : Z) (s : GameState) : GameState :=
  {| g_id := g_id s; g_playerId := g_playerId s;
     g_playerName := g_playerName s; g_floor := f;
     g_player := g_player s; g_map := g_map s; g_enemies := g_enemies s;
     g_items := g_items s; g_fog := g_fog s; g_status := g_status s;
     g_score := g_score s; g_createdAt := g_createdAt s;
     g_updatedAt := g_updatedAt s |}.

Definition set_g_status (st : GameStatus) (s : GameState) : GameState :=
  {| g_id := g_id s; g_playerId := g_playerId s;
     g_playerName := g_playerName s; g_floor := g_floor s;
     g_player := g_player s; g_map := g_map s; g_enemies := g_enemies s;
     g_items := g_items s; g_fog := g_fog s; g_status := st;
     g_score := g_score s; g_createdAt := g_createdAt s;
     g_updatedAt := g_updatedAt s |}.

Definition set_g_score (sc : Z) (s : GameState) : GameState :=
  {| g_id := g_id s; g_playerId := g_playerId s;
     g_playerName := g_playerName s; g_floor := g_floor s;
     g_player := g_player s; g_map := g_map s; g_enemies := g_enemies s;
     g_items := g_items s; g_fog := g_fog s; g_status := g_status s;
     g_score := sc; g_createdAt := g_createdAt s;
     g_updatedAt := g_updatedAt s |}.

Definition set_g_updatedAt (t : Z) (s : GameState) : GameState :=
  {| g_id := g_id s; g_playerId := g_playerId s;
     g_playerName := g_playerName s; g_floor := g_floor s;
     g_player := g_player s; g_map := g_map s; g_enemies := g_enemies s;
     g_items := g_items s; g_fog := g_fog s; g_status := g_status s;
     g_score := g_score s; g_createdAt := g_createdAt s;
     g_updatedAt := t |}.

(* ------------------------------------------------------------------ *)
(** ** Arrays *)

Definition lenZ {A} (l : list A) : Z := Z.of_nat (List.length l).

(** [l[i]] for a JavaScript number [i]. *)
Definition nthZ {A} (l : list A) (i : Z) : option A :=
  if i <? 0 then None else nth_error l (Z.to_nat i).

(** [g[y]?.[x]] *)
Definition at2 {A} (g : list (list A)) (x y : Z) : option A :=
  match nthZ g y with
  | Some row => nthZ row x
  | None => None
  end.

Fixpoint setNth {A} (n : nat) (v : A) (l : list A) : list A :=
  match l, n with
  | [], _ => []
  | _ :: r, O => v :: r
  | a :: r, S k => a :: setNth k v r
  end.

(** [g[y][x] = v], for a cell inside the array (every write of the source
    is guarded by a bounds check or lands inside a room); outside, the
    array is left as it is. *)
Definition set2 {A} (g : list (list A)) (x y : Z) (v : A) : list (list A) :=
  if (x <? 0) || (y <? 0) then g
  else match nth_error g (Z.to_nat y) with
       | Some row =>
           if Z.to_nat x <? List.length row then
             setNth (Z.to_nat y) (setNth (Z.to_nat x) v row) g
           else g
       | None => g
       end%nat.

(** [l.splice(i, 1)] *)
Fixpoint splice1 {A} (i : nat) (l : list A) : list A :=
  match l, i with
  | [], _ => []
  | _ :: r, O => r
  | a :: r, S k => a :: splice1 k r
  end.

(** [l.findIndex(f)] *)
Fixpoint findIndex {A} (f : A -> bool) (l : list A) : option nat :=
  match l with
  | [] => None
  | a :: r => if f a then Some O
              else match findIndex f r with
                   | Some k => Some (S k)
                   | None => None
                   end
  end.

(** Integers [lo, lo+1, ..., lo+n-1]: the values of a counting loop. *)
Fixpoint zrange (lo : Z) (n : nat) : list Z :=
  match n with
  | O => []
  | S k => lo :: zrange (lo + 1) k
  end.

(** [for (let v = lo; v <= hi; v++)] *)
Definition zinterval (lo hi : Z) : list Z := zrange lo (Z.to_nat (hi - lo + 1)).

(** [state.map.length] and [state.map[0].length] *)
Definition mapHeight {A} (m : list (list A)) : Z := lenZ m.
Definition mapWidth {A} (m : list (list A)) : Z :=
  match m with
  | [] => 0
  | row :: _ => lenZ row
  end.

Definition TileType_eqb (a b : TileType) : bool :=
  match a, b with
  | tile_floor, tile_floor | tile_wall, tile_wall
  | tile_stairs, tile_stairs | tile_door, tile_door => true
  | _, _ => false
  end.

(** [map[y][x].type === t], read after a bounds check. *)
Definition tileIs (m : list (list Tile)) (x y : Z) (t : TileType) : bool :=
  match at2 m x y with
  | Some tl => TileType_eqb (t_type tl) t
  | None => false
  end.

(* ------------------------------------------------------------------ *)
(** ** apps/api/src/services/gameLogic.ts : visibility *)

Definition fogAt (fog : list (list bool)) (x y : Z) : bool :=
  match at2 fog x y with
  | Some true => true
  | _ => false
  end.

Definition getVisibleEnemies (state : GameState) : list Enemy :=
  filter (fun e => (e_hp e >? 0) && fogAt (g_fog state) (e_x e) (e_y e))
         (g_enemies state).

Definition getVisibleItems (state : GameState) : list Item :=
  filter (fun i => fogAt (g_fog state) (i_x i) (i_y i)) (g_items state).

Definition getVisibleTiles (state : GameState) : list Tile :=
  flat_map
    (fun y =>
       flat_map
         (fun x =>
            if fogAt (g_fog state) x y then
              match at2 (g_map state) x y with
              | Some t => [t]
              | None => []
              end
            else [])
         (zrange 0 (Z.to_nat (mapWidth (g_map state)))))
    (zrange 0 (Z.to_nat (mapHeight (g_map state)))).

Definition getVisibleState (state : GameState) : VisibleGameState :=
  {| v_id := g_id state;
     v_playerName := g_playerName state;
     v_floor := g_floor state;
     v_player := g_player state;
     v_visibleTiles := getVisibleTiles state;
     v_visibleEnemies := getVisibleEnemies state;
     v_visibleItems := getVisibleItems state;
     v_fog := g_fog state;
     v_status := g_status state;
     v_score := g_score state |}.

(** [updateFog]: [Math.sqrt(dx*dx + dy*dy) <= VISION_RADIUS] is decided on
    the squares. *)
Definition revealCell (m : list (list Tile)) (px py : Z)
    (fog : list (list bool)) (dy dx : Z) : list (list bool) :=
  let x := px + dx in
  let y := py + dy in
  if (x >=? 0) && (x <? mapWidth m) && (y >=? 0) && (y <? mapHeight m) then
    if dx * dx + dy * dy <=? VISION_RADIUS * VISION_RADIUS
    then set2 fog x y true
    else fog
  else fog.

Definition updateFogGrid (m : list (list Tile)) (px py : Z)
    (fog : list (list bool)) : list (list bool) :=
  fold_left
    (fun fog dy =>
       fold_left (fun fog dx => revealCell m px py fog dy dx)
                 (zinterval (- VISION_RADIUS) VISION_RADIUS) fog)
    (zinterval (- VISION_RADIUS) VISION_RADIUS) fog.

Definition updateFog (state : GameState) : GameState :=
  set_g_fog
    (updateFogGrid (g_map state) (p_x (g_player state))
                   (p_y (g_player state)) (g_fog state))
    state.

(* ------------------------------------------------------------------ *)
(** ** Combat and progression *)

Definition getEnemyScore (t : EnemyType) : Z :=
  match t with
  | rat => 10
  | skeleton => 25
  | orc => 50
  | dragon => 200
  end.

(** The body of the [while] loop of [grantXp]. *)
Definition levelUpStep (p : Player) : Player :=
  let xp := p_xp p - p_xpToNextLevel p in
  let level := p_level p + 1 in
  let hpGained := 3 in
  let attackGained := 1 in
  let defenseGained := 1 in
  let maxHp := p_maxHp p + hpGained in
  let healAmount := maxHp / 2 in
  let hp := Z.min maxHp (p_hp p + healAmount) in
  {| p_x := p_x p; p_y := p_y p; p_hp := hp; p_maxHp := maxHp;
     p_attack := p_attack p + attackGained;
     p_defense := p_defense p + defenseGained;
     p_inventory := p_inventory p; p_xp := xp; p_level := level;
     p_xpToNextLevel := getXpToNextLevel level;
     p_equipment := p_equipment p; p_character := p_character p;
     p_facingDirection := p_facingDirection p |}.

Definition levelUpEvent (p : Player) : GameEvent :=
  eventWith level_up (LevelUpEventData (p_level p) 3 1 1).

(** [while (xp >= xpToNextLevel) { ... }] with an explicit iteration
    budget; [None] is a loop that is still running when the budget ends. *)
Fixpoint levelUpLoop (fuel : nat) (p : Player) (events : list GameEvent)
    : option (Player * list GameEvent) :=
  if p_xp p >=? p_xpToNextLevel p then
    match fuel with
    | O => None
    | S k =>
        let p' := levelUpStep p in
        levelUpLoop k p' (events ++ [levelUpEvent p'])
    end
  else Some (p, events).

(** A budget that is enough for every integer-valued player (see
    [levelUpLoop_fuel_enough]). *)
Definition levelUpFuel (p : Player) : nat :=
  if 1 <=? p_level p then
    if 1 <=? p_xpToNextLevel p then Z.to_nat (p_xp p)
    else S (Z.to_nat (p_xp p - p_xpToNextLevel p))
  else
    Z.to_nat (2 - p_level p + Z.abs (p_xp p) + Z.abs (p_xpToNextLevel p)
              + 50 * p_level p * p_level p).

(** [grantXp]; the loop runs on the budget [levelUpFuel], so its [None]
    branch is never taken. *)
Definition grantXp (state : GameState) (enemy : Enemy)
    : list GameEvent * GameState :=
  let xpReward := getEnemyXpReward enemy in
  let p := set_p_xp (p_xp (g_player state) + xpReward) (g_player state) in
  let events := [eventWith xp_gained (XpGainedEventData xpReward (p_xp p))] in
  match levelUpLoop (levelUpFuel p) p events with
  | Some (p', events') => (events', set_g_player p' state)
  | None => (events, set_g_player p state)
  end.

Definition updEnemy (i : nat) (e : Enemy) (state : GameState) : GameState :=
  set_g_enemies (setNth i e (g_enemies state)) state.

(** [attackEnemy(state, enemy)], where [enemy] is [state.enemies[i]]. *)
Definition attackEnemy (state : GameState) (i : nat) (enemy : Enemy)
    : list GameEvent * GameState :=
  let damage := Z.max 1 (p_attack (g_player state) - e_defense enemy) in
  let enemy' := set_e_hp (e_hp enemy - damage) enemy in
  let state1 := updEnemy i enemy' state in
  let events :=
    [eventWith player_attacked
       (PlayerAttackedEventData (e_x enemy') (e_y enemy') damage
                                (e_id enemy'))] in
  if e_hp enemy' <=? 0 then
    let state2 :=
      set_g_score (g_score state1 + getEnemyScore (e_type enemy')) state1 in
    let events2 :=
      events ++ [eventWith enemy_killed
                   (EnemyKilledEventData (e_id enemy') (e_type enemy'))] in
    let '(xpEvents, state3) := grantXp state2 enemy' in
    (events2 ++ xpEvents, state3)
  else (events, state1).

Definition getEquipmentTotalBonus (e : Equipment) : Z :=
  attackBonus e + defenseBonus e + hpBonus e
  + rangedDamageBonus e + rangedRangeBonus e.

Definition getSlot (slot : EquipmentSlot) (pe : PlayerEquipment)
    : option Equipment :=
  match slot with
  | weapon => pe_weapon pe
  | shield => pe_shield pe
  | armor => pe_armor pe
  | ranged => pe_ranged pe
  end.

Definition setSlot (slot : EquipmentSlot) (e : Equipment)
    (pe : PlayerEquipment) : PlayerEquipment :=
  match slot with
  | weapon => {| pe_weapon := Some e; pe_shield := pe_shield pe;
                 pe_armor := pe_armor pe; pe_ranged := pe_ranged pe |}
  | shield => {| pe_weapon := pe_weapon pe; pe_shield := Some e;
                 pe_armor := pe_armor pe; pe_ranged := pe_ranged pe |}
  | armor => {| pe_weapon := pe_weapon pe; pe_shield := pe_shield pe;
                pe_armor := Some e; pe_ranged := pe_ranged pe |}
  | ranged => {| pe_weapon := pe_weapon pe; pe_shield := pe_shield pe;
                 pe_armor := pe_armor pe; pe_ranged := Some e |}
  end.

(** The stat swap of [handleEquipmentPickup]: remove the old bonuses, equip,
    add the new bonuses, clamp hp. *)
Definition equipSwap (current : option Equipment) (eq : Equipment)
    (p : Player) : Player :=
  let p1 :=
    match current with
    | Some cur =>
        set_p_stats (p_attack p - attackBonus cur)
                    (p_defense p - defenseBonus cur)
                    (p_maxHp p - hpBonus cur) p
    | None => p
    end in
  let p2 := set_p_equipment (setSlot (eq_slot eq) eq (p_equipment p1)) p1 in
  let p3 := set_p_stats (p_attack p2 + attackBonus eq)
                        (p_defense p2 + defenseBonus eq)
                        (p_maxHp p2 + hpBonus eq) p2 in
  if p_hp p3 >? p_maxHp p3 then set_p_hp (p_maxHp p3) p3 else p3.

(** The auto-equip decision: [isBetter || !currentEquipment]. *)
Definition shouldEquip (current : option Equipment) (eq : Equipment) : bool :=
  let currentBonus :=
    match current with
    | Some cur => getEquipmentTotalBonus cur
    | None => 0
    end in
  let newBonus := getEquipmentTotalBonus eq in
  let isBetter := newBonus >? currentBonus in
  isBetter || match current with Some _ => false | None => true end.

Definition handleEquipmentPickup (state : GameState) (item : Item)
    (eq : Equipment) (itemIndex : nat) : list GameEvent * GameState :=
  let slot := eq_slot eq in
  let currentEquipment := getSlot slot (p_equipment (g_player state)) in
  if shouldEquip currentEquipment eq then
    let state1 := set_g_items (splice1 itemIndex (g_items state)) state in
    let state2 :=
      set_g_player (equipSwap currentEquipment eq (g_player state1)) state1 in
    ([eventWith equipment_equipped
        (EquipmentEquippedEventData (i_id item) eq slot)], state2)
  else
    ([eventWith equipment_found (EquipmentFoundEventData eq true)], state).

(* ------------------------------------------------------------------ *)
(** ** Line of sight and path finding *)

(** The [for] loop of [hasLineOfSight]; [fuel] counts the remaining
    iterations of [i < maxIterations]. *)
Fixpoint losLoop (fuel : nat) (m : list (list Tile))
    (x1 y1 x2 y2 dx dy sx sy x y err : Z) : bool :=
  match fuel with
  | O => false
  | S k =>
      let moved := negb (x =? x1) || negb (y =? y1) in
      let atTarget := (x =? x2) && (y =? y2) in
      if moved && atTarget then true
      else if moved && tileIs m x y tile_wall then false
      else if atTarget then true
      else
        let e2 := 2 * err in
        let '(err1, xn) := if e2 >? - dy then (err - dy, x + sx)
                           else (err, x) in
        let '(err2, yn) := if e2 <? dx then (err1 + dx, y + sy)
                           else (err1, y) in
        if (xn =? x) && (yn =? y) then false
        else losLoop k m x1 y1 x2 y2 dx dy sx sy xn yn err2
  end.

Definition hasLineOfSight (state : GameState) (x1 y1 x2 y2 : Z) : bool :=
  if (x1 =? x2) && (y1 =? y2) then true
  else
    let dx := Z.abs (x2 - x1) in
    let dy := Z.abs (y2 - y1) in
    let sx := if x1 <? x2 then 1 else -1 in
    let sy := if y1 <? y2 then 1 else -1 in
    let maxIterations := MAP_WIDTH + MAP_HEIGHT in
    losLoop (Z.to_nat maxIterations) (g_map state)
            x1 y1 x2 y2 dx dy sx sy x1 y1 (dx - dy).

Record PathNode := { n_x : Z; n_y : Z; n_path : list Coordinate }.

(** up, down, left, right *)
Definition directions : list (Z * Z) := [(0, -1); (0, 1); (-1, 0); (1, 0)].

(** [visited.has(`${x},${y}`)] *)
Definition visitedHas (visited : list (Z * Z)) (x y : Z) : bool :=
  existsb (fun k => (fst k =? x) && (snd k =? y)) visited.

Definition liveEnemyAt (x y : Z) (e : Enemy) : bool :=
  (e_x e =? x) && (e_y e =? y) && (e_hp e >? 0).

Inductive Expansion :=
  | Found (step : option Coordinate)
  | Continue (visited : list (Z * Z)) (queue : list PathNode).

(** The inner [for (const dir of directions)] of [findPathToTarget]. *)
Fixpoint expandNode (state : GameState) (targetX targetY : Z)
    (current : PathNode) (dirs : list (Z * Z))
    (visited : list (Z * Z)) (queue : list PathNode) : Expansion :=
  match dirs with
  | [] => Continue visited queue
  | (ddx, ddy) :: rest =>
      let nx := n_x current + ddx in
      let ny := n_y current + ddy in
      if visitedHas visited nx ny then
        expandNode state targetX targetY current rest visited queue
      else
        let visited' := (nx, ny) :: visited in
        if (nx <? 0) || (nx >=? mapWidth (g_map state))
           || (ny <? 0) || (ny >=? mapHeight (g_map state)) then
          expandNode state targetX targetY current rest visited' queue
        else if tileIs (g_map state) nx ny tile_wall then
          expandNode state targetX targetY current rest visited' queue
        else
          let hasEnemy := existsb (liveEnemyAt nx ny) (g_enemies state) in
          let isPlayer := (nx =? p_x (g_player state))
                          && (ny =? p_y (g_player state)) in
          let newPath := n_path current ++ [{| c_x := nx; c_y := ny |}] in
          if (nx =? targetX) && (ny =? targetY) then Found (hd_error newPath)
          else if negb hasEnemy && negb isPlayer then
            expandNode state targetX targetY current rest visited'
              (queue ++ [{| n_x := nx; n_y := ny; n_path := newPath |}])
          else
            expandNode state targetX targetY current rest visited' queue
  end.

(** The [while (current)] loop; [fuel] is what is left of
    [MAX_ITERATIONS]. *)
Fixpoint bfsLoop (fuel : nat) (state : GameState)
    (targetX targetY maxDistance : Z) (current : option PathNode)
    (visited : list (Z * Z)) (queue : list PathNode) : option Coordinate :=
  match current with
  | None => None
  | Some cur =>
      match fuel with
      | O => None
      | S k =>
          if lenZ (n_path cur) >=? maxDistance then
            bfsLoop k state targetX targetY maxDistance
                    (hd_error queue) visited (tl queue)
          else
            match expandNode state targetX targetY cur directions
                             visited queue with
            | Found step => step
            | Continue visited' queue' =>
                bfsLoop k state targetX targetY maxDistance
                        (hd_error queue') visited' (tl queue')
            end
      end
  end.

Definition findPathToTarget (state : GameState)
    (startX startY targetX targetY maxDistance : Z) : option Coordinate :=
  if (startX =? targetX) && (startY =? targetY) then None
  else
    let MAX_ITERATIONS := MAP_WIDTH * MAP_HEIGHT in
    bfsLoop (Z.to_nat MAX_ITERATIONS) state targetX targetY maxDistance
            (Some {| n_x := startX; n_y := startY; n_path := [] |})
            [(startX, startY)] [].

(** [state.enemies.some((e) => e !== enemy && ...)], the enemy being
    [state.enemies[i]]. *)
Fixpoint otherLiveEnemyAt (i : nat) (x y : Z) (es : list Enemy) : bool :=
  match es with
  | [] => false
  | e :: r =>
      match i with
      | O => existsb (liveEnemyAt x y) r
      | S k => liveEnemyAt x y e || otherLiveEnemyAt k x y r
      end
  end.

Definition canMoveToTile (state : GameState) (i : nat) (x y : Z) : bool :=
  if (x <? 0) || (x >=? mapWidth (g_map state))
     || (y <? 0) || (y >=? mapHeight (g_map state)) then false
  else if tileIs (g_map state) x y tile_wall then false
  else if (x =? p_x (g_player state)) && (y =? p_y (g_player state))
  then false
  else if otherLiveEnemyAt i x y (g_enemies state) then false
  else true.

(* ------------------------------------------------------------------ *)
(** ** Enemy AI *)

Definition GameStatus_eqb (a b : GameStatus) : bool :=
  match a, b with
  | active, active | dead, dead | won, won => true
  | _, _ => false
  end.

Definition enemyAttackPlayer (state : GameState) (enemy : Enemy)
    : list GameEvent * GameState :=
  let damage := Z.max 1 (e_attack enemy - p_defense (g_player state)) in
  let state1 :=
    set_g_player (set_p_hp (p_hp (g_player state) - damage) (g_player state))
                 state in
  let events := [event player_damaged] in
  if p_hp (g_player state1) <=? 0 then
    (events ++ [eventWith player_died (PlayerDiedEventData (e_type enemy))],
     set_g_status dead state1)
  else (events, state1).

Definition isAdjacentToPlayer (enemy : Enemy) (px py : Z) : bool :=
  let dx := Z.abs (px - e_x enemy) in
  let dy := Z.abs (py - e_y enemy) in
  ((dx =? 1) && (dy =? 0)) || ((dx =? 0) && (dy =? 1)).

Definition MAX_PATHFINDING_ENEMIES : Z := 5.

(** The loop state of [moveEnemies]. *)
Record AI := {
  ai_state : GameState;
  ai_events : list GameEvent;
  ai_pathfindingCount : Z
}.

(** [enemy.hp / enemy.maxHp < 0.3] for integers: the quotient is
    [Infinity] on [maxHp = 0] (the enemies of the loop have [hp > 0]). *)
Definition hpPercentBelow30 (hp maxHp : Z) : bool :=
  if maxHp >? 0 then 10 * hp <? 3 * maxHp
  else if maxHp =? 0 then hp <? 0
  else 10 * hp >? 3 * maxHp.

(** An attack of enemy [i]; the boolean tells [moveEnemies] to return
    ([state.status === 'dead']). *)
Definition aiAttack (enemy : Enemy) (a : AI) : AI * bool :=
  let '(attackEvents, state') := enemyAttackPlayer (ai_state a) enemy in
  ({| ai_state := state'; ai_events := ai_events a ++ attackEvents;
      ai_pathfindingCount := ai_pathfindingCount a |},
   GameStatus_eqb (g_status state') dead).

Definition aiSetEnemy (i : nat) (enemy : Enemy) (a : AI) : AI :=
  {| ai_state := updEnemy i enemy (ai_state a); ai_events := ai_events a;
     ai_pathfindingCount := ai_pathfindingCount a |}.

(** [if (pathfindingCount < MAX_PATHFINDING_ENEMIES) { pathfindingCount++;
    step = findPathToTarget(...) }] *)
Definition aiFindPath (enemy : Enemy) (targetX targetY : Z) (a : AI)
    : option Coordinate * AI :=
  if ai_pathfindingCount a <? MAX_PATHFINDING_ENEMIES then
    (findPathToTarget (ai_state a) (e_x enemy) (e_y enemy) targetX targetY 20,
     {| ai_state := ai_state a; ai_events := ai_events a;
        ai_pathfindingCount := ai_pathfindingCount a + 1 |})
  else (None, a).

(** After a step: [if (isAdjacentToPlayer(enemy, px, py)) attack]. *)
Definition aiMoveThenAttack (i : nat) (enemy : Enemy) (step : Coordinate)
    (px py : Z) (a : AI) : AI * bool :=
  let enemy' := set_e_pos (c_x step) (c_y step) enemy in
  let a' := aiSetEnemy i enemy' a in
  if isAdjacentToPlayer enemy' px py then aiAttack enemy' a'
  else (a', false).

Definition fleeTurn (i : nat) (enemy : Enemy) (px py : Z) (a : AI) : AI :=
  let fleeX := e_x enemy + (if e_x enemy >? px then 1 else -1) in
  let fleeY := e_y enemy + (if e_y enemy >? py then 1 else -1) in
  if canMoveToTile (ai_state a) i fleeX (e_y enemy) then
    aiSetEnemy i (set_e_pos fleeX (e_y enemy) enemy) a
  else if canMoveToTile (ai_state a) i (e_x enemy) fleeY then
    aiSetEnemy i (set_e_pos (e_x enemy) fleeY enemy) a
  else a.

Definition aggressiveTurn (i : nat) (enemy : Enemy) (canSeePlayer : bool)
    (px py : Z) (a : AI) : AI * bool :=
  match canSeePlayer, e_lastSeenPlayer enemy with
  | false, None => (a, false)
  | _, _ =>
      let targetX :=
        if canSeePlayer then px
        else match e_lastSeenPlayer enemy with
             | Some c => c_x c
             | None => px
             end in
      let targetY :=
        if canSeePlayer then py
        else match e_lastSeenPlayer enemy with
             | Some c => c_y c
             | None => py
             end in
      if isAdjacentToPlayer enemy px py then aiAttack enemy a
      else
        let '(step, a1) := aiFindPath enemy targetX targetY a in
        match step with
        | Some st =>
            if (c_x st =? px) && (c_y st =? py) then aiAttack enemy a1
            else if canMoveToTile (ai_state a1) i (c_x st) (c_y st) then
              aiMoveThenAttack i enemy st px py a1
            else (a1, false)
        | None =>
            match canSeePlayer, e_lastSeenPlayer enemy with
            | false, Some c =>
                if (e_x enemy =? c_x c) && (e_y enemy =? c_y c) then
                  (aiSetEnemy i (set_e_lastSeenPlayer None enemy) a1, false)
                else (a1, false)
            | _, _ => (a1, false)
            end
        end
  end.

Definition patrolTurn (i : nat) (enemy : Enemy) (canSeePlayer : bool)
    (px py : Z) (a : AI) : AI * bool :=
  if canSeePlayer then
    if isAdjacentToPlayer enemy px py then aiAttack enemy a
    else
      let '(step, a1) := aiFindPath enemy px py a in
      match step with
      | Some st =>
          if canMoveToTile (ai_state a1) i (c_x st) (c_y st) then
            aiMoveThenAttack i enemy st px py a1
          else (a1, false)
      | None => (a1, false)
      end
  else (a, false).

Definition stationaryTurn (enemy : Enemy) (px py : Z) (a : AI) : AI * bool :=
  if isAdjacentToPlayer enemy px py then aiAttack enemy a else (a, false).

(** One iteration of [for (const { enemy, dist } of activeEnemies)], the
    enemy being [state.enemies[i]]. *)
Definition enemyTurn (px py : Z) (i : nat) (dist : Z) (a : AI) : AI * bool :=
  match nth_error (g_enemies (ai_state a)) i with
  | None => (a, false)
  | Some enemy0 =>
      if dist >? VISION_RADIUS + 2 then (a, false)
      else
        let canSeePlayer :=
          hasLineOfSight (ai_state a) (e_x enemy0) (e_y enemy0) px py in
        let enemy :=
          if canSeePlayer
          then set_e_lastSeenPlayer (Some {| c_x := px; c_y := py |}) enemy0
          else enemy0 in
        let a0 := if canSeePlayer then aiSetEnemy i enemy a else a in
        match e_behavior enemy with
        | flee =>
            if hpPercentBelow30 (e_hp enemy) (e_maxHp enemy) && canSeePlayer
            then (fleeTurn i enemy px py a0, false)
            else aggressiveTurn i enemy canSeePlayer px py a0
        | aggressive => aggressiveTurn i enemy canSeePlayer px py a0
        | patrol => patrolTurn i enemy canSeePlayer px py a0
        | stationary => stationaryTurn enemy px py a0
        end
  end.

Fixpoint moveEnemiesLoop (px py : Z) (activeEnemies : list (nat * Z))
    (a : AI) : AI :=
  match activeEnemies with
  | [] => a
  | (i, dist) :: rest =>
      let '(a', stop) := enemyTurn px py i dist a in
      if stop then a' else moveEnemiesLoop px py rest a'
  end.

(** [Array.prototype.sort] with a comparator [key a - key b]: a stable
    sort by [key]. *)
Fixpoint insertByKey {A} (key : A -> Z) (a : A) (l : list A) : list A :=
  match l with
  | [] => [a]
  | b :: r => if key a <? key b then a :: b :: r
              else b :: insertByKey key a r
  end.

Definition sortByKey {A} (key : A -> Z) (l : list A) : list A :=
  fold_left (fun sorted a => insertByKey key a sorted) l [].

(** [state.enemies.filter(hp > 0).map({enemy, dist})], enemies by index. *)
Fixpoint activeFrom (i : nat) (px py : Z) (es : list Enemy)
    : list (nat * Z) :=
  match es with
  | [] => []
  | e :: r =>
      if e_hp e >? 0
      then (i, Z.abs (e_x e - px) + Z.abs (e_y e - py))
           :: activeFrom (S i) px py r
      else activeFrom (S i) px py r
  end.

Definition moveEnemies (state : GameState) : list GameEvent * GameState :=
  let px := p_x (g_player state) in
  let py := p_y (g_player state) in
  let activeEnemies := sortByKey snd (activeFrom 0 px py (g_enemies state)) in
  let a := moveEnemiesLoop px py activeEnemies
             {| ai_state := state; ai_events := [];
                ai_pathfindingCount := 0 |} in
  (ai_events a, ai_state a).

(* ------------------------------------------------------------------ *)
(** ** apps/api/src/services/mapGenerator.ts *)

(** The environment of a turn.  [rnd k] is the [k]-th result of
    [Math.random()], as the numerator of a fraction over [2^53] (reduced
    modulo [2^53], so that every stream is a stream of numbers in [0,1));
    [uuid k] is the [k]-th result of [randomUUID()]; [now] is the value of
    [new Date()]. *)
Record Env := {
  rnd : nat -> Z;
  uuid : nat -> string;
  now : Z
}.

Definition RANDOM_DENOMINATOR : Z := 2 ^ 53.

(** A computation that draws random numbers and identifiers and may throw
    ([None]).  The state counts the draws made so far. *)
Definition Gen (A : Type) : Type := nat * nat -> option (A * (nat * nat)).

Definition ret {A} (a : A) : Gen A := fun st => Some (a, st).

Definition bind {A B} (c : Gen A) (f : A -> Gen B) : Gen B :=
  fun st =>
    match c st with
    | Some (a, st') => f a st'
    | None => None
    end.

Definition throw {A} : Gen A := fun _ => None.

Notation "x <- c ;; k" := (bind c (fun x => k))
  (at level 61, c at next level, right associativity).

Definition liftOption {A} (o : option A) : Gen A :=
  match o with
  | Some a => ret a
  | None => throw
  end.

Record Room := { r_x : Z; r_y : Z; r_width : Z; r_height : Z }.

Record GeneratedFloor := {
  gf_map : list (list Tile);
  gf_playerStart : Coordinate;
  gf_enemies : list Enemy;
  gf_items : list Item
}.

Definition roomsOverlap (a b : Room) : bool :=
  (r_x a <? r_x b + r_width b + 1)
  && (r_x a + r_width a + 1 >? r_x b)
  && (r_y a <? r_y b + r_height b + 1)
  && (r_y a + r_height a + 1 >? r_y b).

(** [Math.floor(room.x + room.width / 2)] and the same for [y]. *)
Definition centerX (r : Room) : Z := r_x r + r_width r / 2.
Definition centerY (r : Room) : Z := r_y r + r_height r / 2.

(** Four times the sort key [aCenterX + aCenterY * 0.5] of [rooms.sort]. *)
Definition roomKey (r : Room) : Z :=
  4 * r_x r + 2 * r_width r + 2 * r_y r + r_height r.

Definition setTile (m : list (list Tile)) (x y : Z) (t : TileType)
    : list (list Tile) :=
  set2 m x y {| t_type := t; t_x := x; t_y := y |}.

Definition wallMap : list (list Tile) :=
  map (fun y =>
         map (fun x => {| t_type := tile_wall; t_x := x; t_y := y |})
             (zrange 0 (Z.to_nat MAP_WIDTH)))
      (zrange 0 (Z.to_nat MAP_HEIGHT)).

Definition carveRoom (m : list (list Tile)) (room : Room) : list (list Tile) :=
  fold_left
    (fun m y =>
       fold_left (fun m x => setTile m x y tile_floor)
                 (zrange (r_x room) (Z.to_nat (r_width room))) m)
    (zrange (r_y room) (Z.to_nat (r_height room))) m.

Definition carveCorridor (m : list (list Tile)) (x1 y1 x2 y2 : Z)
    : list (list Tile) :=
  let m1 :=
    fold_left (fun m x => setTile m x y1 tile_floor)
              (zinterval (Z.min x1 x2) (Z.max x1 x2)) m in
  fold_left (fun m y => setTile m x2 y tile_floor)
            (zinterval (Z.min y1 y2) (Z.max y1 y2)) m1.

(** [for (let i = 1; i < rooms.length; i++) carveCorridor(prev, curr)] *)
Fixpoint connectRooms (m : list (list Tile)) (rooms : list Room)
    : list (list Tile) :=
  match rooms with
  | prev :: ((curr :: _) as rest) =>
      connectRooms
        (carveCorridor m (centerX prev) (centerY prev)
                       (centerX curr) (centerY curr))
        rest
  | _ => m
  end.

(** [enemyTypes.slice(0, n)] *)
Definition sliceTo {A} (l : list A) (n : Z) : list A :=
  if n <? 0 then firstn (Z.to_nat (Z.max (lenZ l + n) 0)) l
  else firstn (Z.to_nat n) l.

(** [s.includes(sub)] *)
Fixpoint includes (s sub : string) : bool :=
  String.prefix sub s
  || match s with
     | EmptyString => false
     | String _ rest => includes rest sub
     end.

Definition capitalizeEnemyType (t : EnemyType) : string :=
  match t with
  | rat => "Rat"
  | skeleton => "Skeleton"
  | orc => "Orc"
  | dragon => "Dragon"
  end.

Section Generator.

Variable env : Env.

(** [Math.random()], as a numerator over [RANDOM_DENOMINATOR]. *)
Definition random : Gen Z :=
  fun st => Some (rnd env (fst st) mod RANDOM_DENOMINATOR,
                  (S (fst st), snd st)).

Definition randomUUID : Gen string :=
  fun st => Some (uuid env (snd st), (fst st, S (snd st))).

(** [Math.floor(Math.random() * (max - min + 1)) + min] *)
Definition randomInt (min max : Z) : Gen Z :=
  r <- random ;;
  ret ((r * (max - min + 1)) / RANDOM_DENOMINATOR + min).

(** [getEnemyVariant]: the chances are compared in hundredths. *)
Definition getEnemyVariant (floor : Z) : Gen EnemyVariant :=
  roll <- random ;;
  let eliteChance := Z.min (10 + floor * 5) 40 in
  let championChance := Z.min (Z.max 0 ((floor - 1) * 4)) 20 in
  if 100 * roll <? championChance * RANDOM_DENOMINATOR then ret champion
  else if 100 * roll <? (championChance + eliteChance) * RANDOM_DENOMINATOR
  then ret elite
  else ret normal.

Definition getEnemyBehavior (t : EnemyType) : Gen AIBehavior :=
  match t with
  | rat => ret flee
  | dragon => ret aggressive
  | _ =>
      r <- random ;;
      ret (if 10 * r <? 7 * RANDOM_DENOMINATOR then aggressive else patrol)
  end.

Definition createEnemy (id : string) (t : EnemyType) (x y floor : Z)
    : Gen Enemy :=
  variant <- getEnemyVariant floor ;;
  let mult := VARIANT_MULTIPLIERS variant in
  let base := ENEMY_STATS t in
  behavior <- getEnemyBehavior t ;;
  ret {| e_id := id; e_type := t; e_variant := variant;
         e_displayName := String.append (namePrefix mult)
                                        (capitalizeEnemyType t);
         e_x := x; e_y := y;
         e_hp := floorMul10 (bs_hp base) (hpMult10 mult);
         e_maxHp := floorMul10 (bs_hp base) (hpMult10 mult);
         e_attack := floorMul10 (bs_attack base) (attackMult10 mult);
         e_defense := floorMul10 (bs_defense base) (defenseMult10 mult);
         e_behavior := behavior; e_lastSeenPlayer := None |}.

(** The room placement loop; [attempts] counts what is left of
    [i < 100]. *)
Fixpoint placeRooms (attempts : nat) (numRooms : Z) (rooms : list Room)
    : Gen (list Room) :=
  match attempts with
  | O => ret rooms
  | S k =>
      if lenZ rooms <? numRooms then
        x <- randomInt 1 (MAP_WIDTH - 10) ;;
        y <- randomInt 1 (MAP_HEIGHT - 8) ;;
        width <- randomInt 4 8 ;;
        height <- randomInt 4 6 ;;
        let room := {| r_x := x; r_y := y; r_width := width;
                       r_height := height |} in
        if r_x room + r_width room >=? MAP_WIDTH - 1 then
          placeRooms k numRooms rooms
        else if r_y room + r_height room >=? MAP_HEIGHT - 1 then
          placeRooms k numRooms rooms
        else if existsb (fun r => roomsOverlap room r) rooms then
          placeRooms k numRooms rooms
        else placeRooms k numRooms (rooms ++ [room])
      else ret rooms
  end.

(** [rooms[randomInt(lo, rooms.length - 1)]] and a cell inside it. *)
Definition randomCell (rooms : list Room) (lo : Z) : Gen (Z * Z) :=
  roomIndex <- randomInt lo (lenZ rooms - 1) ;;
  room <- liftOption (nthZ rooms roomIndex) ;;
  x <- randomInt (r_x room) (r_x room + r_width room - 1) ;;
  y <- randomInt (r_y room) (r_y room + r_height room - 1) ;;
  ret (x, y).

Fixpoint spawnEnemies (n : nat) (rooms : list Room)
    (availableTypes : list EnemyType) (floor : Z) (enemies : list Enemy)
    : Gen (list Enemy) :=
  match n with
  | O => ret enemies
  | S k =>
      xy <- randomCell rooms 1 ;;
      typeIndex <- randomInt 0 (lenZ availableTypes - 1) ;;
      t <- liftOption (nthZ availableTypes typeIndex) ;;
      id <- randomUUID ;;
      enemy <- createEnemy id t (fst xy) (snd xy) floor ;;
      spawnEnemies k rooms availableTypes floor (enemies ++ [enemy])
  end.

Fixpoint spawnPotions (n : nat) (rooms : list Room) (items : list Item)
    : Gen (list Item) :=
  match n with
  | O => ret items
  | S k =>
      xy <- randomCell rooms 0 ;;
      id <- randomUUID ;;
      spawnPotions k rooms
        (items ++ [{| i_id := id; i_type := health_potion;
                      i_name := "Health Potion"; i_x := fst xy;
                      i_y := snd xy; i_value := 10;
                      i_equipment := None |}])
  end.

Fixpoint spawnEquipment (n : nat) (rooms : list Room)
    (availableEquipment : list Equipment) (items : list Item)
    : Gen (list Item) :=
  match n with
  | O => ret items
  | S k =>
      xy <- randomCell rooms 0 ;;
      eqIndex <- randomInt 0 (lenZ availableEquipment - 1) ;;
      eq <- liftOption (nthZ availableEquipment eqIndex) ;;
      id <- randomUUID ;;
      spawnEquipment k rooms availableEquipment
        (items ++ [{| i_id := id; i_type := equipment;
                      i_name := eq_name eq; i_x := fst xy; i_y := snd xy;
                      i_value := 0; i_equipment := Some eq |}])
  end.

Definition availableEquipmentFor (floor : Z) (character : CharacterType)
    : list Equipment :=
  filter
    (fun e =>
       match eq_slot e with
       | ranged =>
           match character with
           | wizard => includes (eq_id e) "staff"
           | bandit => includes (eq_id e) "crossbow"
           | elf | dwarf => includes (eq_id e) "dagger"
           end
       | _ => true
       end)
    (getEquipmentForFloor floor).

(** The rooms in the order in which the placement loop accepts them. *)
Definition generateRooms : Gen (list Room) :=
  numRooms <- randomInt 5 8 ;;
  placeRooms 100 numRooms [].

(** On the map [m1] with the rooms carved, for the sorted [rooms]: the
    corridors between neighbours in sort order, the corridor from the first
    to the last room, the stairs. *)
Definition carveFloor (m1 : list (list Tile)) (rooms : list Room)
    : option (list (list Tile)) :=
  let m2 := connectRooms m1 rooms in
  let m3 :=
    if lenZ rooms >=? 2 then
      match hd_error rooms, nthZ rooms (lenZ rooms - 1) with
      | Some first, Some last =>
          carveCorridor m2 (centerX first) (centerY first)
                        (centerX last) (centerY last)
      | _, _ => m2
      end
    else m2 in
  match nthZ rooms (lenZ rooms - 1) with
  | Some lastRoom =>
      Some (setTile m3 (centerX lastRoom) (centerY lastRoom) tile_stairs)
  | None => None
  end.

(** Everything [generateMap] does once the rooms are placed: carve them,
    sort them ([rooms.sort]), connect them, place stairs, player, enemies
    and items. *)
Definition layoutFloor (placed : list Room) (floor : Z)
    (character : CharacterType) : Gen GeneratedFloor :=
  let m1 := fold_left carveRoom placed wallMap in
  let rooms := sortByKey roomKey placed in
  m <- liftOption (carveFloor m1 rooms) ;;
  firstRoom <- liftOption (hd_error rooms) ;;
  let playerStart := {| c_x := centerX firstRoom;
                        c_y := centerY firstRoom |} in
  n <- randomInt 3 5 ;;
  let numEnemies := n + floor / 2 in
  let availableTypes :=
    sliceTo [rat; skeleton; orc; dragon] (Z.min (1 + floor / 3) 4) in
  enemies <- (if lenZ rooms >? 1
              then spawnEnemies (Z.to_nat numEnemies) rooms availableTypes
                                floor []
              else ret []) ;;
  numPotions <- randomInt 1 3 ;;
  potions <- spawnPotions (Z.to_nat numPotions) rooms [] ;;
  let availableEquipment := availableEquipmentFor floor character in
  numEquipment <- randomInt 1 2 ;;
  items <- (if lenZ availableEquipment >? 0
            then spawnEquipment (Z.to_nat numEquipment) rooms
                                availableEquipment potions
            else ret potions) ;;
  ret {| gf_map := m; gf_playerStart := playerStart;
         gf_enemies := enemies; gf_items := items |}.

Definition generateMapGen (floor : Z) (character : CharacterType)
    : Gen GeneratedFloor :=
  placed <- generateRooms ;;
  layoutFloor placed floor character.

Definition generateMap (floor : Z) (character : CharacterType)
    : option GeneratedFloor :=
  match generateMapGen floor character (O, O) with
  | Some (g, _) => Some g
  | None => None
  end.

End Generator.

Definition initializeFog : list (list bool) :=
  map (fun _ => map (fun _ => false) (zrange 0 (Z.to_nat MAP_WIDTH)))
      (zrange 0 (Z.to_nat MAP_HEIGHT)).

(* ------------------------------------------------------------------ *)
(** ** The turn engine *)

(** [descendStairs]; [None] when [generateMap] throws. *)
Definition descendStairs (env : Env) (state : GameState)
    : option (list GameEvent * GameState) :=
  if negb (GameStatus_eqb (g_status state) active) then Some ([], state)
  else if negb (tileIs (g_map state) (p_x (g_player state))
                       (p_y (g_player state)) tile_stairs)
  then Some ([], state)
  else
    let state1 := set_g_floor (g_floor state + 1) state in
    match generateMap env (g_floor state1) (p_character (g_player state1)) with
    | None => None
    | Some g =>
        let state2 := set_g_map (gf_map g) state1 in
        let state3 :=
          set_g_player (set_p_pos (c_x (gf_playerStart g))
                                  (c_y (gf_playerStart g))
                                  (g_player state2)) state2 in
        let state4 := set_g_enemies (gf_enemies g) state3 in
        let state5 := set_g_items (gf_items g) state4 in
        let state6 := set_g_fog initializeFog state5 in
        let state7 := updateFog state6 in
        let state8 := set_g_score (g_score state7 + 100) state7 in
        let state9 := set_g_updatedAt (now env) state8 in
        let events := [event floor_descended] in
        if g_floor state9 >=? 20 then
          Some (events ++ [event game_won],
                set_g_score (g_score state9 + 1000) (set_g_status won state9))
        else Some (events, state9)
    end.

Definition directionDx (d : Direction) : Z :=
  match d with
  | dir_left => -1
  | dir_right => 1
  | _ => 0
  end.

Definition directionDy (d : Direction) : Z :=
  match d with
  | dir_up => -1
  | dir_down => 1
  | _ => 0
  end.

(** [if (direction === 'left') ... else if (direction === 'right') ...] *)
Definition turnTo (d : Direction) (p : Player) : Player :=
  match d with
  | dir_left => set_p_facingDirection face_left p
  | dir_right => set_p_facingDirection face_right p
  | _ => p
  end.

(** The tail of [processMove] and [processAttack]: enemy AI when the game
    is still active, then the timestamp. *)
Definition enemyPhase (env : Env) (state : GameState)
    (events : list GameEvent) : list GameEvent * GameState :=
  let '(enemyEvents, state') :=
    if GameStatus_eqb (g_status state) active then moveEnemies state
    else ([], state) in
  (events ++ enemyEvents, set_g_updatedAt (now env) state').

(** The item found at [itemIndex] on the tile the player moved to. *)
Definition pickUp (state : GameState) (itemIndex : nat) (item : Item)
    : list GameEvent * GameState :=
  match i_type item with
  | health_potion =>
      if p_hp (g_player state) >=? p_maxHp (g_player state) then
        ([event potion_refused], state)
      else
        let state1 := set_g_items (splice1 itemIndex (g_items state)) state in
        let healAmount :=
          Z.min (i_value item)
                (p_maxHp (g_player state1) - p_hp (g_player state1)) in
        let state2 :=
          set_g_player (set_p_hp (p_hp (g_player state1) + healAmount)
                                 (g_player state1)) state1 in
        ([eventWith player_healed (PlayerHealedEventData (i_id item) healAmount)],
         state2)
  | equipment =>
      match isEquipmentItem item with
      | Some eq => handleEquipmentPickup state item eq itemIndex
      | None =>
          let state1 :=
            set_g_items (splice1 itemIndex (g_items state)) state in
          let state2 :=
            set_g_player
              (set_p_inventory (p_inventory (g_player state1) ++ [item])
                               (g_player state1)) state1 in
          ([eventWith item_picked_up
              (ItemPickedUpEventData (i_id item) (i_name item))], state2)
      end
  end.

(** [processMove]; [None] when the descent at its end throws. *)
Definition processMove (env : Env) (state : GameState)
    (direction : Direction) : option (list GameEvent * GameState) :=
  if negb (GameStatus_eqb (g_status state) active) then Some ([], state)
  else
    let dx := directionDx direction in
    let dy := directionDy direction in
    let newX := p_x (g_player state) + dx in
    let newY := p_y (g_player state) + dy in
    if (newY <? 0) || (newY >=? mapHeight (g_map state))
       || (newX <? 0) || (newX >=? mapWidth (g_map state))
    then Some ([], state)
    else if tileIs (g_map state) newX newY tile_wall then Some ([], state)
    else
      match findIndex (liveEnemyAt newX newY) (g_enemies state) with
      | Some i =>
          match nth_error (g_enemies state) i with
          | Some enemyAtTarget =>
              let state1 :=
                set_g_player (turnTo direction (g_player state)) state in
              let '(attackEvents, state2) :=
                attackEnemy state1 i enemyAtTarget in
              Some (enemyPhase env (updateFog state2) attackEvents)
          | None => Some ([], state)
          end
      | None =>
          let state1 :=
            set_g_player
              (turnTo direction (set_p_pos newX newY (g_player state)))
              state in
          let events := [event player_moved] in
          let '(events2, state2) :=
            match findIndex (fun i => (i_x i =? newX) && (i_y i =? newY))
                            (g_items state1) with
            | Some itemIndex =>
                match nth_error (g_items state1) itemIndex with
                | Some item =>
                    let '(itemEvents, st) := pickUp state1 itemIndex item in
                    (events ++ itemEvents, st)
                | None => (events, state1)
                end
            | None => (events, state1)
            end in
          if tileIs (g_map state2) newX newY tile_stairs then
            match descendStairs env state2 with
            | Some (descendEvents, state3) =>
                Some (events2 ++ descendEvents, state3)
            | None => None
            end
          else Some (enemyPhase env (updateFog state2) events2)
      end.

Definition getAttackType (character : CharacterType) : AttackType :=
  match character with
  | bandit => bolt
  | wizard => spell
  | elf => magic_dagger
  | dwarf => dagger
  end.

(** What the scan of [processAttack] ends with: the enemy hit (by index),
    if any, and the cell [hitX], [hitY]. *)
Record RangedHit := {
  hitEnemy : option (nat * Enemy);
  hitX : Z;
  hitY : Z
}.

(** [for (let i = 1; i <= rangedRange; i++)]; [steps] counts the
    iterations that are left, [i] is the loop variable. *)
Fixpoint rangedScan (steps : nat) (state : GameState) (dx playerX playerY : Z)
    (i : Z) (hx hy : Z) : RangedHit :=
  match steps with
  | O => {| hitEnemy := None; hitX := hx; hitY := hy |}
  | S k =>
      let checkX := playerX + dx * i in
      let checkY := playerY in
      if (checkX <? 0) || (checkX >=? mapWidth (g_map state)) then
        {| hitEnemy := None; hitX := playerX + dx * (i - 1); hitY := hy |}
      else if tileIs (g_map state) checkX checkY tile_wall then
        {| hitEnemy := None; hitX := checkX; hitY := checkY |}
      else
        match findIndex (liveEnemyAt checkX checkY) (g_enemies state) with
        | Some j =>
            match nth_error (g_enemies state) j with
            | Some enemy =>
                {| hitEnemy := Some (j, enemy); hitX := checkX;
                   hitY := checkY |}
            | None =>
                rangedScan k state dx playerX playerY (i + 1) checkX checkY
            end
        | None => rangedScan k state dx playerX playerY (i + 1) checkX checkY
        end
  end.

Definition rangedDamageOf (p : Player) : Z :=
  cs_rangedDamage (CHARACTER_STATS (p_character p))
  + match pe_ranged (p_equipment p) with
    | Some e => rangedDamageBonus e
    | None => 0
    end.

Definition rangedRangeOf (p : Player) : Z :=
  cs_rangedRange (CHARACTER_STATS (p_character p))
  + match pe_ranged (p_equipment p) with
    | Some e => rangedRangeBonus e
    | None => 0
    end.

Definition facingDx (p : Player) : Z :=
  match p_facingDirection p with
  | face_right => 1
  | face_left => -1
  end.

(** [processAttack] up to and without the enemy phase. *)
Definition rangedAttack (state : GameState) : list GameEvent * GameState :=
  let rangedDamage := rangedDamageOf (g_player state) in
  let rangedRange := rangedRangeOf (g_player state) in
  let attackType := getAttackType (p_character (g_player state)) in
  let dx := facingDx (g_player state) in
  let playerX := p_x (g_player state) in
  let playerY := p_y (g_player state) in
  let hit := rangedScan (Z.to_nat rangedRange) state dx playerX playerY 1
                        playerX playerY in
  match hitEnemy hit with
  | Some (j, enemy) =>
      let damage := Z.max 1 (rangedDamage - e_defense enemy) in
      let enemy' := set_e_hp (e_hp enemy - damage) enemy in
      let state1 := updEnemy j enemy' state in
      let events :=
        [eventWith ranged_attack
           (RangedAttackEventData (hitX hit) (hitY hit) damage
                                  (Some (e_id enemy')) attackType)] in
      if e_hp enemy' <=? 0 then
        let state2 :=
          set_g_score (g_score state1 + getEnemyScore (e_type enemy'))
                      state1 in
        let events2 :=
          events ++ [eventWith enemy_killed
                       (EnemyKilledEventData (e_id enemy') (e_type enemy'))] in
        let '(xpEvents, state3) := grantXp state2 enemy' in
        (events2 ++ xpEvents, state3)
      else (events, state1)
  | None =>
      ([eventWith ranged_missed
          (RangedAttackEventData (hitX hit) (hitY hit) 0 None attackType)],
       state)
  end.

Definition processAttack (env : Env) (state : GameState)
    : list GameEvent * GameState :=
  if negb (GameStatus_eqb (g_status state) active) then ([], state)
  else
    let '(events, state1) := rangedAttack state in
    enemyPhase env state1 events.

(* ------------------------------------------------------------------ *)
(** ** Delta generation *)

Definition Equipment_eq_dec (a b : Equipment) : {a = b} + {a <> b}.
Proof.
  decide equality; try apply Z.eq_dec; try apply string_dec.
  decide equality.
Defined.

(** [a !== b] on equipment slots ([Equipment | null]). *)
Definition slotChanged (a b : option Equipment) : bool :=
  match a, b with
  | None, None => false
  | Some x, Some y => if Equipment_eq_dec x y then false else true
  | _, _ => true
  end.

Definition FacingDirection_eqb (a b : FacingDirection) : bool :=
  match a, b with
  | face_left, face_left | face_right, face_right => true
  | _, _ => false
  end.

(** [new Set(ids)], [set.has(id)] and the iteration order of a [Set]. *)
Definition idsHas (ids : list string) (id : string) : bool :=
  existsb (String.eqb id) ids.

Fixpoint idSet (ids seen : list string) : list string :=
  match ids with
  | [] => []
  | id :: r => if idsHas seen id then idSet r seen
               else id :: idSet r (id :: seen)
  end.

(** [new Map(entries).get(id)]: the last entry under the key. *)
Definition mapGet {A} (entries : list (string * A)) (id : string) : option A :=
  match find (fun kv => String.eqb (fst kv) id) (rev entries) with
  | Some kv => Some (snd kv)
  | None => None
  end.

(** [...(cond && { field: value })] *)
Definition changedField (prev cur : Z) : option Z :=
  if prev =? cur then None else Some cur.

Definition playerStatsDelta (prev cur : Player) : list GameDelta :=
  let statsChanged :=
    negb (p_hp cur =? p_hp prev) || negb (p_maxHp cur =? p_maxHp prev)
    || negb (p_attack cur =? p_attack prev)
    || negb (p_defense cur =? p_defense prev)
    || negb (p_xp cur =? p_xp prev) || negb (p_level cur =? p_level prev)
    || negb (p_xpToNextLevel cur =? p_xpToNextLevel prev) in
  if statsChanged then
    [delta_player_stats
       (changedField (p_hp prev) (p_hp cur))
       (changedField (p_maxHp prev) (p_maxHp cur))
       (changedField (p_attack prev) (p_attack cur))
       (changedField (p_defense prev) (p_defense cur))
       (changedField (p_xp prev) (p_xp cur))
       (changedField (p_level prev) (p_level cur))
       (changedField (p_xpToNextLevel prev) (p_xpToNextLevel cur))]
  else [].

Definition scoreDelta (prevScore : Z) (state : GameState) : list GameDelta :=
  if g_score state =? prevScore then [] else [delta_score (g_score state)].

Definition statusDelta (state : GameState) : list GameDelta :=
  if GameStatus_eqb (g_status state) active then []
  else [delta_game_status (g_status state)].

Definition enemySnapshot (es : list Enemy) : list (string * (Z * Z * Z)) :=
  map (fun e => (e_id e, (e_x e, e_y e, e_hp e))) es.

(** The cells [(x, y)] of the fog grid, row by row. *)
Definition fogCells (fog : list (list bool)) : list (Z * Z) :=
  flat_map (fun y => map (fun x => (x, y))
                         (zrange 0 (Z.to_nat (mapWidth fog))))
           (zrange 0 (Z.to_nat (mapHeight fog))).

Definition fogDeltas (prevFog : list (list bool)) (state : GameState)
    : list GameDelta :=
  let newlyRevealedCells :=
    filter (fun c => fogAt (g_fog state) (fst c) (snd c)
                     && negb (fogAt prevFog (fst c) (snd c)))
           (fogCells (g_fog state)) in
  let newlyRevealedTiles :=
    flat_map (fun c => match at2 (g_map state) (fst c) (snd c) with
                       | Some t => [t]
                       | None => []
                       end) newlyRevealedCells in
  if lenZ newlyRevealedCells >? 0 then
    [delta_fog_reveal newlyRevealedCells;
     delta_tiles_reveal newlyRevealedTiles]
  else [].

Definition enemyVisibleDeltas (prevIds : list string)
    (currentVisibleEnemies : list Enemy) : list GameDelta :=
  flat_map (fun enemy => if idsHas prevIds (e_id enemy) then []
                         else [delta_enemy_visible enemy])
           currentVisibleEnemies.

Definition enemyGoneDeltas (prevIds currentIds : list string)
    (state : GameState) : list GameDelta :=
  flat_map
    (fun prevId =>
       if idsHas currentIds prevId then []
       else match find (fun e => String.eqb (e_id e) prevId)
                       (g_enemies state) with
            | Some enemy =>
                if e_hp enemy <=? 0 then [delta_enemy_killed prevId]
                else [delta_enemy_hidden prevId]
            | None => [delta_enemy_hidden prevId]
            end)
    prevIds.

Definition enemyChangeDeltas (prevIds : list string)
    (prevEnemyPositions : list (string * (Z * Z * Z)))
    (currentVisibleEnemies : list Enemy) : list GameDelta :=
  flat_map
    (fun enemy =>
       if idsHas prevIds (e_id enemy) then
         match mapGet prevEnemyPositions (e_id enemy) with
         | Some (prevX, prevY, prevHp) =>
             (if negb (e_x enemy =? prevX) || negb (e_y enemy =? prevY)
              then [delta_enemy_moved (e_id enemy) (e_x enemy) (e_y enemy)]
              else [])
             ++ (if negb (e_hp enemy =? prevHp)
                 then [delta_enemy_damaged (e_id enemy) (e_hp enemy)]
                 else [])
         | None => []
         end
       else [])
    currentVisibleEnemies.

Definition itemVisibleDeltas (prevItemIds : list string)
    (currentVisibleItems : list Item) : list GameDelta :=
  flat_map (fun item => if idsHas prevItemIds (i_id item) then []
                        else [delta_item_visible item])
           currentVisibleItems.

(** [isItemPickupEvent(event) || isEquipmentEquippedEvent(event)] *)
Definition removedItemId (ev : GameEvent) : option string :=
  match ev_type ev, ev_data ev with
  | player_healed, Some (PlayerHealedEventData itemId _) => Some itemId
  | item_picked_up, Some (ItemPickedUpEventData itemId _) => Some itemId
  | equipment_equipped, Some (EquipmentEquippedEventData itemId _ _) =>
      Some itemId
  | _, _ => None
  end.

Definition itemRemovedDeltas (events : list GameEvent) : list GameDelta :=
  flat_map (fun ev => match removedItemId ev with
                      | Some itemId => [delta_item_removed itemId]
                      | None => []
                      end) events.

Definition isFloorDescended (ev : GameEvent) : bool :=
  match ev_type ev with
  | floor_descended => true
  | _ => false
  end.

Record MoveResult := {
  mr_events : list GameEvent;
  mr_deltas : list GameDelta;
  mr_state : GameState
}.

Definition processMoveWithDeltas (env : Env) (state : GameState)
    (direction : Direction) : option MoveResult :=
  let prev := g_player state in
  let prevScore := g_score state in
  let prevFog := g_fog state in
  let prevVisibleEnemyIds := idSet (map e_id (getVisibleEnemies state)) [] in
  let prevVisibleItemIds := idSet (map i_id (getVisibleItems state)) [] in
  let prevEnemyPositions := enemySnapshot (g_enemies state) in
  match processMove env state direction with
  | None => None
  | Some (events, state') =>
      let cur := g_player state' in
      let posDelta :=
        if negb (p_x cur =? p_x prev) || negb (p_y cur =? p_y prev)
           || negb (FacingDirection_eqb (p_facingDirection cur)
                                        (p_facingDirection prev))
        then [delta_player_pos (p_x cur) (p_y cur) (p_facingDirection cur)]
        else [] in
      let equipmentDelta :=
        if slotChanged (pe_weapon (p_equipment cur))
                       (pe_weapon (p_equipment prev))
           || slotChanged (pe_shield (p_equipment cur))
                          (pe_shield (p_equipment prev))
           || slotChanged (pe_armor (p_equipment cur))
                          (pe_armor (p_equipment prev))
           || slotChanged (pe_ranged (p_equipment cur))
                          (pe_ranged (p_equipment prev))
        then [delta_player_equipment (p_equipment cur)]
        else [] in
      let currentVisibleEnemies := getVisibleEnemies state' in
      let currentVisibleEnemyIds :=
        idSet (map e_id currentVisibleEnemies) [] in
      let deltas :=
        posDelta
        ++ playerStatsDelta prev cur
        ++ equipmentDelta
        ++ scoreDelta prevScore state'
        ++ fogDeltas prevFog state'
        ++ enemyVisibleDeltas prevVisibleEnemyIds currentVisibleEnemies
        ++ enemyGoneDeltas prevVisibleEnemyIds currentVisibleEnemyIds state'
        ++ enemyChangeDeltas prevVisibleEnemyIds prevEnemyPositions
                             currentVisibleEnemies
        ++ itemVisibleDeltas prevVisibleItemIds (getVisibleItems state')
        ++ itemRemovedDeltas events
        ++ statusDelta state'
        ++ map delta_event events
        ++ (if existsb isFloorDescended events
            then [delta_new_floor (getVisibleState state')]
            else []) in
      Some {| mr_events := events; mr_deltas := deltas; mr_state := state' |}
  end.

(** The enemy loop of [processAttackWithDeltas]: every enemy of
    [state.enemies] that has a snapshot entry. *)
Definition attackEnemyDeltas
    (prevEnemyPositions : list (string * (Z * Z * Z))) (enemy : Enemy)
    : list GameDelta :=
  match mapGet prevEnemyPositions (e_id enemy) with
  | None => []
  | Some (prevX, prevY, prevHp) =>
      (if negb (e_hp enemy =? prevHp) && (e_hp enemy >? 0)
       then [delta_enemy_damaged (e_id enemy) (e_hp enemy)] else [])
      ++ (if (e_hp enemy <=? 0) && (prevHp >? 0)
          then [delta_enemy_killed (e_id enemy)] else [])
      ++ (if negb (e_x enemy =? prevX) || negb (e_y enemy =? prevY)
          then [delta_enemy_moved (e_id enemy) (e_x enemy) (e_y enemy)]
          else [])
  end.

Definition processAttackWithDeltas (env : Env) (state : GameState)
    : MoveResult :=
  let prev := g_player state in
  let prevScore := g_score state in
  let prevEnemyPositions := enemySnapshot (g_enemies state) in
  let '(events, state') := processAttack env state in
  let deltas :=
    playerStatsDelta prev (g_player state')
    ++ scoreDelta prevScore state'
    ++ flat_map (attackEnemyDeltas prevEnemyPositions) (g_enemies state')
    ++ statusDelta state'
    ++ map delta_event events in
  {| mr_events := events; mr_deltas := deltas; mr_state := state' |}.

(* ------------------------------------------------------------------ *)
(** ** apps/api/src/test/helpers/mapHelpers.ts : states for examples *)

(** Walls on the border, floor inside. *)
Definition createTestMap (width height : Z) : list (list Tile) :=
  map (fun y =>
         map (fun x =>
                let isWall := (x =? 0) || (x =? width - 1)
                              || (y =? 0) || (y =? height - 1) in
                {| t_type := if isWall then tile_wall else tile_floor;
                   t_x := x; t_y := y |})
             (zrange 0 (Z.to_nat width)))
      (zrange 0 (Z.to_nat height)).

Definition createTestPlayer (character : CharacterType) : Player :=
  let stats := CHARACTER_STATS character in
  {| p_x := 5; p_y := 5; p_hp := cs_hp stats; p_maxHp := cs_maxHp stats;
     p_attack := cs_attack stats; p_defense := cs_defense stats;
     p_inventory := []; p_xp := 0; p_level := 1;
     p_xpToNextLevel := getXpToNextLevel 1;
     p_equipment := {| pe_weapon := None; pe_shield := None;
                       pe_armor := None; pe_ranged := None |};
     p_character := character; p_facingDirection := face_left |}.

Definition createTestEnemy (id : string) (t : EnemyType)
    (variant : EnemyVariant) (x y : Z) : Enemy :=
  let mult := VARIANT_MULTIPLIERS variant in
  let base := ENEMY_STATS t in
  {| e_id := id; e_type := t; e_variant := variant;
     e_displayName := String.append (namePrefix mult) (capitalizeEnemyType t);
     e_x := x; e_y := y;
     e_hp := floorMul10 (bs_hp base) (hpMult10 mult);
     e_maxHp := floorMul10 (bs_hp base) (hpMult10 mult);
     e_attack := floorMul10 (bs_attack base) (attackMult10 mult);
     e_defense := floorMul10 (bs_defense base) (defenseMult10 mult);
     e_behavior := match t with rat => flee | _ => aggressive end;
     e_lastSeenPlayer := None |}.

Definition createTestGameState (player : Player) (enemies : list Enemy)
    (items : list Item) : GameState :=
  {| g_id := "test-game-id"; g_playerId := "test-player-id";
     g_playerName := "Test Player"; g_floor := 1; g_player := player;
     g_map := createTestMap MAP_WIDTH MAP_HEIGHT; g_enemies := enemies;
     g_items := items; g_fog := initializeFog; g_status := active;
     g_score := 0; g_createdAt := 0; g_updatedAt := 0 |}.

(** An environment whose random numbers are all [0]. *)
Definition zeroEnv : Env :=
  {| rnd := fun _ => 0; uuid := fun _ => "uuid"; now := 1 |}.

(** The wording of the level-up rule: one iteration takes [p] to [p']. *)
Definition levelUpIteration (p p' : Player) : Prop :=
  p_xp p' = p_xp p - p_xpToNextLevel p
  /\ p_level p' = p_level p + 1
  /\ p_maxHp p' = p_maxHp p + 3
  /\ p_attack p' = p_attack p + 1
  /\ p_defense p' = p_defense p + 1
  /\ p_hp p' = Z.min (p_maxHp p') (p_hp p + p_maxHp p' / 2)
  /\ p_xpToNextLevel p' = p_level p' * 50.

(** The players after 1, 2, ..., k iterations of the level-up loop. *)
Fixpoint levelUps (k : nat) (p : Player) : list Player :=
  match k with
  | O => []
  | S j => levelUpStep p :: levelUps j (levelUpStep p)
  end.

Definition isLevelUp (ev : GameEvent) : bool :=
  match ev_type ev with
  | level_up => true
  | _ => false
  end.

(** A bonus field of the equipment in a slot; [0] on an empty slot. *)
Definition bonusOf (f : Equipment -> Z) (o : option Equipment) : Z :=
  match o with
  | Some e => f e
  | None => 0
  end.

Definition testItem (id : string) (eq : Equipment) (x y : Z) : Item :=
  {| i_id := id; i_type := equipment; i_name := eq_name eq; i_x := x;
     i_y := y; i_value := 0; i_equipment := Some eq |}.

(** The default test state with the player in the corner [(1,1)] of the
    walled test map. *)
Definition cornerState : GameState :=
  createTestGameState (set_p_pos 1 1 (createTestPlayer dwarf))
    [createTestEnemy "e1" orc normal 3 1] [].

(** The elementary state changes of the enemy phase: an enemy remembers
    where it saw the player, an enemy steps to a tile that [canMoveToTile]
    accepts, an enemy attacks the player. *)
Inductive aiStep : GameState -> GameState -> Prop :=
  | ai_refl s : aiStep s s
  | ai_trans s1 s2 s3 : aiStep s1 s2 -> aiStep s2 s3 -> aiStep s1 s3
  | ai_remember s i e c :
      nth_error (g_enemies s) i = Some e ->
      aiStep s (updEnemy i (set_e_lastSeenPlayer c e) s)
  | ai_move s i e x y :
      nth_error (g_enemies s) i = Some e ->
      canMoveToTile s i x y = true ->
      aiStep s (updEnemy i (set_e_pos x y e) s)
  | ai_attack s e : aiStep s (snd (enemyAttackPlayer s e)).

(** What the enemy phase never changes on an enemy: everything but its
    position and its memory of the player. *)
Definition enemyFrame (e e' : Enemy) : Prop :=
  e_id e' = e_id e /\ e_type e' = e_type e /\ e_variant e' = e_variant e
  /\ e_displayName e' = e_displayName e /\ e_hp e' = e_hp e
  /\ e_maxHp e' = e_maxHp e /\ e_attack e' = e_attack e
  /\ e_defense e' = e_defense e /\ e_behavior e' = e_behavior e.

(** What the enemy phase never changes on the game: the map, the fog, the
    items, floor and score, the player apart from hit points (which can
    only go down), and the enemies up to [enemyFrame]. *)
Definition aiFrame (s s' : GameState) : Prop :=
  g_map s' = g_map s /\ g_fog s' = g_fog s /\ g_items s' = g_items s
  /\ g_score s' = g_score s /\ g_floor s' = g_floor s
  /\ set_p_hp 0 (g_player s') = set_p_hp 0 (g_player s)
  /\ p_hp (g_player s') <= p_hp (g_player s)
  /\ Forall2 enemyFrame (g_enemies s) (g_enemies s').

(** No two live enemies on one tile, no live enemy on the player's tile. *)
Definition liveSeparated (s : GameState) : Prop :=
  (forall i j a b,
     i <> j ->
     nth_error (g_enemies s) i = Some a ->
     nth_error (g_enemies s) j = Some b ->
     e_hp a > 0 -> e_hp b > 0 ->
     ~ (e_x a = e_x b /\ e_y a = e_y b))
  /\ (forall i a,
        nth_error (g_enemies s) i = Some a ->
        e_hp a > 0 ->
        ~ (e_x a = p_x (g_player s) /\ e_y a = p_y (g_player s))).

(** Where the player stands and looks. *)
Definition samePlace (p p' : Player) : Prop :=
  p_x p' = p_x p /\ p_y p' = p_y p
  /\ p_facingDirection p' = p_facingDirection p
  /\ p_character p' = p_character p.

(** What progression (XP, levels) and item pickup never change. *)
Definition stageFrame (s s' : GameState) : Prop :=
  g_map s' = g_map s /\ g_fog s' = g_fog s /\ g_enemies s' = g_enemies s
  /\ g_floor s' = g_floor s /\ g_status s' = g_status s
  /\ g_updatedAt s' = g_updatedAt s
  /\ samePlace (g_player s) (g_player s').

(** Melee kill scenario: player with attack 10 and defense 2 at [(5,5)], a
    normal rat (hp 6, defense 0) at [(6,5)]. *)
Definition meleeState : GameState :=
  createTestGameState (set_p_stats 10 2 28 (createTestPlayer dwarf))
    [createTestEnemy "rat-1" rat normal 6 5] [].

(** The facing direction after an intent: only left and right turn the
    player. *)
Definition facingAfter (d : Direction) (f : FacingDirection)
    : FacingDirection :=
  match d with
  | dir_left => face_left
  | dir_right => face_right
  | _ => f
  end.

(** A cell the projectile flies through: inside the row, no wall, no live
    enemy. *)
Definition cellClear (state : GameState) (x y : Z) : Prop :=
  0 <= x < mapWidth (g_map state)
  /\ tileIs (g_map state) x y tile_wall = false
  /\ findIndex (liveEnemyAt x y) (g_enemies state) = None.

(** Ranged miss scenario: a wizard at [(5,5)] facing right, a wall at
    [(8,5)], an orc behind the wall at [(9,5)]. *)
Definition rangedWallState : GameState :=
  set_g_map (setTile (createTestMap MAP_WIDTH MAP_HEIGHT) 8 5 tile_wall)
    (createTestGameState
       (set_p_facingDirection face_right (createTestPlayer wizard))
       [createTestEnemy "orc-1" orc normal 9 5] []).

(** Total correctness of a generator computation: from every draw state it
    returns a value, and the value satisfies [P]. *)
Definition genPost {A} (c : Gen A) (P : A -> Prop) : Prop :=
  forall st, exists a st', c st = Some (a, st') /\ P a.

(** The rooms [placeRooms] draws: anchor and size within the ranges of the
    four [randomInt] calls. *)
Definition roomOk (r : Room) : Prop :=
  1 <= r_x r <= MAP_WIDTH - 10 /\ 1 <= r_y r <= MAP_HEIGHT - 8
  /\ 4 <= r_width r <= 8 /\ 4 <= r_height r <= 6.

(** A cell that is on the map and is not a wall. *)
Definition nonWall (m : list (list Tile)) (c : Z * Z) : Prop :=
  exists t, at2 m (fst c) (snd c) = Some t /\ t_type t <> tile_wall.

Definition adjacent4 (a b : Z * Z) : Prop :=
  Z.abs (fst a - fst b) + Z.abs (snd a - snd b) = 1.

(** A 4-connected path over non-wall cells. *)
Inductive walk (m : list (list Tile)) : Z * Z -> Z * Z -> Prop :=
  | walk_here c : nonWall m c -> walk m c c
  | walk_step a b c :
      nonWall m a -> adjacent4 a b -> walk m b c -> walk m a c.

(** The last element of an array, [rooms[rooms.length - 1]]. *)
Definition lastRoom (rooms : list Room) : option Room :=
  nthZ rooms (lenZ rooms - 1).

(** A cell of the grid (an index pair that reads a tile). *)
Definition onMap (m : list (list Tile)) (c : Z * Z) : Prop :=
  exists t, at2 m (fst c) (snd c) = Some t.

(** Properties that every carving write keeps. *)
Definition carveKeeps (m m' : list (list Tile)) : Prop :=
  (forall c, onMap m c -> onMap m' c)
  /\ (forall c, nonWall m c -> nonWall m' c).

(** The events of a descent to floor [newFloor]. *)
Definition descendEvents (newFloor : Z) : list GameEvent :=
  event floor_descended
  :: (if newFloor >=? 20 then [event game_won] else []).

(** The state [post] is the state [pre] after a descent onto the generated
    floor [g]. *)
Definition descended (g : GeneratedFloor) (pre post : GameState) : Prop :=
  g_floor post = g_floor pre + 1
  /\ g_map post = gf_map g
  /\ g_enemies post = gf_enemies g
  /\ g_items post = gf_items g
  /\ p_x (g_player post) = c_x (gf_playerStart g)
  /\ p_y (g_player post) = c_y (gf_playerStart g)
  /\ g_fog post
     = updateFogGrid (gf_map g) (c_x (gf_playerStart g))
                     (c_y (gf_playerStart g)) initializeFog
  /\ g_score post
     = g_score pre + 100 + (if g_floor pre + 1 >=? 20 then 1000 else 0)
  /\ g_status post = (if g_floor pre + 1 >=? 20 then won else active).

(** Events that only the enemy phase emits. *)
Definition isEnemyEvent (ev : GameEvent) : bool :=
  match ev_type ev with
  | player_damaged | player_died => true
  | _ => false
  end.

(** Descent scenario: the player at [(5,5)], stairs at [(6,5)], an orc next
    to the stairs at [(7,5)]. *)
Definition stairsState : GameState :=
  set_g_map (setTile (createTestMap MAP_WIDTH MAP_HEIGHT) 6 5 tile_stairs)
    (createTestGameState (createTestPlayer dwarf)
       [createTestEnemy "orc-1" orc normal 7 5] []).

(** Random numbers for which the placement loop accepts two rooms --
    [(1,1)] and, on the sixth draw, [x = floor(0.5 * 30) + 1 = 16] -- and
    every later draw is 0. *)
Definition twoRoomsEnv : Env :=
  {| rnd := fun k => if Nat.eqb k 5 then 2 ^ 52 else 0;
     uuid := fun k => if Nat.eqb k 0 then "enemy-a"
                      else if Nat.eqb k 1 then "enemy-b" else "id";
     now := 1 |}.

(** Fog scenario: the default test state after [updateFog] (the fog a game
    has around the player at [(5,5)]), with an aggressive orc seven tiles
    to the right, at [(12,5)], outside the revealed disc. *)
Definition fogState : GameState :=
  updateFog
    (createTestGameState (createTestPlayer dwarf)
       [createTestEnemy "orc-1" orc normal 12 5] []).

(** The enemy or item data a delta carries lies on a revealed cell.
    Deltas that carry only an id of something that left the visible set
    ([enemy_killed], [enemy_hidden], [item_removed]) carry no cell. *)
Definition deltaInFog (state : GameState) (d : GameDelta) : Prop :=
  match d with
  | delta_enemy_visible e => fogAt (g_fog state) (e_x e) (e_y e) = true
  | delta_enemy_moved _ x y => fogAt (g_fog state) x y = true
  | delta_enemy_damaged id hp =>
      exists e, In e (g_enemies state) /\ e_id e = id /\ e_hp e = hp
                /\ fogAt (g_fog state) (e_x e) (e_y e) = true
  | delta_item_visible i => fogAt (g_fog state) (i_x i) (i_y i) = true
  | delta_new_floor v =>
      Forall (fun e => fogAt (g_fog state) (e_x e) (e_y e) = true)
             (v_visibleEnemies v)
      /\ Forall (fun i => fogAt (g_fog state) (i_x i) (i_y i) = true)
                (v_visibleItems v)
  | _ => True
  end.

(** [liveSeparated], decided. *)
Definition sameTile (a b : Enemy) : bool :=
  (e_x a =? e_x b) && (e_y a =? e_y b).

Fixpoint liveApart (es : list Enemy) : bool :=
  match es with
  | [] => true
  | e :: r =>
      (negb (e_hp e >? 0)
       || negb (existsb (fun b => (e_hp b >? 0) && sameTile e b) r))
      && liveApart r
  end.

Definition liveSeparatedb (s : GameState) : bool :=
  liveApart (g_enemies s)
  && negb (existsb (liveEnemyAt (p_x (g_player s)) (p_y (g_player s)))
                   (g_enemies s)).

(** The disc of [updateFog] around [(px, py)], and the bounds check of its
    loop body. *)
Definition inVision (px py x y : Z) : bool :=
  (x - px) * (x - px) + (y - py) * (y - py) <=? VISION_RADIUS * VISION_RADIUS.

Definition inBounds (m : list (list Tile)) (x y : Z) : bool :=
  (x >=? 0) && (x <? mapWidth m) && (y >=? 0) && (y <? mapHeight m).

(** The loop body [revealCell] at offsets [(dx, dy)] writes the cell
    [(x, y)]. *)
Definition revealsAt (m : list (list Tile)) (px py x y dy dx : Z) : bool :=
  (px + dx =? x) && (py + dy =? y) && inBounds m x y && inVision px py x y.

(** A first step from [(sx, sy)]: a 4-neighbour inside the map that is not
    a wall. *)
Definition firstStepOk (s : GameState) (sx sy : Z) (c : Coordinate) : Prop :=
  adjacent4 (sx, sy) (c_x c, c_y c)
  /\ 0 <= c_x c < mapWidth (g_map s)
  /\ 0 <= c_y c < mapHeight (g_map s)
  /\ tileIs (g_map s) (c_x c) (c_y c) tile_wall = false.

(** A cell that holds neither a live enemy nor the player. *)
Definition freeCell (s : GameState) (c : Coordinate) : Prop :=
  existsb (liveEnemyAt (c_x c) (c_y c)) (g_enemies s) = false
  /\ ~ (c_x c = p_x (g_player s) /\ c_y c = p_y (g_player s)).

(** The invariant of the nodes of the search: the start node has the empty
    path; every other node's path begins with a good first step over a
    free cell. *)
Definition nodeOk (s : GameState) (sx sy : Z) (n : PathNode) : Prop :=
  match n_path n with
  | [] => n_x n = sx /\ n_y n = sy
  | c :: _ => firstStepOk s sx sy c /\ freeCell s c
  end.

(** What [findPathToTarget] may return. *)
Definition stepOk (s : GameState) (sx sy tx ty : Z) (c : Coordinate) : Prop :=
  firstStepOk s sx sy c
  /\ ((c_x c = tx /\ c_y c = ty) \/ freeCell s c).

(** [isPlayerDiedEvent] of packages/shared: a type guard on events. *)
Definition isPlayerDiedEvent (ev : GameEvent) : bool :=
  match ev_type ev, ev_data ev with
  | player_died, Some (PlayerDiedEventData _) => true
  | _, _ => false
  end.

(** What the turn of enemy [i], which stood as [e0], does to the state:
    nothing, or enemy [i] alone is rewritten -- keeping its hit points and
    statistics, and either staying on its tile or stepping to one of the
    four neighbours, which [canMoveToTile] accepted. *)
Definition turnMoves (s : GameState) (i : nat) (e0 : Enemy) (s1 : GameState)
    : Prop :=
  s1 = s
  \/ exists e',
       s1 = updEnemy i e' s /\ enemyFrame e0 e'
       /\ ((e_x e' = e_x e0 /\ e_y e' = e_y e0)
           \/ (adjacent4 (e_x e0, e_y e0) (e_x e', e_y e')
               /\ canMoveToTile s i (e_x e') (e_y e') = true)).

(** The turn of an enemy: it moves as [turnMoves] says, emitting nothing,
    and then either is done or attacks the player. *)
Definition turnResult (i : nat) (e0 : Enemy) (a : AI) (r : AI * bool)
    : Prop :=
  exists a1,
    ai_events a1 = ai_events a
    /\ turnMoves (ai_state a) i e0 (ai_state a1)
    /\ (r = (a1, false) \/ exists enemy, r = aiAttack enemy a1).

(** The two ways a stream of events and a state can end a turn: the player
    is not dead and no [player_died] was emitted, or the player is dead at
    [hp <= 0] and the one [player_died] is the last event. *)
Definition turnEnds (events : list GameEvent) (s : GameState) : Prop :=
  (g_status s <> dead /\ existsb isPlayerDiedEvent events = false)
  \/ (g_status s = dead /\ p_hp (g_player s) <= 0
      /\ exists pre killer,
           events = pre ++ [eventWith player_died (PlayerDiedEventData killer)]
           /\ existsb isPlayerDiedEvent pre = false).

(** The enemies that [moveEnemies] does not skip: within
    [VISION_RADIUS + 2] of the player. *)
Definition inRange (entry : nat * Z) : bool :=
  negb (snd entry >? VISION_RADIUS + 2).

(** Where an enemy may be after the enemy phase, against where it was. *)
Definition movedOk (s : GameState) (e e' : Enemy) : Prop :=
  enemyFrame e e'
  /\ ((e_x e' = e_x e /\ e_y e' = e_y e)
      \/ (Z.abs (e_x e - e_x e') + Z.abs (e_y e - e_y e') = 1
          /\ inBounds (g_map s) (e_x e') (e_y e') = true
          /\ tileIs (g_map s) (e_x e') (e_y e') tile_wall = false
          /\ ~ (e_x e' = p_x (g_player s) /\ e_y e' = p_y (g_player s)))).

(** The loop state of [moveEnemies] while the player lives, and once the
    player has died. *)
Definition aliveAI (a : AI) : Prop :=
  g_status (ai_state a) = active
  /\ existsb isPlayerDiedEvent (ai_events a) = false.

Definition diedAI (a : AI) : Prop :=
  g_status (ai_state a) = dead /\ p_hp (g_player (ai_state a)) <= 0
  /\ exists pre killer,
       ai_events a
       = pre ++ [eventWith player_died (PlayerDiedEventData killer)]
       /\ existsb isPlayerDiedEvent pre = false.

(** The middle of [processMove]: the step onto the free tile and the
    pickup of the item found there. *)
Definition moveStage (state : GameState) (direction : Direction)
    : list GameEvent * GameState :=
  let newX := p_x (g_player state) + directionDx direction in
  let newY := p_y (g_player state) + directionDy direction in
  let state1 :=
    set_g_player (turnTo direction (set_p_pos newX newY (g_player state)))
                 state in
  let events := [event player_moved] in
  match findIndex (fun i => (i_x i =? newX) && (i_y i =? newY))
                  (g_items state1) with
  | Some itemIndex =>
      match nth_error (g_items state1) itemIndex with
      | Some item =>
          let '(itemEvents, st) := pickUp state1 itemIndex item in
          (events ++ itemEvents, st)
      | None => (events, state1)
      end
  | None => (events, state1)
  end.


(** The fields that identify a game. *)
Definition sameGame (s s' : GameState) : Prop :=
  g_id s' = g_id s /\ g_playerId s' = g_playerId s
  /\ g_playerName s' = g_playerName s /\ g_createdAt s' = g_createdAt s.

(** The sum of a bonus field over the four equipment slots. *)
Definition equippedBonus (f : Equipment -> Z) (pe : PlayerEquipment) : Z :=
  bonusOf f (pe_weapon pe) + bonusOf f (pe_shield pe)
  + bonusOf f (pe_armor pe) + bonusOf f (pe_ranged pe).

(** A player whose statistics are what class, level and equipment make
    them: [createNewGame] starts from the class table, a level-up adds 1
    to attack and defense and 3 to maxHp, equipment adds its bonuses; the
    XP threshold is that of the level, the XP are below it, the hit points
    do not exceed the maximum. *)
Definition playerOk (p : Player) : Prop :=
  1 <= p_level p
  /\ p_attack p
     = cs_attack (CHARACTER_STATS (p_character p)) + (p_level p - 1)
       + equippedBonus attackBonus (p_equipment p)
  /\ p_defense p
     = cs_defense (CHARACTER_STATS (p_character p)) + (p_level p - 1)
       + equippedBonus defenseBonus (p_equipment p)
  /\ p_maxHp p
     = cs_maxHp (CHARACTER_STATS (p_character p)) + 3 * (p_level p - 1)
       + equippedBonus hpBonus (p_equipment p)
  /\ p_xpToNextLevel p = getXpToNextLevel (p_level p)
  /\ 0 <= p_xp p < p_xpToNextLevel p
  /\ p_hp p <= p_maxHp p.

(** What a turn keeps of the player: consistency of the statistics, the
    class, and the level, which can only rise. *)
Definition playerKept (p p' : Player) : Prop :=
  (playerOk p -> playerOk p')
  /\ p_level p <= p_level p'
  /\ p_character p' = p_character p.

(** What a turn keeps of the game: the player as in [playerKept], the
    identity of the game, score and floor never going down. *)
Definition progress (s s' : GameState) : Prop :=
  playerKept (g_player s) (g_player s')
  /\ g_score s <= g_score s'
  /\ g_floor s <= g_floor s' <= g_floor s + 1
  /\ sameGame s s'.

(** The statistics of the player, position and hit points apart. *)
Definition statFields (p p' : Player) : Prop :=
  p_maxHp p' = p_maxHp p /\ p_attack p' = p_attack p
  /\ p_defense p' = p_defense p /\ p_xp p' = p_xp p
  /\ p_level p' = p_level p /\ p_xpToNextLevel p' = p_xpToNextLevel p
  /\ p_equipment p' = p_equipment p /\ p_character p' = p_character p.

(** The cells inside the outer border of the map. *)
Definition interior (x y : Z) : Prop :=
  1 <= x <= MAP_WIDTH - 2 /\ 1 <= y <= MAP_HEIGHT - 2.

(** A tile of a floor under construction, at [(x, y)]: it carries its own
    coordinates, it is a wall or a floor tile, and it is a wall when
    [(x, y)] is on the border. *)
Definition carvedTile (x y : Z) (t : Tile) : Prop :=
  t_x t = x /\ t_y t = y
  /\ (t_type t = tile_wall \/ t_type t = tile_floor)
  /\ (~ interior x y -> t_type t = tile_wall).

(** The grid of a floor under construction: [MAP_WIDTH] by [MAP_HEIGHT]
    cells, each a [carvedTile]. *)
Definition gridOk (m : list (list Tile)) : Prop :=
  forall x y,
    (0 <= x < MAP_WIDTH /\ 0 <= y < MAP_HEIGHT ->
       exists t, at2 m x y = Some t /\ carvedTile x y t)
    /\ (~ (0 <= x < MAP_WIDTH /\ 0 <= y < MAP_HEIGHT) -> at2 m x y = None).

(** The cells of a room. *)
Definition inRoom (r : Room) (x y : Z) : Prop :=
  r_x r <= x < r_x r + r_width r /\ r_y r <= y < r_y r + r_height r.

(** Rooms that are pairwise different and do not overlap (not even when
    inflated by the one-tile margin of [roomsOverlap]). *)
Definition roomsApart (rooms : list Room) : Prop :=
  NoDup rooms
  /\ forall a b, In a rooms -> In b rooms ->
                 a = b \/ roomsOverlap a b = false.

(** An enemy as [createEnemy] makes it on floor [floor]: at full health,
    with the statistics of its type and variant, no memory of the player,
    the behaviour of its type, and no champion on the first floor. *)
Definition freshEnemy (floor : Z) (e : Enemy) : Prop :=
  let mult := VARIANT_MULTIPLIERS (e_variant e) in
  let base := ENEMY_STATS (e_type e) in
  e_hp e = e_maxHp e /\ 0 < e_hp e
  /\ e_maxHp e = floorMul10 (bs_hp base) (hpMult10 mult)
  /\ e_attack e = floorMul10 (bs_attack base) (attackMult10 mult)
  /\ e_defense e = floorMul10 (bs_defense base) (defenseMult10 mult)
  /\ e_lastSeenPlayer e = None
  /\ match e_type e with
     | rat => e_behavior e = flee
     | dragon => e_behavior e = aggressive
     | _ => e_behavior e = aggressive \/ e_behavior e = patrol
     end
  /\ (floor <= 1 -> e_variant e <> champion).


(** A generated potion and a generated equipment item. *)
Definition potionItem (i : Item) : Prop :=
  i_type i = health_potion /\ i_value i = 10 /\ i_equipment i = None
  /\ i_name i = "Health Potion".

Definition equipmentItem (available : list Equipment) (i : Item) : Prop :=
  i_type i = equipment /\ i_value i = 0
  /\ exists eq, i_equipment i = Some eq /\ In eq available
                /\ i_name i = eq_name eq.

(** Something placed in one of the rooms from index [lo] on. *)
Definition placedIn (rooms : list Room) (lo : Z) (x y : Z) : Prop :=
  exists k room,
    lo <= k <= lenZ rooms - 1 /\ nthZ rooms k = Some room /\ inRoom room x y.

(** An enemy that [generateMap] spawned: in a room other than the first,
    of an available type, fresh. *)
Definition enemyPlaced (rooms : list Room) (types : list EnemyType)
    (floor : Z) (e : Enemy) : Prop :=
  placedIn rooms 1 (e_x e) (e_y e) /\ In (e_type e) types
  /\ freshEnemy floor e.

(** The enemy types and the population that [generateMap] computes for a
    floor. *)
Definition availableTypesFor (floor : Z) : list EnemyType :=
  sliceTo [rat; skeleton; orc; dragon] (Z.min (1 + floor / 3) 4).

Definition populationOk (rooms : list Room) (floor : Z)
    (character : CharacterType) (g : GeneratedFloor) : Prop :=
  (if lenZ rooms >? 1
   then exists n, 3 <= n <= 5
                  /\ List.length (gf_enemies g) = Z.to_nat (n + floor / 2)
   else gf_enemies g = [])
  /\ Forall (enemyPlaced rooms (availableTypesFor floor) floor) (gf_enemies g)
  /\ exists potions equips,
       gf_items g = potions ++ equips
       /\ 1 <= lenZ potions <= 3 /\ 1 <= lenZ equips <= 2
       /\ Forall (fun i => placedIn rooms 0 (i_x i) (i_y i) /\ potionItem i)
                 potions
       /\ Forall (fun i => placedIn rooms 0 (i_x i) (i_y i)
                           /\ equipmentItem
                                (availableEquipmentFor floor character) i)
                 equips.

(** The lengths of the rows of a grid. *)
Definition shape {A} (g : list (list A)) : list nat :=
  map (@List.length A) g.

(** The [gameState] literal of [createNewGame], on the generated floor
    [g] and with [gameId] for its [randomUUID()]. *)
Definition newGameState (env : Env) (gameId playerName playerId : string)
    (character : CharacterType) (g : GeneratedFloor) : GameState :=
  let fog := initializeFog in
  let stats := CHARACTER_STATS character in
  {| g_id := gameId;
     g_playerId := playerId;
     g_playerName := playerName;
     g_floor := 1;
     g_player :=
       {| p_x := c_x (gf_playerStart g);
          p_y := c_y (gf_playerStart g);
          p_hp := cs_hp stats; p_maxHp := cs_maxHp stats;
          p_attack := cs_attack stats; p_defense := cs_defense stats;
          p_inventory := []; p_xp := 0; p_level := 1;
          p_xpToNextLevel := getXpToNextLevel 1;
          p_equipment := {| pe_weapon := None; pe_shield := None;
                            pe_armor := None; pe_ranged := None |};
          p_character := character;
          p_facingDirection := face_left |};
     g_map := gf_map g;
     g_enemies := gf_enemies g;
     g_items := gf_items g;
     g_fog := fog;
     g_status := active;
     g_score := 0;
     g_createdAt := now env;
     g_updatedAt := now env |}.

(** [createNewGame]; [None] when [generateMap] throws.  The id of the game
    is the [randomUUID()] that follows the draws of [generateMap]. *)
Definition createNewGame (env : Env) (playerName playerId : string)
    (character : CharacterType) : option GameState :=
  match generateMapGen env 1 character (O, O) with
  | None => None
  | Some (g, st) =>
      Some (updateFog (newGameState env (uuid env (snd st)) playerName
                                    playerId character g))
  end.

(** No live enemy ([hp > 0]) stands on the player's tile. *)
Definition offPlayerTile (s : GameState) : Prop :=
  forall i a,
    nth_error (g_enemies s) i = Some a ->
    e_hp a > 0 ->
    ~ (e_x a = p_x (g_player s) /\ e_y a = p_y (g_player s)).

(** The same, with the test that [processMove] and [canMoveToTile] make. *)
Definition playerTileFree (s : GameState) : Prop :=
  existsb (liveEnemyAt (p_x (g_player s)) (p_y (g_player s))) (g_enemies s)
  = false.

(** Where the player stands: on a map and under a fog grid of [MAP_HEIGHT]
    rows of [MAP_WIDTH] cells, inside the bounds, not on a wall. *)
Definition placedOk (s : GameState) : Prop :=
  shape (g_map s) = shape wallMap
  /\ shape (g_fog s) = shape wallMap
  /\ inBounds (g_map s) (p_x (g_player s)) (p_y (g_player s)) = true
  /\ tileIs (g_map s) (p_x (g_player s)) (p_y (g_player s)) tile_wall
     = false.

(** The board between two turns: the player is placed as in [placedOk]
    and sees the tile under their feet. *)
Definition boardOk (s : GameState) : Prop :=
  placedOk s
  /\ fogAt (g_fog s) (p_x (g_player s)) (p_y (g_player s)) = true.

(** Floor, score and status between two turns: floors run from 1 to 20,
    every floor below the current one has paid its 100 points, the game is
    won exactly on floor 20, and a dead player has no hit points left. *)
Definition statusOk (s : GameState) : Prop :=
  1 <= g_floor s <= 20
  /\ 100 * (g_floor s - 1) <= g_score s
  /\ (g_status s = won <-> g_floor s = 20)
  /\ (g_status s = dead -> p_hp (g_player s) <= 0).

Definition gameOk (s : GameState) : Prop :=
  playerOk (g_player s) /\ statusOk s /\ boardOk s /\ offPlayerTile s.

(** The three entry points of the turn engine that the routes call on a
    stored game: [processMove(game, direction)], [processAttack(game)] and
    [descendStairs(game)]. *)
Inductive EngineCall : Type :=
  | call_move (direction : Direction)
  | call_attack
  | call_descend.

(** One call on the stored game; [None] when the call throws. *)
Definition runCall (env : Env) (s : GameState) (c : EngineCall)
    : option GameState :=
  match c with
  | call_move direction => option_map snd (processMove env s direction)
  | call_attack => Some (snd (processAttack env s))
  | call_descend => option_map snd (descendStairs env s)
  end.

(** A game: calls served one after the other, each in the environment
    (random draws, identifiers, clock) of its request. *)
Fixpoint runCalls (s : GameState) (calls : list (Env * EngineCall))
    : option GameState :=
  match calls with
  | [] => Some s
  | (env, c) :: rest =>
      match runCall env s c with
      | Some s' => runCalls s' rest
      | None => None
      end
  end.

(** Ranged attack scenarios of the repository's tests.  "Should shoot in
    facing direction": a wizard at [(5,5)] facing left, a rat (hp 20) two
    cells to the left, an orc (hp 20) two cells to the right. *)
Definition rangedFacingState : GameState :=
  createTestGameState (createTestPlayer wizard)
    [set_e_hp 20 (createTestEnemy "rat-1" rat normal 3 5);
     set_e_hp 20 (createTestEnemy "orc-1" orc normal 7 5)] [].

(** "Should respect ranged range limit": a dwarf (range 2) at [(5,5)]
    facing right, a rat (hp 20) three cells to the right. *)
Definition rangedLimitState : GameState :=
  createTestGameState
    (set_p_facingDirection face_right (createTestPlayer dwarf))
    [set_e_hp 20 (createTestEnemy "rat-1" rat normal 8 5)] [].

(** A shot over the edge of the map: a bandit at [(1,5)] facing left, the
    border cell [(0,5)] opened to a floor tile. *)
Definition rangedEdgeState : GameState :=
  set_g_map (setTile (createTestMap MAP_WIDTH MAP_HEIGHT) 0 5 tile_floor)
    (createTestGameState (set_p_pos 1 5 (createTestPlayer bandit)) [] []).

(** Two orcs in a row to the right of the player at [(5,5)], at [(7,5)]
    and [(8,5)]: both see the player and walk towards it. *)
Definition twoOrcsState : GameState :=
  createTestGameState (createTestPlayer dwarf)
    [createTestEnemy "orc-1" orc normal 7 5;
     createTestEnemy "orc-2" orc normal 8 5] [].

(** The fog of a floor that has just been entered: revealed are exactly
    the cells of the map whose squared distance to the player is at most
    [VISION_RADIUS * VISION_RADIUS]. *)
Definition fogIsDisc (s : GameState) : Prop :=
  forall x y,
    fogAt (g_fog s) x y = true
    <-> 0 <= x < MAP_WIDTH /\ 0 <= y < MAP_HEIGHT
        /\ (x - p_x (g_player s)) * (x - p_x (g_player s))
           + (y - p_y (g_player s)) * (y - p_y (g_player s))
           <= VISION_RADIUS * VISION_RADIUS.

(* ================================================================== *)
(** * Properties *)

(** ** Level-up loop *)

Lemma levelUpStep_iteration (p : Player) :
  levelUpIteration p (levelUpStep p).
Proof.
  unfold levelUpIteration, levelUpStep, getXpToNextLevel; simpl.
  repeat split; reflexivity.
Qed.

Lemma levelUpFuel_decreases (p : Player) :
  p_xp p >= p_xpToNextLevel p ->
  (levelUpFuel (levelUpStep p) < levelUpFuel p)%nat.
Proof.
  intros Hge. unfold levelUpFuel, levelUpStep, getXpToNextLevel.
  cbn [p_xp p_level p_xpToNextLevel].
  destruct (1 <=? p_level p) eqn:Hl.
  - apply Z.leb_le in Hl.
    assert (H1 : (1 <=? p_level p + 1) = true) by (apply Z.leb_le; lia).
    assert (H2 : (1 <=? (p_level p + 1) * 50) = true) by (apply Z.leb_le; lia).
    rewrite H1, H2.
    destruct (1 <=? p_xpToNextLevel p) eqn:Ht.
    + apply Z.leb_le in Ht. lia.
    + apply Z.leb_gt in Ht. lia.
  - apply Z.leb_gt in Hl.
    destruct (1 <=? p_level p + 1) eqn:Hl'.
    + apply Z.leb_le in Hl'.
      assert (H0 : p_level p = 0) by lia.
      assert (H2 : (1 <=? (p_level p + 1) * 50) = true) by (apply Z.leb_le; lia).
      rewrite H2, H0. lia.
    + apply Z.leb_gt in Hl'. lia.
Qed.

Lemma levelUpLoop_fuel_enough (n : nat) :
  forall p events, (levelUpFuel p <= n)%nat ->
  exists k,
    levelUpLoop n p events
    = Some (Nat.iter k levelUpStep p,
            events ++ map levelUpEvent (levelUps k p))
    /\ p_xp (Nat.iter k levelUpStep p)
       < p_xpToNextLevel (Nat.iter k levelUpStep p)
    /\ (forall j, (j < k)%nat ->
          p_xp (Nat.iter j levelUpStep p)
          >= p_xpToNextLevel (Nat.iter j levelUpStep p)).
Proof.
  induction n as [|n IH]; intros p events Hfuel.
  - destruct (p_xp p >=? p_xpToNextLevel p) eqn:Hc.
    + apply Z.geb_le in Hc.
      pose proof (levelUpFuel_decreases p ltac:(lia)). lia.
    + exists O. simpl. rewrite Hc, app_nil_r.
      rewrite Z.geb_leb in Hc. apply Z.leb_gt in Hc.
      repeat split; [lia | intros j Hj; lia].
  - destruct (p_xp p >=? p_xpToNextLevel p) eqn:Hc.
    + assert (Hge : p_xp p >= p_xpToNextLevel p)
        by (apply Z.geb_le in Hc; lia).
      pose proof (levelUpFuel_decreases p Hge) as Hdec.
      destruct (IH (levelUpStep p) (events ++ [levelUpEvent (levelUpStep p)])
                   ltac:(lia)) as (k & Hrun & Hexit & Hiter).
      exists (S k). rewrite !Nat.iter_succ_r.
      cbn [levelUpLoop levelUps map]. rewrite Hc, Hrun, <- app_assoc.
      split; [reflexivity|]. split; [exact Hexit|].
      intros [|j] Hj.
      * exact Hge.
      * rewrite Nat.iter_succ_r. apply Hiter. lia.
    + exists O. simpl. rewrite Hc, app_nil_r.
      rewrite Z.geb_leb in Hc. apply Z.leb_gt in Hc.
      repeat split; [lia | intros j Hj; lia].
Qed.

Lemma levelUps_length (k : nat) : forall p, List.length (levelUps k p) = k.
Proof.
  induction k as [|k IH]; intros p; simpl; [reflexivity|].
  now rewrite IH.
Qed.

Lemma levelUps_all_level_up (k : nat) :
  forall p, filter isLevelUp (map levelUpEvent (levelUps k p))
            = map levelUpEvent (levelUps k p).
Proof.
  induction k as [|k IH]; intros p; simpl; [reflexivity|].
  now rewrite IH.
Qed.

(** C7. After the XP grant of a kill the level-up loop terminates (every
    budget of at least [levelUpFuel] iterations lets it run to its end, and
    [grantXp] is that run); on exit [xp < xpToNextLevel]; the loop made [k]
    iterations, each one enabled by [xp >= xpToNextLevel], each one
    subtracting the old [xpToNextLevel], adding one level, +3 maxHp, +1
    attack, +1 defense, healing [floor(maxHp * 0.5)] clamped at maxHp and
    setting [xpToNextLevel = level * 50]; the events are [xp_gained]
    followed by exactly one [level_up] per iteration. *)
Theorem grantXp_level_up_loop (state : GameState) (enemy : Enemy) :
  let p0 := set_p_xp (p_xp (g_player state) + getEnemyXpReward enemy)
                     (g_player state) in
  let gained := eventWith xp_gained
                  (XpGainedEventData (getEnemyXpReward enemy) (p_xp p0)) in
  exists k : nat,
    (forall n, (levelUpFuel p0 <= n)%nat ->
       levelUpLoop n p0 [gained]
       = Some (Nat.iter k levelUpStep p0,
               gained :: map levelUpEvent (levelUps k p0)))
    /\ grantXp state enemy
       = (gained :: map levelUpEvent (levelUps k p0),
          set_g_player (Nat.iter k levelUpStep p0) state)
    /\ p_xp (g_player (snd (grantXp state enemy)))
       < p_xpToNextLevel (g_player (snd (grantXp state enemy)))
    /\ (forall j, (j < k)%nat ->
          let p := Nat.iter j levelUpStep p0 in
          p_xp p >= p_xpToNextLevel p
          /\ levelUpIteration p (levelUpStep p))
    /\ List.length (filter isLevelUp (fst (grantXp state enemy))) = k.
Proof.
  intros p0 gained.
  destruct (levelUpLoop_fuel_enough (levelUpFuel p0) p0 [gained] (le_n _))
    as (k & Hrun & Hexit & Hiter).
  exists k.
  assert (Hgrant : grantXp state enemy
                   = (gained :: map levelUpEvent (levelUps k p0),
                      set_g_player (Nat.iter k levelUpStep p0) state)).
  { unfold grantXp. fold p0. fold gained. rewrite Hrun. reflexivity. }
  split; [|split; [exact Hgrant|]].
  - intros n Hn.
    destruct (levelUpLoop_fuel_enough n p0 [gained] Hn)
      as (k' & Hrun' & Hexit' & Hiter').
    assert (k' = k).
    { destruct (Nat.lt_trichotomy k' k) as [Hlt|[Heq|Hgt]]; [|exact Heq|].
      - specialize (Hiter _ Hlt). lia.
      - specialize (Hiter' _ Hgt). lia. }
    subst k'. exact Hrun'.
  - rewrite Hgrant. cbn [fst snd g_player set_g_player].
    split; [exact Hexit|]. split.
    + intros j Hj. split; [apply Hiter, Hj | apply levelUpStep_iteration].
    + cbn [filter isLevelUp gained eventWith ev_type].
      rewrite levelUps_all_level_up, length_map. apply levelUps_length.
Qed.

(** A champion dragon (800 XP) killed by a level-1 player who needs 10 XP:
    five level-ups in one grant, 90 XP left of the 300 that level 6 asks. *)
Lemma grantXp_champion_dragon :
  let player := set_p_xp 0 (createTestPlayer dwarf) in
  let state :=
    createTestGameState
      {| p_x := p_x player; p_y := p_y player; p_hp := p_hp player;
         p_maxHp := p_maxHp player; p_attack := p_attack player;
         p_defense := p_defense player; p_inventory := p_inventory player;
         p_xp := 0; p_level := 1; p_xpToNextLevel := 10;
         p_equipment := p_equipment player;
         p_character := p_character player;
         p_facingDirection := p_facingDirection player |} [] [] in
  let r := grantXp state (createTestEnemy "d" dragon champion 6 5) in
  map ev_type (fst r)
  = [xp_gained; level_up; level_up; level_up; level_up; level_up]
  /\ p_level (g_player (snd r)) = 6
  /\ p_xp (g_player (snd r)) = 90
  /\ p_xpToNextLevel (g_player (snd r)) = 300.
Proof. vm_compute. repeat split; reflexivity. Qed.

(** ** Equipment pickup *)

Lemma getSlot_setSlot (slot : EquipmentSlot) (e : Equipment)
    (pe : PlayerEquipment) :
  getSlot slot (setSlot slot e pe) = Some e.
Proof. destruct slot; reflexivity. Qed.

Lemma equipSwap_stats (current : option Equipment) (eq : Equipment)
    (p : Player) :
  let p' := equipSwap current eq p in
  p_attack p' = p_attack p - bonusOf attackBonus current + attackBonus eq
  /\ p_defense p' = p_defense p - bonusOf defenseBonus current + defenseBonus eq
  /\ p_maxHp p' = p_maxHp p - bonusOf hpBonus current + hpBonus eq
  /\ p_hp p' = Z.min (p_hp p) (p_maxHp p')
  /\ getSlot (eq_slot eq) (p_equipment p') = Some eq.
Proof.
  unfold equipSwap.
  destruct current as [cur|];
    cbn [bonusOf set_p_stats set_p_equipment p_hp p_maxHp p_attack p_defense
         p_equipment];
    match goal with
    | |- context [if ?c then _ else _] => destruct c eqn:Hc
    end;
    cbn [set_p_hp set_p_stats set_p_equipment p_hp p_maxHp p_attack p_defense
         p_equipment];
    rewrite getSlot_setSlot;
    repeat split; lia.
Qed.

(** C10. The auto-equip decision compares the sums of all five bonus
    fields (an empty slot counts as 0 and always equips); equipping changes
    attack, defense and maxHp by exactly the difference of the new and the
    replaced attackBonus, defenseBonus and hpBonus (the ranged bonuses do
    not enter), and hp becomes [min hp maxHp]: it is clamped down, never
    raised; declining leaves the state as it is. *)
Theorem handleEquipmentPickup_auto_equip (state : GameState) (item : Item)
    (eq : Equipment) (itemIndex : nat) :
  let p := g_player state in
  let current := getSlot (eq_slot eq) (p_equipment p) in
  let sum e := attackBonus e + defenseBonus e + hpBonus e
               + rangedDamageBonus e + rangedRangeBonus e in
  let equips := sum eq > bonusOf sum current \/ current = None in
  let events := fst (handleEquipmentPickup state item eq itemIndex) in
  let state' := snd (handleEquipmentPickup state item eq itemIndex) in
  let p' := g_player state' in
  (equips ->
     p_attack p' = p_attack p - bonusOf attackBonus current + attackBonus eq
     /\ p_defense p'
        = p_defense p - bonusOf defenseBonus current + defenseBonus eq
     /\ p_maxHp p' = p_maxHp p - bonusOf hpBonus current + hpBonus eq
     /\ p_hp p' = Z.min (p_hp p) (p_maxHp p')
     /\ getSlot (eq_slot eq) (p_equipment p') = Some eq
     /\ g_items state' = splice1 itemIndex (g_items state)
     /\ map ev_type events = [equipment_equipped])
  /\ (~ equips ->
        state' = state /\ map ev_type events = [equipment_found])
  /\ p_hp p' <= p_hp p
  /\ p_xp p' = p_xp p /\ p_level p' = p_level p
  /\ p_x p' = p_x p /\ p_y p' = p_y p.
Proof.
  intros p current sum equips events state' p'.
  assert (Hdec : shouldEquip current eq = true <-> equips).
  { unfold shouldEquip, equips, getEquipmentTotalBonus, sum.
    destruct current as [cur|]; cbn [bonusOf].
    - rewrite orb_false_r, Z.gtb_ltb, Z.ltb_lt.
      split; [intros H; left; lia | intros [H|H]; [lia | discriminate]].
    - rewrite orb_true_r. split; [intros _; right; reflexivity | reflexivity]. }
  pose proof (equipSwap_stats current eq p) as Hswap.
  subst events state' p'. unfold handleEquipmentPickup.
  fold p. fold current.
  destruct (shouldEquip current eq) eqn:Hs.
  - cbn [fst snd g_player g_items set_g_player set_g_items map ev_type
         eventWith].
    fold p. destruct Hswap as (Ha & Hd & Hm & Hh & Hslot).
    assert (Hsame : p_xp (equipSwap current eq p) = p_xp p
                    /\ p_level (equipSwap current eq p) = p_level p
                    /\ p_x (equipSwap current eq p) = p_x p
                    /\ p_y (equipSwap current eq p) = p_y p).
    { unfold equipSwap. destruct current;
        match goal with
        | |- context [if ?c then _ else _] => destruct c
        end; repeat split; reflexivity. }
    split; [intros _; repeat split; assumption|].
    split; [intros Hn; exfalso; apply Hn, Hdec; reflexivity|].
    split; [lia | exact Hsame].
  - cbn [fst snd map ev_type eventWith]. fold p.
    split; [intros He; apply Hdec in He; discriminate|].
    split; [intros _; split; reflexivity|].
    repeat split; lia.
Qed.

(** ** Blocked moves *)

(** C8. In an active game, a move whose target cell is outside the map or
    is a wall returns no event and the very same [GameState]: the player,
    the fog, the enemies and the timestamp are untouched. *)
Theorem processMove_blocked (env : Env) (state : GameState)
    (direction : Direction) :
  g_status state = active ->
  let newX := p_x (g_player state) + directionDx direction in
  let newY := p_y (g_player state) + directionDy direction in
  (newY < 0 \/ newY >= mapHeight (g_map state)
   \/ newX < 0 \/ newX >= mapWidth (g_map state)
   \/ exists t, at2 (g_map state) newX newY = Some t
                /\ t_type t = tile_wall) ->
  processMove env state direction = Some ([], state).
Proof.
  intros Hactive newX newY Hblocked. unfold processMove.
  rewrite Hactive. cbn [GameStatus_eqb negb]. fold newX. fold newY.
  destruct ((newY <? 0) || (newY >=? mapHeight (g_map state))
            || (newX <? 0) || (newX >=? mapWidth (g_map state))) eqn:Hb;
    [reflexivity|].
  apply orb_false_elim in Hb. destruct Hb as [Hb Hb4].
  apply orb_false_elim in Hb. destruct Hb as [Hb Hb3].
  apply orb_false_elim in Hb. destruct Hb as [Hb1 Hb2].
  apply Z.ltb_ge in Hb1, Hb3. rewrite Z.geb_leb in Hb2, Hb4.
  apply Z.leb_gt in Hb2, Hb4.
  destruct Hblocked as [H|[H|[H|[H|(t & Ht & Hw)]]]]; try lia.
  unfold tileIs. rewrite Ht, Hw. reflexivity.
Qed.

Lemma processMove_blocked_witness :
  processMove zeroEnv cornerState dir_up = Some ([], cornerState).
Proof.
  apply processMove_blocked.
  - reflexivity.
  - right; right; right; right.
    exists {| t_type := tile_wall; t_x := 1; t_y := 0 |}.
    split; reflexivity.
Defined.

(** ** The enemy phase as a sequence of elementary steps *)

Lemma aiAttack_step (enemy : Enemy) (a : AI) :
  aiStep (ai_state a) (ai_state (fst (aiAttack enemy a))).
Proof.
  unfold aiAttack.
  pose proof (ai_attack (ai_state a) enemy) as H.
  destruct (enemyAttackPlayer (ai_state a) enemy) as [evs s']. exact H.
Qed.

Lemma aiFindPath_state (enemy : Enemy) (tx ty : Z) (a : AI) :
  ai_state (snd (aiFindPath enemy tx ty a)) = ai_state a.
Proof.
  unfold aiFindPath.
  destruct (ai_pathfindingCount a <? MAX_PATHFINDING_ENEMIES); reflexivity.
Qed.

Lemma aiMoveThenAttack_step (i : nat) (enemy : Enemy) (st : Coordinate)
    (px py : Z) (a : AI) :
  nth_error (g_enemies (ai_state a)) i = Some enemy ->
  canMoveToTile (ai_state a) i (c_x st) (c_y st) = true ->
  aiStep (ai_state a) (ai_state (fst (aiMoveThenAttack i enemy st px py a))).
Proof.
  intros Hnth Hcan. unfold aiMoveThenAttack.
  assert (Hmove : aiStep (ai_state a)
            (ai_state (aiSetEnemy i (set_e_pos (c_x st) (c_y st) enemy) a)))
    by (apply ai_move; assumption).
  destruct (isAdjacentToPlayer _ px py); [|exact Hmove].
  eapply ai_trans; [exact Hmove | apply aiAttack_step].
Qed.

Lemma fleeTurn_step (i : nat) (enemy : Enemy) (px py : Z) (a : AI) :
  nth_error (g_enemies (ai_state a)) i = Some enemy ->
  aiStep (ai_state a) (ai_state (fleeTurn i enemy px py a)).
Proof.
  intros Hnth. unfold fleeTurn.
  destruct (canMoveToTile (ai_state a) i _ (e_y enemy)) eqn:H1.
  - apply ai_move; assumption.
  - destruct (canMoveToTile (ai_state a) i (e_x enemy) _) eqn:H2.
    + apply ai_move; assumption.
    + apply ai_refl.
Qed.

Lemma aggressiveTurn_step (i : nat) (enemy : Enemy) (canSee : bool)
    (px py : Z) (a : AI) :
  nth_error (g_enemies (ai_state a)) i = Some enemy ->
  aiStep (ai_state a)
         (ai_state (fst (aggressiveTurn i enemy canSee px py a))).
Proof.
  intros Hnth. unfold aggressiveTurn.
  assert (Hmain :
    forall tx ty,
      aiStep (ai_state a)
        (ai_state (fst
          (if isAdjacentToPlayer enemy px py then aiAttack enemy a
           else
             let '(step, a1) := aiFindPath enemy tx ty a in
             match step with
             | Some st =>
                 if (c_x st =? px) && (c_y st =? py) then aiAttack enemy a1
                 else if canMoveToTile (ai_state a1) i (c_x st) (c_y st)
                 then aiMoveThenAttack i enemy st px py a1
                 else (a1, false)
             | None =>
                 match canSee, e_lastSeenPlayer enemy with
                 | false, Some c =>
                     if (e_x enemy =? c_x c) && (e_y enemy =? c_y c) then
                       (aiSetEnemy i (set_e_lastSeenPlayer None enemy) a1,
                        false)
                     else (a1, false)
                 | _, _ => (a1, false)
                 end
             end)))).
  { intros tx ty.
    destruct (isAdjacentToPlayer enemy px py); [apply aiAttack_step|].
    pose proof (aiFindPath_state enemy tx ty a) as Hst.
    destruct (aiFindPath enemy tx ty a) as [step a1]. cbn [snd] in Hst.
    rewrite <- Hst in *.
    destruct step as [st|].
    - destruct ((c_x st =? px) && (c_y st =? py)); [apply aiAttack_step|].
      destruct (canMoveToTile (ai_state a1) i (c_x st) (c_y st)) eqn:Hcan.
      + apply aiMoveThenAttack_step; assumption.
      + apply ai_refl.
    - destruct canSee; [apply ai_refl|].
      destruct (e_lastSeenPlayer enemy) as [c|]; [|apply ai_refl].
      destruct ((e_x enemy =? c_x c) && (e_y enemy =? c_y c)).
      + apply ai_remember; assumption.
      + apply ai_refl. }
  destruct canSee; [apply Hmain|].
  destruct (e_lastSeenPlayer enemy) as [c|] eqn:Hls.
  - specialize (Hmain (c_x c) (c_y c)). exact Hmain.
  - apply ai_refl.
Qed.

Lemma patrolTurn_step (i : nat) (enemy : Enemy) (canSee : bool)
    (px py : Z) (a : AI) :
  nth_error (g_enemies (ai_state a)) i = Some enemy ->
  aiStep (ai_state a) (ai_state (fst (patrolTurn i enemy canSee px py a))).
Proof.
  intros Hnth. unfold patrolTurn.
  destruct canSee; [|apply ai_refl].
  destruct (isAdjacentToPlayer enemy px py); [apply aiAttack_step|].
  pose proof (aiFindPath_state enemy px py a) as Hst.
  destruct (aiFindPath enemy px py a) as [step a1]. cbn [snd] in Hst.
  rewrite <- Hst in *.
  destruct step as [st|]; [|apply ai_refl].
  destruct (canMoveToTile (ai_state a1) i (c_x st) (c_y st)) eqn:Hcan.
  - apply aiMoveThenAttack_step; assumption.
  - apply ai_refl.
Qed.

Lemma stationaryTurn_step (enemy : Enemy) (px py : Z) (a : AI) :
  aiStep (ai_state a) (ai_state (fst (stationaryTurn enemy px py a))).
Proof.
  unfold stationaryTurn.
  destruct (isAdjacentToPlayer enemy px py);
    [apply aiAttack_step | apply ai_refl].
Qed.

Lemma nth_error_setNth_same {A} (l : list A) :
  forall i v a, nth_error l i = Some a -> nth_error (setNth i v l) i = Some v.
Proof.
  induction l as [|b l IH]; intros [|i] v a H; simpl in *;
    try discriminate; [reflexivity | eapply IH; eassumption].
Qed.

Lemma nth_error_setNth_other {A} (l : list A) :
  forall i j v, i <> j -> nth_error (setNth i v l) j = nth_error l j.
Proof.
  induction l as [|b l IH]; intros [|i] [|j] v H; simpl; try reflexivity;
    [congruence | apply IH; congruence].
Qed.

Lemma setNth_length {A} (l : list A) :
  forall i v, List.length (setNth i v l) = List.length l.
Proof.
  induction l as [|b l IH]; intros [|i] v; simpl; try reflexivity.
  now rewrite IH.
Qed.

Lemma enemyTurn_step (px py : Z) (i : nat) (dist : Z) (a : AI) :
  aiStep (ai_state a) (ai_state (fst (enemyTurn px py i dist a))).
Proof.
  unfold enemyTurn.
  destruct (nth_error (g_enemies (ai_state a)) i) as [enemy0|] eqn:Hnth;
    [|apply ai_refl].
  destruct (dist >? VISION_RADIUS + 2); [apply ai_refl|].
  set (canSee := hasLineOfSight (ai_state a) (e_x enemy0) (e_y enemy0) px py).
  set (enemy := if canSee
                then set_e_lastSeenPlayer (Some {| c_x := px; c_y := py |})
                                          enemy0
                else enemy0).
  set (a0 := if canSee then aiSetEnemy i enemy a else a).
  assert (H0 : aiStep (ai_state a) (ai_state a0)).
  { subst a0 enemy. destruct canSee; [|apply ai_refl].
    apply ai_remember; assumption. }
  assert (Hnth0 : nth_error (g_enemies (ai_state a0)) i = Some enemy).
  { subst a0 enemy. destruct canSee; [|exact Hnth].
    cbn [aiSetEnemy ai_state updEnemy set_g_enemies g_enemies].
    eapply nth_error_setNth_same; eassumption. }
  eapply ai_trans; [exact H0|].
  destruct (e_behavior enemy).
  - apply aggressiveTurn_step; assumption.
  - apply patrolTurn_step; assumption.
  - destruct (hpPercentBelow30 (e_hp enemy) (e_maxHp enemy) && canSee).
    + apply fleeTurn_step; assumption.
    + apply aggressiveTurn_step; assumption.
  - apply stationaryTurn_step.
Qed.

Lemma moveEnemiesLoop_step (px py : Z) (activeEnemies : list (nat * Z)) :
  forall a, aiStep (ai_state a)
                   (ai_state (moveEnemiesLoop px py activeEnemies a)).
Proof.
  induction activeEnemies as [|[i dist] rest IH]; intros a;
    cbn [moveEnemiesLoop]; [apply ai_refl|].
  pose proof (enemyTurn_step px py i dist a) as Hturn.
  destruct (enemyTurn px py i dist a) as [a' stop]. cbn [fst] in Hturn.
  destruct stop; [exact Hturn|].
  eapply ai_trans; [exact Hturn | apply IH].
Qed.

Lemma moveEnemies_step (state : GameState) :
  aiStep state (snd (moveEnemies state)).
Proof.
  unfold moveEnemies. cbn [snd].
  apply (moveEnemiesLoop_step _ _ _
           {| ai_state := state; ai_events := [];
              ai_pathfindingCount := 0 |}).
Qed.

(** *** What a step keeps *)

Lemma enemyFrame_refl (e : Enemy) : enemyFrame e e.
Proof. unfold enemyFrame; repeat split; reflexivity. Qed.

Lemma enemyFrame_trans (a b c : Enemy) :
  enemyFrame a b -> enemyFrame b c -> enemyFrame a c.
Proof. unfold enemyFrame; intuition congruence. Qed.

Lemma Forall2_enemyFrame_refl (es : list Enemy) : Forall2 enemyFrame es es.
Proof. induction es; constructor; [apply enemyFrame_refl | assumption]. Qed.

Lemma Forall2_enemyFrame_trans (xs : list Enemy) :
  forall ys zs, Forall2 enemyFrame xs ys -> Forall2 enemyFrame ys zs ->
                Forall2 enemyFrame xs zs.
Proof.
  induction xs as [|x xs IH]; intros ys zs H1 H2; inversion H1; subst;
    inversion H2; subst; constructor.
  - eapply enemyFrame_trans; eassumption.
  - eapply IH; eassumption.
Qed.

Lemma Forall2_enemyFrame_setNth (es : list Enemy) :
  forall i e e', nth_error es i = Some e -> enemyFrame e e' ->
                 Forall2 enemyFrame es (setNth i e' es).
Proof.
  induction es as [|b es IH]; intros [|i] e e' Hnth Hf; simpl in *;
    try discriminate.
  - inversion Hnth; subst. constructor;
      [assumption | apply Forall2_enemyFrame_refl].
  - constructor; [apply enemyFrame_refl | eapply IH; eassumption].
Qed.

Lemma aiFrame_refl (s : GameState) : aiFrame s s.
Proof.
  unfold aiFrame. repeat split; try reflexivity; try lia.
  apply Forall2_enemyFrame_refl.
Qed.

Lemma aiFrame_trans (s1 s2 s3 : GameState) :
  aiFrame s1 s2 -> aiFrame s2 s3 -> aiFrame s1 s3.
Proof.
  unfold aiFrame.
  intros (A1 & A2 & A3 & A4 & A5 & A6 & A7 & A8)
         (B1 & B2 & B3 & B4 & B5 & B6 & B7 & B8).
  repeat split; try congruence; try lia.
  eapply Forall2_enemyFrame_trans; eassumption.
Qed.

Lemma enemyAttackPlayer_frame (s : GameState) (e : Enemy) :
  aiFrame s (snd (enemyAttackPlayer s e)).
Proof.
  unfold enemyAttackPlayer.
  cbn [g_player set_g_player p_hp set_p_hp].
  destruct (p_hp (g_player s) - Z.max 1 (e_attack e - p_defense (g_player s))
            <=? 0);
    unfold aiFrame; cbn; repeat split; try reflexivity; try lia;
    apply Forall2_enemyFrame_refl.
Qed.

Lemma aiStep_frame (s s' : GameState) : aiStep s s' -> aiFrame s s'.
Proof.
  induction 1.
  - apply aiFrame_refl.
  - eapply aiFrame_trans; eassumption.
  - unfold aiFrame; cbn. repeat split; try reflexivity; try lia.
    eapply Forall2_enemyFrame_setNth; [eassumption|].
    unfold enemyFrame; cbn; repeat split; reflexivity.
  - unfold aiFrame; cbn. repeat split; try reflexivity; try lia.
    eapply Forall2_enemyFrame_setNth; [eassumption|].
    unfold enemyFrame; cbn; repeat split; reflexivity.
  - apply enemyAttackPlayer_frame.
Qed.

Lemma moveEnemies_frame (state : GameState) :
  aiFrame state (snd (moveEnemies state)).
Proof. apply aiStep_frame, moveEnemies_step. Qed.

(** ** Live enemies stay on tiles of their own *)

Lemma existsb_liveEnemyAt_false (x y : Z) (es : list Enemy) :
  existsb (liveEnemyAt x y) es = false ->
  forall j b, nth_error es j = Some b -> e_hp b > 0 ->
              ~ (e_x b = x /\ e_y b = y).
Proof.
  intros Hex j b Hnth Hhp [Hx Hy].
  apply nth_error_In in Hnth.
  assert (Ht : existsb (liveEnemyAt x y) es = true).
  { apply existsb_exists. exists b. split; [assumption|].
    unfold liveEnemyAt. rewrite Hx, Hy, !Z.eqb_refl. cbn [andb].
    apply Z.gtb_lt. lia. }
  congruence.
Qed.

Lemma otherLiveEnemyAt_false (x y : Z) (es : list Enemy) :
  forall i, otherLiveEnemyAt i x y es = false ->
  forall j b, j <> i -> nth_error es j = Some b -> e_hp b > 0 ->
              ~ (e_x b = x /\ e_y b = y).
Proof.
  induction es as [|e es IH]; intros i Hoth j b Hji Hnth Hhp.
  - destruct j; discriminate.
  - destruct i as [|i]; cbn [otherLiveEnemyAt] in Hoth.
    + destruct j as [|j]; [congruence|]. cbn [nth_error] in Hnth.
      eapply existsb_liveEnemyAt_false; eassumption.
    + apply orb_false_elim in Hoth. destruct Hoth as [He Hrest].
      destruct j as [|j]; cbn [nth_error] in Hnth.
      * inversion Hnth; subst b. intros [Hx Hy].
        unfold liveEnemyAt in He. rewrite Hx, Hy, !Z.eqb_refl in He.
        cbn [andb] in He. rewrite Z.gtb_ltb in He. apply Z.ltb_ge in He. lia.
      * eapply IH; [exact Hrest | | exact Hnth | exact Hhp]. congruence.
Qed.

Lemma canMoveToTile_free (s : GameState) (i : nat) (x y : Z) :
  canMoveToTile s i x y = true ->
  ~ (x = p_x (g_player s) /\ y = p_y (g_player s))
  /\ otherLiveEnemyAt i x y (g_enemies s) = false.
Proof.
  unfold canMoveToTile. intros H.
  destruct ((x <? 0) || (x >=? mapWidth (g_map s))
            || (y <? 0) || (y >=? mapHeight (g_map s))); [discriminate|].
  destruct (tileIs (g_map s) x y tile_wall); [discriminate|].
  destruct ((x =? p_x (g_player s)) && (y =? p_y (g_player s))) eqn:Hp;
    [discriminate|].
  destruct (otherLiveEnemyAt i x y (g_enemies s)); [discriminate|].
  split; [|reflexivity]. intros [Hx Hy].
  rewrite Hx, Hy, !Z.eqb_refl in Hp. discriminate.
Qed.

Lemma liveSeparated_ext (s s' : GameState) :
  g_enemies s' = g_enemies s ->
  p_x (g_player s') = p_x (g_player s) ->
  p_y (g_player s') = p_y (g_player s) ->
  liveSeparated s -> liveSeparated s'.
Proof.
  unfold liveSeparated. intros He Hx Hy. rewrite He, Hx, Hy. tauto.
Qed.

(** Replacing enemy [i] by an enemy that, if alive, stands where no other
    live enemy and no player is. *)
Lemma liveSeparated_updEnemy (s : GameState) (i : nat) (e e' : Enemy) :
  nth_error (g_enemies s) i = Some e ->
  liveSeparated s ->
  (e_hp e' > 0 ->
     (forall j b, j <> i -> nth_error (g_enemies s) j = Some b ->
                  e_hp b > 0 -> ~ (e_x b = e_x e' /\ e_y b = e_y e'))
     /\ ~ (e_x e' = p_x (g_player s) /\ e_y e' = p_y (g_player s))) ->
  liveSeparated (updEnemy i e' s).
Proof.
  intros Hnth [Hpairs Hplayer] Hnew.
  unfold liveSeparated, updEnemy.
  cbn [g_enemies set_g_enemies g_player].
  split.
  - intros i1 j1 a b Hne Ha Hb Hha Hhb.
    destruct (Nat.eq_dec i1 i) as [->|Hi1];
      destruct (Nat.eq_dec j1 i) as [->|Hj1]; try congruence.
    + rewrite (nth_error_setNth_same _ _ _ _ Hnth) in Ha.
      inversion Ha; subst a.
      rewrite nth_error_setNth_other in Hb by congruence.
      destruct (Hnew Hha) as [Hfree _].
      intros [Hx Hy]. eapply Hfree; [| exact Hb | exact Hhb |]; [congruence|].
      split; congruence.
    + rewrite (nth_error_setNth_same _ _ _ _ Hnth) in Hb.
      inversion Hb; subst b.
      rewrite nth_error_setNth_other in Ha by congruence.
      destruct (Hnew Hhb) as [Hfree _].
      eapply Hfree; [| exact Ha | exact Hha]. congruence.
    + rewrite nth_error_setNth_other in Ha by congruence.
      rewrite nth_error_setNth_other in Hb by congruence.
      eapply (Hpairs i1 j1); eassumption.
  - intros i1 a Ha Hha.
    destruct (Nat.eq_dec i1 i) as [->|Hi1].
    + rewrite (nth_error_setNth_same _ _ _ _ Hnth) in Ha.
      inversion Ha; subst a. apply (Hnew Hha).
    + rewrite nth_error_setNth_other in Ha by congruence.
      eapply Hplayer; eassumption.
Qed.

(** The same enemy, as far as tiles are concerned, and not more alive. *)
Lemma liveSeparated_updEnemy_same_tile (s : GameState) (i : nat)
    (e e' : Enemy) :
  nth_error (g_enemies s) i = Some e ->
  e_x e' = e_x e -> e_y e' = e_y e -> e_hp e' <= e_hp e ->
  liveSeparated s -> liveSeparated (updEnemy i e' s).
Proof.
  intros Hnth Hx Hy Hhp Hsep.
  eapply liveSeparated_updEnemy; [exact Hnth | exact Hsep |].
  intros Hlive. destruct Hsep as [Hpairs Hplayer]. split.
  - intros j b Hji Hb Hhb [Hbx Hby].
    apply (Hpairs j i b e Hji Hb Hnth Hhb ltac:(lia)). split; congruence.
  - rewrite Hx, Hy. apply (Hplayer i e Hnth). lia.
Qed.

Lemma aiStep_liveSeparated (s s' : GameState) :
  aiStep s s' -> liveSeparated s -> liveSeparated s'.
Proof.
  induction 1; intros Hsep.
  - exact Hsep.
  - auto.
  - eapply liveSeparated_updEnemy_same_tile;
      [eassumption | reflexivity | reflexivity | cbn; lia | exact Hsep].
  - eapply liveSeparated_updEnemy; [eassumption | exact Hsep |].
    intros _. cbn [set_e_pos e_x e_y].
    destruct (canMoveToTile_free _ _ _ _ H0) as [Hp Hoth]. split.
    + intros j b Hji Hb Hhb.
      eapply otherLiveEnemyAt_false; eassumption.
    + exact Hp.
  - pose proof (enemyAttackPlayer_frame s e) as Hf.
    unfold enemyAttackPlayer in *. cbn [g_player set_g_player p_hp set_p_hp] in *.
    destruct (p_hp (g_player s) - Z.max 1 (e_attack e - p_defense (g_player s))
              <=? 0);
      eapply liveSeparated_ext; try exact Hsep; reflexivity.
Qed.

(** ** The player's half of a turn *)

Lemma samePlace_refl (p : Player) : samePlace p p.
Proof. unfold samePlace; repeat split; reflexivity. Qed.

Lemma samePlace_trans (p q r : Player) :
  samePlace p q -> samePlace q r -> samePlace p r.
Proof. unfold samePlace; intuition congruence. Qed.

Lemma levelUpLoop_samePlace (fuel : nat) :
  forall p events p' events',
    levelUpLoop fuel p events = Some (p', events') ->
    samePlace p p' /\ exists more, events' = events ++ more.
Proof.
  induction fuel as [|fuel IH]; intros p events p' events' H;
    cbn [levelUpLoop] in H;
    destruct (p_xp p >=? p_xpToNextLevel p); try discriminate.
  - inversion H; subst. split; [apply samePlace_refl|].
    exists []. now rewrite app_nil_r.
  - apply IH in H. destruct H as [Hp (more & Hm)]. split.
    + eapply samePlace_trans; [|exact Hp].
      unfold samePlace, levelUpStep; cbn; repeat split; reflexivity.
    + exists (levelUpEvent (levelUpStep p) :: more).
      rewrite Hm, <- app_assoc. reflexivity.
  - inversion H; subst. split; [apply samePlace_refl|].
    exists []. now rewrite app_nil_r.
Qed.

Lemma grantXp_frame (s : GameState) (enemy : Enemy) :
  stageFrame s (snd (grantXp s enemy))
  /\ g_score (snd (grantXp s enemy)) = g_score s
  /\ g_items (snd (grantXp s enemy)) = g_items s.
Proof.
  unfold grantXp.
  destruct (levelUpLoop _ _ _) as [[p' events']|] eqn:Hloop.
  - apply levelUpLoop_samePlace in Hloop. destruct Hloop as [Hp _].
    unfold stageFrame; cbn [snd g_map g_fog g_enemies g_floor g_status
      g_updatedAt g_player set_g_player g_score g_items].
    repeat split; try reflexivity;
      destruct Hp as (H1 & H2 & H3 & H4); cbn in *; assumption.
  - unfold stageFrame, samePlace; cbn. repeat split; reflexivity.
Qed.

(** The call of [grantXp] in the goal, split into its events and state,
    with what it keeps. *)
Ltac grantXp_split H :=
  match goal with
  | |- context [grantXp ?st ?en] =>
      pose proof (grantXp_frame st en) as H;
      destruct (grantXp st en) as [xpEvents state3]
  end.

Lemma stageFrame_liveSeparated (s s' : GameState) :
  stageFrame s s' -> liveSeparated s -> liveSeparated s'.
Proof.
  intros (_ & _ & He & _ & _ & _ & Hx & Hy & _).
  apply liveSeparated_ext; assumption.
Qed.

Lemma stageFrame_trans (s1 s2 s3 : GameState) :
  stageFrame s1 s2 -> stageFrame s2 s3 -> stageFrame s1 s3.
Proof.
  unfold stageFrame.
  intros (A1 & A2 & A3 & A4 & A5 & A6 & A7) (B1 & B2 & B3 & B4 & B5 & B6 & B7).
  repeat split; try congruence.
  all: eapply samePlace_trans; eassumption.
Qed.

Lemma stageFrame_refl (s : GameState) : stageFrame s s.
Proof.
  unfold stageFrame; repeat split; try reflexivity.
Qed.

(** The melee attack: the enemy at index [i] loses [damage] hit points
    (nothing clamps them), the player stays where he is. *)
Lemma attackEnemy_effect (s : GameState) (i : nat) (e : Enemy) :
  let damage := Z.max 1 (p_attack (g_player s) - e_defense e) in
  let r := attackEnemy s i e in
  g_enemies (snd r) = setNth i (set_e_hp (e_hp e - damage) e) (g_enemies s)
  /\ g_map (snd r) = g_map s /\ g_fog (snd r) = g_fog s
  /\ g_items (snd r) = g_items s /\ g_floor (snd r) = g_floor s
  /\ g_status (snd r) = g_status s
  /\ samePlace (g_player s) (g_player (snd r))
  /\ (exists more,
        fst r = eventWith player_attacked
                  (PlayerAttackedEventData (e_x e) (e_y e) damage (e_id e))
                :: more)
  /\ (e_hp e - damage <= 0 ->
        In (eventWith enemy_killed (EnemyKilledEventData (e_id e) (e_type e)))
           (fst r)
        /\ g_score (snd r) = g_score s + getEnemyScore (e_type e))
  /\ (e_hp e - damage > 0 -> g_score (snd r) = g_score s
                             /\ g_player (snd r) = g_player s).
Proof.
  intros damage r. subst r. unfold attackEnemy. fold damage.
  cbn [e_hp set_e_hp e_x e_y e_id e_type].
  destruct (e_hp e - damage <=? 0) eqn:Hdead.
  - grantXp_split Hxp. destruct Hxp as (Hf & Hscore & Hitems).
    cbn [fst snd] in *.
    destruct Hf as (F1 & F2 & F3 & F4 & F5 & F6 & F7).
    cbn [g_map g_fog g_enemies g_floor g_status g_player g_score g_items
         set_g_score updEnemy set_g_enemies] in *.
    repeat split; try assumption; try (destruct F7 as (?&?&?&?); assumption).
    + eexists. reflexivity.
    + right. apply in_or_app. left. left. reflexivity.
    + apply Z.leb_le in Hdead. lia.
    + apply Z.leb_le in Hdead. lia.
  - cbn [fst snd g_map g_fog g_enemies g_floor g_status g_player g_score
         g_items updEnemy set_g_enemies].
    apply Z.leb_gt in Hdead.
    repeat split; try reflexivity; try lia.
    eexists. reflexivity.
Qed.

Lemma Forall2_nth_error_frame (es es' : list Enemy) :
  Forall2 enemyFrame es es' ->
  forall i e, nth_error es i = Some e ->
  exists e', nth_error es' i = Some e' /\ enemyFrame e e'.
Proof.
  induction 1 as [|a b l l' Hab Hl IH]; intros [|i] e Hnth; simpl in *;
    try discriminate.
  - inversion Hnth; subst. exists b. split; [reflexivity | assumption].
  - apply IH, Hnth.
Qed.

Lemma updateFog_frame (s : GameState) :
  g_map (updateFog s) = g_map s /\ g_enemies (updateFog s) = g_enemies s
  /\ g_player (updateFog s) = g_player s
  /\ g_status (updateFog s) = g_status s
  /\ g_score (updateFog s) = g_score s /\ g_items (updateFog s) = g_items s
  /\ g_floor (updateFog s) = g_floor s.
Proof. unfold updateFog; cbn; repeat split; reflexivity. Qed.

Lemma enemyPhase_frame (env : Env) (s : GameState) (events : list GameEvent) :
  aiFrame s (snd (enemyPhase env s events))
  /\ exists enemyEvents, fst (enemyPhase env s events) = events ++ enemyEvents.
Proof.
  unfold enemyPhase.
  destruct (GameStatus_eqb (g_status s) active).
  - pose proof (moveEnemies_frame s) as Hf.
    destruct (moveEnemies s) as [enemyEvents s']. cbn [fst snd] in *.
    split; [|eexists; reflexivity].
    unfold aiFrame in *; cbn. exact Hf.
  - cbn [fst snd]. split; [|eexists; reflexivity].
    unfold aiFrame; cbn. repeat split; try reflexivity; try lia.
    apply Forall2_enemyFrame_refl.
Qed.

Lemma enemyPhase_liveSeparated (env : Env) (s : GameState)
    (events : list GameEvent) :
  liveSeparated s -> liveSeparated (snd (enemyPhase env s events)).
Proof.
  intros Hsep. unfold enemyPhase.
  destruct (GameStatus_eqb (g_status s) active).
  - pose proof (moveEnemies_step s) as Hstep.
    destruct (moveEnemies s) as [enemyEvents s']. cbn [fst snd] in *.
    eapply liveSeparated_ext;
      [| | | eapply aiStep_liveSeparated; [exact Hstep | exact Hsep]];
      reflexivity.
  - cbn [snd]. eapply liveSeparated_ext; try exact Hsep; reflexivity.
Qed.

(** ** Melee *)

(** The bounds test of [processMove], for a target cell on the map. *)
Ltac on_map_bounds :=
  match goal with
  | |- context [(?y <? 0) || (?y >=? ?h) || (?x <? 0) || (?x >=? ?w)] =>
      replace ((y <? 0) || (y >=? h) || (x <? 0) || (x >=? w)) with false
        by (symmetry; rewrite !Z.geb_leb; repeat apply orb_false_intro;
            try apply Z.ltb_ge; try apply Z.leb_gt; lia)
  end.

Lemma turnTo_place (d : Direction) (p : Player) :
  p_x (turnTo d p) = p_x p /\ p_y (turnTo d p) = p_y p
  /\ p_facingDirection (turnTo d p) = facingAfter d (p_facingDirection p)
  /\ p_attack (turnTo d p) = p_attack p
  /\ p_character (turnTo d p) = p_character p.
Proof. destruct d; cbn; repeat split; reflexivity. Qed.

Lemma aiFrame_place (s s' : GameState) :
  aiFrame s s' -> samePlace (g_player s) (g_player s').
Proof.
  intros (_ & _ & _ & _ & _ & Hp & _).
  unfold samePlace.
  repeat split;
    [apply (f_equal p_x) in Hp | apply (f_equal p_y) in Hp
     | apply (f_equal p_facingDirection) in Hp
     | apply (f_equal p_character) in Hp]; exact Hp.
Qed.

Lemma getVisibleEnemies_alive (s : GameState) (e : Enemy) :
  In e (getVisibleEnemies s) ->
  e_hp e > 0 /\ fogAt (g_fog s) (e_x e) (e_y e) = true.
Proof.
  unfold getVisibleEnemies. intros H. apply filter_In in H.
  destruct H as [_ H]. apply andb_prop in H. destruct H as [H1 H2].
  apply Z.gtb_lt in H1. split; [lia | assumption].
Qed.

(** C4 (as the code has it). A move onto a tile held by a live enemy is an
    attack: the player stays where he is, the first live enemy on the tile
    loses exactly [max(1, playerAttack - enemyDefense)] hit points, and the
    facing direction changes only on left and right.  The hit points are
    not clamped: they are [hp - damage], also below zero; an enemy at
    [hp <= 0] is reported killed and counts as dead for every occupancy
    test and for the visible enemies. *)
Theorem processMove_melee (env : Env) (state : GameState)
    (direction : Direction) (i : nat) (enemy : Enemy) :
  let newX := p_x (g_player state) + directionDx direction in
  let newY := p_y (g_player state) + directionDy direction in
  let damage := Z.max 1 (p_attack (g_player state) - e_defense enemy) in
  g_status state = active ->
  0 <= newX < mapWidth (g_map state) ->
  0 <= newY < mapHeight (g_map state) ->
  tileIs (g_map state) newX newY tile_wall = false ->
  findIndex (liveEnemyAt newX newY) (g_enemies state) = Some i ->
  nth_error (g_enemies state) i = Some enemy ->
  exists events state' enemy',
    processMove env state direction = Some (events, state')
    /\ p_x (g_player state') = p_x (g_player state)
    /\ p_y (g_player state') = p_y (g_player state)
    /\ p_facingDirection (g_player state')
       = facingAfter direction (p_facingDirection (g_player state))
    /\ nth_error (g_enemies state') i = Some enemy'
    /\ e_hp enemy' = e_hp enemy - damage
    /\ hd_error events
       = Some (eventWith player_attacked
                 (PlayerAttackedEventData (e_x enemy) (e_y enemy) damage
                                          (e_id enemy)))
    /\ (e_hp enemy' <= 0 ->
          In (eventWith enemy_killed
                (EnemyKilledEventData (e_id enemy) (e_type enemy))) events
          /\ ~ In enemy' (getVisibleEnemies state')
          /\ forall x y, liveEnemyAt x y enemy' = false).
Proof.
  intros newX newY damage Hactive Hx Hy Hwall Hfind Hnth.
  unfold processMove. rewrite Hactive. cbn [GameStatus_eqb negb].
  fold newX. fold newY.
  on_map_bounds.
  rewrite Hwall, Hfind, Hnth.
  set (state1 := set_g_player (turnTo direction (g_player state)) state).
  pose proof (turnTo_place direction (g_player state))
    as (Tx & Ty & Tf & Ta & _).
  assert (Hnth1 : nth_error (g_enemies state1) i = Some enemy) by exact Hnth.
  pose proof (attackEnemy_effect state1 i enemy)
    as (Aen & _ & _ & _ & _ & _ & Aplace & (more & Aev) & Akill & _).
  cbn [g_player set_g_player state1] in Aen, Aplace, Aev, Akill.
  fold state1 in Aen, Aplace, Aev, Akill.
  rewrite Ta in Aen, Aev, Akill. fold damage in Aen, Aev, Akill.
  destruct (attackEnemy state1 i enemy) as [attackEvents state2].
  cbn [fst snd] in *.
  pose proof (enemyPhase_frame env (updateFog state2) attackEvents)
    as [Hframe (enemyEvents & Hev)].
  destruct (enemyPhase env (updateFog state2) attackEvents)
    as [events state'].
  cbn [fst snd] in *.
  pose proof (aiFrame_place _ _ Hframe) as (Px & Py & Pf & _).
  destruct (updateFog_frame state2) as (_ & Uen & Upl & _).
  rewrite Upl in Px, Py, Pf.
  destruct Aplace as (Ax & Ay & Af & _).
  destruct Hframe as (_ & _ & _ & _ & _ & _ & _ & Hall).
  rewrite Uen, Aen in Hall.
  destruct (Forall2_nth_error_frame _ _ Hall i
              (set_e_hp (e_hp enemy - damage) enemy)
              (nth_error_setNth_same _ _ _ _ Hnth1))
    as (enemy' & Hnth' & Hef).
  destruct Hef as (Hid & Hty & _ & _ & Hhp & _).
  cbn [set_e_hp e_hp e_id e_type] in Hid, Hty, Hhp.
  exists events, state', enemy'.
  split; [reflexivity|].
  split; [congruence|]. split; [congruence|]. split; [congruence|].
  split; [exact Hnth'|]. split; [exact Hhp|].
  split; [rewrite Hev, Aev; reflexivity|].
  intros Hdead. split; [|split].
  - rewrite Hev. apply in_or_app. left. apply Akill. lia.
  - intros Hin. apply getVisibleEnemies_alive in Hin. lia.
  - intros x y. unfold liveEnemyAt.
    replace (e_hp enemy' >? 0) with false
      by (symmetry; rewrite Z.gtb_ltb; apply Z.ltb_ge; lia).
    apply andb_false_r.
Qed.

Lemma processMove_melee_witness :
  exists events state' enemy',
    processMove zeroEnv meleeState dir_right = Some (events, state')
    /\ p_x (g_player state') = 5 /\ p_y (g_player state') = 5
    /\ p_facingDirection (g_player state') = face_right
    /\ nth_error (g_enemies state') 0 = Some enemy'
    /\ e_hp enemy' = 6 - 10.
Proof.
  destruct (processMove_melee zeroEnv meleeState dir_right 0%nat
              (createTestEnemy "rat-1" rat normal 6 5))
    as (events & state' & enemy' & H1 & H2 & H3 & H4 & H5 & H6 & _);
    try reflexivity; try (vm_compute; split; congruence).
  exists events, state', enemy'. repeat split; assumption.
Defined.

(** The hit points of the rat of the melee scenario after the attack:
    [6 - 10], below zero. *)
Lemma melee_hp_goes_negative :
  exists events state' enemy',
    processMove zeroEnv meleeState dir_right = Some (events, state')
    /\ nth_error (g_enemies state') 0 = Some enemy'
    /\ e_hp enemy' = -4 /\ ~ (0 <= e_hp enemy').
Proof.
  vm_compute. do 3 eexists. split; [reflexivity|].
  split; [reflexivity|]. split; [reflexivity|].
  intros H; apply H; reflexivity.
Qed.

(** ** Ranged attack *)

Lemma rangedScan_stops (state : GameState) (dx px py k : Z) (steps : nat) :
  forall i hx hy,
    i <= k -> k - i < Z.of_nat steps ->
    (forall t, i <= t < k -> cellClear state (px + dx * t) py) ->
    0 <= px + dx * k < mapWidth (g_map state) ->
    (tileIs (g_map state) (px + dx * k) py tile_wall = true ->
       rangedScan steps state dx px py i hx hy
       = {| hitEnemy := None; hitX := px + dx * k; hitY := py |})
    /\ (forall j enemy,
          tileIs (g_map state) (px + dx * k) py tile_wall = false ->
          findIndex (liveEnemyAt (px + dx * k) py) (g_enemies state) = Some j ->
          nth_error (g_enemies state) j = Some enemy ->
          rangedScan steps state dx px py i hx hy
          = {| hitEnemy := Some (j, enemy); hitX := px + dx * k;
               hitY := py |}).
Proof.
  induction steps as [|steps IH]; intros i hx hy Hik Hsteps Hclear Hin;
    [cbn in Hsteps; lia|].
  cbn [rangedScan].
  destruct (Z.eq_dec i k) as [->|Hne].
  - replace ((px + dx * k <? 0) || (px + dx * k >=? mapWidth (g_map state)))
      with false
      by (symmetry; rewrite Z.geb_leb; apply orb_false_intro;
          [apply Z.ltb_ge | apply Z.leb_gt]; lia).
    split.
    + intros Hw. rewrite Hw. reflexivity.
    + intros j enemy Hw Hf Hn. rewrite Hw, Hf, Hn. reflexivity.
  - destruct (Hclear i ltac:(lia)) as (Hb & Hw & Hf).
    replace ((px + dx * i <? 0) || (px + dx * i >=? mapWidth (g_map state)))
      with false
      by (symmetry; rewrite Z.geb_leb; apply orb_false_intro;
          [apply Z.ltb_ge | apply Z.leb_gt]; lia).
    rewrite Hw, Hf.
    apply IH; [lia | lia | intros t Ht; apply Hclear; lia | assumption].
Qed.

Lemma rangedAttack_map (s : GameState) :
  g_map (snd (rangedAttack s)) = g_map s.
Proof.
  unfold rangedAttack.
  destruct (hitEnemy _) as [[j en]|]; [|reflexivity].
  destruct (e_hp (set_e_hp _ en) <=? 0); [|reflexivity].
  grantXp_split Hxp. destruct Hxp as (Hsf & _ & _).
  cbn [fst snd] in *. destruct Hsf as (F1 & _). exact F1.
Qed.

Lemma processAttack_map (env : Env) (s : GameState) :
  g_map (snd (processAttack env s)) = g_map s.
Proof.
  unfold processAttack.
  destruct (negb (GameStatus_eqb (g_status s) active)); [reflexivity|].
  pose proof (rangedAttack_map s) as Hm.
  destruct (rangedAttack s) as [events state1]. cbn [snd] in Hm.
  pose proof (enemyPhase_frame env state1 events) as [Hframe _].
  destruct (enemyPhase env state1 events) as [events' state'].
  cbn [snd] in *. destruct Hframe as (Hmap & _). congruence.
Qed.

(** The shot that stops within range: the cells before the [k]-th are
    clear and the [k]-th holds a wall or a live enemy. *)
Lemma processAttack_stops (env : Env) (state : GameState) (k : Z) :
  let p := g_player state in
  let dx := facingDx p in
  let cx := p_x p + dx * k in
  let result := processAttack env state in
  g_status state = active ->
  1 <= k <= rangedRangeOf p ->
  (forall t, 1 <= t < k -> cellClear state (p_x p + dx * t) (p_y p)) ->
  0 <= cx < mapWidth (g_map state) ->
  g_map (snd result) = g_map state
  /\ (tileIs (g_map state) cx (p_y p) tile_wall = true ->
        (exists enemyEvents,
           fst result
           = eventWith ranged_missed
               (RangedAttackEventData cx (p_y p) 0 None
                  (getAttackType (p_character p)))
             :: enemyEvents)
        /\ forall j e, nth_error (g_enemies state) j = Some e ->
             exists e', nth_error (g_enemies (snd result)) j = Some e'
                        /\ e_hp e' = e_hp e)
  /\ (forall i enemy,
        tileIs (g_map state) cx (p_y p) tile_wall = false ->
        findIndex (liveEnemyAt cx (p_y p)) (g_enemies state) = Some i ->
        nth_error (g_enemies state) i = Some enemy ->
        let damage := Z.max 1 (rangedDamageOf p - e_defense enemy) in
        (exists more,
           fst result
           = eventWith ranged_attack
               (RangedAttackEventData cx (p_y p) damage (Some (e_id enemy))
                  (getAttackType (p_character p)))
             :: more)
        /\ forall j e, nth_error (g_enemies state) j = Some e ->
             exists e', nth_error (g_enemies (snd result)) j = Some e'
                        /\ e_hp e' = if Nat.eqb j i then e_hp e - damage
                                     else e_hp e).
Proof.
  intros p dx cx result Hactive Hk Hclear Hin.
  destruct (rangedScan_stops state dx (p_x p) (p_y p) k
              (Z.to_nat (rangedRangeOf p)) 1 (p_x p) (p_y p)
              ltac:(lia) ltac:(lia) Hclear Hin) as [Hwallscan Henemyscan].
  fold cx in Hwallscan, Henemyscan.
  subst result.
  destruct (tileIs (g_map state) cx (p_y p) tile_wall) eqn:Hw.
  - unfold processAttack. rewrite Hactive.
    cbn [GameStatus_eqb negb]. unfold rangedAttack.
    fold p. fold dx.
    rewrite (Hwallscan eq_refl). cbn [hitEnemy hitX hitY].
    match goal with
    | |- context [enemyPhase env state ?evs] =>
        pose proof (enemyPhase_frame env state evs)
          as [Hframe (enemyEvents & Hev)];
        destruct (enemyPhase env state evs) as [events state']
    end.
    cbn [fst snd] in *.
    destruct Hframe as (Hmap & _ & _ & _ & _ & _ & _ & Hall).
    split; [exact Hmap|]. split; [|intros; discriminate].
    intros _. split; [exists enemyEvents; exact Hev|].
    intros j e Hj.
    destruct (Forall2_nth_error_frame _ _ Hall j e Hj) as (e' & He' & Hf).
    exists e'. split; [exact He' | apply Hf].
  - assert (Hcase :
      forall i enemy,
        findIndex (liveEnemyAt cx (p_y p)) (g_enemies state) = Some i ->
        nth_error (g_enemies state) i = Some enemy ->
        let damage := Z.max 1 (rangedDamageOf p - e_defense enemy) in
        let r := processAttack env state in
        g_map (snd r) = g_map state
        /\ (exists more,
              fst r
              = eventWith ranged_attack
                  (RangedAttackEventData cx (p_y p) damage (Some (e_id enemy))
                     (getAttackType (p_character p)))
                :: more)
        /\ forall j e, nth_error (g_enemies state) j = Some e ->
             exists e', nth_error (g_enemies (snd r)) j = Some e'
                        /\ e_hp e' = if Nat.eqb j i then e_hp e - damage
                                     else e_hp e).
    { intros i enemy Hf Hn damage r. subst r.
      unfold processAttack. rewrite Hactive.
      cbn [GameStatus_eqb negb]. unfold rangedAttack.
      fold p. fold dx.
      rewrite (Henemyscan i enemy eq_refl Hf Hn).
      cbn [hitEnemy hitX hitY e_hp set_e_hp e_id e_type]. fold damage.
      set (enemy' := set_e_hp (e_hp enemy - damage) enemy).
      assert (Hupd : forall j e, nth_error (g_enemies state) j = Some e ->
                exists e1, nth_error (setNth i enemy' (g_enemies state)) j
                           = Some e1
                           /\ e_hp e1 = if Nat.eqb j i then e_hp e - damage
                                        else e_hp e).
      { intros j e Hj. destruct (Nat.eqb_spec j i) as [->|Hji].
        - exists enemy'. split.
          + eapply nth_error_setNth_same; eassumption.
          + rewrite Hn in Hj. inversion Hj; subst. reflexivity.
        - exists e. split; [|reflexivity].
          rewrite nth_error_setNth_other by congruence. exact Hj. }
      assert (Hfinish :
        forall evs st,
          g_map st = g_map state ->
          g_enemies st = setNth i enemy' (g_enemies state) ->
          (exists more0,
             evs = eventWith ranged_attack
                     (RangedAttackEventData cx (p_y p) damage
                        (Some (e_id enemy)) (getAttackType (p_character p)))
                   :: more0) ->
          g_map (snd (enemyPhase env st evs)) = g_map state
          /\ (exists more,
                fst (enemyPhase env st evs)
                = eventWith ranged_attack
                    (RangedAttackEventData cx (p_y p) damage
                       (Some (e_id enemy)) (getAttackType (p_character p)))
                  :: more)
          /\ forall j e, nth_error (g_enemies state) j = Some e ->
               exists e', nth_error (g_enemies (snd (enemyPhase env st evs))) j
                          = Some e'
                          /\ e_hp e' = if Nat.eqb j i then e_hp e - damage
                                       else e_hp e).
      { intros evs st Hm He (more0 & Hevs).
        pose proof (enemyPhase_frame env st evs)
          as [Hframe (enemyEvents & Hev)].
        destruct (enemyPhase env st evs) as [events state'].
        cbn [fst snd] in *.
        destruct Hframe as (Hmap & _ & _ & _ & _ & _ & _ & Hall).
        split; [congruence|]. split.
        - exists (more0 ++ enemyEvents). rewrite Hev, Hevs. reflexivity.
        - intros j e Hj. destruct (Hupd j e Hj) as (e1 & He1 & Hhp1).
          rewrite He in Hall.
          destruct (Forall2_nth_error_frame _ _ Hall j e1 He1)
            as (e' & He' & Hf').
          exists e'. split; [exact He'|].
          destruct Hf' as (_ & _ & _ & _ & Hhp & _). congruence. }
      destruct (e_hp enemy - damage <=? 0).
      - grantXp_split Hxp. destruct Hxp as (Hsf & _ & _).
        cbn [fst snd] in Hsf.
        destruct Hsf as (F1 & _ & F3 & _).
        apply Hfinish; [exact F1 | exact F3 | eexists; reflexivity].
      - apply Hfinish; [reflexivity | reflexivity | eexists; reflexivity]. }
    split; [apply processAttack_map|].
    split; [intros; discriminate|].
    intros i enemy _ Hf Hn damage.
    destruct (Hcase i enemy Hf Hn) as (_ & Hev & Hhp).
    split; assumption.
Qed.

(** ** The map generator *)

Lemma genPost_ret {A} (a : A) (P : A -> Prop) : P a -> genPost (ret a) P.
Proof. intros H st. exists a, st. split; [reflexivity | exact H]. Qed.

Lemma genPost_bind {A B} (c : Gen A) (f : A -> Gen B)
    (P : A -> Prop) (Q : B -> Prop) :
  genPost c P -> (forall a, P a -> genPost (f a) Q) -> genPost (bind c f) Q.
Proof.
  intros Hc Hf st. destruct (Hc st) as (a & st' & Hrun & Ha).
  destruct (Hf a Ha st') as (b & st'' & Hrun' & Hb).
  exists b, st''. unfold bind. rewrite Hrun. split; assumption.
Qed.

Lemma genPost_weaken {A} (c : Gen A) (P Q : A -> Prop) :
  genPost c P -> (forall a, P a -> Q a) -> genPost c Q.
Proof.
  intros Hc HPQ st. destruct (Hc st) as (a & st' & Hrun & Ha).
  exists a, st'. split; [exact Hrun | apply HPQ, Ha].
Qed.

Lemma genPost_bind_ret {A B} (a : A) (f : A -> Gen B) (Q : B -> Prop) :
  genPost (f a) Q -> genPost (bind (ret a) f) Q.
Proof. intros H st. exact (H st). Qed.

Lemma random_post (env : Env) :
  genPost (random env) (fun r => 0 <= r < RANDOM_DENOMINATOR).
Proof.
  intros st. eexists _, _. split; [reflexivity|].
  apply Z.mod_pos_bound. reflexivity.
Qed.

Lemma randomInt_post (env : Env) (lo hi : Z) :
  lo <= hi -> genPost (randomInt env lo hi) (fun v => lo <= v <= hi).
Proof.
  intros Hle. unfold randomInt.
  eapply genPost_bind; [apply random_post|].
  intros r Hr. apply genPost_ret. cbv beta in Hr.
  assert (HD : 0 < RANDOM_DENOMINATOR) by reflexivity.
  assert (H0 : 0 <= r * (hi - lo + 1) / RANDOM_DENOMINATOR)
    by (apply Z.div_pos; [apply Z.mul_nonneg_nonneg; lia | exact HD]).
  assert (H1 : r * (hi - lo + 1) / RANDOM_DENOMINATOR < hi - lo + 1).
  { apply Z.div_lt_upper_bound; [exact HD|].
    apply Z.mul_lt_mono_pos_r; lia. }
  lia.
Qed.

Lemma randomInt_total (env : Env) (lo hi : Z) :
  genPost (randomInt env lo hi) (fun _ => True).
Proof.
  unfold randomInt. eapply genPost_bind; [apply random_post|].
  intros r _. apply genPost_ret. exact I.
Qed.

Lemma insertByKey_Forall {A} (key : A -> Z) (P : A -> Prop) (a : A)
    (l : list A) :
  P a -> Forall P l -> Forall P (insertByKey key a l).
Proof.
  intros Ha Hl. induction Hl as [|b l Hb Hl IH]; cbn [insertByKey].
  - constructor; [exact Ha | constructor].
  - destruct (key a <? key b); repeat constructor; assumption.
Qed.

Lemma insertByKey_length {A} (key : A -> Z) (a : A) (l : list A) :
  List.length (insertByKey key a l) = S (List.length l).
Proof.
  induction l as [|b l IH]; cbn [insertByKey]; [reflexivity|].
  destruct (key a <? key b); cbn [List.length]; [reflexivity|].
  now rewrite IH.
Qed.

Lemma sortByKey_Forall {A} (key : A -> Z) (P : A -> Prop) (l : list A) :
  Forall P l -> Forall P (sortByKey key l).
Proof.
  unfold sortByKey. intros Hl.
  assert (Hgen : forall acc, Forall P acc ->
            Forall P (fold_left (fun sorted a => insertByKey key a sorted)
                                l acc)).
  { induction Hl as [|a l Ha Hl IH]; intros acc Hacc; cbn [fold_left];
      [exact Hacc|].
    apply IH, insertByKey_Forall; assumption. }
  apply Hgen. constructor.
Qed.

Lemma sortByKey_length {A} (key : A -> Z) (l : list A) :
  List.length (sortByKey key l) = List.length l.
Proof.
  unfold sortByKey.
  assert (Hgen : forall acc,
            List.length (fold_left (fun sorted a => insertByKey key a sorted)
                                   l acc)
            = (List.length l + List.length acc)%nat).
  { induction l as [|a l IH]; intros acc; cbn [fold_left List.length];
      [reflexivity|].
    rewrite IH, insertByKey_length. lia. }
  rewrite Hgen. cbn [List.length]. lia.
Qed.

Lemma placeRooms_post (env : Env) (attempts : nat) (numRooms : Z) :
  forall rooms,
    Forall roomOk rooms ->
    genPost (placeRooms env attempts numRooms rooms)
      (fun rs => Forall roomOk rs
                 /\ (List.length rooms <= List.length rs)%nat
                 /\ ((0 < attempts)%nat -> 0 < numRooms -> rs <> [])).
Proof.
  induction attempts as [|k IH]; intros rooms Hok; cbn [placeRooms].
  - apply genPost_ret. split; [exact Hok|]. split; [lia|]. lia.
  - destruct (lenZ rooms <? numRooms) eqn:Hlen.
    + eapply genPost_bind; [apply (randomInt_post env 1 (MAP_WIDTH - 10));
                            unfold MAP_WIDTH; lia|].
      intros x Hx.
      eapply genPost_bind; [apply (randomInt_post env 1 (MAP_HEIGHT - 8));
                            unfold MAP_HEIGHT; lia|].
      intros y Hy.
      eapply genPost_bind; [apply (randomInt_post env 4 8); lia|].
      intros w Hw.
      eapply genPost_bind; [apply (randomInt_post env 4 6); lia|].
      intros h Hh. cbv beta in Hx, Hy, Hw, Hh.
      cbn [r_x r_y r_width r_height].
      assert (Hadd : genPost
                (placeRooms env k numRooms
                   (rooms ++ [{| r_x := x; r_y := y; r_width := w;
                                 r_height := h |}]))
                (fun rs => Forall roomOk rs
                           /\ (List.length rooms <= List.length rs)%nat
                           /\ ((0 < S k)%nat -> 0 < numRooms -> rs <> []))).
      { eapply genPost_weaken.
        - apply IH. apply Forall_app. split; [exact Hok|].
          constructor; [|constructor]. unfold roomOk.
          cbn [r_x r_y r_width r_height]. lia.
        - intros rs (H1 & H2 & _). rewrite length_app in H2. cbn in H2.
          split; [exact H1|]. split; [lia|].
          intros _ _ Hrs. subst rs. cbn in H2. lia. }
      destruct (x + w >=? MAP_WIDTH - 1) eqn:E1.
      { exfalso. rewrite Z.geb_leb in E1. apply Z.leb_le in E1.
        unfold MAP_WIDTH in *. lia. }
      destruct (y + h >=? MAP_HEIGHT - 1) eqn:E2.
      { exfalso. rewrite Z.geb_leb in E2. apply Z.leb_le in E2.
        unfold MAP_HEIGHT in *. lia. }
      destruct (existsb _ rooms) eqn:E3.
      * destruct rooms as [|r0 rooms']; [discriminate|].
        eapply genPost_weaken; [apply IH, Hok|].
        intros rs (H1 & H2 & _). split; [exact H1|]. split; [exact H2|].
        intros _ _ Hrs. subst rs. cbn in H2. lia.
      * exact Hadd.
    + apply genPost_ret. split; [exact Hok|]. split; [lia|].
      intros _ Hn Hrs. subst rooms. unfold lenZ in Hlen. cbn in Hlen.
      apply Z.ltb_ge in Hlen. lia.
Qed.

(** *** Writes to the tile grid *)

Lemma nthZ_Some {A} (l : list A) (i : Z) (a : A) :
  nthZ l i = Some a -> 0 <= i /\ nth_error l (Z.to_nat i) = Some a.
Proof.
  unfold nthZ. destruct (i <? 0) eqn:Hi; [discriminate|].
  apply Z.ltb_ge in Hi. intros H. split; assumption.
Qed.

Lemma at2_set2_same {A} (g : list (list A)) (x y : Z) (v t : A) :
  at2 g x y = Some t -> at2 (set2 g x y v) x y = Some v.
Proof.
  unfold at2. intros H.
  destruct (nthZ g y) as [row|] eqn:Hrow; [|discriminate].
  apply nthZ_Some in Hrow. destruct Hrow as [Hy Hrow].
  apply nthZ_Some in H. destruct H as [Hx Hcell].
  unfold set2.
  replace ((x <? 0) || (y <? 0)) with false
    by (symmetry; apply orb_false_intro; apply Z.ltb_ge; lia).
  rewrite Hrow.
  assert (Hlt : (Z.to_nat x < List.length row)%nat)
    by (apply nth_error_Some; congruence).
  apply Nat.ltb_lt in Hlt. rewrite Hlt.
  unfold nthZ.
  replace (y <? 0) with false by (symmetry; apply Z.ltb_ge; lia).
  rewrite (nth_error_setNth_same _ _ _ _ Hrow).
  replace (x <? 0) with false by (symmetry; apply Z.ltb_ge; lia).
  eapply nth_error_setNth_same; eassumption.
Qed.

Lemma at2_set2_other {A} (g : list (list A)) (x y x' y' : Z) (v : A) :
  x' <> x \/ y' <> y -> at2 (set2 g x y v) x' y' = at2 g x' y'.
Proof.
  intros Hne. unfold set2.
  destruct ((x <? 0) || (y <? 0)) eqn:Hneg; [reflexivity|].
  apply orb_false_elim in Hneg. destruct Hneg as [Hx Hy].
  apply Z.ltb_ge in Hx, Hy.
  destruct (nth_error g (Z.to_nat y)) as [row|] eqn:Hrow; [|reflexivity].
  destruct (Z.to_nat x <? List.length row)%nat; [|reflexivity].
  unfold at2, nthZ.
  destruct (y' <? 0) eqn:Hy'; [reflexivity|]. apply Z.ltb_ge in Hy'.
  destruct (Z.eq_dec y' y) as [->|Hyy].
  - rewrite (nth_error_setNth_same _ _ _ _ Hrow), Hrow.
    destruct (x' <? 0) eqn:Hx'; [reflexivity|]. apply Z.ltb_ge in Hx'.
    apply nth_error_setNth_other. intros Heq.
    apply Z2Nat.inj in Heq; lia.
  - rewrite nth_error_setNth_other; [reflexivity|].
    intros Heq. apply Z2Nat.inj in Heq; lia.
Qed.

Lemma onMap_set2 (m : list (list Tile)) (x y : Z) (v : Tile) (c : Z * Z) :
  onMap m c -> onMap (set2 m x y v) c.
Proof.
  intros [t Ht]. unfold onMap.
  destruct (Z.eq_dec (fst c) x) as [Hx|Hx];
    destruct (Z.eq_dec (snd c) y) as [Hy|Hy];
    try (rewrite at2_set2_other by lia; exists t; exact Ht).
  exists v. rewrite Hx, Hy in *. eapply at2_set2_same; eassumption.
Qed.

Lemma nonWall_set2 (m : list (list Tile)) (x y : Z) (v : Tile) (c : Z * Z) :
  t_type v <> tile_wall -> nonWall m c -> nonWall (set2 m x y v) c.
Proof.
  intros Hv (t & Ht & Hw). unfold nonWall.
  destruct (Z.eq_dec (fst c) x) as [Hx|Hx];
    destruct (Z.eq_dec (snd c) y) as [Hy|Hy];
    try (rewrite at2_set2_other by lia; exists t; split; assumption).
  exists v. rewrite Hx, Hy in *. split; [|exact Hv].
  eapply at2_set2_same; eassumption.
Qed.

Lemma nonWall_set2_here (m : list (list Tile)) (x y : Z) (v : Tile) :
  t_type v <> tile_wall -> onMap m (x, y) -> nonWall (set2 m x y v) (x, y).
Proof.
  intros Hv [t Ht]. exists v. split; [|exact Hv].
  eapply at2_set2_same; exact Ht.
Qed.

Lemma carveKeeps_refl (m : list (list Tile)) : carveKeeps m m.
Proof. split; auto. Qed.

Lemma carveKeeps_trans (m1 m2 m3 : list (list Tile)) :
  carveKeeps m1 m2 -> carveKeeps m2 m3 -> carveKeeps m1 m3.
Proof. intros [A B] [C D]. split; auto. Qed.

Lemma setTile_keeps (m : list (list Tile)) (x y : Z) (t : TileType) :
  t <> tile_wall -> carveKeeps m (setTile m x y t).
Proof.
  intros Ht. unfold setTile. split; intros c Hc.
  - apply onMap_set2, Hc.
  - apply nonWall_set2; [exact Ht | exact Hc].
Qed.

Lemma fold_setTile_keeps (f : Z -> Z * Z) (xs : list Z) :
  forall m,
    carveKeeps m
      (fold_left (fun m v => setTile m (fst (f v)) (snd (f v)) tile_floor)
                 xs m).
Proof.
  induction xs as [|x xs IH]; intros m; cbn [fold_left];
    [apply carveKeeps_refl|].
  eapply carveKeeps_trans; [|apply IH].
  apply setTile_keeps. discriminate.
Qed.

Lemma fold_setTile_carves (f : Z -> Z * Z) (xs : list Z) :
  forall m v,
    In v xs -> onMap m (f v) ->
    nonWall
      (fold_left (fun m v => setTile m (fst (f v)) (snd (f v)) tile_floor)
                 xs m)
      (f v).
Proof.
  induction xs as [|x xs IH]; intros m v Hin Hon; [destruct Hin|].
  cbn [fold_left]. destruct Hin as [->|Hin].
  - apply (fold_setTile_keeps f xs). unfold setTile.
    destruct (f v) as [a b] eqn:Hf. cbn [fst snd].
    apply nonWall_set2_here; [discriminate | exact Hon].
  - apply IH; [exact Hin|].
    apply (setTile_keeps m _ _ tile_floor); [discriminate | exact Hon].
Qed.

Lemma In_zrange (n : nat) : forall lo v,
  In v (zrange lo n) <-> lo <= v < lo + Z.of_nat n.
Proof.
  induction n as [|n IH]; intros lo v; cbn [zrange In].
  - split; [tauto | lia].
  - rewrite IH. lia.
Qed.

Lemma In_zinterval (lo hi v : Z) : In v (zinterval lo hi) <-> lo <= v <= hi.
Proof. unfold zinterval. rewrite In_zrange. lia. Qed.

Lemma carveCorridor_keeps (m : list (list Tile)) (x1 y1 x2 y2 : Z) :
  carveKeeps m (carveCorridor m x1 y1 x2 y2).
Proof.
  unfold carveCorridor.
  eapply carveKeeps_trans.
  - apply (fold_setTile_keeps (fun x => (x, y1))).
  - apply (fold_setTile_keeps (fun y => (x2, y))).
Qed.

Lemma carveCorridor_carves (m : list (list Tile)) (x1 y1 x2 y2 : Z) :
  (forall x, Z.min x1 x2 <= x <= Z.max x1 x2 -> onMap m (x, y1)) ->
  (forall y, Z.min y1 y2 <= y <= Z.max y1 y2 -> onMap m (x2, y)) ->
  (forall x, Z.min x1 x2 <= x <= Z.max x1 x2 ->
             nonWall (carveCorridor m x1 y1 x2 y2) (x, y1))
  /\ (forall y, Z.min y1 y2 <= y <= Z.max y1 y2 ->
                nonWall (carveCorridor m x1 y1 x2 y2) (x2, y)).
Proof.
  intros Hh Hv. unfold carveCorridor. split.
  - intros x Hx.
    apply (fold_setTile_keeps (fun y => (x2, y))).
    apply (fold_setTile_carves (fun x => (x, y1)));
      [apply In_zinterval, Hx | apply Hh, Hx].
  - intros y Hy.
    apply (fold_setTile_carves (fun y => (x2, y)));
      [apply In_zinterval, Hy|].
    apply (fold_setTile_keeps (fun x => (x, y1))). apply Hv, Hy.
Qed.

Lemma carveRoom_keeps (m : list (list Tile)) (room : Room) :
  carveKeeps m (carveRoom m room).
Proof.
  unfold carveRoom. generalize (zrange (r_y room) (Z.to_nat (r_height room))).
  intros ys. revert m.
  induction ys as [|y ys IH]; intros m; cbn [fold_left];
    [apply carveKeeps_refl|].
  eapply carveKeeps_trans; [|apply IH].
  apply (fold_setTile_keeps (fun x => (x, y))).
Qed.

Lemma fold_carveRoom_keeps (rooms : list Room) :
  forall m, carveKeeps m (fold_left carveRoom rooms m).
Proof.
  induction rooms as [|r rooms IH]; intros m; cbn [fold_left];
    [apply carveKeeps_refl|].
  eapply carveKeeps_trans; [apply carveRoom_keeps | apply IH].
Qed.

Lemma connectRooms_keeps (rooms : list Room) :
  forall m, carveKeeps m (connectRooms m rooms).
Proof.
  induction rooms as [|prev rest IH]; intros m; [apply carveKeeps_refl|].
  destruct rest as [|curr rest']; [apply carveKeeps_refl|].
  cbn [connectRooms].
  eapply carveKeeps_trans; [apply carveCorridor_keeps | apply IH].
Qed.

(** *** Paths on the carved floor *)

Lemma nth_error_zrange (n : nat) : forall lo k,
  (k < n)%nat -> nth_error (zrange lo n) k = Some (lo + Z.of_nat k).
Proof.
  induction n as [|n IH]; intros lo k Hk; [lia|].
  destruct k as [|k]; cbn [zrange nth_error].
  - f_equal. lia.
  - rewrite IH by lia. f_equal. lia.
Qed.

Lemma wallMap_onMap (x y : Z) :
  0 <= x < MAP_WIDTH -> 0 <= y < MAP_HEIGHT -> onMap wallMap (x, y).
Proof.
  intros Hx Hy. unfold onMap, at2, nthZ, wallMap. cbn [fst snd].
  replace (y <? 0) with false by (symmetry; apply Z.ltb_ge; lia).
  replace (x <? 0) with false by (symmetry; apply Z.ltb_ge; lia).
  rewrite nth_error_map, nth_error_zrange by lia. cbn [option_map].
  rewrite nth_error_map, nth_error_zrange by lia. cbn [option_map].
  eexists. reflexivity.
Qed.

Lemma walk_trans (m : list (list Tile)) (a b c : Z * Z) :
  walk m a b -> walk m b c -> walk m a c.
Proof.
  induction 1 as [a Ha | a b' b Ha Hadj Hw IH]; intros Hbc; [exact Hbc|].
  eapply walk_step; [exact Ha | exact Hadj | apply IH, Hbc].
Qed.

Lemma walk_row (m : list (list Tile)) (y lo hi : Z) :
  (forall x, lo <= x <= hi -> nonWall m (x, y)) ->
  forall n a b, Z.abs (b - a) = Z.of_nat n ->
                lo <= a <= hi -> lo <= b <= hi -> walk m (a, y) (b, y).
Proof.
  intros Hrow. induction n as [|n IH]; intros a b Hn Ha Hb.
  - assert (a = b) by lia. subst b. apply walk_here, Hrow, Ha.
  - set (a' := if a <? b then a + 1 else a - 1).
    assert (Ha' : lo <= a' <= hi /\ Z.abs (b - a') = Z.of_nat n
                  /\ Z.abs (a - a') = 1).
    { subst a'. destruct (a <? b) eqn:Hab;
        [apply Z.ltb_lt in Hab | apply Z.ltb_ge in Hab]; lia. }
    destruct Ha' as (Hin & Hdist & Hstep).
    eapply walk_step; [apply Hrow, Ha | | apply IH; eassumption].
    unfold adjacent4. cbn [fst snd]. lia.
Qed.

Lemma walk_column (m : list (list Tile)) (x lo hi : Z) :
  (forall y, lo <= y <= hi -> nonWall m (x, y)) ->
  forall n a b, Z.abs (b - a) = Z.of_nat n ->
                lo <= a <= hi -> lo <= b <= hi -> walk m (x, a) (x, b).
Proof.
  intros Hcol. induction n as [|n IH]; intros a b Hn Ha Hb.
  - assert (a = b) by lia. subst b. apply walk_here, Hcol, Ha.
  - set (a' := if a <? b then a + 1 else a - 1).
    assert (Ha' : lo <= a' <= hi /\ Z.abs (b - a') = Z.of_nat n
                  /\ Z.abs (a - a') = 1).
    { subst a'. destruct (a <? b) eqn:Hab;
        [apply Z.ltb_lt in Hab | apply Z.ltb_ge in Hab]; lia. }
    destruct Ha' as (Hin & Hdist & Hstep).
    eapply walk_step; [apply Hcol, Ha | | apply IH; eassumption].
    unfold adjacent4. cbn [fst snd]. lia.
Qed.

Lemma walk_ends_nonWall (m : list (list Tile)) (a b : Z * Z) :
  walk m a b -> nonWall m a /\ nonWall m b.
Proof.
  induction 1 as [a Ha | a b' b Ha Hadj Hw IH]; [split; assumption|].
  split; [exact Ha | apply IH].
Qed.

Lemma roomOk_center (r : Room) :
  roomOk r ->
  0 <= centerX r < MAP_WIDTH /\ 0 <= centerY r < MAP_HEIGHT.
Proof.
  unfold roomOk, centerX, centerY, MAP_WIDTH, MAP_HEIGHT.
  intros (Hx & Hy & Hw & Hh).
  assert (0 <= r_width r / 2 <= r_width r).
  { split; [apply Z.div_pos; lia|].
    apply Z.div_le_upper_bound; lia. }
  assert (0 <= r_height r / 2 <= r_height r).
  { split; [apply Z.div_pos; lia|].
    apply Z.div_le_upper_bound; lia. }
  lia.
Qed.

Lemma lastRoom_Some (rooms : list Room) :
  rooms <> [] -> exists last, lastRoom rooms = Some last /\ In last rooms.
Proof.
  intros Hne. unfold lastRoom, nthZ, lenZ.
  assert (Hlen : (0 < List.length rooms)%nat)
    by (destruct rooms; [congruence | cbn; lia]).
  replace (Z.of_nat (List.length rooms) - 1 <? 0) with false
    by (symmetry; apply Z.ltb_ge; lia).
  destruct (nth_error rooms (Z.to_nat (Z.of_nat (List.length rooms) - 1)))
    as [last|] eqn:Hnth.
  - exists last. split; [reflexivity|]. eapply nth_error_In; eassumption.
  - apply nth_error_None in Hnth. lia.
Qed.

(** The floor that [carveFloor] returns: the stairs are on the centre of
    the last room, and the centre of the first room is joined to them. *)
Lemma carveFloor_path (placed rooms : list Room) (first : Room) :
  Forall roomOk rooms -> hd_error rooms = Some first ->
  exists m last,
    carveFloor (fold_left carveRoom placed wallMap) rooms = Some m
    /\ lastRoom rooms = Some last
    /\ at2 m (centerX last) (centerY last)
       = Some {| t_type := tile_stairs; t_x := centerX last;
                 t_y := centerY last |}
    /\ walk m (centerX first, centerY first) (centerX last, centerY last).
Proof.
  intros Hok Hhd.
  assert (Hne : rooms <> []) by (destruct rooms; [discriminate | congruence]).
  destruct (lastRoom_Some rooms Hne) as (last & Hlast & Hinlast).
  assert (Hfirst_ok : roomOk first).
  { destruct rooms as [|r rs]; [discriminate|]. inversion Hhd; subst.
    inversion Hok; assumption. }
  assert (Hlast_ok : roomOk last)
    by (eapply Forall_forall in Hok; eassumption).
  destruct (roomOk_center first Hfirst_ok) as [Hfx Hfy].
  destruct (roomOk_center last Hlast_ok) as [Hlx Hly].
  unfold carveFloor. fold (lastRoom rooms). rewrite Hlast, Hhd.
  set (m1 := fold_left carveRoom placed wallMap).
  set (m2 := connectRooms m1 rooms).
  assert (Hon2 : forall x y, 0 <= x < MAP_WIDTH -> 0 <= y < MAP_HEIGHT ->
                             onMap m2 (x, y)).
  { intros x y Hx Hy. apply (connectRooms_keeps rooms m1).
    apply (fold_carveRoom_keeps placed wallMap).
    apply wallMap_onMap; assumption. }
  set (m3 := if lenZ rooms >=? 2
             then carveCorridor m2 (centerX first) (centerY first)
                                (centerX last) (centerY last)
             else m2).
  assert (Hkeep3 : carveKeeps m2 m3).
  { subst m3. destruct (lenZ rooms >=? 2);
      [apply carveCorridor_keeps | apply carveKeeps_refl]. }
  assert (Hstairs :
    at2 (setTile m3 (centerX last) (centerY last) tile_stairs)
        (centerX last) (centerY last)
    = Some {| t_type := tile_stairs; t_x := centerX last;
              t_y := centerY last |}).
  { destruct (proj1 Hkeep3 (centerX last, centerY last)
                (Hon2 _ _ Hlx Hly)) as [t Ht].
    unfold setTile. eapply at2_set2_same. exact Ht. }
  eexists _, last. split; [reflexivity|]. split; [reflexivity|].
  split; [exact Hstairs|].
  pose proof (setTile_keeps m3 (centerX last) (centerY last) tile_stairs
                ltac:(discriminate)) as [_ Hkeep4].
  destruct (lenZ rooms >=? 2) eqn:Hlen.
  - destruct (carveCorridor_carves m2 (centerX first) (centerY first)
                (centerX last) (centerY last)) as [Hrow Hcol].
    + intros x Hx. apply Hon2; lia.
    + intros y Hy. apply Hon2; lia.
    + apply walk_trans with (b := (centerX last, centerY first)).
      * eapply (walk_row _ (centerY first)
                  (Z.min (centerX first) (centerX last))
                  (Z.max (centerX first) (centerX last)))
          with (n := Z.to_nat (Z.abs (centerX last - centerX first)));
          [intros x Hx; apply Hkeep4; subst m3; apply Hrow, Hx
          | lia | lia | lia].
      * eapply (walk_column _ (centerX last)
                  (Z.min (centerY first) (centerY last))
                  (Z.max (centerY first) (centerY last)))
          with (n := Z.to_nat (Z.abs (centerY last - centerY first)));
          [intros y Hy; apply Hkeep4; subst m3; apply Hcol, Hy
          | lia | lia | lia].
  - (* a single room: the first room is the last one *)
    assert (first = last).
    { rewrite Z.geb_leb in Hlen. apply Z.leb_gt in Hlen.
      unfold lenZ in Hlen.
      destruct rooms as [|r [|r' rs]].
      - discriminate.
      - cbn in Hhd, Hlast. congruence.
      - exfalso. cbn [List.length] in Hlen. lia. }
    subst last. apply walk_here.
    eexists. split; [exact Hstairs | discriminate].
Qed.

(** *** [generateMap] returns *)

Lemma generateRooms_post (env : Env) :
  genPost (generateRooms env)
          (fun placed => Forall roomOk placed /\ placed <> []).
Proof.
  unfold generateRooms.
  eapply genPost_bind; [apply (randomInt_post env 5 8); lia|].
  intros numRooms Hn. cbv beta in Hn.
  eapply genPost_weaken; [apply placeRooms_post; constructor|].
  intros placed (Hok & _ & Hne). split; [exact Hok|].
  apply Hne; lia.
Qed.

Lemma sortByKey_nonempty {A} (key : A -> Z) (l : list A) :
  l <> [] -> sortByKey key l <> [].
Proof.
  intros Hne Hnil. apply (f_equal (@List.length A)) in Hnil.
  rewrite sortByKey_length in Hnil. destruct l; [congruence | discriminate].
Qed.

Lemma nthZ_in_range {A} (l : list A) (i : Z) :
  0 <= i < lenZ l -> exists a, nthZ l i = Some a.
Proof.
  unfold nthZ, lenZ. intros Hi.
  replace (i <? 0) with false by (symmetry; apply Z.ltb_ge; lia).
  destruct (nth_error l (Z.to_nat i)) as [a|] eqn:Hnth;
    [exists a; reflexivity|].
  apply nth_error_None in Hnth. lia.
Qed.

Lemma randomCell_post (env : Env) (rooms : list Room) (lo : Z) :
  0 <= lo <= lenZ rooms - 1 ->
  genPost (randomCell env rooms lo) (fun _ => True).
Proof.
  intros Hlo. unfold randomCell.
  eapply genPost_bind; [apply randomInt_post; lia|].
  intros roomIndex Hi. cbv beta in Hi.
  destruct (nthZ_in_range rooms roomIndex ltac:(lia)) as [room Hroom].
  rewrite Hroom. cbn [liftOption]. apply genPost_bind_ret.
  eapply genPost_bind; [apply randomInt_total|]. intros x _.
  eapply genPost_bind; [apply randomInt_total|]. intros y _.
  apply genPost_ret. exact I.
Qed.

Lemma createEnemy_post (env : Env) (id : string) (t : EnemyType)
    (x y floor : Z) :
  genPost (createEnemy env id t x y floor) (fun _ => True).
Proof.
  unfold createEnemy.
  eapply genPost_bind with (P := fun _ => True).
  - unfold getEnemyVariant.
    eapply genPost_bind; [apply random_post|]. intros roll _.
    repeat match goal with
           | |- context [if ?c then _ else _] => destruct c
           end; apply genPost_ret; exact I.
  - intros variant _.
    eapply genPost_bind with (P := fun _ => True).
    + destruct t; cbn [getEnemyBehavior];
        try (apply genPost_ret; exact I);
        (eapply genPost_bind; [apply random_post|]; intros r _;
         apply genPost_ret; exact I).
    + intros behavior _. apply genPost_ret. exact I.
Qed.

Lemma spawnEnemies_post (env : Env) (rooms : list Room)
    (availableTypes : list EnemyType) (floor : Z) (n : nat) :
  2 <= lenZ rooms -> 1 <= lenZ availableTypes ->
  forall enemies,
    genPost (spawnEnemies env n rooms availableTypes floor enemies)
            (fun _ => True).
Proof.
  intros Hrooms Htypes.
  induction n as [|n IH]; intros enemies; cbn [spawnEnemies];
    [apply genPost_ret; exact I|].
  eapply genPost_bind; [apply randomCell_post; lia|]. intros xy _.
  eapply genPost_bind; [apply randomInt_post; lia|].
  intros typeIndex Hi. cbv beta in Hi.
  destruct (nthZ_in_range availableTypes typeIndex ltac:(lia)) as [t Ht].
  rewrite Ht. cbn [liftOption]. apply genPost_bind_ret.
  eapply genPost_bind with (P := fun _ => True).
  { intros st. eexists _, _. split; [reflexivity | exact I]. }
  intros id _.
  eapply genPost_bind; [apply createEnemy_post|]. intros enemy _.
  apply IH.
Qed.

Lemma spawnPotions_post (env : Env) (rooms : list Room) (n : nat) :
  1 <= lenZ rooms ->
  forall items, genPost (spawnPotions env n rooms items) (fun _ => True).
Proof.
  intros Hrooms.
  induction n as [|n IH]; intros items; cbn [spawnPotions];
    [apply genPost_ret; exact I|].
  eapply genPost_bind; [apply randomCell_post; lia|]. intros xy _.
  eapply genPost_bind with (P := fun _ => True).
  { intros st. eexists _, _. split; [reflexivity | exact I]. }
  intros id _. apply IH.
Qed.

Lemma spawnEquipment_post (env : Env) (rooms : list Room)
    (availableEquipment : list Equipment) (n : nat) :
  1 <= lenZ rooms -> 1 <= lenZ availableEquipment ->
  forall items,
    genPost (spawnEquipment env n rooms availableEquipment items)
            (fun _ => True).
Proof.
  intros Hrooms Heq.
  induction n as [|n IH]; intros items; cbn [spawnEquipment];
    [apply genPost_ret; exact I|].
  eapply genPost_bind; [apply randomCell_post; lia|]. intros xy _.
  eapply genPost_bind; [apply randomInt_post; lia|].
  intros eqIndex Hi. cbv beta in Hi.
  destruct (nthZ_in_range availableEquipment eqIndex ltac:(lia)) as [e He].
  rewrite He. cbn [liftOption]. apply genPost_bind_ret.
  eapply genPost_bind with (P := fun _ => True).
  { intros st. eexists _, _. split; [reflexivity | exact I]. }
  intros id _. apply IH.
Qed.

Lemma availableTypes_nonempty (floor : Z) :
  1 <= floor ->
  1 <= lenZ (sliceTo [rat; skeleton; orc; dragon] (Z.min (1 + floor / 3) 4)).
Proof.
  intros Hf.
  assert (Hq : 0 <= floor / 3) by (apply Z.div_pos; lia).
  unfold sliceTo.
  replace (Z.min (1 + floor / 3) 4 <? 0) with false
    by (symmetry; apply Z.ltb_ge; lia).
  unfold lenZ. rewrite length_firstn. cbn [List.length]. lia.
Qed.

Lemma layoutFloor_post (env : Env) (placed : list Room) (first : Room)
    (floor : Z) (character : CharacterType) :
  let rooms := sortByKey roomKey placed in
  1 <= floor -> Forall roomOk rooms -> hd_error rooms = Some first ->
  genPost (layoutFloor env placed floor character)
    (fun g => carveFloor (fold_left carveRoom placed wallMap) rooms
              = Some (gf_map g)
              /\ gf_playerStart g = {| c_x := centerX first;
                                       c_y := centerY first |}
              /\ (lenZ rooms <= 1 -> gf_enemies g = [])).
Proof.
  intros rooms Hfloor Hok Hhd.
  destruct (carveFloor_path placed rooms first Hok Hhd)
    as (m & last & Hm & _).
  assert (Hlen : 1 <= lenZ rooms)
    by (destruct rooms; [discriminate | unfold lenZ; cbn [List.length]; lia]).
  unfold layoutFloor. fold rooms. cbv zeta. rewrite Hm, Hhd.
  cbn [liftOption].
  apply genPost_bind_ret. apply genPost_bind_ret.
  eapply genPost_bind; [apply randomInt_total|]. intros n _.
  eapply genPost_bind
    with (P := fun enemies => lenZ rooms <= 1 -> enemies = []).
  { destruct (lenZ rooms >? 1) eqn:Hgt.
    - eapply genPost_weaken.
      + apply spawnEnemies_post;
          [apply Z.gtb_lt in Hgt; lia | apply availableTypes_nonempty, Hfloor].
      + intros enemies _ Hle. apply Z.gtb_lt in Hgt. lia.
    - apply genPost_ret. reflexivity. }
  intros enemies Henemies.
  eapply genPost_bind; [apply randomInt_total|]. intros numPotions _.
  eapply genPost_bind; [apply spawnPotions_post, Hlen|]. intros potions _.
  eapply genPost_bind; [apply randomInt_total|]. intros numEquipment _.
  eapply genPost_bind with (P := fun _ => True).
  { destruct (lenZ (availableEquipmentFor floor character) >? 0) eqn:Hgt.
    - apply spawnEquipment_post; [exact Hlen|]. apply Z.gtb_lt in Hgt. lia.
    - apply genPost_ret. exact I. }
  intros items _. apply genPost_ret. cbn [gf_map gf_playerStart gf_enemies].
  split; [reflexivity|]. split; [reflexivity | exact Henemies].
Qed.

(** The run of [generateMap]: it returns for every floor number from 1 on,
    whatever the random numbers are. *)
Lemma generateMap_run (env : Env) (floor : Z) (character : CharacterType) :
  1 <= floor ->
  exists placed st first g,
    let rooms := sortByKey roomKey placed in
    generateRooms env (O, O) = Some (placed, st)
    /\ Forall roomOk rooms /\ hd_error rooms = Some first
    /\ generateMap env floor character = Some g
    /\ carveFloor (fold_left carveRoom placed wallMap) rooms
       = Some (gf_map g)
    /\ gf_playerStart g = {| c_x := centerX first; c_y := centerY first |}
    /\ (lenZ rooms <= 1 -> gf_enemies g = []).
Proof.
  intros Hfloor.
  destruct (generateRooms_post env (O, O))
    as (placed & st & Hrun & Hok & Hne).
  pose proof (sortByKey_Forall roomKey roomOk placed Hok) as Hsorted.
  pose proof (sortByKey_nonempty roomKey placed Hne) as Hne'.
  destruct (sortByKey roomKey placed) as [|first rest] eqn:Hrooms;
    [congruence|].
  pose proof (layoutFloor_post env placed first floor character) as Hpost.
  cbv zeta in Hpost. rewrite Hrooms in Hpost.
  destruct (Hpost Hfloor Hsorted eq_refl st)
    as (g & st' & Hlay & Hm & Hstart & Hen).
  exists placed, st, first, g. cbv zeta. rewrite Hrooms.
  unfold generateMap, generateMapGen, bind. rewrite Hrun, Hlay.
  repeat split; assumption.
Qed.

(** C3. Every floor that [generateMap] generates (it generates one for
    every floor number from 1 on and every sequence of random numbers) has
    a stairs cell and a 4-connected path over non-wall tiles from
    [playerStart] to it. *)
Theorem generateMap_stairs_reachable (env : Env) (floor : Z)
    (character : CharacterType) :
  1 <= floor ->
  exists g stairsCell,
    generateMap env floor character = Some g
    /\ tileIs (gf_map g) (fst stairsCell) (snd stairsCell) tile_stairs = true
    /\ walk (gf_map g)
            (c_x (gf_playerStart g), c_y (gf_playerStart g)) stairsCell.
Proof.
  intros Hfloor.
  destruct (generateMap_run env floor character Hfloor)
    as (placed & st & first & g & _ & Hok & Hhd & Hgen & Hcarve & Hstart & _).
  destruct (carveFloor_path placed _ first Hok Hhd)
    as (m & last & Hm & _ & Hstairs & Hwalk).
  assert (m = gf_map g) by congruence. subst m.
  exists g, (centerX last, centerY last).
  split; [exact Hgen|]. split.
  - unfold tileIs. cbn [fst snd]. rewrite Hstairs. reflexivity.
  - rewrite Hstart. exact Hwalk.
Qed.

Lemma generateMap_stairs_reachable_witness :
  exists g stairsCell,
    generateMap zeroEnv 1 dwarf = Some g
    /\ tileIs (gf_map g) (fst stairsCell) (snd stairsCell) tile_stairs = true
    /\ walk (gf_map g)
            (c_x (gf_playerStart g), c_y (gf_playerStart g)) stairsCell.
Proof. apply generateMap_stairs_reachable. lia. Defined.

(** C9 (as the code has it). [generateMap] makes one attempt and has no
    assertion on the number of rooms: the rooms are those of the single
    run of the placement loop, there is always at least one, [playerStart]
    is the centre of the first and the stairs are on the centre of the
    last of them.  With a single room the two coincide and no enemy is
    spawned. *)
Theorem generateMap_single_attempt (env : Env) (floor : Z)
    (character : CharacterType) :
  1 <= floor ->
  exists placed st first last g,
    let rooms := sortByKey roomKey placed in
    generateRooms env (O, O) = Some (placed, st)
    /\ (1 <= List.length rooms)%nat
    /\ hd_error rooms = Some first /\ lastRoom rooms = Some last
    /\ generateMap env floor character = Some g
    /\ gf_playerStart g = {| c_x := centerX first; c_y := centerY first |}
    /\ tileIs (gf_map g) (centerX last) (centerY last) tile_stairs = true
    /\ (List.length rooms = 1%nat -> first = last /\ gf_enemies g = []).
Proof.
  intros Hfloor.
  destruct (generateMap_run env floor character Hfloor)
    as (placed & st & first & g & Hrun & Hok & Hhd & Hgen & Hcarve & Hstart
        & Hnone).
  destruct (carveFloor_path placed _ first Hok Hhd)
    as (m & last & Hm & Hlast & Hstairs & _).
  assert (m = gf_map g) by congruence. subst m.
  exists placed, st, first, last, g. cbv zeta.
  set (rooms := sortByKey roomKey placed) in *.
  split; [exact Hrun|].
  split; [destruct rooms; [discriminate | cbn [List.length]; lia]|].
  split; [exact Hhd|]. split; [exact Hlast|]. split; [exact Hgen|].
  split; [exact Hstart|].
  split; [unfold tileIs; rewrite Hstairs; reflexivity|].
  intros Hone. split.
  - destruct rooms as [|r [|r' rs]]; try discriminate.
    cbn in Hhd, Hlast. congruence.
  - apply Hnone. unfold lenZ. lia.
Qed.

Lemma generateMap_single_attempt_witness :
  exists placed st first last g,
    let rooms := sortByKey roomKey placed in
    generateRooms zeroEnv (O, O) = Some (placed, st)
    /\ (1 <= List.length rooms)%nat
    /\ hd_error rooms = Some first /\ lastRoom rooms = Some last
    /\ generateMap zeroEnv 1 dwarf = Some g
    /\ gf_playerStart g = {| c_x := centerX first; c_y := centerY first |}
    /\ tileIs (gf_map g) (centerX last) (centerY last) tile_stairs = true
    /\ (List.length rooms = 1%nat -> first = last /\ gf_enemies g = []).
Proof. apply generateMap_single_attempt. lia. Defined.

(** With all random numbers 0 the placement loop accepts the first room
    and rejects the 99 others; no assertion fires and nothing restarts:
    the floor is returned with the player start and the stairs on the
    centre [(3,3)] of the only room. *)
Lemma one_room_floor_is_returned :
  exists rooms st g,
    generateRooms zeroEnv (O, O) = Some (rooms, st)
    /\ List.length rooms = 1%nat
    /\ (List.length rooms < 2)%nat
    /\ generateMap zeroEnv 1 dwarf = Some g
    /\ gf_playerStart g = {| c_x := 3; c_y := 3 |}
    /\ tileIs (gf_map g) 3 3 tile_stairs = true.
Proof.
  vm_compute. do 3 eexists.
  split; [reflexivity|]. split; [reflexivity|]. split; [reflexivity|].
  split; [reflexivity|]. split; reflexivity.
Qed.

(** ** Descending *)

Lemma equipSwap_samePlace (current : option Equipment) (eq : Equipment)
    (p : Player) : samePlace p (equipSwap current eq p).
Proof.
  unfold equipSwap, samePlace. destruct current;
    match goal with
    | |- context [if ?c then _ else _] => destruct c
    end; repeat split; reflexivity.
Qed.

Lemma pickUp_frame (state : GameState) (itemIndex : nat) (item : Item) :
  stageFrame state (snd (pickUp state itemIndex item))
  /\ g_score (snd (pickUp state itemIndex item)) = g_score state
  /\ existsb isEnemyEvent (fst (pickUp state itemIndex item)) = false.
Proof.
  unfold pickUp. destruct (i_type item).
  - destruct (p_hp (g_player state) >=? p_maxHp (g_player state));
      cbn [fst snd]; (split; [|split; reflexivity]).
    + apply stageFrame_refl.
    + unfold stageFrame, samePlace; cbn; repeat split; reflexivity.
  - destruct (isEquipmentItem item) as [eq|].
    + unfold handleEquipmentPickup.
      destruct (shouldEquip _ eq); cbn [fst snd];
        (split; [|split; reflexivity]).
      * unfold stageFrame.
        cbn [g_map g_fog g_enemies g_floor g_status g_updatedAt g_player
             set_g_player set_g_items].
        repeat split; try reflexivity; apply equipSwap_samePlace.
      * apply stageFrame_refl.
    + cbn [fst snd]. split; [|split; reflexivity].
      unfold stageFrame, samePlace; cbn; repeat split; reflexivity.
Qed.

Lemma descendStairs_effect (env : Env) (state : GameState)
    (g : GeneratedFloor) :
  g_status state = active ->
  tileIs (g_map state) (p_x (g_player state)) (p_y (g_player state))
         tile_stairs = true ->
  generateMap env (g_floor state + 1) (p_character (g_player state)) = Some g ->
  exists state',
    descendStairs env state = Some (descendEvents (g_floor state + 1), state')
    /\ descended g state state'.
Proof.
  intros Hactive Hstairs Hgen. unfold descendStairs.
  rewrite Hactive, Hstairs. cbn [GameStatus_eqb negb].
  cbn [g_floor set_g_floor g_player p_character]. rewrite Hgen.
  cbn [g_floor set_g_floor set_g_map set_g_player set_g_enemies set_g_items
       set_g_fog updateFog set_g_score set_g_updatedAt g_id g_playerId
       g_playerName g_player g_map g_enemies g_items g_fog g_status g_score
       g_createdAt g_updatedAt set_p_pos p_x p_y].
  unfold descendEvents, descended.
  destruct (g_floor state + 1 >=? 20); eexists; (split; [reflexivity|]);
    cbn [g_floor set_g_floor set_g_map set_g_player set_g_enemies set_g_items
         set_g_fog updateFog set_g_score set_g_updatedAt set_g_status g_id
         g_playerId g_playerName g_player g_map g_enemies g_items g_fog
         g_status g_score g_createdAt g_updatedAt set_p_pos p_x p_y];
    repeat split; try reflexivity; try assumption; lia.
Qed.

Lemma findIndex_Some_nth {A} (f : A -> bool) (l : list A) :
  forall i, findIndex f l = Some i ->
  exists a, nth_error l i = Some a /\ f a = true.
Proof.
  induction l as [|b l IH]; intros i H; cbn [findIndex] in H;
    [discriminate|].
  destruct (f b) eqn:Hb.
  - inversion H; subst. exists b. split; [reflexivity | exact Hb].
  - destruct (findIndex f l) as [k|]; [|discriminate].
    inversion H; subst. apply IH. reflexivity.
Qed.

Lemma findIndex_None_all {A} (f : A -> bool) (l : list A) :
  findIndex f l = None -> forall a, In a l -> f a = false.
Proof.
  induction l as [|b l IH]; intros H a Hin; [destruct Hin|].
  cbn [findIndex] in H. destruct (f b) eqn:Hb; [discriminate|].
  destruct (findIndex f l) as [k|] eqn:Hk; [discriminate|].
  destruct Hin as [->|Hin]; [exact Hb | apply IH; [reflexivity | exact Hin]].
Qed.

(** The state of [processMove] after the step and the item pickup, before
    the stairs test. *)
Lemma processMove_step_stage (state : GameState) (direction : Direction) :
  let newX := p_x (g_player state) + directionDx direction in
  let newY := p_y (g_player state) + directionDy direction in
  let state1 :=
    set_g_player (turnTo direction (set_p_pos newX newY (g_player state)))
                 state in
  let r :=
    match findIndex (fun i => (i_x i =? newX) && (i_y i =? newY))
                    (g_items state1) with
    | Some itemIndex =>
        match nth_error (g_items state1) itemIndex with
        | Some item =>
            let '(itemEvents, st) := pickUp state1 itemIndex item in
            ([event player_moved] ++ itemEvents, st)
        | None => ([event player_moved], state1)
        end
    | None => ([event player_moved], state1)
    end in
  stageFrame state1 (snd r) /\ g_score (snd r) = g_score state
  /\ exists itemEvents,
       fst r = event player_moved :: itemEvents
       /\ existsb isEnemyEvent itemEvents = false.
Proof.
  intros newX newY state1 r. subst r.
  destruct (findIndex _ (g_items state1)) as [itemIndex|].
  - destruct (nth_error (g_items state1) itemIndex) as [item|].
    + pose proof (pickUp_frame state1 itemIndex item) as (Hf & Hs & He).
      destruct (pickUp state1 itemIndex item) as [itemEvents st].
      cbn [fst snd] in *. split; [exact Hf|]. split; [exact Hs|].
      exists itemEvents. split; [reflexivity | exact He].
    + cbn [fst snd]. split; [apply stageFrame_refl|].
      split; [reflexivity|]. exists []. split; reflexivity.
  - cbn [fst snd]. split; [apply stageFrame_refl|].
    split; [reflexivity|]. exists []. split; reflexivity.
Qed.

(** A descent, by [descendStairs] or by the step onto the stairs: the
    generated floor, the events and the state as [descended] has them. *)
Lemma descend_effect (env : Env) (state : GameState) :
  g_status state = active ->
  0 <= g_floor state ->
  exists g,
    generateMap env (g_floor state + 1) (p_character (g_player state)) = Some g
    /\ (tileIs (g_map state) (p_x (g_player state)) (p_y (g_player state))
               tile_stairs = true ->
          exists state',
            descendStairs env state
            = Some (descendEvents (g_floor state + 1), state')
            /\ descended g state state')
    /\ (forall direction,
          let newX := p_x (g_player state) + directionDx direction in
          let newY := p_y (g_player state) + directionDy direction in
          0 <= newX < mapWidth (g_map state) ->
          0 <= newY < mapHeight (g_map state) ->
          tileIs (g_map state) newX newY tile_stairs = true ->
          findIndex (liveEnemyAt newX newY) (g_enemies state) = None ->
          exists itemEvents state',
            processMove env state direction
            = Some (event player_moved
                    :: itemEvents ++ descendEvents (g_floor state + 1),
                    state')
            /\ descended g state state'
            /\ existsb isEnemyEvent
                 (itemEvents ++ descendEvents (g_floor state + 1)) = false).
Proof.
  intros Hactive Hfloor.
  destruct (generateMap_run env (g_floor state + 1)
              (p_character (g_player state)) ltac:(lia))
    as (_ & _ & _ & g & _ & _ & _ & Hgen & _).
  exists g. split; [exact Hgen|]. split.
  - intros Hstairs. apply descendStairs_effect; assumption.
  - intros direction newX newY Hx Hy Hstairs Hfree.
    assert (Hwall : tileIs (g_map state) newX newY tile_wall = false).
    { unfold tileIs in *. destruct (at2 (g_map state) newX newY) as [t|];
        [|reflexivity]. destruct (t_type t); try discriminate; reflexivity. }
    unfold processMove. rewrite Hactive. cbn [GameStatus_eqb negb].
    fold newX. fold newY.
    on_map_bounds.
    rewrite Hwall, Hfree.
    pose proof (processMove_step_stage state direction)
      as (Hstage & Hscore & itemEvents & Hev & Hquiet).
    fold newX in Hstage, Hscore, Hev. fold newY in Hstage, Hscore, Hev.
    cbv zeta in Hstage, Hscore, Hev.
    set (state1 := set_g_player
                     (turnTo direction (set_p_pos newX newY (g_player state)))
                     state) in *.
    match goal with
    | |- context [let '(events2, state2) := ?r in _] =>
        destruct r as [events2 state2] eqn:Hr
    end.
    cbn [fst snd] in Hstage, Hscore, Hev.
    destruct Hstage as (Smap & _ & _ & Sfloor & Sstatus & _ & Sx & Sy & _ & Sc).
    destruct (turnTo_place direction (set_p_pos newX newY (g_player state)))
      as (Tx & Ty & _ & _ & Tc).
    cbn [state1 g_map g_floor g_status g_player set_g_player set_p_pos p_x p_y
         p_character] in Smap, Sfloor, Sstatus, Sx, Sy, Sc, Tx, Ty, Tc.
    rewrite Smap, Hstairs.
    assert (Hgen2 : generateMap env (g_floor state2 + 1)
                      (p_character (g_player state2)) = Some g)
      by (rewrite Sfloor, Sc, Tc; exact Hgen).
    destruct (descendStairs_effect env state2 g) as (state' & Hd & Hdesc).
    + congruence.
    + rewrite Smap, Sx, Sy, Tx, Ty. exact Hstairs.
    + exact Hgen2.
    + rewrite Hd, Sfloor, Hev. exists itemEvents, state'.
      split; [reflexivity|]. split.
      * unfold descended in *. rewrite Sfloor, Hscore in Hdesc. exact Hdesc.
      * rewrite existsb_app, Hquiet. unfold descendEvents.
        destruct (g_floor state + 1 >=? 20); reflexivity.
Qed.

(** ** Enemies and tiles over a whole turn *)

Lemma attackEnemy_liveSeparated (s : GameState) (i : nat) (e : Enemy) :
  nth_error (g_enemies s) i = Some e ->
  liveSeparated s -> liveSeparated (snd (attackEnemy s i e)).
Proof.
  intros Hnth Hsep. unfold attackEnemy.
  set (damage := Z.max 1 (p_attack (g_player s) - e_defense e)).
  assert (Hs1 : liveSeparated (updEnemy i (set_e_hp (e_hp e - damage) e) s)).
  { eapply liveSeparated_updEnemy_same_tile;
      [exact Hnth | reflexivity | reflexivity | cbn [set_e_hp e_hp]; lia
      | exact Hsep]. }
  destruct (e_hp (set_e_hp (e_hp e - damage) e) <=? 0); [|exact Hs1].
  grantXp_split Hxp. destruct Hxp as (Hf & _ & _).
  cbn [fst snd] in *. eapply stageFrame_liveSeparated; [exact Hf|].
  eapply liveSeparated_ext; try exact Hs1; reflexivity.
Qed.

Lemma rangedScan_hit_nth (state : GameState) (dx px py : Z) (steps : nat) :
  forall i hx hy j en,
    hitEnemy (rangedScan steps state dx px py i hx hy) = Some (j, en) ->
    nth_error (g_enemies state) j = Some en.
Proof.
  induction steps as [|steps IH]; intros i hx hy j en H;
    cbn [rangedScan hitEnemy] in H; [discriminate|].
  destruct ((px + dx * i <? 0) || (px + dx * i >=? mapWidth (g_map state)));
    [discriminate|].
  destruct (tileIs (g_map state) (px + dx * i) py tile_wall); [discriminate|].
  destruct (findIndex _ (g_enemies state)) as [k|] eqn:Hf.
  - destruct (nth_error (g_enemies state) k) as [enemy|] eqn:Hn.
    + cbn [hitEnemy] in H. inversion H; subst. exact Hn.
    + eapply IH; exact H.
  - eapply IH; exact H.
Qed.

Lemma rangedAttack_liveSeparated (s : GameState) :
  liveSeparated s -> liveSeparated (snd (rangedAttack s)).
Proof.
  intros Hsep. unfold rangedAttack.
  match goal with
  | |- context [rangedScan ?a ?b ?c ?d ?e ?f ?g ?h] =>
      pose proof (rangedScan_hit_nth b c d e a f g h) as Hhit;
      set (hit := rangedScan a b c d e f g h) in *
  end.
  destruct (hitEnemy hit) as [[j en]|] eqn:Hh; [|exact Hsep].
  specialize (Hhit j en eq_refl).
  set (damage := Z.max 1 (rangedDamageOf (g_player s) - e_defense en)).
  assert (Hs1 : liveSeparated (updEnemy j (set_e_hp (e_hp en - damage) en) s)).
  { eapply liveSeparated_updEnemy_same_tile;
      [exact Hhit | reflexivity | reflexivity | cbn [set_e_hp e_hp]; lia
      | exact Hsep]. }
  destruct (e_hp (set_e_hp (e_hp en - damage) en) <=? 0); [|exact Hs1].
  grantXp_split Hxp. destruct Hxp as (Hf & _ & _).
  cbn [fst snd] in *. eapply stageFrame_liveSeparated; [exact Hf|].
  eapply liveSeparated_ext; try exact Hs1; reflexivity.
Qed.

Lemma updateFog_liveSeparated (s : GameState) :
  liveSeparated s -> liveSeparated (updateFog s).
Proof. apply liveSeparated_ext; reflexivity. Qed.

Lemma descendStairs_events (env : Env) (s : GameState)
    (events : list GameEvent) (s' : GameState) :
  descendStairs env s = Some (events, s') ->
  g_status s = active ->
  tileIs (g_map s) (p_x (g_player s)) (p_y (g_player s)) tile_stairs = true ->
  existsb isFloorDescended events = true.
Proof.
  intros Hrun Hactive Hstairs.
  destruct (generateMap env (g_floor s + 1) (p_character (g_player s)))
    as [g|] eqn:Hgen.
  - destruct (descendStairs_effect env s g Hactive Hstairs Hgen)
      as (s'' & Hd & _).
    rewrite Hd in Hrun. inversion Hrun as [[Hevs Hst]]. reflexivity.
  - assert (Hnone : descendStairs env s = None).
    { unfold descendStairs. rewrite Hactive, Hstairs.
      cbn [GameStatus_eqb negb g_floor set_g_floor g_player].
      rewrite Hgen. reflexivity. }
    congruence.
Qed.

Lemma liveApart_sound (es : list Enemy) :
  liveApart es = true ->
  forall i j a b,
    i <> j -> nth_error es i = Some a -> nth_error es j = Some b ->
    e_hp a > 0 -> e_hp b > 0 -> ~ (e_x a = e_x b /\ e_y a = e_y b).
Proof.
  induction es as [|e es IH]; intros Hok i j a b Hne Ha Hb Hla Hlb [Hx Hy];
    [destruct i; discriminate|].
  cbn [liveApart] in Hok. apply andb_prop in Hok. destruct Hok as [He Hrest].
  assert (Hhead : forall k c, nth_error es k = Some c -> e_hp e > 0 ->
                    e_hp c > 0 -> e_x e = e_x c -> e_y e = e_y c -> False).
  { intros k c Hk Hle Hlc Hxc Hyc.
    apply orb_prop in He. destruct He as [He|He].
    - apply negb_true_iff in He. rewrite Z.gtb_ltb in He.
      apply Z.ltb_ge in He. lia.
    - apply negb_true_iff in He.
      assert (Ht : existsb (fun b0 => (e_hp b0 >? 0) && sameTile e b0) es
                   = true).
      { apply existsb_exists. exists c.
        split; [eapply nth_error_In; exact Hk|].
        unfold sameTile. rewrite Hxc, Hyc, !Z.eqb_refl.
        replace (e_hp c >? 0) with true
          by (symmetry; apply Z.gtb_lt; lia).
        reflexivity. }
      congruence. }
  destruct i as [|i]; destruct j as [|j]; cbn [nth_error] in Ha, Hb;
    try congruence.
  - inversion Ha; subst a. eapply Hhead; eassumption.
  - inversion Hb; subst b. eapply (Hhead i a); try eassumption; congruence.
  - eapply (IH Hrest i j a b); try eassumption; [congruence | split; assumption].
Qed.

Lemma liveSeparatedb_sound (s : GameState) :
  liveSeparatedb s = true -> liveSeparated s.
Proof.
  unfold liveSeparatedb. intros H. apply andb_prop in H.
  destruct H as [Hapart Hplayer]. split.
  - apply liveApart_sound, Hapart.
  - intros i a Hnth Hlive [Hx Hy]. apply negb_true_iff in Hplayer.
    eapply existsb_liveEnemyAt_false; [exact Hplayer | exact Hnth | exact Hlive
                                       | split; assumption].
Qed.

(** A turn that does not generate a new floor keeps [liveSeparated]. *)
Lemma turn_liveSeparated (env : Env) (state : GameState) :
  liveSeparated state ->
  liveSeparated (snd (processAttack env state))
  /\ forall direction events state',
       processMove env state direction = Some (events, state') ->
       existsb isFloorDescended events = false ->
       liveSeparated state'.
Proof.
  intros Hsep. split.
  - unfold processAttack.
    destruct (negb (GameStatus_eqb (g_status state) active)); [exact Hsep|].
    pose proof (rangedAttack_liveSeparated state Hsep) as Hr.
    destruct (rangedAttack state) as [events state1]. cbn [snd] in Hr.
    apply enemyPhase_liveSeparated, Hr.
  - intros direction events state' Hrun Hquiet.
    unfold processMove in Hrun.
    destruct (negb (GameStatus_eqb (g_status state) active)) eqn:Hactive;
      [inversion Hrun; subst; exact Hsep|].
    set (newX := p_x (g_player state) + directionDx direction) in *.
    set (newY := p_y (g_player state) + directionDy direction) in *.
    destruct ((newY <? 0) || (newY >=? mapHeight (g_map state))
              || (newX <? 0) || (newX >=? mapWidth (g_map state)));
      [inversion Hrun; subst; exact Hsep|].
    destruct (tileIs (g_map state) newX newY tile_wall);
      [inversion Hrun; subst; exact Hsep|].
    destruct (findIndex (liveEnemyAt newX newY) (g_enemies state))
      as [i|] eqn:Hfind.
    + destruct (nth_error (g_enemies state) i) as [enemy|] eqn:Hnth;
        [|inversion Hrun; subst; exact Hsep].
      set (state1 := set_g_player (turnTo direction (g_player state)) state)
        in *.
      assert (Hs1 : liveSeparated state1).
      { destruct (turnTo_place direction (g_player state)) as (Tx & Ty & _).
        eapply liveSeparated_ext; try exact Hsep; [reflexivity | | ];
          cbn [state1 g_player set_g_player]; assumption. }
      pose proof (attackEnemy_liveSeparated state1 i enemy Hnth Hs1) as Ha.
      destruct (attackEnemy state1 i enemy) as [attackEvents state2].
      cbn [snd] in Ha.
      pose proof (enemyPhase_liveSeparated env (updateFog state2) attackEvents
                    (updateFog_liveSeparated _ Ha)) as He.
      inversion Hrun as [Hres]. rewrite Hres in He. exact He.
    + set (state1 := set_g_player
                       (turnTo direction
                          (set_p_pos newX newY (g_player state))) state) in *.
      assert (Hs1 : liveSeparated state1).
      { destruct (turnTo_place direction
                    (set_p_pos newX newY (g_player state))) as (Tx & Ty & _).
        destruct Hsep as [Hpairs _]. split; [exact Hpairs|].
        intros k a Hk Hlive.
        cbn [state1 g_player set_g_player g_enemies] in *.
        rewrite Tx, Ty. cbn [set_p_pos p_x p_y].
        intros [Hx Hy].
        pose proof (findIndex_None_all _ _ Hfind a (nth_error_In _ _ Hk))
          as Hfree.
        unfold liveEnemyAt in Hfree.
        rewrite Hx, Hy, !Z.eqb_refl in Hfree. cbn [andb] in Hfree.
        rewrite Z.gtb_ltb in Hfree. apply Z.ltb_ge in Hfree. lia. }
      pose proof (processMove_step_stage state direction)
        as (Hstage & _ & itemEvents & Hev & _).
      fold newX in Hstage, Hev. fold newY in Hstage, Hev.
      cbv zeta in Hstage, Hev. fold state1 in Hstage, Hev.
      match type of Hrun with
      | context [let '(events2, state2) := ?r in _] =>
          destruct r as [events2 state2] eqn:Hr
      end.
      cbn [fst snd] in Hstage, Hev.
      pose proof (stageFrame_liveSeparated _ _ Hstage Hs1) as Hs2.
      destruct (tileIs (g_map state2) newX newY tile_stairs) eqn:Hstairs.
      * exfalso.
        destruct Hstage as (Smap & _ & _ & _ & Sstatus & _ & Sx & Sy & _).
        destruct (turnTo_place direction
                    (set_p_pos newX newY (g_player state))) as (Tx & Ty & _).
        cbn [state1 g_status g_player set_g_player set_p_pos p_x p_y]
          in Sstatus, Sx, Sy, Tx, Ty.
        destruct (descendStairs env state2) as [[descendEvs state3]|] eqn:Hd;
          [|discriminate].
        apply descendStairs_events in Hd.
        -- inversion Hrun as [[Hevs Hst]]. rewrite <- Hevs in Hquiet.
           rewrite existsb_app, Hd, orb_true_r in Hquiet. discriminate.
        -- rewrite Sstatus. destruct (g_status state); try discriminate.
           reflexivity.
        -- rewrite Sx, Sy, Tx, Ty. exact Hstairs.
      * inversion Hrun as [Hres].
        pose proof (enemyPhase_liveSeparated env (updateFog state2) events2
                      (updateFog_liveSeparated _ Hs2)) as He.
        rewrite Hres in He. exact He.
Qed.

(** The rat of the melee scenario is killed by the first move; the second
    move takes the player onto its tile, where the dead rat still is. *)
Lemma player_walks_over_dead_enemy :
  liveSeparatedb meleeState = true
  /\ exists events1 state1 events2 state2 e,
       processMove zeroEnv meleeState dir_right = Some (events1, state1)
       /\ processMove zeroEnv state1 dir_right = Some (events2, state2)
       /\ existsb isFloorDescended (events1 ++ events2) = false
       /\ nth_error (g_enemies state2) 0 = Some e
       /\ e_x e = p_x (g_player state2) /\ e_y e = p_y (g_player state2).
Proof.
  split; [vm_compute; reflexivity|].
  destruct (processMove zeroEnv meleeState dir_right)
    as [[events1 state1]|] eqn:Hrun1; [|vm_compute in Hrun1; discriminate].
  exists events1, state1.
  destruct (processMove zeroEnv state1 dir_right)
    as [[events2 state2]|] eqn:Hrun2.
  - exists events2, state2.
    vm_compute in Hrun1. inversion Hrun1 as [[Hev1 Hst1]].
    subst events1 state1.
    vm_compute in Hrun2. inversion Hrun2 as [[Hev2 Hst2]].
    subst events2 state2.
    eexists. split; [reflexivity|]. split; [reflexivity|].
    split; [reflexivity|]. split; [reflexivity|]. split; reflexivity.
  - exfalso. vm_compute in Hrun1. inversion Hrun1 as [[Hev1 Hst1]].
    subst events1 state1. vm_compute in Hrun2. discriminate.
Qed.

Lemma liveSeparated_stairsState : liveSeparated stairsState.
Proof.
  split.
  - intros [|i] [|j] a b Hne Ha Hb; try congruence;
      cbn in Ha, Hb; try (destruct i; discriminate);
      try (destruct j; discriminate).
  - intros [|i] a Ha _ [Hx Hy]; cbn in Ha; [|destruct i; discriminate].
    inversion Ha; subst a. cbn in Hx. discriminate.
Qed.

(** The generation of a new floor: the turn starts with enemies and player
    on tiles of their own; the player steps onto the stairs; [generateMap]
    draws the spawn cell of every enemy independently, here twice the cell
    [(16,1)]: after the turn two live enemies stand on one tile. *)
Lemma descend_stacks_spawned_enemies :
  liveSeparated stairsState
  /\ exists events state' a b,
       processMove twoRoomsEnv stairsState dir_right = Some (events, state')
       /\ nth_error (g_enemies state') 0 = Some a
       /\ nth_error (g_enemies state') 1 = Some b
       /\ e_hp a > 0 /\ e_hp b > 0
       /\ (e_x a, e_y a) = (16, 1) /\ (e_x b, e_y b) = (16, 1)
       /\ ~ liveSeparated state'.
Proof.
  split; [apply liveSeparated_stairsState|].
  destruct (processMove twoRoomsEnv stairsState dir_right)
    as [[events state']|] eqn:Hrun; [|vm_compute in Hrun; discriminate].
  vm_compute in Hrun. inversion Hrun as [[Hev Hst]]. clear Hrun.
  subst events state'.
  do 4 eexists. split; [reflexivity|].
  split; [reflexivity|]. split; [reflexivity|].
  split; [reflexivity|]. split; [reflexivity|].
  split; [reflexivity|]. split; [reflexivity|].
  intros [Hpairs _].
  eapply (Hpairs 0%nat 1%nat); try reflexivity; [discriminate|].
  split; reflexivity.
Qed.

(** ** Deltas and the fog *)

Lemma getVisibleItems_in_fog (s : GameState) (i : Item) :
  In i (getVisibleItems s) -> fogAt (g_fog s) (i_x i) (i_y i) = true.
Proof.
  unfold getVisibleItems. intros H. apply filter_In in H. apply H.
Qed.

Lemma Forall_flat_map {A B} (P : B -> Prop) (f : A -> list B) (l : list A) :
  (forall a, In a l -> Forall P (f a)) -> Forall P (flat_map f l).
Proof.
  intros H. induction l as [|a l IH]; cbn [flat_map]; [constructor|].
  apply Forall_app. split; [apply H; left; reflexivity|].
  apply IH. intros b Hb. apply H. right. exact Hb.
Qed.

(** X18. The move path keeps hidden things hidden.  Every delta that
    [processMoveWithDeltas] returns and that carries an enemy or an item
    -- [enemy_visible], [enemy_moved], [enemy_damaged], [item_visible],
    the visible lists of [new_floor] -- refers to a cell that is revealed
    in the fog of the state after the move. *)
Lemma processMoveWithDeltas_in_fog (env : Env) (state : GameState)
    (direction : Direction) (r : MoveResult) :
  processMoveWithDeltas env state direction = Some r ->
  Forall (deltaInFog (mr_state r)) (mr_deltas r).
Proof.
  unfold processMoveWithDeltas.
  destruct (processMove env state direction) as [[events state']|];
    [|discriminate].
  intros H. inversion H; subst r; clear H. cbn [mr_state mr_deltas].
  repeat (apply Forall_app; split).
  - destruct (_ || _); repeat constructor.
  - unfold playerStatsDelta. destruct (_ || _); repeat constructor.
  - destruct (_ || _); repeat constructor.
  - unfold scoreDelta. destruct (_ =? _); repeat constructor.
  - unfold fogDeltas. destruct (_ >? _); repeat constructor.
  - unfold enemyVisibleDeltas. apply Forall_flat_map. intros e He.
    destruct (idsHas _ _); repeat constructor.
    apply getVisibleEnemies_alive in He. apply He.
  - unfold enemyGoneDeltas. apply Forall_flat_map. intros id _.
    destruct (idsHas _ _); [constructor|].
    destruct (find _ _) as [e|]; [|repeat constructor].
    destruct (e_hp e <=? 0); repeat constructor.
  - unfold enemyChangeDeltas. apply Forall_flat_map. intros e He.
    destruct (idsHas _ _); [|constructor].
    destruct (mapGet _ _) as [[[prevX prevY] prevHp]|]; [|constructor].
    pose proof (getVisibleEnemies_alive _ _ He) as [_ Hfog].
    apply Forall_app. split.
    + destruct (_ || _); repeat constructor. exact Hfog.
    + destruct (negb _); repeat constructor.
      exists e. split; [|repeat split; try reflexivity; exact Hfog].
      unfold getVisibleEnemies in He. apply filter_In in He. apply He.
  - unfold itemVisibleDeltas. apply Forall_flat_map. intros i Hi.
    destruct (idsHas _ _); repeat constructor.
    apply getVisibleItems_in_fog, Hi.
  - unfold itemRemovedDeltas. apply Forall_flat_map. intros ev _.
    destruct (removedItemId ev); repeat constructor.
  - unfold statusDelta. destruct (GameStatus_eqb _ _); repeat constructor.
  - apply Forall_map. apply Forall_forall. intros ev _. exact I.
  - destruct (existsb _ _); repeat constructor; cbn [getVisibleState
      v_visibleEnemies v_visibleItems]; apply Forall_forall.
    + intros e He. apply getVisibleEnemies_alive in He. apply He.
    + intros i Hi. apply getVisibleItems_in_fog, Hi.
Qed.

(** C1 (the case the code misses). The attack path builds its enemy deltas
    from all of [state.enemies], not from the visible ones: the orc at
    distance 7 sees the player, steps to [(11,5)], and an [enemy_moved]
    delta carries that cell although its fog is [false] after the turn. *)
Theorem processAttackWithDeltas_leaks_hidden_enemy :
  let r := processAttackWithDeltas zeroEnv fogState in
  In (delta_enemy_moved "orc-1" 11 5) (mr_deltas r)
  /\ fogAt (g_fog (mr_state r)) 11 5 = false
  /\ (exists e, nth_error (g_enemies (mr_state r)) 0 = Some e
                /\ e_id e = "orc-1" /\ e_x e = 11 /\ e_y e = 5)
  /\ ~ Forall (deltaInFog (mr_state r)) (mr_deltas r).
Proof.
  set (r := processAttackWithDeltas zeroEnv fogState).
  assert (Hin : In (delta_enemy_moved "orc-1" 11 5) (mr_deltas r)).
  { vm_compute. left. reflexivity. }
  assert (Hfog : fogAt (g_fog (mr_state r)) 11 5 = false)
    by (vm_compute; reflexivity).
  split; [exact Hin|]. split; [exact Hfog|]. split.
  - vm_compute. eexists. repeat split; reflexivity.
  - intros Hall. rewrite Forall_forall in Hall.
    specialize (Hall _ Hin). cbn [deltaInFog] in Hall. congruence.
Qed.

(** ** The fog of war *)

Lemma revealCell_at (m : list (list Tile)) (px py x y dy dx : Z)
    (fog : list (list bool)) (b : bool) :
  at2 fog x y = Some b ->
  at2 (revealCell m px py fog dy dx) x y
  = Some (b || revealsAt m px py x y dy dx).
Proof.
  intros Hb. unfold revealCell, revealsAt, inBounds, inVision. cbv zeta.
  destruct (Z.eqb_spec (px + dx) x) as [Hx|Hx];
    destruct (Z.eqb_spec (py + dy) y) as [Hy|Hy].
  - subst x y.
    replace (px + dx - px) with dx by lia.
    replace (py + dy - py) with dy by lia.
    cbn [andb].
    destruct ((px + dx >=? 0) && (px + dx <? mapWidth m) && (py + dy >=? 0)
              && (py + dy <? mapHeight m)); cbn [andb];
      [|rewrite Hb, orb_false_r; reflexivity].
    destruct (dx * dx + dy * dy <=? VISION_RADIUS * VISION_RADIUS).
    + rewrite (at2_set2_same _ _ _ _ _ Hb), orb_true_r. reflexivity.
    + rewrite Hb, orb_false_r. reflexivity.
  - cbn [andb]. rewrite orb_false_r.
    destruct (_ && _ && _ && _); [|exact Hb].
    destruct (_ <=? _); [|exact Hb].
    rewrite at2_set2_other; [exact Hb | right; lia].
  - cbn [andb]. rewrite orb_false_r.
    destruct (_ && _ && _ && _); [|exact Hb].
    destruct (_ <=? _); [|exact Hb].
    rewrite at2_set2_other; [exact Hb | left; lia].
  - cbn [andb]. rewrite orb_false_r.
    destruct (_ && _ && _ && _); [|exact Hb].
    destruct (_ <=? _); [|exact Hb].
    rewrite at2_set2_other; [exact Hb | left; lia].
Qed.

Lemma revealRow_at (m : list (list Tile)) (px py x y dy : Z) (dxs : list Z) :
  forall fog b,
    at2 fog x y = Some b ->
    at2 (fold_left (fun fog dx => revealCell m px py fog dy dx) dxs fog) x y
    = Some (b || existsb (revealsAt m px py x y dy) dxs).
Proof.
  induction dxs as [|dx dxs IH]; intros fog b Hb; cbn [fold_left existsb].
  - rewrite orb_false_r. exact Hb.
  - rewrite (IH _ _ (revealCell_at m px py x y dy dx fog b Hb)).
    rewrite orb_assoc. reflexivity.
Qed.

Lemma revealRows_at (m : list (list Tile)) (px py x y : Z)
    (dxs dys : list Z) :
  forall fog b,
    at2 fog x y = Some b ->
    at2 (fold_left
           (fun fog dy =>
              fold_left (fun fog dx => revealCell m px py fog dy dx) dxs fog)
           dys fog) x y
    = Some (b || existsb (fun dy => existsb (revealsAt m px py x y dy) dxs)
                         dys).
Proof.
  induction dys as [|dy dys IH]; intros fog b Hb; cbn [fold_left existsb].
  - rewrite orb_false_r. exact Hb.
  - rewrite (IH _ _ (revealRow_at m px py x y dy dxs fog b Hb)).
    rewrite orb_assoc. reflexivity.
Qed.

Lemma inVision_offsets (px py x y : Z) :
  inVision px py x y = true ->
  - VISION_RADIUS <= x - px <= VISION_RADIUS
  /\ - VISION_RADIUS <= y - py <= VISION_RADIUS.
Proof.
  unfold inVision, VISION_RADIUS. intros H. apply Z.leb_le in H.
  remember (x - px) as a eqn:Ea. remember (y - py) as c eqn:Ec.
  clear Ea Ec.
  assert (Ha : 0 <= a * a) by apply Z.square_nonneg.
  assert (Hc : 0 <= c * c) by apply Z.square_nonneg.
  repeat split; nia.
Qed.

Lemma revealed_cells (m : list (list Tile)) (px py x y : Z) :
  existsb (fun dy =>
             existsb (revealsAt m px py x y dy)
                     (zinterval (- VISION_RADIUS) VISION_RADIUS))
          (zinterval (- VISION_RADIUS) VISION_RADIUS)
  = inBounds m x y && inVision px py x y.
Proof.
  apply eq_true_iff_eq. rewrite existsb_exists. split.
  - intros (dy & _ & H). apply existsb_exists in H.
    destruct H as (dx & _ & H). unfold revealsAt in H.
    rewrite !andb_true_iff in H. rewrite andb_true_iff. tauto.
  - intros H. apply andb_true_iff in H. destruct H as [Hb Hv].
    destruct (inVision_offsets _ _ _ _ Hv) as [Hx Hy].
    exists (y - py). split; [apply In_zinterval; lia|].
    apply existsb_exists. exists (x - px).
    split; [apply In_zinterval; lia|].
    unfold revealsAt. rewrite Hb, Hv.
    replace (px + (x - px)) with x by lia.
    replace (py + (y - py)) with y by lia.
    rewrite !Z.eqb_refl. reflexivity.
Qed.

Lemma updateFogGrid_at (m : list (list Tile)) (px py x y : Z)
    (fog : list (list bool)) (b : bool) :
  at2 fog x y = Some b ->
  at2 (updateFogGrid m px py fog) x y
  = Some (b || (inBounds m x y && inVision px py x y)).
Proof.
  intros Hb. unfold updateFogGrid.
  rewrite (revealRows_at m px py x y _ _ fog b Hb), revealed_cells.
  reflexivity.
Qed.

(** X1. [updateFog] reveals exactly the disc: a cell that the fog grid has
    is revealed after [updateFog] if and only if it was revealed before or
    it lies inside the map bounds within distance [VISION_RADIUS] of the
    player (squared distance at most 25); every other cell keeps its
    value. *)
Theorem updateFog_reveals_exactly (s : GameState) (x y : Z) :
  at2 (g_fog s) x y <> None ->
  fogAt (g_fog (updateFog s)) x y
  = fogAt (g_fog s) x y
    || (inBounds (g_map s) x y
        && inVision (p_x (g_player s)) (p_y (g_player s)) x y).
Proof.
  intros Hcell. destruct (at2 (g_fog s) x y) as [b|] eqn:Hb; [|congruence].
  unfold fogAt, updateFog. cbn [g_fog set_g_fog].
  rewrite (updateFogGrid_at _ _ _ _ _ _ b Hb), Hb.
  destruct b; cbn [orb]; [reflexivity|].
  destruct (inBounds _ _ _ && inVision _ _ _ _); reflexivity.
Qed.

Lemma updateFog_reveals_exactly_witness :
  fogAt (g_fog (updateFog cornerState)) 6 1
  = fogAt (g_fog cornerState) 6 1
    || (inBounds (g_map cornerState) 6 1
        && inVision (p_x (g_player cornerState))
                    (p_y (g_player cornerState)) 6 1).
Proof. apply updateFog_reveals_exactly. vm_compute. discriminate. Defined.



(** ** Path finding *)

Lemma expandNode_ok (s : GameState) (sx sy tx ty : Z) (cur : PathNode) :
  nodeOk s sx sy cur ->
  forall dirs visited queue,
    Forall (fun d => Z.abs (fst d) + Z.abs (snd d) = 1) dirs ->
    Forall (nodeOk s sx sy) queue ->
    match expandNode s tx ty cur dirs visited queue with
    | Found step => exists c, step = Some c /\ stepOk s sx sy tx ty c
    | Continue _ queue' => Forall (nodeOk s sx sy) queue'
    end.
Proof.
  intros Hcur dirs.
  induction dirs as [|[ddx ddy] dirs IH]; intros visited queue Hdirs Hq;
    cbn [expandNode]; [exact Hq|].
  inversion Hdirs as [|d ds Hd Hrest]; subst. cbn [fst snd] in Hd.
  destruct (visitedHas visited (n_x cur + ddx) (n_y cur + ddy));
    [apply IH; assumption|].
  destruct ((n_x cur + ddx <? 0) || (n_x cur + ddx >=? mapWidth (g_map s))
            || (n_y cur + ddy <? 0)
            || (n_y cur + ddy >=? mapHeight (g_map s))) eqn:Hout;
    [apply IH; assumption|].
  destruct (tileIs (g_map s) (n_x cur + ddx) (n_y cur + ddy) tile_wall)
    eqn:Hwall; [apply IH; assumption|].
  apply orb_false_elim in Hout. destruct Hout as [Hout Hy2].
  apply orb_false_elim in Hout. destruct Hout as [Hout Hy1].
  apply orb_false_elim in Hout. destruct Hout as [Hx1 Hx2].
  apply Z.ltb_ge in Hx1, Hy1. rewrite Z.geb_leb in Hx2, Hy2.
  apply Z.leb_gt in Hx2, Hy2.
  set (c' := {| c_x := n_x cur + ddx; c_y := n_y cur + ddy |}).
  assert (Hfirst : n_path cur = [] -> firstStepOk s sx sy c').
  { intros Hnil. unfold nodeOk in Hcur. rewrite Hnil in Hcur.
    destruct Hcur as [Hx Hy]. unfold firstStepOk, adjacent4.
    cbn [c' c_x c_y fst snd]. rewrite Hx, Hy in *.
    repeat split; try lia; assumption. }
  destruct ((n_x cur + ddx =? tx) && (n_y cur + ddy =? ty)) eqn:Htarget.
  - apply andb_prop in Htarget. destruct Htarget as [Htx Hty].
    apply Z.eqb_eq in Htx, Hty.
    destruct (n_path cur) as [|c rest] eqn:Hpath.
    + exists c'. split; [reflexivity|]. split; [apply Hfirst; reflexivity|].
      left. split; assumption.
    + exists c. split; [reflexivity|]. unfold nodeOk in Hcur.
      rewrite Hpath in Hcur. destruct Hcur as [Hc Hfree].
      split; [exact Hc | right; exact Hfree].
  - destruct (negb (existsb (liveEnemyAt (n_x cur + ddx) (n_y cur + ddy))
                            (g_enemies s))
              && negb ((n_x cur + ddx =? p_x (g_player s))
                       && (n_y cur + ddy =? p_y (g_player s)))) eqn:Hfree;
      [|apply IH; assumption].
    apply IH; [assumption|].
    apply Forall_app. split; [exact Hq|]. constructor; [|constructor].
    unfold nodeOk. cbn [n_path].
    destruct (n_path cur) as [|c rest] eqn:Hpath; cbn [app].
    + split; [apply Hfirst; reflexivity|].
      apply andb_prop in Hfree. destruct Hfree as [He Hp].
      apply negb_true_iff in He, Hp. split; [exact He|].
      cbn [c' c_x c_y]. intros [Hx Hy]. rewrite Hx, Hy, !Z.eqb_refl in Hp.
      discriminate.
    + unfold nodeOk in Hcur. rewrite Hpath in Hcur. exact Hcur.
Qed.

Lemma directions_unit :
  Forall (fun d => Z.abs (fst d) + Z.abs (snd d) = 1) directions.
Proof. repeat constructor. Qed.

Lemma bfsLoop_ok (s : GameState) (sx sy tx ty maxDistance : Z) (fuel : nat) :
  forall current visited queue c,
    (forall cur, current = Some cur -> nodeOk s sx sy cur) ->
    Forall (nodeOk s sx sy) queue ->
    bfsLoop fuel s tx ty maxDistance current visited queue = Some c ->
    stepOk s sx sy tx ty c.
Proof.
  induction fuel as [|k IH]; intros current visited queue c Hcur Hq Hrun;
    destruct current as [cur|]; cbn [bfsLoop] in Hrun; try discriminate.
  assert (Hnext : forall q, Forall (nodeOk s sx sy) q ->
            (forall n, hd_error q = Some n -> nodeOk s sx sy n)
            /\ Forall (nodeOk s sx sy) (tl q)).
  { intros q Hall. destruct q as [|n q]; cbn [hd_error tl].
    - split; [discriminate | constructor].
    - inversion Hall; subst. split; [|assumption].
      intros n0 Hn0. inversion Hn0; subst. assumption. }
  destruct (lenZ (n_path cur) >=? maxDistance).
  - destruct (Hnext queue Hq) as [Hhd Htl]. eapply IH; eassumption.
  - pose proof (expandNode_ok s sx sy tx ty cur (Hcur cur eq_refl)
                  directions visited queue directions_unit Hq) as Hexp.
    destruct (expandNode s tx ty cur directions visited queue)
      as [step|visited' queue'].
    + destruct Hexp as (c0 & Hstep & Hok). rewrite Hstep in Hrun.
      inversion Hrun; subst. exact Hok.
    + destruct (Hnext queue' Hexp) as [Hhd Htl]. eapply IH; eassumption.
Qed.

Lemma findPathToTarget_ok (s : GameState) (sx sy tx ty maxDistance : Z)
    (c : Coordinate) :
  findPathToTarget s sx sy tx ty maxDistance = Some c ->
  stepOk s sx sy tx ty c.
Proof.
  unfold findPathToTarget.
  destruct ((sx =? tx) && (sy =? ty)); [discriminate|].
  apply bfsLoop_ok; [|constructor].
  intros cur Hcur. inversion Hcur; subst. unfold nodeOk. cbn [n_path n_x n_y].
  split; reflexivity.
Qed.

(** X3. The step that [findPathToTarget] returns is always usable as a
    first step: it is one of the four neighbours of the start, it lies
    inside the map and is not a wall; and it is the target itself or a
    cell that holds neither a live enemy nor the player.  With start equal
    to target there is no step. *)
Theorem findPathToTarget_first_step (s : GameState)
    (sx sy tx ty maxDistance : Z) (c : Coordinate) :
  findPathToTarget s sx sy tx ty maxDistance = Some c ->
  Z.abs (sx - c_x c) + Z.abs (sy - c_y c) = 1
  /\ 0 <= c_x c < mapWidth (g_map s)
  /\ 0 <= c_y c < mapHeight (g_map s)
  /\ tileIs (g_map s) (c_x c) (c_y c) tile_wall = false
  /\ ((c_x c = tx /\ c_y c = ty)
      \/ (existsb (liveEnemyAt (c_x c) (c_y c)) (g_enemies s) = false
          /\ ~ (c_x c = p_x (g_player s) /\ c_y c = p_y (g_player s))))
  /\ ~ (sx = tx /\ sy = ty).
Proof.
  intros Hrun.
  destruct (findPathToTarget_ok _ _ _ _ _ _ _ Hrun)
    as ((Hadj & Hx & Hy & Hwall) & Hfree).
  repeat split; try assumption; try lia.
  intros [Ex Ey]. unfold findPathToTarget in Hrun.
  rewrite Ex, Ey, !Z.eqb_refl in Hrun. discriminate.
Qed.

Lemma findPathToTarget_first_step_witness :
  let c := {| c_x := 2; c_y := 1 |} in
  Z.abs (3 - c_x c) + Z.abs (1 - c_y c) = 1
  /\ 0 <= c_x c < mapWidth (g_map cornerState)
  /\ 0 <= c_y c < mapHeight (g_map cornerState)
  /\ tileIs (g_map cornerState) (c_x c) (c_y c) tile_wall = false
  /\ ((c_x c = 1 /\ c_y c = 1)
      \/ (existsb (liveEnemyAt (c_x c) (c_y c)) (g_enemies cornerState)
          = false
          /\ ~ (c_x c = p_x (g_player cornerState)
                /\ c_y c = p_y (g_player cornerState))))
  /\ ~ (3 = 1 /\ 1 = 1).
Proof.
  apply (findPathToTarget_first_step cornerState 3 1 1 1 20).
  vm_compute. reflexivity.
Defined.

(** ** The turn of one enemy *)

Lemma setNth_setNth {A} (l : list A) :
  forall i v w, setNth i v (setNth i w l) = setNth i v l.
Proof.
  induction l as [|b l IH]; intros [|i] v w; simpl; try reflexivity.
  now rewrite IH.
Qed.

Lemma updEnemy_updEnemy (i : nat) (e1 e2 : Enemy) (s : GameState) :
  updEnemy i e2 (updEnemy i e1 s) = updEnemy i e2 s.
Proof.
  unfold updEnemy. cbn [g_enemies set_g_enemies]. rewrite setNth_setNth.
  reflexivity.
Qed.

Lemma otherLiveEnemyAt_setNth (x y : Z) (es : list Enemy) :
  forall i e, otherLiveEnemyAt i x y (setNth i e es)
              = otherLiveEnemyAt i x y es.
Proof.
  induction es as [|b es IH]; intros [|i] e; simpl; try reflexivity.
  now rewrite IH.
Qed.

Lemma canMoveToTile_updEnemy (s : GameState) (i : nat) (e : Enemy) (x y : Z) :
  canMoveToTile (updEnemy i e s) i x y = canMoveToTile s i x y.
Proof.
  unfold canMoveToTile, updEnemy.
  cbn [g_map g_player g_enemies set_g_enemies].
  rewrite otherLiveEnemyAt_setNth. reflexivity.
Qed.

Lemma turnResult_transfer (i : nat) (e0 : Enemy) (a a' : AI)
    (r : AI * bool) :
  ai_events a' = ai_events a -> ai_state a' = ai_state a ->
  turnResult i e0 a' r -> turnResult i e0 a r.
Proof.
  intros Hev Hst (a1 & H1 & H2 & H3). exists a1.
  rewrite <- Hev, <- Hst. repeat split; assumption.
Qed.

Lemma turnResult_rebase (i : nat) (e0 enemy : Enemy) (a : AI)
    (r : AI * bool) :
  enemyFrame e0 enemy -> e_x enemy = e_x e0 -> e_y enemy = e_y e0 ->
  turnResult i enemy (aiSetEnemy i enemy a) r -> turnResult i e0 a r.
Proof.
  intros Hf Hx Hy (a1 & Hev & Hmv & Hr). exists a1.
  split; [exact Hev|]. split; [|exact Hr].
  cbn [aiSetEnemy ai_state] in Hmv. right.
  destruct Hmv as [Hsame | (e' & He' & Hf' & Hpos)].
  - exists enemy. split; [exact Hsame|]. split; [exact Hf|]. left.
    split; assumption.
  - exists e'. rewrite updEnemy_updEnemy in He'. split; [exact He'|].
    split; [eapply enemyFrame_trans; eassumption|].
    rewrite Hx, Hy in Hpos. rewrite canMoveToTile_updEnemy in Hpos.
    exact Hpos.
Qed.

Lemma turnResult_done (i : nat) (e0 : Enemy) (a : AI) :
  turnResult i e0 a (a, false).
Proof.
  exists a. split; [reflexivity|]. split; [left; reflexivity|].
  left. reflexivity.
Qed.

Lemma turnResult_attack (i : nat) (e0 enemy : Enemy) (a : AI) :
  turnResult i e0 a (aiAttack enemy a).
Proof.
  exists a. split; [reflexivity|]. split; [left; reflexivity|].
  right. exists enemy. reflexivity.
Qed.

Lemma turnMoves_set (s : GameState) (i : nat) (e0 e' : Enemy) :
  enemyFrame e0 e' ->
  (e_x e' = e_x e0 /\ e_y e' = e_y e0)
  \/ (adjacent4 (e_x e0, e_y e0) (e_x e', e_y e')
      /\ canMoveToTile s i (e_x e') (e_y e') = true) ->
  turnMoves s i e0 (updEnemy i e' s).
Proof.
  intros Hf Hpos. right. exists e'. split; [reflexivity|].
  split; assumption.
Qed.

Lemma enemyFrame_set_pos (e : Enemy) (x y : Z) :
  enemyFrame e (set_e_pos x y e).
Proof. unfold enemyFrame; cbn; repeat split; reflexivity. Qed.

Lemma enemyFrame_set_lastSeen (e : Enemy) (c : option Coordinate) :
  enemyFrame e (set_e_lastSeenPlayer c e).
Proof. unfold enemyFrame; cbn; repeat split; reflexivity. Qed.

Lemma aiMoveThenAttack_result (i : nat) (enemy : Enemy) (st : Coordinate)
    (px py : Z) (a : AI) :
  adjacent4 (e_x enemy, e_y enemy) (c_x st, c_y st) ->
  canMoveToTile (ai_state a) i (c_x st) (c_y st) = true ->
  turnResult i enemy a (aiMoveThenAttack i enemy st px py a).
Proof.
  intros Hadj Hcan. unfold aiMoveThenAttack.
  exists (aiSetEnemy i (set_e_pos (c_x st) (c_y st) enemy) a).
  split; [reflexivity|]. split.
  - cbn [aiSetEnemy ai_state]. apply turnMoves_set;
      [apply enemyFrame_set_pos|]. right. cbn [set_e_pos e_x e_y].
    split; assumption.
  - destruct (isAdjacentToPlayer _ px py);
      [right; eexists; reflexivity | left; reflexivity].
Qed.

Lemma fleeTurn_result (i : nat) (enemy : Enemy) (px py : Z) (a : AI) :
  turnResult i enemy a (fleeTurn i enemy px py a, false).
Proof.
  unfold fleeTurn.
  destruct (canMoveToTile (ai_state a) i _ (e_y enemy)) eqn:H1;
    [|destruct (canMoveToTile (ai_state a) i (e_x enemy) _) eqn:H2];
    [| |apply turnResult_done];
    (eexists; split; [|split; [|left; reflexivity]];
     [reflexivity|]; cbn [aiSetEnemy ai_state];
     apply turnMoves_set; [apply enemyFrame_set_pos|]; right;
     cbn [set_e_pos e_x e_y];
     split; [|assumption]; unfold adjacent4; cbn [fst snd]).
  - destruct (e_x enemy >? px); lia.
  - destruct (e_y enemy >? py); lia.
Qed.

Lemma aiFindPath_events (enemy : Enemy) (tx ty : Z) (a : AI) :
  ai_events (snd (aiFindPath enemy tx ty a)) = ai_events a.
Proof.
  unfold aiFindPath.
  destruct (ai_pathfindingCount a <? MAX_PATHFINDING_ENEMIES); reflexivity.
Qed.

Lemma aiFindPath_step (enemy : Enemy) (tx ty : Z) (a : AI) (st : Coordinate) :
  fst (aiFindPath enemy tx ty a) = Some st ->
  adjacent4 (e_x enemy, e_y enemy) (c_x st, c_y st).
Proof.
  unfold aiFindPath.
  destruct (ai_pathfindingCount a <? MAX_PATHFINDING_ENEMIES); cbn [fst];
    [|discriminate].
  intros H. apply findPathToTarget_ok in H. destruct H as [[Hadj _] _].
  exact Hadj.
Qed.

Lemma aggressiveTurn_result (i : nat) (enemy : Enemy) (canSee : bool)
    (px py : Z) (a : AI) :
  turnResult i enemy a (aggressiveTurn i enemy canSee px py a).
Proof.
  unfold aggressiveTurn.
  assert (Hmain :
    forall tx ty,
      turnResult i enemy a
        (if isAdjacentToPlayer enemy px py then aiAttack enemy a
         else
           let '(step, a1) := aiFindPath enemy tx ty a in
           match step with
           | Some st =>
               if (c_x st =? px) && (c_y st =? py) then aiAttack enemy a1
               else if canMoveToTile (ai_state a1) i (c_x st) (c_y st)
               then aiMoveThenAttack i enemy st px py a1
               else (a1, false)
           | None =>
               match canSee, e_lastSeenPlayer enemy with
               | false, Some c =>
                   if (e_x enemy =? c_x c) && (e_y enemy =? c_y c) then
                     (aiSetEnemy i (set_e_lastSeenPlayer None enemy) a1,
                      false)
                   else (a1, false)
               | _, _ => (a1, false)
               end
           end)).
  { intros tx ty.
    destruct (isAdjacentToPlayer enemy px py); [apply turnResult_attack|].
    pose proof (aiFindPath_state enemy tx ty a) as Hst.
    pose proof (aiFindPath_events enemy tx ty a) as Hev.
    pose proof (aiFindPath_step enemy tx ty a) as Hadj.
    destruct (aiFindPath enemy tx ty a) as [step a1].
    cbn [fst snd] in Hst, Hev, Hadj.
    apply (turnResult_transfer i enemy a a1 _ Hev Hst).
    destruct step as [st|].
    - destruct ((c_x st =? px) && (c_y st =? py));
        [apply turnResult_attack|].
      destruct (canMoveToTile (ai_state a1) i (c_x st) (c_y st)) eqn:Hcan;
        [|apply turnResult_done].
      apply aiMoveThenAttack_result; [apply Hadj; reflexivity | exact Hcan].
    - destruct canSee; [apply turnResult_done|].
      destruct (e_lastSeenPlayer enemy) as [c|]; [|apply turnResult_done].
      destruct ((e_x enemy =? c_x c) && (e_y enemy =? c_y c));
        [|apply turnResult_done].
      eexists. split; [|split; [|left; reflexivity]]; [reflexivity|].
      cbn [aiSetEnemy ai_state]. apply turnMoves_set;
        [apply enemyFrame_set_lastSeen|]. left. split; reflexivity. }
  destruct canSee; [apply Hmain|].
  destruct (e_lastSeenPlayer enemy) as [c|] eqn:Hls.
  - specialize (Hmain (c_x c) (c_y c)). exact Hmain.
  - apply turnResult_done.
Qed.

Lemma patrolTurn_result (i : nat) (enemy : Enemy) (canSee : bool)
    (px py : Z) (a : AI) :
  turnResult i enemy a (patrolTurn i enemy canSee px py a).
Proof.
  unfold patrolTurn.
  destruct canSee; [|apply turnResult_done].
  destruct (isAdjacentToPlayer enemy px py); [apply turnResult_attack|].
  pose proof (aiFindPath_state enemy px py a) as Hst.
  pose proof (aiFindPath_events enemy px py a) as Hev.
  pose proof (aiFindPath_step enemy px py a) as Hadj.
  destruct (aiFindPath enemy px py a) as [step a1].
  cbn [fst snd] in Hst, Hev, Hadj.
  apply (turnResult_transfer i enemy a a1 _ Hev Hst).
  destruct step as [st|]; [|apply turnResult_done].
  destruct (canMoveToTile (ai_state a1) i (c_x st) (c_y st)) eqn:Hcan;
    [|apply turnResult_done].
  apply aiMoveThenAttack_result; [apply Hadj; reflexivity | exact Hcan].
Qed.

Lemma stationaryTurn_result (i : nat) (enemy : Enemy) (px py : Z) (a : AI) :
  turnResult i enemy a (stationaryTurn enemy px py a).
Proof.
  unfold stationaryTurn.
  destruct (isAdjacentToPlayer enemy px py);
    [apply turnResult_attack | apply turnResult_done].
Qed.

Lemma enemyTurn_result (px py : Z) (i : nat) (dist : Z) (a : AI)
    (enemy0 : Enemy) :
  nth_error (g_enemies (ai_state a)) i = Some enemy0 ->
  turnResult i enemy0 a (enemyTurn px py i dist a).
Proof.
  intros Hnth. unfold enemyTurn. rewrite Hnth.
  destruct (dist >? VISION_RADIUS + 2); [apply turnResult_done|].
  set (canSee := hasLineOfSight (ai_state a) (e_x enemy0) (e_y enemy0) px py).
  assert (Hbehave : forall enemy a0,
            turnResult i enemy a0
              match e_behavior enemy with
              | flee =>
                  if hpPercentBelow30 (e_hp enemy) (e_maxHp enemy) && canSee
                  then (fleeTurn i enemy px py a0, false)
                  else aggressiveTurn i enemy canSee px py a0
              | aggressive => aggressiveTurn i enemy canSee px py a0
              | patrol => patrolTurn i enemy canSee px py a0
              | stationary => stationaryTurn enemy px py a0
              end).
  { intros enemy a0. destruct (e_behavior enemy).
    - apply aggressiveTurn_result.
    - apply patrolTurn_result.
    - destruct (hpPercentBelow30 (e_hp enemy) (e_maxHp enemy) && canSee).
      + apply fleeTurn_result.
      + apply aggressiveTurn_result.
    - apply stationaryTurn_result. }
  destruct canSee.
  - eapply turnResult_rebase; [apply enemyFrame_set_lastSeen | reflexivity
                               | reflexivity | apply Hbehave].
  - apply Hbehave.
Qed.

(** ** How the enemy phase ends *)

Lemma isPlayerDiedEvent_enemy (events : list GameEvent) :
  existsb isEnemyEvent events = false ->
  existsb isPlayerDiedEvent events = false.
Proof.
  induction events as [|ev events IH]; cbn [existsb]; [reflexivity|].
  intros H. apply orb_false_elim in H. destruct H as [Hev Hrest].
  rewrite (IH Hrest), orb_false_r.
  unfold isEnemyEvent in Hev. unfold isPlayerDiedEvent.
  destruct (ev_type ev); try reflexivity; discriminate.
Qed.

Lemma aiAttack_ends (enemy : Enemy) (a : AI) :
  aliveAI a ->
  (snd (aiAttack enemy a) = false /\ aliveAI (fst (aiAttack enemy a)))
  \/ (snd (aiAttack enemy a) = true /\ diedAI (fst (aiAttack enemy a))).
Proof.
  intros [Hactive Hquiet]. unfold aiAttack, enemyAttackPlayer.
  cbn [g_player set_g_player p_hp set_p_hp].
  destruct (p_hp (g_player (ai_state a))
            - Z.max 1 (e_attack enemy - p_defense (g_player (ai_state a)))
            <=? 0) eqn:Hhp.
  - right. cbn [fst snd ai_state ai_events g_status set_g_status
                GameStatus_eqb].
    split; [reflexivity|]. unfold diedAI.
    cbn [ai_state ai_events g_status set_g_status g_player set_g_player
         p_hp set_p_hp].
    split; [reflexivity|]. split; [apply Z.leb_le, Hhp|].
    exists (ai_events a ++ [event player_damaged]), (e_type enemy).
    split; [rewrite <- app_assoc; reflexivity|].
    rewrite existsb_app, Hquiet. reflexivity.
  - left. cbn [fst snd ai_state ai_events g_status set_g_player].
    rewrite Hactive. split; [reflexivity|]. unfold aliveAI.
    cbn [ai_state ai_events g_status set_g_player].
    split; [exact Hactive|]. rewrite existsb_app, Hquiet. reflexivity.
Qed.

Lemma turnMoves_quiet (s : GameState) (i : nat) (e0 : Enemy)
    (s1 : GameState) :
  turnMoves s i e0 s1 ->
  g_status s1 = g_status s /\ g_player s1 = g_player s
  /\ g_map s1 = g_map s.
Proof.
  intros [->|(e' & -> & _)]; repeat split; reflexivity.
Qed.

Lemma turnResult_ends (i : nat) (e0 : Enemy) (a : AI) (r : AI * bool) :
  turnResult i e0 a r -> aliveAI a ->
  (snd r = false /\ aliveAI (fst r)) \/ (snd r = true /\ diedAI (fst r)).
Proof.
  intros (a1 & Hev & Hmv & Hr) [Hactive Hquiet].
  destruct (turnMoves_quiet _ _ _ _ Hmv) as (Hst & _ & _).
  assert (Halive : aliveAI a1)
    by (split; [rewrite Hst; exact Hactive | rewrite Hev; exact Hquiet]).
  destruct Hr as [->|(enemy & ->)].
  - left. split; [reflexivity | exact Halive].
  - apply aiAttack_ends, Halive.
Qed.

Lemma enemyTurn_ends (px py : Z) (i : nat) (dist : Z) (a : AI) :
  aliveAI a ->
  (snd (enemyTurn px py i dist a) = false
   /\ aliveAI (fst (enemyTurn px py i dist a)))
  \/ (snd (enemyTurn px py i dist a) = true
      /\ diedAI (fst (enemyTurn px py i dist a))).
Proof.
  intros Halive.
  destruct (nth_error (g_enemies (ai_state a)) i) as [enemy0|] eqn:Hnth.
  - eapply turnResult_ends; [apply enemyTurn_result; exact Hnth | exact Halive].
  - unfold enemyTurn. rewrite Hnth. left. split; [reflexivity | exact Halive].
Qed.

Lemma moveEnemiesLoop_ends (px py : Z) (activeEnemies : list (nat * Z)) :
  forall a, aliveAI a ->
    aliveAI (moveEnemiesLoop px py activeEnemies a)
    \/ diedAI (moveEnemiesLoop px py activeEnemies a).
Proof.
  induction activeEnemies as [|[i dist] rest IH]; intros a Halive;
    cbn [moveEnemiesLoop]; [left; exact Halive|].
  pose proof (enemyTurn_ends px py i dist a Halive) as Hturn.
  destruct (enemyTurn px py i dist a) as [a' stop]. cbn [fst snd] in Hturn.
  destruct Hturn as [[-> Ha']|[-> Ha']]; [apply IH, Ha' | right; exact Ha'].
Qed.

Lemma moveEnemies_ends (s : GameState) :
  g_status s = active ->
  turnEnds (fst (moveEnemies s)) (snd (moveEnemies s)).
Proof.
  intros Hactive. unfold moveEnemies. cbn [fst snd].
  destruct (moveEnemiesLoop_ends (p_x (g_player s)) (p_y (g_player s))
              (sortByKey snd (activeFrom 0 (p_x (g_player s))
                                         (p_y (g_player s)) (g_enemies s)))
              {| ai_state := s; ai_events := []; ai_pathfindingCount := 0 |})
    as [[Hst Hev]|Hdied].
  - split; [exact Hactive | reflexivity].
  - left. split; [rewrite Hst; discriminate | exact Hev].
  - right. exact Hdied.
Qed.

Lemma enemyPhase_ends (env : Env) (s : GameState) (events : list GameEvent) :
  g_status s <> dead ->
  existsb isPlayerDiedEvent events = false ->
  turnEnds (fst (enemyPhase env s events)) (snd (enemyPhase env s events)).
Proof.
  intros Hnot Hquiet. unfold enemyPhase.
  destruct (GameStatus_eqb (g_status s) active) eqn:Hactive.
  - assert (Hst : g_status s = active)
      by (destruct (g_status s); try discriminate; reflexivity).
    pose proof (moveEnemies_ends s Hst) as Hends.
    destruct (moveEnemies s) as [enemyEvents s']. cbn [fst snd] in *.
    destruct Hends as [[Hs Hev]|(Hs & Hhp & pre & killer & Hev & Hpre)].
    + left. split; [exact Hs|]. rewrite existsb_app, Hquiet, Hev.
      reflexivity.
    + right. split; [exact Hs|]. split; [exact Hhp|].
      exists (events ++ pre), killer. split.
      * rewrite Hev, app_assoc. reflexivity.
      * rewrite existsb_app, Hquiet, Hpre. reflexivity.
  - cbn [fst snd g_status set_g_updatedAt]. left. split; [exact Hnot|].
    rewrite app_nil_r. exact Hquiet.
Qed.

(** ** The player's half of a turn emits no enemy event *)

Lemma levelUpLoop_events (fuel : nat) :
  forall p events p' events',
    levelUpLoop fuel p events = Some (p', events') ->
    existsb isEnemyEvent events = false ->
    existsb isEnemyEvent events' = false.
Proof.
  induction fuel as [|k IH]; intros p events p' events' Hrun Hquiet;
    cbn [levelUpLoop] in Hrun;
    destruct (p_xp p >=? p_xpToNextLevel p); try discriminate;
    try (inversion Hrun; subst; exact Hquiet).
  eapply IH; [exact Hrun|]. rewrite existsb_app, Hquiet. reflexivity.
Qed.

Lemma grantXp_events (s : GameState) (enemy : Enemy) :
  existsb isEnemyEvent (fst (grantXp s enemy)) = false.
Proof.
  unfold grantXp. cbv zeta.
  destruct (levelUpLoop _ _ _) as [[p' events']|] eqn:Hloop; cbn [fst];
    [|reflexivity].
  eapply levelUpLoop_events; [exact Hloop | reflexivity].
Qed.

Lemma attackEnemy_events (s : GameState) (i : nat) (e : Enemy) :
  existsb isEnemyEvent (fst (attackEnemy s i e)) = false.
Proof.
  unfold attackEnemy. cbv zeta.
  destruct (e_hp (set_e_hp _ e) <=? 0); [|reflexivity].
  match goal with
  | |- context [grantXp ?st ?en] =>
      pose proof (grantXp_events st en) as Hxp;
      destruct (grantXp st en) as [xpEvents state3]
  end.
  cbn [fst] in *. rewrite !existsb_app, Hxp. reflexivity.
Qed.

Lemma rangedAttack_events (s : GameState) :
  existsb isEnemyEvent (fst (rangedAttack s)) = false
  /\ g_status (snd (rangedAttack s)) = g_status s.
Proof.
  unfold rangedAttack. cbv zeta.
  destruct (hitEnemy _) as [[j enemy]|]; [|split; reflexivity].
  destruct (e_hp (set_e_hp _ enemy) <=? 0); [|split; reflexivity].
  match goal with
  | |- context [grantXp ?st ?en] =>
      pose proof (grantXp_events st en) as Hxp;
      pose proof (grantXp_frame st en) as (Hframe & _);
      destruct (grantXp st en) as [xpEvents state3]
  end.
  cbn [fst snd] in *. split.
  - rewrite !existsb_app, Hxp. reflexivity.
  - destruct Hframe as (_ & _ & _ & _ & Hst & _). rewrite Hst. reflexivity.
Qed.

Lemma moveStage_stage (state : GameState) (direction : Direction) :
  let newX := p_x (g_player state) + directionDx direction in
  let newY := p_y (g_player state) + directionDy direction in
  let state1 :=
    set_g_player (turnTo direction (set_p_pos newX newY (g_player state)))
                 state in
  stageFrame state1 (snd (moveStage state direction))
  /\ g_score (snd (moveStage state direction)) = g_score state
  /\ exists itemEvents,
       fst (moveStage state direction) = event player_moved :: itemEvents
       /\ existsb isEnemyEvent itemEvents = false.
Proof. exact (processMove_step_stage state direction). Qed.

Lemma moveStage_place (state : GameState) (direction : Direction) :
  let s2 := snd (moveStage state direction) in
  g_status s2 = g_status state /\ g_map s2 = g_map state
  /\ g_floor s2 = g_floor state /\ g_enemies s2 = g_enemies state
  /\ p_x (g_player s2) = p_x (g_player state) + directionDx direction
  /\ p_y (g_player s2) = p_y (g_player state) + directionDy direction
  /\ p_character (g_player s2) = p_character (g_player state).
Proof.
  destruct (moveStage_stage state direction)
    as ((Hmap & _ & Hen & Hfl & Hst & _ & Hx & Hy & _ & Hch) & _).
  destruct (turnTo_place direction
              (set_p_pos (p_x (g_player state) + directionDx direction)
                         (p_y (g_player state) + directionDy direction)
                         (g_player state))) as (Tx & Ty & _ & _ & Tc).
  cbn [g_status g_map g_floor g_enemies g_player set_g_player] in *.
  cbn [set_p_pos p_x p_y p_character] in Tx, Ty, Tc.
  cbv zeta. repeat split; congruence.
Qed.

(** ** The shape of a move *)

Lemma processMove_unfold (env : Env) (state : GameState)
    (direction : Direction) :
  processMove env state direction
  = if negb (GameStatus_eqb (g_status state) active) then Some ([], state)
    else
      let newX := p_x (g_player state) + directionDx direction in
      let newY := p_y (g_player state) + directionDy direction in
      if (newY <? 0) || (newY >=? mapHeight (g_map state))
         || (newX <? 0) || (newX >=? mapWidth (g_map state))
      then Some ([], state)
      else if tileIs (g_map state) newX newY tile_wall then Some ([], state)
      else
        match findIndex (liveEnemyAt newX newY) (g_enemies state) with
        | Some i =>
            match nth_error (g_enemies state) i with
            | Some enemyAtTarget =>
                let state1 :=
                  set_g_player (turnTo direction (g_player state)) state in
                let '(attackEvents, state2) :=
                  attackEnemy state1 i enemyAtTarget in
                Some (enemyPhase env (updateFog state2) attackEvents)
            | None => Some ([], state)
            end
        | None =>
            let '(events2, state2) := moveStage state direction in
            if tileIs (g_map state2) newX newY tile_stairs then
              match descendStairs env state2 with
              | Some (descendEvents, state3) =>
                  Some (events2 ++ descendEvents, state3)
              | None => None
              end
            else Some (enemyPhase env (updateFog state2) events2)
        end.
Proof. reflexivity. Qed.

Lemma descendStairs_player (env : Env) (state : GameState)
    (g : GeneratedFloor) :
  g_status state = active ->
  tileIs (g_map state) (p_x (g_player state)) (p_y (g_player state))
         tile_stairs = true ->
  generateMap env (g_floor state + 1) (p_character (g_player state)) = Some g ->
  exists state',
    descendStairs env state = Some (descendEvents (g_floor state + 1), state')
    /\ descended g state state'
    /\ g_player state'
       = set_p_pos (c_x (gf_playerStart g)) (c_y (gf_playerStart g))
                   (g_player state)
    /\ sameGame state state'.
Proof.
  intros Hactive Hstairs Hgen. unfold descendStairs.
  rewrite Hactive, Hstairs. cbn [GameStatus_eqb negb].
  cbn [g_floor set_g_floor g_player p_character]. rewrite Hgen.
  cbn [g_floor set_g_floor set_g_map set_g_player set_g_enemies set_g_items
       set_g_fog updateFog set_g_score set_g_updatedAt g_id g_playerId
       g_playerName g_player g_map g_enemies g_items g_fog g_status g_score
       g_createdAt g_updatedAt set_p_pos p_x p_y].
  unfold descendEvents, descended, sameGame.
  destruct (g_floor state + 1 >=? 20); eexists; (split; [reflexivity|]);
    cbn [g_floor set_g_floor set_g_map set_g_player set_g_enemies set_g_items
         set_g_fog updateFog set_g_score set_g_updatedAt set_g_status g_id
         g_playerId g_playerName g_player g_map g_enemies g_items g_fog
         g_status g_score g_createdAt g_updatedAt set_p_pos p_x p_y];
    repeat split; try reflexivity; try assumption; lia.
Qed.

Lemma descendStairs_on_stairs (env : Env) (s : GameState)
    (events : list GameEvent) (s' : GameState) :
  descendStairs env s = Some (events, s') ->
  g_status s = active ->
  tileIs (g_map s) (p_x (g_player s)) (p_y (g_player s)) tile_stairs = true ->
  exists g,
    generateMap env (g_floor s + 1) (p_character (g_player s)) = Some g
    /\ events = descendEvents (g_floor s + 1)
    /\ descended g s s'
    /\ g_player s'
       = set_p_pos (c_x (gf_playerStart g)) (c_y (gf_playerStart g))
                   (g_player s)
    /\ sameGame s s'.
Proof.
  intros Hrun Hactive Hstairs.
  destruct (generateMap env (g_floor s + 1) (p_character (g_player s)))
    as [g|] eqn:Hgen.
  - destruct (descendStairs_player env s g Hactive Hstairs Hgen)
      as (s'' & Hd & Hdesc & Hp & Hsame).
    rewrite Hd in Hrun. inversion Hrun as [[Hevs Hst]]. subst s''.
    exists g. split; [reflexivity|]. split; [congruence|].
    split; [exact Hdesc|]. split; assumption.
  - assert (Hnone : descendStairs env s = None).
    { unfold descendStairs. rewrite Hactive, Hstairs.
      cbn [GameStatus_eqb negb g_floor set_g_floor g_player].
      rewrite Hgen. reflexivity. }
    congruence.
Qed.

Lemma processMove_cases (env : Env) (state : GameState)
    (direction : Direction) (events : list GameEvent) (state' : GameState) :
  g_status state = active ->
  processMove env state direction = Some (events, state') ->
  let newX := p_x (g_player state) + directionDx direction in
  let newY := p_y (g_player state) + directionDy direction in
  let state1 := set_g_player (turnTo direction (g_player state)) state in
  let stage := moveStage state direction in
  (events = [] /\ state' = state)
  \/ (exists i enemy,
        findIndex (liveEnemyAt newX newY) (g_enemies state) = Some i
        /\ nth_error (g_enemies state) i = Some enemy
        /\ enemyPhase env (updateFog (snd (attackEnemy state1 i enemy)))
                      (fst (attackEnemy state1 i enemy))
           = (events, state'))
  \/ (findIndex (liveEnemyAt newX newY) (g_enemies state) = None
      /\ inBounds (g_map state) newX newY = true
      /\ tileIs (g_map state) newX newY tile_wall = false
      /\ ((exists g,
             tileIs (g_map state) newX newY tile_stairs = true
             /\ generateMap env (g_floor state + 1)
                            (p_character (g_player state)) = Some g
             /\ descended g (snd stage) state'
             /\ g_player state'
                = set_p_pos (c_x (gf_playerStart g)) (c_y (gf_playerStart g))
                            (g_player (snd stage))
             /\ sameGame (snd stage) state'
             /\ events = fst stage ++ descendEvents (g_floor state + 1))
          \/ (tileIs (g_map state) newX newY tile_stairs = false
              /\ enemyPhase env (updateFog (snd stage)) (fst stage)
                 = (events, state')))).
Proof.
  intros Hactive Hrun newX newY state1 stage.
  rewrite processMove_unfold, Hactive in Hrun.
  cbn [GameStatus_eqb negb] in Hrun. cbv zeta in Hrun.
  fold newX in Hrun. fold newY in Hrun.
  destruct ((newY <? 0) || (newY >=? mapHeight (g_map state))
            || (newX <? 0) || (newX >=? mapWidth (g_map state))) eqn:Hout;
    [left; inversion Hrun; split; reflexivity|].
  destruct (tileIs (g_map state) newX newY tile_wall) eqn:Hwall;
    [left; inversion Hrun; split; reflexivity|].
  destruct (findIndex (liveEnemyAt newX newY) (g_enemies state))
    as [i|] eqn:Hfind.
  - destruct (nth_error (g_enemies state) i) as [enemy|] eqn:Hnth;
      [|left; inversion Hrun; split; reflexivity].
    right. left. exists i, enemy. split; [reflexivity|].
    split; [exact Hnth|]. fold state1 in Hrun.
    destruct (attackEnemy state1 i enemy) as [attackEvents state2].
    cbn [fst snd]. inversion Hrun as [Hres]. reflexivity.
  - right. right. split; [reflexivity|].
    assert (Hin : inBounds (g_map state) newX newY = true).
    { apply orb_false_elim in Hout. destruct Hout as [Hout Hx2].
      apply orb_false_elim in Hout. destruct Hout as [Hout Hx1].
      apply orb_false_elim in Hout. destruct Hout as [Hy1 Hy2].
      unfold inBounds. rewrite !Z.geb_leb in *.
      apply Z.ltb_ge in Hx1, Hy1. apply Z.leb_gt in Hx2, Hy2.
      rewrite !andb_true_iff. repeat split;
        try apply Z.leb_le; try apply Z.ltb_lt; assumption. }
    split; [exact Hin|]. split; [reflexivity|].
    destruct (moveStage_place state direction)
      as (Sst & Smap & Sfl & _ & Sx & Sy & Sch).
    cbv zeta in Sst, Smap, Sfl, Sx, Sy, Sch. fold stage in Hrun.
    fold stage in Sst, Smap, Sfl, Sx, Sy, Sch.
    fold newX in Sx. fold newY in Sy.
    destruct stage as [events2 state2]. cbn [fst snd] in *.
    rewrite Smap in Hrun.
    destruct (tileIs (g_map state) newX newY tile_stairs) eqn:Hstairs.
    + left.
      destruct (descendStairs env state2) as [[dev state3]|] eqn:Hd;
        [|discriminate].
      inversion Hrun; subst events state3.
      apply descendStairs_on_stairs in Hd;
        [|congruence | rewrite Smap, Sx, Sy; exact Hstairs].
      destruct Hd as (g & Hgen & Hdev & Hdesc & Hp & Hsame).
      rewrite Sfl, Sch in Hgen. rewrite Sfl in Hdev. subst dev.
      exists g. split; [reflexivity|]. split; [exact Hgen|].
      split; [exact Hdesc|]. split; [exact Hp|].
      split; [exact Hsame | reflexivity].
    + right. split; [reflexivity|]. inversion Hrun. reflexivity.
Qed.

(** ** Death and its event *)



Lemma descendEvents_quiet (newFloor : Z) :
  existsb isEnemyEvent (descendEvents newFloor) = false.
Proof. unfold descendEvents. destruct (newFloor >=? 20); reflexivity. Qed.

Lemma processMove_ends (env : Env) (state : GameState)
    (direction : Direction) (events : list GameEvent) (state' : GameState) :
  g_status state = active ->
  processMove env state direction = Some (events, state') ->
  turnEnds events state'.
Proof.
  intros Hactive Hrun.
  destruct (processMove_cases env state direction events state' Hactive Hrun)
    as [[-> ->] | [(i & enemy & _ & _ & Hphase)
                  | (_ & _ & _ & [(g & _ & _ & Hdesc & _ & _ & ->)
                                 | (_ & Hphase)])]].
  - left. split; [rewrite Hactive; discriminate | reflexivity].
  - match type of Hphase with
    | enemyPhase ?e ?s ?evs = _ =>
        pose proof (enemyPhase_ends e s evs) as Hends
    end.
    rewrite Hphase in Hends. cbn [fst snd] in Hends. apply Hends.
    + destruct (updateFog_frame
                  (snd (attackEnemy
                          (set_g_player (turnTo direction (g_player state))
                                        state) i enemy)))
        as (_ & _ & _ & Hst & _).
      rewrite Hst.
      destruct (attackEnemy_effect
                  (set_g_player (turnTo direction (g_player state)) state)
                  i enemy) as (_ & _ & _ & _ & _ & Hst' & _).
      cbv zeta in Hst'. rewrite Hst'. cbn [g_status set_g_player].
      rewrite Hactive. discriminate.
    + apply isPlayerDiedEvent_enemy, attackEnemy_events.
  - left. destruct Hdesc as (_ & _ & _ & _ & _ & _ & _ & _ & Hst).
    split.
    + rewrite Hst. destruct (_ >=? 20); discriminate.
    + destruct (moveStage_stage state direction)
        as (_ & _ & itemEvents & Hev & Hquiet).
      rewrite Hev. apply isPlayerDiedEvent_enemy.
      cbn [app existsb]. rewrite existsb_app, Hquiet, descendEvents_quiet.
      reflexivity.
  - match type of Hphase with
    | enemyPhase ?e ?s ?evs = _ =>
        pose proof (enemyPhase_ends e s evs) as Hends
    end.
    rewrite Hphase in Hends. cbn [fst snd] in Hends. apply Hends.
    + destruct (updateFog_frame (snd (moveStage state direction)))
        as (_ & _ & _ & Hst & _).
      rewrite Hst.
      destruct (moveStage_place state direction) as (Hst' & _).
      cbv zeta in Hst'. rewrite Hst', Hactive. discriminate.
    + destruct (moveStage_stage state direction)
        as (_ & _ & itemEvents & Hev & Hquiet).
      rewrite Hev. apply isPlayerDiedEvent_enemy. exact Hquiet.
Qed.

Lemma processAttack_ends (env : Env) (state : GameState) :
  g_status state = active ->
  turnEnds (fst (processAttack env state)) (snd (processAttack env state)).
Proof.
  intros Hactive. unfold processAttack. rewrite Hactive.
  cbn [GameStatus_eqb negb].
  destruct (rangedAttack_events state) as [Hquiet Hst].
  destruct (rangedAttack state) as [events state1]. cbn [fst snd] in *.
  apply enemyPhase_ends.
  - rewrite Hst, Hactive. discriminate.
  - apply isPlayerDiedEvent_enemy, Hquiet.
Qed.






(** ** How the enemies move *)

Lemma insertByKey_perm {A} (key : A -> Z) (a : A) (l : list A) :
  Permutation (insertByKey key a l) (a :: l).
Proof.
  induction l as [|b l IH]; cbn [insertByKey]; [apply Permutation_refl|].
  destruct (key a <? key b); [apply Permutation_refl|].
  eapply Permutation_trans; [apply perm_skip, IH | apply perm_swap].
Qed.

Lemma sortByKey_perm {A} (key : A -> Z) (l : list A) :
  Permutation (sortByKey key l) l.
Proof.
  unfold sortByKey.
  assert (Hgen : forall acc,
            Permutation
              (fold_left (fun sorted a => insertByKey key a sorted) l acc)
              (l ++ acc)).
  { induction l as [|a l IH]; intros acc; cbn [fold_left app];
      [apply Permutation_refl|].
    eapply Permutation_trans; [apply IH|].
    eapply Permutation_trans;
      [apply Permutation_app_head, insertByKey_perm|].
    apply Permutation_sym, Permutation_middle. }
  specialize (Hgen []). rewrite app_nil_r in Hgen. exact Hgen.
Qed.

Lemma activeFrom_In (px py : Z) (es : list Enemy) :
  forall i0 j d,
    In (j, d) (activeFrom i0 px py es) ->
    (i0 <= j)%nat
    /\ exists e, nth_error es (j - i0) = Some e /\ e_hp e > 0
                 /\ d = Z.abs (e_x e - px) + Z.abs (e_y e - py).
Proof.
  induction es as [|e es IH]; intros i0 j d Hin; cbn [activeFrom] in Hin;
    [destruct Hin|].
  assert (Htail : In (j, d) (activeFrom (S i0) px py es) ->
            (i0 <= j)%nat
            /\ exists e0, nth_error (e :: es) (j - i0) = Some e0
                          /\ e_hp e0 > 0
                          /\ d = Z.abs (e_x e0 - px) + Z.abs (e_y e0 - py)).
  { intros H. destruct (IH _ _ _ H) as (Hle & e0 & Hnth & Hrest).
    split; [lia|]. exists e0. split; [|exact Hrest].
    replace (j - i0)%nat with (S (j - S i0)) by lia. exact Hnth. }
  destruct (e_hp e >? 0) eqn:Hhp; [|apply Htail, Hin].
  destruct Hin as [Heq|Hin]; [|apply Htail, Hin].
  inversion Heq; subst. split; [lia|]. exists e.
  rewrite Nat.sub_diag. split; [reflexivity|].
  split; [apply Z.gtb_lt in Hhp; lia | reflexivity].
Qed.

Lemma activeFrom_NoDup (px py : Z) (es : list Enemy) :
  forall i0, NoDup (map fst (activeFrom i0 px py es)).
Proof.
  induction es as [|e es IH]; intros i0; cbn [activeFrom];
    [constructor|].
  destruct (e_hp e >? 0); [|apply IH].
  cbn [map fst]. constructor; [|apply IH].
  intros Hin. apply in_map_iff in Hin. destruct Hin as ([j d] & Hj & Hin).
  cbn [fst] in Hj. subst j. apply activeFrom_In in Hin. lia.
Qed.

Lemma canMoveToTile_true (s : GameState) (i : nat) (x y : Z) :
  canMoveToTile s i x y = true ->
  inBounds (g_map s) x y = true
  /\ tileIs (g_map s) x y tile_wall = false
  /\ ~ (x = p_x (g_player s) /\ y = p_y (g_player s)).
Proof.
  unfold canMoveToTile. intros H.
  destruct ((x <? 0) || (x >=? mapWidth (g_map s)) || (y <? 0)
            || (y >=? mapHeight (g_map s))) eqn:Hout; [discriminate|].
  destruct (tileIs (g_map s) x y tile_wall); [discriminate|].
  destruct ((x =? p_x (g_player s)) && (y =? p_y (g_player s))) eqn:Hp;
    [discriminate|].
  apply orb_false_elim in Hout. destruct Hout as [Hout Hy2].
  apply orb_false_elim in Hout. destruct Hout as [Hout Hy1].
  apply orb_false_elim in Hout. destruct Hout as [Hx1 Hx2].
  split; [|split; [reflexivity|]].
  - unfold inBounds. rewrite !Z.geb_leb in *.
    apply Z.ltb_ge in Hx1, Hy1. apply Z.leb_gt in Hx2, Hy2.
    rewrite !andb_true_iff. repeat split;
      try apply Z.leb_le; try apply Z.ltb_lt; assumption.
  - intros [Hx Hy]. rewrite Hx, Hy, !Z.eqb_refl in Hp. discriminate.
Qed.

Lemma movedOk_refl (s : GameState) (e : Enemy) : movedOk s e e.
Proof. split; [apply enemyFrame_refl | left; split; reflexivity]. Qed.

Lemma movedOk_frame (s s' : GameState) (e e' : Enemy) :
  aiFrame s s' -> movedOk s' e e' -> movedOk s e e'.
Proof.
  intros Hframe [Hf Hpos].
  pose proof (aiFrame_place _ _ Hframe) as (Hx & Hy & _).
  destruct Hframe as (Hmap & _).
  split; [exact Hf|]. rewrite Hmap, Hx, Hy in Hpos. exact Hpos.
Qed.

Lemma aiAttack_enemies (enemy : Enemy) (a : AI) :
  g_enemies (ai_state (fst (aiAttack enemy a))) = g_enemies (ai_state a).
Proof.
  unfold aiAttack, enemyAttackPlayer.
  cbn [g_player set_g_player p_hp set_p_hp].
  destruct (_ <=? 0); reflexivity.
Qed.

Lemma turnResult_enemies (i : nat) (e0 : Enemy) (a : AI) (r : AI * bool) :
  nth_error (g_enemies (ai_state a)) i = Some e0 ->
  turnResult i e0 a r ->
  (forall j, j <> i ->
     nth_error (g_enemies (ai_state (fst r))) j
     = nth_error (g_enemies (ai_state a)) j)
  /\ exists e', nth_error (g_enemies (ai_state (fst r))) i = Some e'
                /\ movedOk (ai_state a) e0 e'.
Proof.
  intros Hnth (a1 & _ & Hmv & Hr).
  assert (Hen : g_enemies (ai_state (fst r)) = g_enemies (ai_state a1)).
  { destruct Hr as [->|(enemy & ->)];
      [reflexivity | apply aiAttack_enemies]. }
  rewrite Hen. clear Hen Hr.
  destruct Hmv as [->|(e' & -> & Hf & Hpos)].
  - split; [reflexivity|]. exists e0. split; [exact Hnth | apply movedOk_refl].
  - cbn [updEnemy g_enemies set_g_enemies]. split.
    + intros j Hj. apply nth_error_setNth_other. congruence.
    + exists e'. split; [eapply nth_error_setNth_same; exact Hnth|].
      split; [exact Hf|].
      destruct Hpos as [Hsame|[Hadj Hcan]]; [left; exact Hsame|].
      right. apply canMoveToTile_true in Hcan.
      unfold adjacent4 in Hadj. cbn [fst snd] in Hadj.
      destruct Hcan as (Hb & Hw & Hp). repeat split; assumption.
Qed.

Lemma enemyTurn_enemies (px py : Z) (i : nat) (dist : Z) (a : AI) :
  forall j e,
    nth_error (g_enemies (ai_state a)) j = Some e ->
    exists e',
      nth_error (g_enemies (ai_state (fst (enemyTurn px py i dist a)))) j
      = Some e'
      /\ movedOk (ai_state a) e e'
      /\ (j <> i \/ inRange (i, dist) = false -> e' = e).
Proof.
  intros j e Hj.
  assert (Hidle : enemyTurn px py i dist a = (a, false) ->
            exists e',
              nth_error
                (g_enemies (ai_state (fst (enemyTurn px py i dist a)))) j
              = Some e'
              /\ movedOk (ai_state a) e e'
              /\ (j <> i \/ inRange (i, dist) = false -> e' = e)).
  { intros ->. exists e. split; [exact Hj|].
    split; [apply movedOk_refl | reflexivity]. }
  destruct (nth_error (g_enemies (ai_state a)) i) as [e0|] eqn:Hnth;
    [|apply Hidle; unfold enemyTurn; rewrite Hnth; reflexivity].
  destruct (dist >? VISION_RADIUS + 2) eqn:Hfar;
    [apply Hidle; unfold enemyTurn; rewrite Hnth, Hfar; reflexivity|].
  destruct (turnResult_enemies i e0 a _ Hnth
              (enemyTurn_result px py i dist a e0 Hnth))
    as (Hother & e' & Hi & Hmoved).
  destruct (Nat.eq_dec j i) as [->|Hne].
  - assert (e0 = e) by congruence. subst e0.
    exists e'. split; [exact Hi|]. split; [exact Hmoved|].
    intros [Hne|Hr]; [congruence|].
    unfold inRange in Hr. cbn [snd] in Hr. rewrite Hfar in Hr. discriminate.
  - exists e. split; [rewrite (Hother j Hne); exact Hj|].
    split; [apply movedOk_refl | reflexivity].
Qed.

Lemma moveEnemiesLoop_moves (px py : Z) (activeEnemies : list (nat * Z)) :
  NoDup (map fst activeEnemies) ->
  forall a j e,
    nth_error (g_enemies (ai_state a)) j = Some e ->
    exists e',
      nth_error
        (g_enemies (ai_state (moveEnemiesLoop px py activeEnemies a))) j
      = Some e'
      /\ movedOk (ai_state a) e e'
      /\ (~ In j (map fst (filter inRange activeEnemies)) -> e' = e).
Proof.
  induction activeEnemies as [|[i dist] rest IH]; intros Hnodup a j e Hj;
    cbn [moveEnemiesLoop].
  - exists e. split; [exact Hj|]. split; [apply movedOk_refl | reflexivity].
  - cbn [map fst] in Hnodup. inversion Hnodup as [|i' l' Hnotin Hrest];
      subst.
    destruct (enemyTurn_enemies px py i dist a j e Hj)
      as (e1 & H1 & Hmoved1 & Hsame1).
    pose proof (aiStep_frame _ _ (enemyTurn_step px py i dist a)) as Hframe.
    assert (Hskip : ~ In j (map fst (filter inRange ((i, dist) :: rest))) ->
              e1 = e).
    { intros Hnot. apply Hsame1. cbn [filter] in Hnot.
      destruct (inRange (i, dist)); [|right; reflexivity].
      left. intros ->. apply Hnot. cbn [map fst]. left. reflexivity. }
    assert (Hrestin : ~ In j (map fst (filter inRange ((i, dist) :: rest))) ->
              ~ In j (map fst (filter inRange rest))).
    { intros Hnot Hin. apply Hnot. cbn [filter].
      destruct (inRange (i, dist)); [cbn [map]; right|]; exact Hin. }
    destruct (enemyTurn px py i dist a) as [a1 stop]. cbn [fst] in *.
    destruct stop.
    + exists e1. split; [exact H1|]. split; [exact Hmoved1 | exact Hskip].
    + destruct (IH Hrest a1 j e1 H1) as (e' & H' & Hmoved' & Hsame').
      exists e'. split; [exact H'|]. split.
      * destruct (Nat.eq_dec j i) as [->|Hne].
        -- assert (e' = e1).
           { apply Hsame'. intros Hin. apply Hnotin.
             apply in_map_iff in Hin. destruct Hin as (p & Hp & Hin).
             apply filter_In in Hin. destruct Hin as [Hin _].
             apply in_map_iff. exists p. split; assumption. }
           subst e'. exact Hmoved1.
        -- assert (e1 = e) by (apply Hsame1; left; exact Hne). subst e1.
           eapply movedOk_frame; eassumption.
      * intros Hnot. rewrite (Hsame' (Hrestin Hnot)). apply Hskip, Hnot.
Qed.

(** X6. How enemies move in the enemy phase.  Every enemy takes at most
    one step: it keeps its hit points and statistics and either stays on
    its tile or ends on one of the four neighbouring tiles, which is then
    inside the map, not a wall and not the player's tile.  Dead enemies
    and enemies further than [VISION_RADIUS + 2] (Manhattan) from the
    player are not touched at all. *)
Theorem moveEnemies_one_step (state : GameState) (i : nat) (e : Enemy) :
  nth_error (g_enemies state) i = Some e ->
  let px := p_x (g_player state) in
  let py := p_y (g_player state) in
  exists e',
    nth_error (g_enemies (snd (moveEnemies state))) i = Some e'
    /\ e_hp e' = e_hp e /\ e_id e' = e_id e
    /\ (e_hp e <= 0
        \/ Z.abs (e_x e - px) + Z.abs (e_y e - py) > VISION_RADIUS + 2 ->
        e' = e)
    /\ ((e_x e' = e_x e /\ e_y e' = e_y e)
        \/ (Z.abs (e_x e - e_x e') + Z.abs (e_y e - e_y e') = 1
            /\ inBounds (g_map state) (e_x e') (e_y e') = true
            /\ tileIs (g_map state) (e_x e') (e_y e') tile_wall = false
            /\ ~ (e_x e' = px /\ e_y e' = py))).
Proof.
  intros Hnth px py. unfold moveEnemies. cbn [snd]. fold px. fold py.
  set (active := sortByKey snd (activeFrom 0 px py (g_enemies state))).
  assert (Hperm : Permutation active (activeFrom 0 px py (g_enemies state)))
    by apply sortByKey_perm.
  assert (Hnodup : NoDup (map fst active)).
  { eapply Permutation_NoDup;
      [apply Permutation_map, Permutation_sym, Hperm|].
    apply activeFrom_NoDup. }
  destruct (moveEnemiesLoop_moves px py active Hnodup
              {| ai_state := state; ai_events := [];
                 ai_pathfindingCount := 0 |} i e Hnth)
    as (e' & H' & [Hf Hpos] & Hsame).
  cbn [ai_state] in Hpos.
  exists e'. split; [exact H'|].
  destruct Hf as (Hid & _ & _ & _ & Hhp & _).
  split; [exact Hhp|]. split; [exact Hid|]. split; [|exact Hpos].
  intros Hout. apply Hsame. intros Hin.
  apply in_map_iff in Hin. destruct Hin as ([j d] & Hj & Hin).
  cbn [fst] in Hj. subst j. apply filter_In in Hin.
  destruct Hin as [Hin Hr].
  apply (Permutation_in _ Hperm) in Hin. apply activeFrom_In in Hin.
  destruct Hin as (_ & e0 & He0 & Hlive & Hd).
  rewrite Nat.sub_0_r in He0. assert (e0 = e) by congruence. subst e0.
  unfold inRange in Hr. cbn [snd] in Hr. apply negb_true_iff in Hr.
  rewrite Z.gtb_ltb in Hr. apply Z.ltb_ge in Hr. lia.
Qed.

Lemma moveEnemies_one_step_witness :
  exists e',
    nth_error (g_enemies (snd (moveEnemies cornerState))) 0 = Some e'
    /\ e_hp e' = 25 /\ e_id e' = "e1"
    /\ ((e_x e' = 3 /\ e_y e' = 1)
        \/ (Z.abs (3 - e_x e') + Z.abs (1 - e_y e') = 1
            /\ inBounds (g_map cornerState) (e_x e') (e_y e') = true
            /\ tileIs (g_map cornerState) (e_x e') (e_y e') tile_wall = false
            /\ ~ (e_x e' = 1 /\ e_y e' = 1))).
Proof.
  destruct (moveEnemies_one_step cornerState 0
              (createTestEnemy "e1" orc normal 3 1) eq_refl)
    as (e' & H1 & H2 & H3 & _ & H4).
  exists e'. repeat split; assumption.
Defined.

Lemma aiStep_status (s s' : GameState) :
  aiStep s s' -> g_status s' = g_status s \/ g_status s' = dead.
Proof.
  induction 1 as [s|s1 s2 s3 _ IH1 _ IH2|s i e c _|s i e x y _ _|s e].
  - left. reflexivity.
  - destruct IH2 as [H2|H2]; [rewrite H2; exact IH1 | right; exact H2].
  - left. reflexivity.
  - left. reflexivity.
  - unfold enemyAttackPlayer. cbn [g_player set_g_player p_hp set_p_hp].
    destruct (_ <=? 0); [right | left]; reflexivity.
Qed.

(** X7. What the enemy phase never does: [moveEnemies] leaves the map,
    the fog, the items, the score and the floor number alone, changes
    nothing of the player but the hit points, which never go up, keeps
    the number of enemies, and leaves the status as it is or sets it to
    [dead]. *)
Theorem moveEnemies_preserves (state : GameState) :
  let state' := snd (moveEnemies state) in
  g_map state' = g_map state /\ g_fog state' = g_fog state
  /\ g_items state' = g_items state /\ g_score state' = g_score state
  /\ g_floor state' = g_floor state
  /\ g_player state' = set_p_hp (p_hp (g_player state')) (g_player state)
  /\ p_hp (g_player state') <= p_hp (g_player state)
  /\ List.length (g_enemies state') = List.length (g_enemies state)
  /\ (g_status state' = g_status state \/ g_status state' = dead).
Proof.
  cbv zeta.
  destruct (moveEnemies_frame state)
    as (Hmap & Hfog & Hitems & Hscore & Hfloor & Hp & Hhp & Hen).
  repeat split; try assumption.
  - destruct (g_player (snd (moveEnemies state))), (g_player state).
    cbn in Hp |- *. inversion Hp; subst. reflexivity.
  - symmetry. eapply Forall2_length, Hen.
  - apply aiStep_status, moveEnemies_step.
Qed.

(** ** Line of sight along a row or a column *)

Lemma losLoop_row (m : list (list Tile)) (x1 x2 y sx sy n : Z) :
  0 < n -> sx * n = x2 - x1 -> sx = 1 \/ sx = -1 ->
  forall (j : nat) (k : Z) (fuel : nat),
    0 < k -> k + Z.of_nat j = n -> (j < fuel)%nat ->
    (losLoop fuel m x1 y x2 y n 0 sx sy (x1 + sx * k) y n = true
     <-> forall t, k <= t < n -> tileIs m (x1 + sx * t) y tile_wall = false).
Proof.
  intros Hn Hsx Hunit.
  induction j as [|j IH]; intros k fuel Hk Hsum Hfuel;
    (destruct fuel as [|fuel]; [lia|]); cbn [losLoop];
    replace (x1 + sx * k =? x1) with false
      by (symmetry; apply Z.eqb_neq; nia);
    rewrite Z.eqb_refl; cbn [negb orb andb].
  - replace (x1 + sx * k =? x2) with true
      by (symmetry; apply Z.eqb_eq; nia).
    split; [intros _ t Ht; lia | reflexivity].
  - replace (x1 + sx * k =? x2) with false
      by (symmetry; apply Z.eqb_neq; nia).
    destruct (tileIs m (x1 + sx * k) y tile_wall) eqn:Hwall.
    + split; [discriminate|]. intros H.
      rewrite (H k ltac:(lia)) in Hwall. discriminate.
    + replace (2 * n >? - 0) with true by (symmetry; apply Z.gtb_lt; lia).
      replace (2 * n <? n) with false by (symmetry; apply Z.ltb_ge; lia).
      replace (x1 + sx * k + sx =? x1 + sx * k) with false
        by (symmetry; apply Z.eqb_neq; lia).
      cbn [andb]. replace (n - 0) with n by lia.
      replace (x1 + sx * k + sx) with (x1 + sx * (k + 1)) by lia.
      rewrite (IH (k + 1) fuel ltac:(lia) ltac:(lia) ltac:(lia)).
      split; intros H t Ht.
      * destruct (Z.eq_dec t k) as [->|Hne]; [exact Hwall | apply H; lia].
      * apply H. lia.
Qed.

Lemma losLoop_column (m : list (list Tile)) (x y1 y2 sx sy n : Z) :
  0 < n -> sy * n = y2 - y1 -> sy = 1 \/ sy = -1 ->
  forall (j : nat) (k : Z) (fuel : nat),
    0 < k -> k + Z.of_nat j = n -> (j < fuel)%nat ->
    (losLoop fuel m x y1 x y2 0 n sx sy x (y1 + sy * k) (- n) = true
     <-> forall t, k <= t < n -> tileIs m x (y1 + sy * t) tile_wall = false).
Proof.
  intros Hn Hsy Hunit.
  induction j as [|j IH]; intros k fuel Hk Hsum Hfuel;
    (destruct fuel as [|fuel]; [lia|]); cbn [losLoop];
    replace (y1 + sy * k =? y1) with false
      by (symmetry; apply Z.eqb_neq; nia);
    rewrite Z.eqb_refl; cbn [negb orb andb].
  - replace (y1 + sy * k =? y2) with true
      by (symmetry; apply Z.eqb_eq; nia).
    split; [intros _ t Ht; lia | reflexivity].
  - replace (y1 + sy * k =? y2) with false
      by (symmetry; apply Z.eqb_neq; nia).
    destruct (tileIs m x (y1 + sy * k) tile_wall) eqn:Hwall.
    + split; [discriminate|]. intros H.
      rewrite (H k ltac:(lia)) in Hwall. discriminate.
    + replace (2 * - n >? - n) with false
        by (symmetry; rewrite Z.gtb_ltb; apply Z.ltb_ge; lia).
      replace (2 * - n <? 0) with true by (symmetry; apply Z.ltb_lt; lia).
      rewrite Z.eqb_refl.
      replace (y1 + sy * k + sy =? y1 + sy * k) with false
        by (symmetry; apply Z.eqb_neq; lia).
      cbn [andb]. replace (- n + 0) with (- n) by lia.
      replace (y1 + sy * k + sy) with (y1 + sy * (k + 1)) by lia.
      rewrite (IH (k + 1) fuel ltac:(lia) ltac:(lia) ltac:(lia)).
      split; intros H t Ht.
      * destruct (Z.eq_dec t k) as [->|Hne]; [exact Hwall | apply H; lia].
      * apply H. lia.
Qed.

(** X8. Line of sight along a row.  Between two different cells of one
    row that are fewer than [MAP_WIDTH + MAP_HEIGHT] apart,
    [hasLineOfSight] holds exactly when no cell strictly between them is a
    wall; the two end cells are not looked at. *)
Theorem hasLineOfSight_row (s : GameState) (x1 x2 y : Z) :
  x1 <> x2 -> Z.abs (x2 - x1) < MAP_WIDTH + MAP_HEIGHT ->
  (hasLineOfSight s x1 y x2 y = true
   <-> forall x, Z.min x1 x2 < x < Z.max x1 x2 ->
                 tileIs (g_map s) x y tile_wall = false).
Proof.
  intros Hne Hnear. unfold hasLineOfSight.
  replace (x1 =? x2) with false by (symmetry; apply Z.eqb_neq; exact Hne).
  cbn [andb]. rewrite Z.sub_diag. cbn [Z.abs].
  set (n := Z.abs (x2 - x1)). set (sx := if x1 <? x2 then 1 else -1).
  assert (Hn : 0 < n) by (subst n; lia).
  assert (Hunit : sx = 1 \/ sx = -1)
    by (subst sx; destruct (x1 <? x2); [left | right]; reflexivity).
  assert (Hsx : sx * n = x2 - x1).
  { subst sx n. destruct (x1 <? x2) eqn:Hlt;
      [apply Z.ltb_lt in Hlt | apply Z.ltb_ge in Hlt]; lia. }
  set (fuel := 63%nat). assert (Hfuel : (62 < fuel)%nat) by (subst fuel; lia).
  change (Z.to_nat (MAP_WIDTH + MAP_HEIGHT)) with (S fuel). clearbody fuel.
  cbn [losLoop]. rewrite !Z.eqb_refl. cbn [negb orb andb].
  replace (x1 =? x2) with false by (symmetry; apply Z.eqb_neq; exact Hne).
  cbn [andb].
  replace (2 * (n - 0) >? - 0) with true
    by (symmetry; apply Z.gtb_lt; lia).
  replace (2 * (n - 0) <? n) with false by (symmetry; apply Z.ltb_ge; lia).
  replace (x1 + sx =? x1) with false by (symmetry; apply Z.eqb_neq; lia).
  cbn [andb]. replace (n - 0 - 0) with n by lia.
  replace (x1 + sx) with (x1 + sx * 1) by lia.
  unfold MAP_WIDTH, MAP_HEIGHT in Hnear. fold n in Hnear.
  rewrite (losLoop_row (g_map s) x1 x2 y sx (if y <? y then 1 else -1) n
             Hn Hsx Hunit (Z.to_nat (n - 1)) 1 fuel ltac:(lia) ltac:(lia)
             ltac:(lia)).
  split; intros H.
  - intros x Hx.
    replace x with (x1 + sx * (sx * (x - x1))) by (destruct Hunit; subst; lia).
    apply H. destruct Hunit as [E|E]; rewrite E in *; lia.
  - intros t Ht. apply H. destruct Hunit as [E|E]; rewrite E in *; lia.
Qed.

Lemma hasLineOfSight_row_witness :
  hasLineOfSight rangedWallState 5 5 9 5 = true
  <-> forall x, Z.min 5 9 < x < Z.max 5 9 ->
                tileIs (g_map rangedWallState) x 5 tile_wall = false.
Proof.
  apply hasLineOfSight_row; [discriminate | reflexivity].
Defined.

(** X9. Line of sight along a column: between two different cells of one
    column that are fewer than [MAP_WIDTH + MAP_HEIGHT] apart,
    [hasLineOfSight] holds exactly when no cell strictly between them is a
    wall. *)
Theorem hasLineOfSight_column (s : GameState) (x y1 y2 : Z) :
  y1 <> y2 -> Z.abs (y2 - y1) < MAP_WIDTH + MAP_HEIGHT ->
  (hasLineOfSight s x y1 x y2 = true
   <-> forall y, Z.min y1 y2 < y < Z.max y1 y2 ->
                 tileIs (g_map s) x y tile_wall = false).
Proof.
  intros Hne Hnear. unfold hasLineOfSight.
  replace (y1 =? y2) with false by (symmetry; apply Z.eqb_neq; exact Hne).
  rewrite andb_false_r. rewrite Z.sub_diag. cbn [Z.abs].
  set (n := Z.abs (y2 - y1)). set (sy := if y1 <? y2 then 1 else -1).
  assert (Hn : 0 < n) by (subst n; lia).
  assert (Hunit : sy = 1 \/ sy = -1)
    by (subst sy; destruct (y1 <? y2); [left | right]; reflexivity).
  assert (Hsy : sy * n = y2 - y1).
  { subst sy n. destruct (y1 <? y2) eqn:Hlt;
      [apply Z.ltb_lt in Hlt | apply Z.ltb_ge in Hlt]; lia. }
  set (fuel := 63%nat). assert (Hfuel : (62 < fuel)%nat) by (subst fuel; lia).
  change (Z.to_nat (MAP_WIDTH + MAP_HEIGHT)) with (S fuel). clearbody fuel.
  cbn [losLoop]. rewrite !Z.eqb_refl. cbn [negb orb andb].
  replace (y1 =? y2) with false by (symmetry; apply Z.eqb_neq; exact Hne).
  cbn [andb].
  replace (2 * (0 - n) >? - n) with false
    by (symmetry; rewrite Z.gtb_ltb; apply Z.ltb_ge; lia).
  replace (2 * (0 - n) <? 0) with true by (symmetry; apply Z.ltb_lt; lia).
  rewrite Z.eqb_refl.
  replace (y1 + sy =? y1) with false by (symmetry; apply Z.eqb_neq; lia).
  cbn [andb]. replace (0 - n + 0) with (- n) by lia.
  replace (y1 + sy) with (y1 + sy * 1) by lia.
  unfold MAP_WIDTH, MAP_HEIGHT in Hnear. fold n in Hnear.
  rewrite (losLoop_column (g_map s) x y1 y2 (if x <? x then 1 else -1) sy n
             Hn Hsy Hunit (Z.to_nat (n - 1)) 1 fuel ltac:(lia) ltac:(lia)
             ltac:(lia)).
  split; intros H.
  - intros y Hy.
    replace y with (y1 + sy * (sy * (y - y1))) by (destruct Hunit; subst; lia).
    apply H. destruct Hunit as [E|E]; rewrite E in *; lia.
  - intros t Ht. apply H. destruct Hunit as [E|E]; rewrite E in *; lia.
Qed.

Lemma hasLineOfSight_column_witness :
  hasLineOfSight cornerState 3 1 3 6 = true
  <-> forall y, Z.min 1 6 < y < Z.max 1 6 ->
                tileIs (g_map cornerState) 3 y tile_wall = false.
Proof.
  apply hasLineOfSight_column; [discriminate | reflexivity].
Defined.

(** ** The player's statistics over a turn *)

Lemma playerKept_refl (p : Player) : playerKept p p.
Proof. split; [auto|]. split; [lia | reflexivity]. Qed.

Lemma playerKept_trans (p q r : Player) :
  playerKept p q -> playerKept q r -> playerKept p r.
Proof.
  intros (A1 & A2 & A3) (B1 & B2 & B3).
  split; [auto|]. split; [lia | congruence].
Qed.

Lemma playerKept_lower (p p' : Player) :
  statFields p p' -> p_hp p' <= p_hp p -> playerKept p p'.
Proof.
  intros (Hm & Ha & Hd & Hx & Hl & Hn & He & Hc) Hhp.
  split; [|split; [lia | exact Hc]].
  unfold playerOk. rewrite Hm, Ha, Hd, Hx, Hl, Hn, He, Hc.
  intros (H1 & H2 & H3 & H4 & H5 & H6 & H7).
  repeat split; try assumption; lia.
Qed.

Lemma sameGame_refl (s : GameState) : sameGame s s.
Proof. unfold sameGame. repeat split; reflexivity. Qed.

Lemma sameGame_trans (s1 s2 s3 : GameState) :
  sameGame s1 s2 -> sameGame s2 s3 -> sameGame s1 s3.
Proof. unfold sameGame. intuition congruence. Qed.

Lemma progress_refl (s : GameState) : progress s s.
Proof.
  unfold progress. split; [apply playerKept_refl|].
  split; [lia|]. split; [lia | apply sameGame_refl].
Qed.

(** A step of the turn that does not touch the floor number. *)
Lemma progress_step (s s' : GameState) :
  playerKept (g_player s) (g_player s') ->
  g_score s <= g_score s' -> g_floor s' = g_floor s -> sameGame s s' ->
  progress s s'.
Proof.
  intros Hp Hs Hf Hg. unfold progress.
  split; [exact Hp|]. split; [exact Hs|]. split; [lia | exact Hg].
Qed.

(** A step that leaves score, floor and identity syntactically alone: what
    is left to show is what it does to the player. *)
Ltac quiet_step :=
  apply progress_step;
  [ | first [reflexivity | cbn; lia] | reflexivity
    | first [exact (sameGame_refl _)
            | unfold sameGame; cbn; repeat split; reflexivity] ].

Lemma turnTo_fields (d : Direction) (p : Player) :
  statFields p (turnTo d p) /\ p_hp (turnTo d p) = p_hp p.
Proof. destruct d; unfold statFields; cbn; repeat split; reflexivity. Qed.

Lemma equippedBonus_setSlot (f : Equipment -> Z) (slot : EquipmentSlot)
    (e : Equipment) (pe : PlayerEquipment) :
  equippedBonus f (setSlot slot e pe)
  = equippedBonus f pe - bonusOf f (getSlot slot pe) + f e.
Proof.
  unfold equippedBonus.
  destruct slot; cbn [setSlot getSlot pe_weapon pe_shield pe_armor pe_ranged
                      bonusOf]; lia.
Qed.

Lemma equipSwap_fields (current : option Equipment) (eq : Equipment)
    (p : Player) :
  let p' := equipSwap current eq p in
  p_level p' = p_level p /\ p_xp p' = p_xp p
  /\ p_xpToNextLevel p' = p_xpToNextLevel p
  /\ p_character p' = p_character p
  /\ p_equipment p' = setSlot (eq_slot eq) eq (p_equipment p).
Proof.
  unfold equipSwap. destruct current;
    match goal with
    | |- context [if ?c then _ else _] => destruct c
    end; cbn; repeat split; reflexivity.
Qed.

Lemma equipSwap_kept (eq : Equipment) (p : Player) :
  playerKept p (equipSwap (getSlot (eq_slot eq) (p_equipment p)) eq p).
Proof.
  destruct (equipSwap_stats (getSlot (eq_slot eq) (p_equipment p)) eq p)
    as (Ha & Hd & Hm & Hh & _).
  destruct (equipSwap_fields (getSlot (eq_slot eq) (p_equipment p)) eq p)
    as (Hl & Hx & Hn & Hc & He).
  cbv zeta in *. split; [|split; [lia | exact Hc]].
  unfold playerOk. rewrite Ha, Hd, Hm, Hh, Hl, Hx, Hn, Hc, He.
  rewrite !equippedBonus_setSlot.
  intros (H1 & H2 & H3 & H4 & H5 & H6 & H7).
  repeat split; try assumption; lia.
Qed.

Lemma getEnemyXpReward_nonneg (enemy : Enemy) : 0 <= getEnemyXpReward enemy.
Proof.
  unfold getEnemyXpReward.
  destruct (e_type enemy), (e_variant enemy); vm_compute; discriminate.
Qed.

Lemma levelUpLoop_kept (fuel : nat) :
  forall p events p' events',
    levelUpLoop fuel p events = Some (p', events') ->
    p_level p <= p_level p' /\ p_character p' = p_character p
    /\ (1 <= p_level p ->
        p_attack p
        = cs_attack (CHARACTER_STATS (p_character p)) + (p_level p - 1)
          + equippedBonus attackBonus (p_equipment p) ->
        p_defense p
        = cs_defense (CHARACTER_STATS (p_character p)) + (p_level p - 1)
          + equippedBonus defenseBonus (p_equipment p) ->
        p_maxHp p
        = cs_maxHp (CHARACTER_STATS (p_character p)) + 3 * (p_level p - 1)
          + equippedBonus hpBonus (p_equipment p) ->
        p_xpToNextLevel p = getXpToNextLevel (p_level p) ->
        0 <= p_xp p -> p_hp p <= p_maxHp p ->
        playerOk p').
Proof.
  induction fuel as [|k IH]; intros p events p' events' Hrun;
    cbn [levelUpLoop] in Hrun;
    destruct (p_xp p >=? p_xpToNextLevel p) eqn:Hxp; try discriminate.
  - inversion Hrun; subst. split; [lia|]. split; [reflexivity|].
    intros H1 H2 H3 H4 H5 H6 H7. rewrite Z.geb_leb in Hxp.
    apply Z.leb_gt in Hxp. unfold playerOk. repeat split; assumption.
  - destruct (IH _ _ _ _ Hrun) as (Hl & Hc & Hok).
    cbn [levelUpStep p_level p_character] in Hl, Hc.
    split; [lia|]. split; [exact Hc|].
    intros H1 H2 H3 H4 H5 H6 H7. rewrite Z.geb_leb in Hxp.
    apply Z.leb_le in Hxp. apply Hok;
      cbn [levelUpStep p_level p_attack p_defense p_maxHp p_xp p_hp
           p_xpToNextLevel p_equipment p_character]; lia.
  - inversion Hrun; subst. split; [lia|]. split; [reflexivity|].
    intros H1 H2 H3 H4 H5 H6 H7. rewrite Z.geb_leb in Hxp.
    apply Z.leb_gt in Hxp. unfold playerOk. repeat split; assumption.
Qed.

Lemma grantXp_kept (s : GameState) (enemy : Enemy) :
  playerKept (g_player s) (g_player (snd (grantXp s enemy))).
Proof.
  unfold grantXp. cbv zeta.
  set (p := set_p_xp (p_xp (g_player s) + getEnemyXpReward enemy)
                     (g_player s)).
  set (events := [eventWith xp_gained
                    (XpGainedEventData (getEnemyXpReward enemy) (p_xp p))]).
  destruct (levelUpLoop_fuel_enough (levelUpFuel p) p events (le_n _))
    as (k & Hloop & _).
  rewrite Hloop. cbn [snd g_player set_g_player].
  destruct (levelUpLoop_kept _ _ _ _ _ Hloop) as (Hl & Hc & Hok).
  pose proof (getEnemyXpReward_nonneg enemy) as Hxp.
  subst p. cbn [set_p_xp p_level p_character p_attack p_defense p_maxHp
                p_xpToNextLevel p_equipment p_xp p_hp] in *.
  split; [|split; assumption].
  intros (H1 & H2 & H3 & H4 & H5 & H6 & H7). apply Hok; try assumption. lia.
Qed.

Lemma attackEnemy_progress (s : GameState) (i : nat) (e : Enemy) :
  progress s (snd (attackEnemy s i e)).
Proof.
  unfold attackEnemy. cbv zeta.
  destruct (e_hp (set_e_hp _ e) <=? 0);
    [|quiet_step; apply playerKept_refl].
  match goal with
  | |- context [grantXp ?st ?en] =>
      pose proof (grantXp_kept st en) as Hkept;
      pose proof (grantXp_frame st en) as ((_ & _ & _ & Hfl & _) & Hsc & _);
      assert (Hid : snd (grantXp st en)
                    = set_g_player (g_player (snd (grantXp st en))) st)
        by (unfold grantXp; cbv zeta; destruct (levelUpLoop _ _ _) as [[? ?]|];
            reflexivity);
      destruct (grantXp st en) as [xpEvents state3]
  end.
  cbn [fst snd g_player set_g_score updEnemy set_g_enemies g_score g_floor]
    in *.
  apply progress_step;
    [exact Hkept | | rewrite Hid; reflexivity
     | rewrite Hid; unfold sameGame; cbn; repeat split; reflexivity].
  rewrite Hsc. destruct (e_type (set_e_hp _ e)); cbn [getEnemyScore]; lia.
Qed.

Lemma rangedAttack_progress (s : GameState) :
  progress s (snd (rangedAttack s)).
Proof.
  unfold rangedAttack. cbv zeta.
  destruct (hitEnemy _) as [[j enemy]|]; [|apply progress_refl].
  destruct (e_hp (set_e_hp _ enemy) <=? 0);
    [|quiet_step; apply playerKept_refl].
  match goal with
  | |- context [grantXp ?st ?en] =>
      pose proof (grantXp_kept st en) as Hkept;
      pose proof (grantXp_frame st en) as ((_ & _ & _ & Hfl & _) & Hsc & _);
      assert (Hid : snd (grantXp st en)
                    = set_g_player (g_player (snd (grantXp st en))) st)
        by (unfold grantXp; cbv zeta; destruct (levelUpLoop _ _ _) as [[? ?]|];
            reflexivity);
      destruct (grantXp st en) as [xpEvents state3]
  end.
  cbn [fst snd g_player set_g_score updEnemy set_g_enemies g_score g_floor]
    in *.
  apply progress_step;
    [exact Hkept | | rewrite Hid; reflexivity
     | rewrite Hid; unfold sameGame; cbn; repeat split; reflexivity].
  rewrite Hsc. destruct (e_type (set_e_hp _ enemy)); cbn [getEnemyScore]; lia.
Qed.

Lemma pickUp_progress (s : GameState) (itemIndex : nat) (item : Item) :
  progress s (snd (pickUp s itemIndex item)).
Proof.
  unfold pickUp. destruct (i_type item).
  - destruct (p_hp (g_player s) >=? p_maxHp (g_player s)) eqn:Hfull;
      [apply progress_refl|].
    cbn [snd]. quiet_step.
    cbn [g_player set_g_player set_g_items].
    split; [|split; [cbn; lia | reflexivity]].
    unfold playerOk. cbn [set_p_hp p_level p_attack p_defense p_maxHp p_xp
                          p_hp p_xpToNextLevel p_equipment p_character].
    intros (H1 & H2 & H3 & H4 & H5 & H6 & H7).
    repeat split; try assumption; lia.
  - destruct (isEquipmentItem item) as [eq|].
    + unfold handleEquipmentPickup.
      destruct (shouldEquip _ eq); cbn [snd]; [|apply progress_refl].
      quiet_step.
      cbn [g_player set_g_player set_g_items]. apply equipSwap_kept.
    + cbn [snd]. quiet_step.
      cbn [g_player set_g_player set_g_items].
      apply playerKept_lower; [|cbn; lia].
      unfold statFields; cbn; repeat split; reflexivity.
Qed.

Lemma progress_then (s s1 s2 : GameState) :
  progress s s1 -> g_floor s1 = g_floor s -> progress s1 s2 -> progress s s2.
Proof.
  intros (Ap & As & Af & Ag) Hfl (Bp & Bs & Bf & Bg).
  unfold progress. split; [eapply playerKept_trans; eassumption|].
  split; [lia|]. split; [lia | eapply sameGame_trans; eassumption].
Qed.

Lemma aiStep_identity (s s' : GameState) : aiStep s s' -> sameGame s s'.
Proof.
  induction 1 as [s|s1 s2 s3 _ IH1 _ IH2|s i e c _|s i e x y _ _|s e];
    try exact (sameGame_refl _).
  - eapply sameGame_trans; eassumption.
  - unfold enemyAttackPlayer. cbn [g_player set_g_player p_hp set_p_hp].
    destruct (_ <=? 0); exact (sameGame_refl _).
Qed.

Lemma aiFrame_fields (s s' : GameState) :
  aiFrame s s' ->
  statFields (g_player s) (g_player s')
  /\ p_hp (g_player s') <= p_hp (g_player s).
Proof.
  intros (_ & _ & _ & _ & _ & Hp & Hhp & _). split; [|exact Hhp].
  unfold statFields.
  repeat split;
    [apply (f_equal p_maxHp) in Hp | apply (f_equal p_attack) in Hp
     | apply (f_equal p_defense) in Hp | apply (f_equal p_xp) in Hp
     | apply (f_equal p_level) in Hp
     | apply (f_equal p_xpToNextLevel) in Hp
     | apply (f_equal p_equipment) in Hp
     | apply (f_equal p_character) in Hp]; exact Hp.
Qed.

Lemma moveEnemies_progress (s : GameState) : progress s (snd (moveEnemies s)).
Proof.
  pose proof (moveEnemies_step s) as Hstep.
  pose proof (aiStep_frame _ _ Hstep) as Hframe.
  pose proof (aiStep_identity _ _ Hstep) as Hgame.
  destruct (aiFrame_fields _ _ Hframe) as [Hfields Hhp].
  destruct Hframe as (_ & _ & _ & Hscore & Hfloor & _).
  apply progress_step; try assumption; [|lia].
  apply playerKept_lower; assumption.
Qed.

Lemma enemyPhase_progress (env : Env) (s : GameState)
    (events : list GameEvent) :
  progress s (snd (enemyPhase env s events))
  /\ g_floor (snd (enemyPhase env s events)) = g_floor s.
Proof.
  unfold enemyPhase.
  destruct (GameStatus_eqb (g_status s) active).
  - pose proof (moveEnemies_progress s) as Hp.
    destruct (moveEnemies_frame s) as (_ & _ & _ & _ & Hfloor & _).
    destruct (moveEnemies s) as [enemyEvents s']. cbn [fst snd] in *.
    split; [|exact Hfloor].
    eapply progress_then; [exact Hp | exact Hfloor|].
    quiet_step. apply playerKept_refl.
  - cbn [fst snd]. split; [|reflexivity].
    quiet_step. apply playerKept_refl.
Qed.

Lemma updateFog_progress (s : GameState) : progress s (updateFog s).
Proof. quiet_step. apply playerKept_refl. Qed.

Lemma moveStage_progress (state : GameState) (direction : Direction) :
  progress state (snd (moveStage state direction)).
Proof.
  unfold moveStage. cbv zeta.
  set (newX := p_x (g_player state) + directionDx direction).
  set (newY := p_y (g_player state) + directionDy direction).
  set (state1 := set_g_player
                   (turnTo direction (set_p_pos newX newY (g_player state)))
                   state).
  assert (H1 : progress state state1).
  { quiet_step. cbn [state1 g_player set_g_player].
    destruct (turnTo_fields direction (set_p_pos newX newY (g_player state)))
      as [(Hm & Ha & Hd & Hx & Hl & Hn & He & Hc) Hh].
    cbn [set_p_pos p_maxHp p_attack p_defense p_xp p_level p_xpToNextLevel
         p_equipment p_character p_hp] in *.
    apply playerKept_lower; [|lia]. unfold statFields.
    repeat split; assumption. }
  destruct (findIndex _ (g_items state1)) as [itemIndex|]; [|exact H1].
  destruct (nth_error (g_items state1) itemIndex) as [item|]; [|exact H1].
  pose proof (pickUp_progress state1 itemIndex item) as H2.
  destruct (pickUp state1 itemIndex item) as [itemEvents st].
  cbn [fst snd] in *.
  eapply progress_then; [exact H1 | reflexivity | exact H2].
Qed.

Lemma processAttack_progress (env : Env) (state : GameState) :
  progress state (snd (processAttack env state))
  /\ g_floor (snd (processAttack env state)) = g_floor state.
Proof.
  unfold processAttack.
  destruct (negb (GameStatus_eqb (g_status state) active));
    [split; [apply progress_refl | reflexivity]|].
  pose proof (rangedAttack_progress state) as H1.
  assert (Hfl : g_floor (snd (rangedAttack state)) = g_floor state).
  { unfold rangedAttack. cbv zeta.
    destruct (hitEnemy _) as [[j enemy]|]; [|reflexivity].
    destruct (e_hp (set_e_hp _ enemy) <=? 0); [|reflexivity].
    match goal with
    | |- context [grantXp ?st ?en] =>
        pose proof (grantXp_frame st en) as ((_ & _ & _ & Hf & _) & _);
        destruct (grantXp st en) as [xpEvents state3]
    end.
    cbn [snd] in *. rewrite Hf. reflexivity. }
  destruct (rangedAttack state) as [events state1]. cbn [snd] in *.
  destruct (enemyPhase_progress env state1 events) as [H2 Hfl2].
  split; [|congruence].
  eapply progress_then; [exact H1 | exact Hfl | exact H2].
Qed.

Lemma processMove_progress (env : Env) (state : GameState)
    (direction : Direction) (events : list GameEvent) (state' : GameState) :
  processMove env state direction = Some (events, state') ->
  progress state state'.
Proof.
  intros Hrun.
  destruct (GameStatus_eqb (g_status state) active) eqn:Hactive.
  2:{ rewrite processMove_unfold, Hactive in Hrun. cbn [negb] in Hrun.
      inversion Hrun; subst. apply progress_refl. }
  assert (Hst : g_status state = active)
    by (destruct (g_status state); try discriminate; reflexivity).
  destruct (processMove_cases env state direction events state' Hst Hrun)
    as [[-> ->] | [(i & enemy & _ & _ & Hphase)
                  | (_ & _ & _ & [(g & _ & _ & Hdesc & Hp & Hgame & _)
                                 | (_ & Hphase)])]].
  - apply progress_refl.
  - set (state1 := set_g_player (turnTo direction (g_player state)) state)
      in *.
    assert (H1 : progress state state1).
    { quiet_step.
      cbn [state1 g_player set_g_player].
      destruct (turnTo_fields direction (g_player state)) as [Hf Hh].
      apply playerKept_lower; [exact Hf | lia]. }
    pose proof (attackEnemy_progress state1 i enemy) as H2.
    destruct (attackEnemy_effect state1 i enemy)
      as (_ & _ & _ & _ & Hfl & _).
    cbv zeta in Hfl.
    destruct (enemyPhase_progress env
                (updateFog (snd (attackEnemy state1 i enemy)))
                (fst (attackEnemy state1 i enemy))) as [H3 _].
    rewrite Hphase in H3. cbn [snd] in H3.
    eapply progress_then; [exact H1 | reflexivity|].
    eapply progress_then; [exact H2 | exact Hfl|].
    eapply progress_then; [apply updateFog_progress | reflexivity | exact H3].
  - pose proof (moveStage_progress state direction) as H1.
    destruct (moveStage_place state direction) as (_ & _ & Hfl & _).
    cbv zeta in Hfl.
    eapply progress_then; [exact H1 | exact Hfl|].
    destruct Hdesc as (Dfl & _ & _ & _ & _ & _ & _ & Dsc & _).
    unfold progress. rewrite Hp.
    cbn [set_p_pos p_level p_character].
    split; [|split; [|split]].
    + apply playerKept_lower; [|cbn; lia].
      unfold statFields; cbn; repeat split; reflexivity.
    + rewrite Dsc. destruct (_ >=? 20); lia.
    + lia.
    + exact Hgame.
  - pose proof (moveStage_progress state direction) as H1.
    destruct (moveStage_place state direction) as (_ & _ & Hfl & _).
    cbv zeta in Hfl.
    destruct (enemyPhase_progress env
                (updateFog (snd (moveStage state direction)))
                (fst (moveStage state direction))) as [H3 _].
    rewrite Hphase in H3. cbn [snd] in H3.
    eapply progress_then; [exact H1 | exact Hfl|].
    eapply progress_then; [apply updateFog_progress | reflexivity | exact H3].
Qed.

Lemma processMove_floor (env : Env) (state : GameState)
    (direction : Direction) (events : list GameEvent) (state' : GameState) :
  processMove env state direction = Some (events, state') ->
  g_floor state' = g_floor state
  \/ (g_floor state' = g_floor state + 1
      /\ g_score state + 100 <= g_score state').
Proof.
  intros Hrun.
  destruct (GameStatus_eqb (g_status state) active) eqn:Hactive.
  2:{ rewrite processMove_unfold, Hactive in Hrun. cbn [negb] in Hrun.
      inversion Hrun; subst. left. reflexivity. }
  assert (Hst : g_status state = active)
    by (destruct (g_status state); try discriminate; reflexivity).
  destruct (processMove_cases env state direction events state' Hst Hrun)
    as [[-> ->] | [(i & enemy & _ & _ & Hphase)
                  | (_ & _ & _ & [(g & _ & _ & Hdesc & _)
                                 | (_ & Hphase)])]].
  - left. reflexivity.
  - left.
    destruct (attackEnemy_effect
                (set_g_player (turnTo direction (g_player state)) state)
                i enemy) as (_ & _ & _ & _ & Hfl & _).
    cbv zeta in Hfl.
    destruct (enemyPhase_progress env
                (updateFog
                   (snd (attackEnemy
                           (set_g_player (turnTo direction (g_player state))
                                         state) i enemy)))
                (fst (attackEnemy
                        (set_g_player (turnTo direction (g_player state))
                                      state) i enemy))) as [_ Hfl2].
    rewrite Hphase in Hfl2. cbn [snd] in Hfl2. rewrite Hfl2.
    cbn [updateFog g_floor set_g_fog]. exact Hfl.
  - right. destruct Hdesc as (Dfl & _ & _ & _ & _ & _ & _ & Dsc & _).
    destruct (moveStage_place state direction) as (_ & _ & Hfl & _).
    destruct (moveStage_stage state direction) as (_ & Hsc & _).
    cbv zeta in Hfl, Hsc. rewrite Dfl, Dsc, Hfl, Hsc.
    split; [reflexivity|]. destruct (g_floor state + 1 >=? 20); lia.
  - left.
    destruct (moveStage_place state direction) as (_ & _ & Hfl & _).
    cbv zeta in Hfl.
    destruct (enemyPhase_progress env
                (updateFog (snd (moveStage state direction)))
                (fst (moveStage state direction))) as [_ Hfl2].
    rewrite Hphase in Hfl2. cbn [snd] in Hfl2. rewrite Hfl2.
    cbn [updateFog g_floor set_g_fog]. exact Hfl.
Qed.

(** X10. A turn keeps the player's statistics consistent.  If attack,
    defense and maxHp are the class values plus the level bonuses (1, 1
    and 3 per level above the first) plus the bonuses of the equipped
    items, the XP threshold is [50 * level], [0 <= xp < xpToNextLevel] and
    [hp <= maxHp], then the same holds after [processAttack] and after
    every [processMove] -- whatever was killed, picked up, equipped or
    descended in between. *)
Theorem turn_keeps_player_consistent (env : Env) (state : GameState) :
  playerOk (g_player state) ->
  playerOk (g_player (snd (processAttack env state)))
  /\ forall direction events state',
       processMove env state direction = Some (events, state') ->
       playerOk (g_player state').
Proof.
  intros Hok. split.
  - destruct (processAttack_progress env state) as [((Hkept & _) & _) _].
    apply Hkept, Hok.
  - intros direction events state' Hrun.
    destruct (processMove_progress env state direction events state' Hrun)
      as ((Hkept & _) & _).
    apply Hkept, Hok.
Qed.

Lemma turn_keeps_player_consistent_witness :
  playerOk (g_player cornerState)
  /\ playerOk (g_player (snd (processAttack zeroEnv cornerState)))
  /\ exists events state',
       processMove zeroEnv cornerState dir_right = Some (events, state')
       /\ playerOk (g_player state').
Proof.
  assert (Hstart : playerOk (g_player cornerState)).
  { unfold playerOk. repeat split;
      first [reflexivity | vm_compute; discriminate
            | vm_compute; reflexivity]. }
  destruct (turn_keeps_player_consistent zeroEnv cornerState Hstart)
    as [Hattack Hmove].
  split; [exact Hstart|]. split; [exact Hattack|].
  destruct (processMove zeroEnv cornerState dir_right)
    as [[events state']|] eqn:Hrun; [|vm_compute in Hrun; discriminate].
  exists events, state'. split; [reflexivity|].
  eapply Hmove. exact Hrun.
Defined.

(** X11. A turn never loses progress.  After [processAttack] the floor is
    the same; after a [processMove] it is the same or one higher, and a
    higher floor comes with at least 100 more points.  In both cases the
    score and the player's level never go down, and the character class,
    the game id, the player id, the player name and the creation time are
    unchanged. *)
Theorem turn_never_loses_progress (env : Env) (state : GameState) :
  (let state' := snd (processAttack env state) in
   g_score state <= g_score state' /\ g_floor state' = g_floor state
   /\ p_level (g_player state) <= p_level (g_player state')
   /\ p_character (g_player state') = p_character (g_player state)
   /\ sameGame state state')
  /\ forall direction events state',
       processMove env state direction = Some (events, state') ->
       g_score state <= g_score state'
       /\ (g_floor state' = g_floor state
           \/ (g_floor state' = g_floor state + 1
               /\ g_score state + 100 <= g_score state'))
       /\ p_level (g_player state) <= p_level (g_player state')
       /\ p_character (g_player state') = p_character (g_player state)
       /\ sameGame state state'.
Proof.
  split.
  - cbv zeta.
    destruct (processAttack_progress env state)
      as [((_ & Hl & Hc) & Hs & _ & Hg) Hf].
    repeat split; try assumption; apply Hg.
  - intros direction events state' Hrun.
    destruct (processMove_progress env state direction events state' Hrun)
      as ((_ & Hl & Hc) & Hs & _ & Hg).
    pose proof (processMove_floor env state direction events state' Hrun)
      as Hf.
    repeat split; try assumption; apply Hg.
Qed.

Lemma turn_never_loses_progress_witness :
  exists events state',
    processMove zeroEnv stairsState dir_right = Some (events, state')
    /\ g_score stairsState <= g_score state'
    /\ (g_floor state' = g_floor stairsState
        \/ (g_floor state' = g_floor stairsState + 1
            /\ g_score stairsState + 100 <= g_score state'))
    /\ p_level (g_player stairsState) <= p_level (g_player state')
    /\ p_character (g_player state') = p_character (g_player stairsState)
    /\ sameGame stairsState state'.
Proof.
  destruct (processMove zeroEnv stairsState dir_right)
    as [[events state']|] eqn:Hrun; [|vm_compute in Hrun; discriminate].
  exists events, state'. split; [reflexivity|].
  destruct (turn_never_loses_progress zeroEnv stairsState) as [_ Hmove].
  exact (Hmove dir_right events state' Hrun).
Defined.

(** ** The grid of a generated floor *)

Lemma set2_none {A} (g : list (list A)) (x y : Z) (v : A) :
  at2 g x y = None -> set2 g x y v = g.
Proof.
  unfold at2, nthZ, set2. intros H.
  destruct (x <? 0) eqn:Hx; [reflexivity|].
  destruct (y <? 0) eqn:Hy; [reflexivity|]. cbn [orb].
  destruct (nth_error g (Z.to_nat y)) as [row|]; [|reflexivity].
  apply nth_error_None in H.
  replace (Z.to_nat x <? List.length row)%nat with false
    by (symmetry; apply Nat.ltb_ge; exact H).
  reflexivity.
Qed.

Lemma zrange_length (n : nat) : forall lo, List.length (zrange lo n) = n.
Proof.
  induction n as [|n IH]; intros lo; cbn [zrange List.length];
    [reflexivity|]. now rewrite IH.
Qed.

Lemma gridOk_wallMap : gridOk wallMap.
Proof.
  intros x y. split.
  - intros [Hx Hy]. unfold at2, nthZ, wallMap.
    replace (y <? 0) with false by (symmetry; apply Z.ltb_ge; lia).
    replace (x <? 0) with false by (symmetry; apply Z.ltb_ge; lia).
    rewrite nth_error_map, nth_error_zrange by lia. cbn [option_map].
    rewrite nth_error_map, nth_error_zrange by lia. cbn [option_map].
    eexists. split; [reflexivity|]. unfold carvedTile. cbn [t_x t_y t_type].
    repeat split; try lia. left. reflexivity.
  - intros Hout. unfold at2, nthZ, wallMap.
    destruct (y <? 0) eqn:Hy; [reflexivity|]. apply Z.ltb_ge in Hy.
    rewrite nth_error_map.
    destruct (nth_error (zrange 0 (Z.to_nat MAP_HEIGHT)) (Z.to_nat y))
      as [y0|] eqn:Hrow; cbn [option_map]; [|reflexivity].
    destruct (x <? 0) eqn:Hx; [reflexivity|]. apply Z.ltb_ge in Hx.
    rewrite nth_error_map.
    destruct (nth_error (zrange 0 (Z.to_nat MAP_WIDTH)) (Z.to_nat x))
      as [x0|] eqn:Hcol; cbn [option_map]; [|reflexivity].
    exfalso. apply Hout.
    assert (Hr : (Z.to_nat y < Z.to_nat MAP_HEIGHT)%nat).
    { rewrite <- (zrange_length (Z.to_nat MAP_HEIGHT) 0).
      apply nth_error_Some. congruence. }
    assert (Hc : (Z.to_nat x < Z.to_nat MAP_WIDTH)%nat).
    { rewrite <- (zrange_length (Z.to_nat MAP_WIDTH) 0).
      apply nth_error_Some. congruence. }
    unfold MAP_WIDTH, MAP_HEIGHT in *. lia.
Qed.

Lemma gridOk_setTile (m : list (list Tile)) (x y : Z) :
  gridOk m -> interior x y -> gridOk (setTile m x y tile_floor).
Proof.
  intros Hm [Hx Hy] x' y'. unfold setTile.
  destruct (Z.eq_dec x' x) as [Ex|Ex]; destruct (Z.eq_dec y' y) as [Ey|Ey];
    try (rewrite at2_set2_other by lia; apply Hm).
  subst x' y'. unfold MAP_WIDTH, MAP_HEIGHT in *.
  split; [|intros Hout; exfalso; lia].
  intros _.
  destruct (proj1 (Hm x y) ltac:(unfold MAP_WIDTH, MAP_HEIGHT; lia))
    as (t & Ht & _).
  rewrite (at2_set2_same _ _ _ _ _ Ht). eexists. split; [reflexivity|].
  unfold carvedTile, interior, MAP_WIDTH, MAP_HEIGHT. cbn [t_x t_y t_type].
  repeat split; try lia. right. reflexivity.
Qed.

Lemma gridOk_fold_setTile (f : Z -> Z * Z) (xs : list Z) :
  (forall v, In v xs -> interior (fst (f v)) (snd (f v))) ->
  forall m,
    gridOk m ->
    gridOk (fold_left (fun m v => setTile m (fst (f v)) (snd (f v)) tile_floor)
                      xs m).
Proof.
  induction xs as [|x xs IH]; intros Hin m Hm; cbn [fold_left]; [exact Hm|].
  apply IH; [intros v Hv; apply Hin; right; exact Hv|].
  apply gridOk_setTile; [exact Hm | apply Hin; left; reflexivity].
Qed.

Lemma roomOk_interior (r : Room) (x y : Z) :
  roomOk r -> inRoom r x y -> interior x y.
Proof.
  unfold roomOk, inRoom, interior, MAP_WIDTH, MAP_HEIGHT. lia.
Qed.

Lemma gridOk_carveRoom (m : list (list Tile)) (room : Room) :
  roomOk room -> gridOk m -> gridOk (carveRoom m room).
Proof.
  intros Hok. unfold carveRoom.
  assert (Hys : forall y, In y (zrange (r_y room) (Z.to_nat (r_height room)))
                          -> r_y room <= y < r_y room + r_height room).
  { intros y Hy. apply In_zrange in Hy. unfold roomOk in Hok. lia. }
  revert Hys. generalize (zrange (r_y room) (Z.to_nat (r_height room))).
  intros ys. revert m.
  induction ys as [|y ys IH]; intros m Hys Hm; cbn [fold_left]; [exact Hm|].
  apply IH; [intros y' Hy'; apply Hys; right; exact Hy'|].
  apply (gridOk_fold_setTile (fun x => (x, y))); [|exact Hm].
  intros x Hx. cbn [fst snd]. apply In_zrange in Hx.
  apply (roomOk_interior room); [exact Hok|]. unfold inRoom.
  unfold roomOk in Hok. split; [lia|]. apply Hys. left. reflexivity.
Qed.

Lemma gridOk_carveRooms (rooms : list Room) :
  Forall roomOk rooms ->
  forall m, gridOk m -> gridOk (fold_left carveRoom rooms m).
Proof.
  induction 1 as [|r rooms Hr _ IH]; intros m Hm; cbn [fold_left];
    [exact Hm|].
  apply IH, gridOk_carveRoom; assumption.
Qed.

Lemma center_inRoom (r : Room) :
  roomOk r -> inRoom r (centerX r) (centerY r).
Proof.
  unfold roomOk, inRoom, centerX, centerY. intros (Hx & Hy & Hw & Hh).
  assert (0 <= r_width r / 2 < r_width r)
    by (split; [apply Z.div_pos; lia | apply Z.div_lt_upper_bound; lia]).
  assert (0 <= r_height r / 2 < r_height r)
    by (split; [apply Z.div_pos; lia | apply Z.div_lt_upper_bound; lia]).
  lia.
Qed.

Lemma gridOk_carveCorridor (m : list (list Tile)) (a b : Room) :
  roomOk a -> roomOk b -> gridOk m ->
  gridOk (carveCorridor m (centerX a) (centerY a) (centerX b) (centerY b)).
Proof.
  intros Ha Hb Hm.
  pose proof (roomOk_interior a _ _ Ha (center_inRoom a Ha)) as [Hax Hay].
  pose proof (roomOk_interior b _ _ Hb (center_inRoom b Hb)) as [Hbx Hby].
  unfold carveCorridor.
  apply (gridOk_fold_setTile (fun y => (centerX b, y))).
  - intros y Hy. apply In_zinterval in Hy. cbn [fst snd].
    unfold interior in *. lia.
  - apply (gridOk_fold_setTile (fun x => (x, centerY a))); [|exact Hm].
    intros x Hx. apply In_zinterval in Hx. cbn [fst snd].
    unfold interior in *. lia.
Qed.

Lemma gridOk_connectRooms (rooms : list Room) :
  Forall roomOk rooms ->
  forall m, gridOk m -> gridOk (connectRooms m rooms).
Proof.
  induction rooms as [|prev rest IH]; intros Hok m Hm; [exact Hm|].
  destruct rest as [|curr rest']; [exact Hm|].
  cbn [connectRooms]. inversion Hok as [|? ? Hprev Hrest]; subst.
  apply IH; [exact Hrest|].
  apply gridOk_carveCorridor; [exact Hprev | inversion Hrest; assumption
                               | exact Hm].
Qed.

(** The floor [carveFloor] returns is the carved grid with one more write:
    the stairs on the centre of the last room. *)
Lemma carveFloor_grid (placed rooms : list Room) (m : list (list Tile)) :
  Forall roomOk placed -> Forall roomOk rooms ->
  carveFloor (fold_left carveRoom placed wallMap) rooms = Some m ->
  exists m3 last,
    gridOk m3 /\ lastRoom rooms = Some last /\ roomOk last
    /\ m = setTile m3 (centerX last) (centerY last) tile_stairs.
Proof.
  intros Hplaced Hrooms. unfold carveFloor. fold (lastRoom rooms).
  set (m1 := fold_left carveRoom placed wallMap).
  assert (H1 : gridOk m1) by (apply gridOk_carveRooms;
                              [exact Hplaced | apply gridOk_wallMap]).
  pose proof (gridOk_connectRooms rooms Hrooms m1 H1) as H2.
  destruct (lastRoom rooms) as [last|] eqn:Hlast; [|discriminate].
  assert (Hlast_ok : roomOk last).
  { unfold lastRoom in Hlast. apply nthZ_Some in Hlast.
    destruct Hlast as [_ Hnth]. apply nth_error_In in Hnth.
    eapply Forall_forall in Hrooms; eassumption. }
  intros Hm. inversion Hm as [Hm']. clear Hm.
  eexists _, last. split; [|split; [reflexivity|split; [exact Hlast_ok|]]];
    [|reflexivity].
  destruct (lenZ rooms >=? 2); [|exact H2].
  destruct (hd_error rooms) as [first|] eqn:Hhd; [|exact H2].
  apply gridOk_carveCorridor; [|exact Hlast_ok | exact H2].
  destruct rooms as [|r rs]; [discriminate|]. inversion Hhd; subst.
  inversion Hrooms; assumption.
Qed.

(** ** What the generator draws *)

Lemma genPost_and {A} (c : Gen A) (P Q : A -> Prop) :
  genPost c P -> genPost c Q -> genPost c (fun a => P a /\ Q a).
Proof.
  intros HP HQ st. destruct (HP st) as (a & st' & Hrun & Ha).
  destruct (HQ st) as (b & st'' & Hrun' & Hb).
  assert (a = b) by congruence. subst b.
  exists a, st'. repeat split; assumption.
Qed.

Lemma roomsOverlap_sym (a b : Room) : roomsOverlap a b = roomsOverlap b a.
Proof.
  unfold roomsOverlap. apply eq_true_iff_eq.
  rewrite !andb_true_iff, !Z.ltb_lt, !Z.gtb_ltb, !Z.ltb_lt. lia.
Qed.

Lemma roomsOverlap_self (r : Room) : roomOk r -> roomsOverlap r r = true.
Proof.
  unfold roomOk, roomsOverlap. intros (Hx & Hy & Hw & Hh).
  rewrite !andb_true_iff, !Z.ltb_lt, !Z.gtb_ltb, !Z.ltb_lt. lia.
Qed.

Lemma roomsApart_disjoint (a b : Room) (x y : Z) :
  roomsOverlap a b = false -> inRoom a x y -> inRoom b x y -> False.
Proof.
  unfold roomsOverlap, inRoom. intros Hno [Hax Hay] [Hbx Hby].
  assert (Hyes : (r_x a <? r_x b + r_width b + 1)
                 && (r_x a + r_width a + 1 >? r_x b)
                 && (r_y a <? r_y b + r_height b + 1)
                 && (r_y a + r_height a + 1 >? r_y b) = true).
  { rewrite !andb_true_iff, !Z.ltb_lt, !Z.gtb_ltb, !Z.ltb_lt. lia. }
  congruence.
Qed.

Lemma roomsApart_snoc (rooms : list Room) (room : Room) :
  roomOk room -> roomsApart rooms ->
  existsb (fun r => roomsOverlap room r) rooms = false ->
  roomsApart (rooms ++ [room]).
Proof.
  intros Hok [Hnodup Hpairs] Hfree.
  assert (Hnone : forall r, In r rooms -> roomsOverlap room r = false).
  { intros r Hr. destruct (roomsOverlap room r) eqn:Ho; [|reflexivity].
    assert (existsb (fun r => roomsOverlap room r) rooms = true)
      by (apply existsb_exists; exists r; split; assumption).
    congruence. }
  assert (Hnew : ~ In room rooms).
  { intros Hin. specialize (Hnone room Hin).
    rewrite (roomsOverlap_self room Hok) in Hnone. discriminate. }
  split.
  - apply NoDup_app; [exact Hnodup | repeat constructor; intros [] |].
    intros r Hr [<-|[]]. exact (Hnew Hr).
  - intros a b Ha Hb. apply in_app_iff in Ha, Hb.
    destruct Ha as [Ha|[<-|[]]]; destruct Hb as [Hb|[<-|[]]].
    + apply Hpairs; assumption.
    + right. rewrite roomsOverlap_sym. apply Hnone, Ha.
    + right. apply Hnone, Hb.
    + left. reflexivity.
Qed.

Lemma placeRooms_apart (env : Env) (attempts : nat) (numRooms : Z) :
  forall rooms,
    Forall roomOk rooms -> roomsApart rooms ->
    genPost (placeRooms env attempts numRooms rooms)
      (fun rs => roomsApart rs /\ lenZ rs <= Z.max numRooms (lenZ rooms)).
Proof.
  induction attempts as [|k IH]; intros rooms Hok Hapart; cbn [placeRooms].
  - apply genPost_ret. split; [exact Hapart | lia].
  - destruct (lenZ rooms <? numRooms) eqn:Hlen;
      [|apply genPost_ret; split; [exact Hapart | lia]].
    apply Z.ltb_lt in Hlen.
    eapply genPost_bind; [apply (randomInt_post env 1 (MAP_WIDTH - 10));
                          unfold MAP_WIDTH; lia|].
    intros x Hx.
    eapply genPost_bind; [apply (randomInt_post env 1 (MAP_HEIGHT - 8));
                          unfold MAP_HEIGHT; lia|].
    intros y Hy.
    eapply genPost_bind; [apply (randomInt_post env 4 8); lia|].
    intros w Hw.
    eapply genPost_bind; [apply (randomInt_post env 4 6); lia|].
    intros h Hh. cbv beta in Hx, Hy, Hw, Hh.
    cbn [r_x r_y r_width r_height].
    set (room := {| r_x := x; r_y := y; r_width := w; r_height := h |}).
    assert (Hroom : roomOk room)
      by (unfold roomOk; cbn [room r_x r_y r_width r_height]; lia).
    assert (Hskip : genPost (placeRooms env k numRooms rooms)
              (fun rs => roomsApart rs
                         /\ lenZ rs <= Z.max numRooms (lenZ rooms)))
      by (apply IH; assumption).
    destruct (x + w >=? MAP_WIDTH - 1); [exact Hskip|].
    destruct (y + h >=? MAP_HEIGHT - 1); [exact Hskip|].
    destruct (existsb _ rooms) eqn:Hfree; [exact Hskip|].
    eapply genPost_weaken.
    + apply IH.
      * apply Forall_app. split; [exact Hok|].
        constructor; [exact Hroom | constructor].
      * apply roomsApart_snoc; assumption.
    + intros rs [Hrs Hn]. split; [exact Hrs|].
      unfold lenZ in *. rewrite length_app in Hn. cbn [List.length] in Hn.
      lia.
Qed.

Lemma generateRooms_full (env : Env) :
  genPost (generateRooms env)
    (fun placed => (Forall roomOk placed /\ placed <> [])
                   /\ roomsApart placed /\ lenZ placed <= 8).
Proof.
  apply genPost_and; [apply generateRooms_post|].
  unfold generateRooms.
  eapply genPost_bind; [apply (randomInt_post env 5 8); lia|].
  intros numRooms Hn. cbv beta in Hn.
  eapply genPost_weaken.
  - apply placeRooms_apart; [constructor|].
    split; [constructor | intros a b []].
  - intros rs [Hrs Hlen]. split; [exact Hrs|].
    unfold lenZ in *. cbn [List.length] in Hlen. lia.
Qed.

Lemma randomCell_in (env : Env) (rooms : list Room) (lo : Z) :
  0 <= lo <= lenZ rooms - 1 -> Forall roomOk rooms ->
  genPost (randomCell env rooms lo)
          (fun xy => placedIn rooms lo (fst xy) (snd xy)).
Proof.
  intros Hlo Hok. unfold randomCell.
  eapply genPost_bind; [apply randomInt_post; lia|].
  intros roomIndex Hi. cbv beta in Hi.
  destruct (nthZ_in_range rooms roomIndex ltac:(lia)) as [room Hroom].
  rewrite Hroom. cbn [liftOption]. apply genPost_bind_ret.
  assert (Hr : roomOk room).
  { pose proof (nthZ_Some _ _ _ Hroom) as [_ Hnth].
    apply nth_error_In in Hnth. eapply Forall_forall in Hok; eassumption. }
  pose proof Hr as (Rx & Ry & Rw & Rh).
  eapply genPost_bind; [apply randomInt_post; lia|]. intros x Hx.
  eapply genPost_bind; [apply randomInt_post; lia|]. intros y Hy.
  apply genPost_ret. cbv beta in Hx, Hy. cbn [fst snd].
  exists roomIndex, room. split; [lia|]. split; [exact Hroom|].
  unfold inRoom. lia.
Qed.

Lemma randomUUID_post (env : Env) :
  genPost (randomUUID env) (fun _ => True).
Proof. intros st. eexists _, _. split; [reflexivity | exact I]. Qed.

Lemma createEnemy_fresh (env : Env) (id : string) (t : EnemyType)
    (x y floor : Z) :
  genPost (createEnemy env id t x y floor)
    (fun e => e_id e = id /\ e_type e = t /\ e_x e = x /\ e_y e = y
              /\ freshEnemy floor e).
Proof.
  unfold createEnemy.
  eapply genPost_bind
    with (P := fun variant => floor <= 1 -> variant <> champion).
  - unfold getEnemyVariant.
    eapply genPost_bind; [apply random_post|]. intros roll Hroll.
    cbv beta in Hroll.
    destruct (100 * roll
              <? Z.min (Z.max 0 ((floor - 1) * 4)) 20 * RANDOM_DENOMINATOR)
      eqn:Hchamp.
    + apply genPost_ret. intros Hfloor _. apply Z.ltb_lt in Hchamp.
      replace (Z.min (Z.max 0 ((floor - 1) * 4)) 20) with 0 in Hchamp by lia.
      lia.
    + destruct (100 * roll
                <? (Z.min (Z.max 0 ((floor - 1) * 4)) 20
                    + Z.min (10 + floor * 5) 40) * RANDOM_DENOMINATOR);
        apply genPost_ret; intros _; discriminate.
  - intros variant Hvariant.
    eapply genPost_bind
      with (P := fun behavior =>
                   match t with
                   | rat => behavior = flee
                   | dragon => behavior = aggressive
                   | _ => behavior = aggressive \/ behavior = patrol
                   end).
    + destruct t; cbn [getEnemyBehavior];
        try (apply genPost_ret; reflexivity);
        (eapply genPost_bind; [apply random_post|]; intros r _;
         apply genPost_ret; destruct (_ <? _); [left | right]; reflexivity).
    + intros behavior Hbehavior. apply genPost_ret.
      cbn [e_id e_type e_x e_y]. do 4 (split; [reflexivity|]).
      unfold freshEnemy.
      cbn [e_hp e_maxHp e_attack e_defense e_lastSeenPlayer e_behavior
           e_type e_variant].
      split; [reflexivity|].
      split; [destruct t, variant; vm_compute; reflexivity|].
      do 4 (split; [reflexivity|]). split; assumption.
Qed.

Lemma nthZ_In {A} (l : list A) (i : Z) (a : A) : nthZ l i = Some a -> In a l.
Proof.
  intros H. apply nthZ_Some in H. destruct H as [_ H].
  eapply nth_error_In; exact H.
Qed.

Lemma spawnEnemies_full (env : Env) (rooms : list Room)
    (types : list EnemyType) (floor : Z) (n : nat) :
  2 <= lenZ rooms -> Forall roomOk rooms -> 1 <= lenZ types ->
  forall enemies,
    Forall (enemyPlaced rooms types floor) enemies ->
    genPost (spawnEnemies env n rooms types floor enemies)
      (fun es => Forall (enemyPlaced rooms types floor) es
                 /\ List.length es = (List.length enemies + n)%nat).
Proof.
  intros Hrooms Hok Htypes.
  induction n as [|n IH]; intros enemies Hall; cbn [spawnEnemies].
  - apply genPost_ret. split; [exact Hall | lia].
  - eapply genPost_bind; [apply randomCell_in; [lia | exact Hok]|].
    intros xy Hxy.
    eapply genPost_bind; [apply randomInt_post; lia|].
    intros typeIndex Hi. cbv beta in Hi.
    destruct (nthZ_in_range types typeIndex ltac:(lia)) as [t Ht].
    rewrite Ht. cbn [liftOption]. apply genPost_bind_ret.
    eapply genPost_bind; [apply randomUUID_post|]. intros id _.
    eapply genPost_bind; [apply createEnemy_fresh|].
    intros enemy (_ & Htype & Hx & Hy & Hfresh).
    eapply genPost_weaken.
    + apply IH. apply Forall_app. split; [exact Hall|].
      constructor; [|constructor]. unfold enemyPlaced.
      rewrite Hx, Hy, Htype. split; [exact Hxy|].
      split; [eapply nthZ_In; exact Ht | exact Hfresh].
    + intros es [Hes Hlen]. split; [exact Hes|].
      rewrite length_app in Hlen. cbn [List.length] in Hlen. lia.
Qed.

Lemma spawnPotions_full (env : Env) (rooms : list Room) (n : nat) :
  1 <= lenZ rooms -> Forall roomOk rooms ->
  forall items,
    genPost (spawnPotions env n rooms items)
      (fun result =>
         exists potions,
           result = items ++ potions /\ List.length potions = n
           /\ Forall (fun i => placedIn rooms 0 (i_x i) (i_y i)
                               /\ potionItem i) potions).
Proof.
  intros Hrooms Hok.
  induction n as [|n IH]; intros items; cbn [spawnPotions].
  - apply genPost_ret. exists []. rewrite app_nil_r.
    repeat split; constructor.
  - eapply genPost_bind; [apply randomCell_in; [lia | exact Hok]|].
    intros xy Hxy.
    eapply genPost_bind; [apply randomUUID_post|]. intros id _.
    eapply genPost_weaken; [apply IH|].
    intros result (potions & Hres & Hlen & Hall).
    eexists (_ :: potions). split; [rewrite Hres, <- app_assoc; reflexivity|].
    split; [cbn [List.length]; lia|].
    constructor; [|exact Hall]. cbn [i_x i_y]. split; [exact Hxy|].
    unfold potionItem. repeat split.
Qed.

Lemma spawnEquipment_full (env : Env) (rooms : list Room)
    (available : list Equipment) (n : nat) :
  1 <= lenZ rooms -> Forall roomOk rooms -> 1 <= lenZ available ->
  forall items,
    genPost (spawnEquipment env n rooms available items)
      (fun result =>
         exists equips,
           result = items ++ equips /\ List.length equips = n
           /\ Forall (fun i => placedIn rooms 0 (i_x i) (i_y i)
                               /\ equipmentItem available i) equips).
Proof.
  intros Hrooms Hok Havail.
  induction n as [|n IH]; intros items; cbn [spawnEquipment].
  - apply genPost_ret. exists []. rewrite app_nil_r.
    repeat split; constructor.
  - eapply genPost_bind; [apply randomCell_in; [lia | exact Hok]|].
    intros xy Hxy.
    eapply genPost_bind; [apply randomInt_post; lia|].
    intros eqIndex Hi. cbv beta in Hi.
    destruct (nthZ_in_range available eqIndex ltac:(lia)) as [eq Heq].
    rewrite Heq. cbn [liftOption]. apply genPost_bind_ret.
    eapply genPost_bind; [apply randomUUID_post|]. intros id _.
    eapply genPost_weaken; [apply IH|].
    intros result (equips & Hres & Hlen & Hall).
    eexists (_ :: equips). split; [rewrite Hres, <- app_assoc; reflexivity|].
    split; [cbn [List.length]; lia|].
    constructor; [|exact Hall]. cbn [i_x i_y]. split; [exact Hxy|].
    unfold equipmentItem. cbn [i_type i_value i_equipment i_name].
    split; [reflexivity|]. split; [reflexivity|].
    exists eq. split; [reflexivity|].
    split; [eapply nthZ_In; exact Heq | reflexivity].
Qed.

Lemma availableEquipment_nonempty (floor : Z) (character : CharacterType) :
  0 <= floor -> 1 <= lenZ (availableEquipmentFor floor character).
Proof.
  intros Hfloor.
  assert (Hin : In (mkEquipment "rusty_sword" weapon "Rusty Sword"
                                2 0 0 0 0 1)
                   (availableEquipmentFor floor character)).
  { unfold availableEquipmentFor, getEquipmentForFloor.
    apply filter_In. split; [|reflexivity].
    apply filter_In. split; [left; reflexivity|].
    cbn [tier mkEquipment]. apply Z.leb_le. lia. }
  unfold lenZ. destruct (availableEquipmentFor floor character);
    [destruct Hin | cbn [List.length]; lia].
Qed.

Lemma layoutFloor_full (env : Env) (placed : list Room) (first : Room)
    (floor : Z) (character : CharacterType) :
  let rooms := sortByKey roomKey placed in
  1 <= floor -> Forall roomOk rooms -> hd_error rooms = Some first ->
  genPost (layoutFloor env placed floor character)
          (populationOk rooms floor character).
Proof.
  intros rooms Hfloor Hok Hhd.
  destruct (carveFloor_path placed rooms first Hok Hhd)
    as (m & last & Hm & _).
  assert (Hlen : 1 <= lenZ rooms)
    by (destruct rooms; [discriminate | unfold lenZ; cbn [List.length]; lia]).
  pose proof (availableEquipment_nonempty floor character ltac:(lia))
    as Havail.
  unfold layoutFloor. fold rooms. cbv zeta. rewrite Hm, Hhd.
  cbn [liftOption].
  apply genPost_bind_ret. apply genPost_bind_ret.
  eapply genPost_bind; [apply (randomInt_post env 3 5); lia|].
  intros n Hn. cbv beta in Hn.
  fold (availableTypesFor floor).
  eapply genPost_bind
    with (P := fun enemies =>
                 (if lenZ rooms >? 1
                  then List.length enemies = Z.to_nat (n + floor / 2)
                  else enemies = [])
                 /\ Forall (enemyPlaced rooms (availableTypesFor floor) floor)
                           enemies).
  { destruct (lenZ rooms >? 1) eqn:Hgt.
    - apply Z.gtb_lt in Hgt. eapply genPost_weaken.
      + apply (spawnEnemies_full env rooms (availableTypesFor floor) floor
                 (Z.to_nat (n + floor / 2)) ltac:(lia) Hok
                 (availableTypes_nonempty floor Hfloor) []). constructor.
      + intros enemies [Hall Hcount]. split; [exact Hcount | exact Hall].
    - apply genPost_ret. split; [reflexivity | constructor]. }
  intros enemies [Hcount Henemies].
  eapply genPost_bind; [apply (randomInt_post env 1 3); lia|].
  intros numPotions Hp. cbv beta in Hp.
  eapply genPost_bind; [apply (spawnPotions_full env rooms _ Hlen Hok)|].
  intros potions0 (potions & Hpot & Hpn & Hpall). cbn [app] in Hpot.
  subst potions0.
  eapply genPost_bind; [apply (randomInt_post env 1 2); lia|].
  intros numEquipment Hq. cbv beta in Hq.
  replace (lenZ (availableEquipmentFor floor character) >? 0) with true
    by (symmetry; apply Z.gtb_lt; lia).
  eapply genPost_bind;
    [apply (spawnEquipment_full env rooms _ _ Hlen Hok Havail)|].
  intros items (equips & Hitems & Hen & Heall).
  apply genPost_ret. unfold populationOk. cbn [gf_enemies gf_items].
  split.
  { destruct (lenZ rooms >? 1); [exists n; split; assumption | exact Hcount]. }
  split; [exact Henemies|].
  exists potions, equips. split; [exact Hitems|].
  unfold lenZ. rewrite Hpn, Hen.
  split; [lia|]. split; [lia|]. split; assumption.
Qed.

(** The run of [generateMap], with what it places. *)
Lemma generateMap_layout (env : Env) (floor : Z) (character : CharacterType) :
  1 <= floor ->
  exists placed first g,
    let rooms := sortByKey roomKey placed in
    generateMap env floor character = Some g
    /\ Forall roomOk placed /\ Forall roomOk rooms /\ roomsApart rooms
    /\ lenZ rooms <= 8
    /\ hd_error rooms = Some first
    /\ carveFloor (fold_left carveRoom placed wallMap) rooms
       = Some (gf_map g)
    /\ gf_playerStart g = {| c_x := centerX first; c_y := centerY first |}
    /\ populationOk rooms floor character g.
Proof.
  intros Hfloor.
  destruct (generateRooms_full env (O, O))
    as (placed & st & Hrun & (Hok & Hne) & [Hnodup Hpairs] & Hcount).
  pose proof (sortByKey_Forall roomKey roomOk placed Hok) as Hsorted.
  pose proof (sortByKey_nonempty roomKey placed Hne) as Hne'.
  pose proof (sortByKey_perm roomKey placed) as Hperm.
  destruct (sortByKey roomKey placed) as [|first rest] eqn:Hrooms;
    [congruence|].
  pose proof (layoutFloor_post env placed first floor character) as Hpost1.
  pose proof (layoutFloor_full env placed first floor character) as Hpost2.
  cbv zeta in Hpost1, Hpost2. rewrite Hrooms in Hpost1, Hpost2.
  destruct (genPost_and _ _ _ (Hpost1 Hfloor Hsorted eq_refl)
                        (Hpost2 Hfloor Hsorted eq_refl) st)
    as (g & st' & Hlay & (Hm & Hstart & _) & Hpop).
  exists placed, first, g. cbv zeta. rewrite Hrooms.
  unfold generateMap, generateMapGen, bind. rewrite Hrun, Hlay.
  split; [reflexivity|]. split; [exact Hok|]. split; [exact Hsorted|].
  split.
  { split.
    - eapply Permutation_NoDup; [apply Permutation_sym, Hperm | exact Hnodup].
    - intros a b Ha Hb.
      apply Hpairs; [exact (Permutation_in _ Hperm Ha)
                    | exact (Permutation_in _ Hperm Hb)]. }
  split.
  { unfold lenZ in *. rewrite (Permutation_length Hperm). exact Hcount. }
  split; [reflexivity|]. split; [exact Hm|].
  split; [exact Hstart | exact Hpop].
Qed.

(** ** The shape of the grids *)

Lemma shape_setNth {A} (g : list (list A)) :
  forall i row row',
    nth_error g i = Some row -> List.length row' = List.length row ->
    shape (setNth i row' g) = shape g.
Proof.
  unfold shape.
  induction g as [|r g IH]; intros [|i] row row' Hnth Hlen; cbn in *;
    try discriminate.
  - inversion Hnth; subst. rewrite Hlen. reflexivity.
  - f_equal. eapply IH; eassumption.
Qed.

Lemma shape_set2 {A} (g : list (list A)) (x y : Z) (v : A) :
  shape (set2 g x y v) = shape g.
Proof.
  unfold set2. destruct ((x <? 0) || (y <? 0)); [reflexivity|].
  destruct (nth_error g (Z.to_nat y)) as [row|] eqn:Hrow; [|reflexivity].
  destruct (Z.to_nat x <? List.length row)%nat; [|reflexivity].
  eapply shape_setNth; [exact Hrow | apply setNth_length].
Qed.

(** Carving is a sequence of tile writes: a relation between grids that is
    reflexive, transitive and holds across every [setTile] holds between
    the wall grid and the floor [carveFloor] returns. *)
Lemma carving_ind (R : list (list Tile) -> list (list Tile) -> Prop) :
  (forall m, R m m) ->
  (forall a b c, R a b -> R b c -> R a c) ->
  (forall m x y t, R m (setTile m x y t)) ->
  forall placed rooms m,
    carveFloor (fold_left carveRoom placed wallMap) rooms = Some m ->
    R wallMap m.
Proof.
  intros Hrefl Htrans Hset.
  assert (Hfold : forall (f : Z -> Z * Z) xs m,
            R m (fold_left
                   (fun m v => setTile m (fst (f v)) (snd (f v)) tile_floor)
                   xs m)).
  { intros f xs. induction xs as [|x xs IH]; intros m; cbn [fold_left];
      [apply Hrefl|].
    eapply Htrans; [apply Hset | apply IH]. }
  assert (Hroom : forall room m, R m (carveRoom m room)).
  { intros room m. unfold carveRoom.
    generalize (zrange (r_y room) (Z.to_nat (r_height room))).
    intros ys. revert m.
    induction ys as [|y ys IH]; intros m; cbn [fold_left]; [apply Hrefl|].
    eapply Htrans; [apply (Hfold (fun x => (x, y))) | apply IH]. }
  assert (Hrooms : forall placed m, R m (fold_left carveRoom placed m)).
  { intros placed. induction placed as [|r placed IH]; intros m;
      cbn [fold_left]; [apply Hrefl|].
    eapply Htrans; [apply Hroom | apply IH]. }
  assert (Hcorridor : forall m x1 y1 x2 y2, R m (carveCorridor m x1 y1 x2 y2)).
  { intros m x1 y1 x2 y2. unfold carveCorridor.
    eapply Htrans; [apply (Hfold (fun x => (x, y1)))
                   | apply (Hfold (fun y => (x2, y)))]. }
  assert (Hconnect : forall rooms m, R m (connectRooms m rooms)).
  { intros rooms. induction rooms as [|prev rest IH]; intros m;
      [apply Hrefl|].
    destruct rest as [|curr rest']; [apply Hrefl|]. cbn [connectRooms].
    eapply Htrans; [apply Hcorridor | apply IH]. }
  intros placed rooms m. unfold carveFloor.
  destruct (nthZ rooms (lenZ rooms - 1)) as [last|]; [|discriminate].
  intros H. inversion H as [Hm]. clear H.
  eapply Htrans; [apply Hrooms|].
  eapply Htrans; [apply Hconnect|].
  eapply Htrans; [|apply Hset].
  destruct (lenZ rooms >=? 2); [|apply Hrefl].
  destruct (hd_error rooms); [|apply Hrefl].
  apply Hcorridor.
Qed.

Lemma carveFloor_shape (placed rooms : list Room) (m : list (list Tile)) :
  carveFloor (fold_left carveRoom placed wallMap) rooms = Some m ->
  shape m = shape wallMap.
Proof.
  intros H.
  apply (carving_ind (fun a b => shape b = shape a)) in H;
    [exact H | reflexivity | intros a b c Hab Hbc; congruence|].
  intros m0 x y t. apply shape_set2.
Qed.

Lemma shape_dimensions {A B} (g : list (list A)) (h : list (list B)) :
  shape g = shape h -> mapHeight g = mapHeight h /\ mapWidth g = mapWidth h.
Proof.
  unfold shape, mapHeight, mapWidth, lenZ. intros H. split.
  - apply (f_equal (@List.length nat)) in H. rewrite !length_map in H.
    congruence.
  - destruct g as [|r g], h as [|r' h]; cbn in H; try discriminate;
      [reflexivity|]. inversion H. congruence.
Qed.

Lemma updateFogGrid_shape (m : list (list Tile)) (px py : Z)
    (fog : list (list bool)) :
  shape (updateFogGrid m px py fog) = shape fog.
Proof.
  unfold updateFogGrid.
  assert (Hrow : forall dy dxs fog0,
            shape (fold_left (fun fog dx => revealCell m px py fog dy dx)
                             dxs fog0) = shape fog0).
  { intros dy dxs. induction dxs as [|dx dxs IH]; intros fog0;
      cbn [fold_left]; [reflexivity|].
    rewrite IH. unfold revealCell. cbv zeta.
    destruct (_ && _ && _ && _); [|reflexivity].
    destruct (_ <=? _); [apply shape_set2 | reflexivity]. }
  generalize (zinterval (- VISION_RADIUS) VISION_RADIUS) at 2.
  intros dys. revert fog.
  induction dys as [|dy dys IH]; intros fog; cbn [fold_left]; [reflexivity|].
  rewrite IH. apply Hrow.
Qed.

(** ** The generated floor *)

Lemma carveRows_keeps (xs ys : list Z) :
  forall m,
    carveKeeps m
      (fold_left
         (fun m y => fold_left (fun m x => setTile m x y tile_floor) xs m)
         ys m).
Proof.
  induction ys as [|y ys IH]; intros m; cbn [fold_left];
    [apply carveKeeps_refl|].
  eapply carveKeeps_trans; [|apply IH].
  apply (fold_setTile_keeps (fun x => (x, y))).
Qed.

Lemma carveRows_carves (xs ys : list Z) (x y : Z) :
  In x xs ->
  forall m,
    In y ys -> onMap m (x, y) ->
    nonWall
      (fold_left
         (fun m y => fold_left (fun m x => setTile m x y tile_floor) xs m)
         ys m)
      (x, y).
Proof.
  intros Hx. induction ys as [|y0 ys IH]; intros m Hy Hon; [destruct Hy|].
  cbn [fold_left]. destruct Hy as [->|Hy].
  - apply carveRows_keeps.
    apply (fold_setTile_carves (fun x => (x, y))); assumption.
  - apply IH; [exact Hy|].
    apply (fold_setTile_keeps (fun x => (x, y0))). exact Hon.
Qed.

Lemma carveRoom_carves (m : list (list Tile)) (room : Room) (x y : Z) :
  inRoom room x y -> onMap m (x, y) -> nonWall (carveRoom m room) (x, y).
Proof.
  intros [Hx Hy] Hon. unfold carveRoom.
  apply carveRows_carves; [apply In_zrange; lia | apply In_zrange; lia
                           | exact Hon].
Qed.

Lemma carveRooms_carves (placed : list Room) (room : Room) (x y : Z) :
  In room placed -> inRoom room x y ->
  forall m, onMap m (x, y) -> nonWall (fold_left carveRoom placed m) (x, y).
Proof.
  intros Hin Hcell.
  induction placed as [|r placed IH]; intros m Hon; [destruct Hin|].
  cbn [fold_left]. destruct Hin as [->|Hin].
  - apply fold_carveRoom_keeps. apply carveRoom_carves; assumption.
  - apply IH; [exact Hin|]. apply carveRoom_keeps. exact Hon.
Qed.

Lemma carveFloor_keeps (m1 m : list (list Tile)) (rooms : list Room) :
  carveFloor m1 rooms = Some m -> carveKeeps m1 m.
Proof.
  unfold carveFloor.
  destruct (nthZ rooms (lenZ rooms - 1)) as [last|]; [|discriminate].
  intros H. inversion H as [Hm]. clear H.
  eapply carveKeeps_trans; [|apply setTile_keeps; discriminate].
  eapply carveKeeps_trans; [apply connectRooms_keeps|].
  destruct (lenZ rooms >=? 2); [|apply carveKeeps_refl].
  destruct (hd_error rooms); [|apply carveKeeps_refl].
  apply carveCorridor_keeps.
Qed.

(** X12. The grid of every generated floor.  The map is [MAP_HEIGHT] rows
    of [MAP_WIDTH] tiles, so it has exactly the cells
    [0 <= x < MAP_WIDTH], [0 <= y < MAP_HEIGHT]; every tile carries
    its own coordinates; there is no door; exactly one tile is the stairs,
    and it is not on the border; every tile on the outer border is a
    wall. *)
Theorem generateMap_grid (env : Env) (floor : Z) (character : CharacterType) :
  1 <= floor ->
  exists g sx sy,
    generateMap env floor character = Some g
    /\ shape (gf_map g) = repeat (Z.to_nat MAP_WIDTH) (Z.to_nat MAP_HEIGHT)
    /\ interior sx sy
    /\ forall x y,
         (0 <= x < MAP_WIDTH /\ 0 <= y < MAP_HEIGHT ->
            exists t,
              at2 (gf_map g) x y = Some t
              /\ t_x t = x /\ t_y t = y
              /\ t_type t <> tile_door
              /\ (t_type t = tile_stairs <-> x = sx /\ y = sy)
              /\ (~ interior x y -> t_type t = tile_wall))
         /\ (~ (0 <= x < MAP_WIDTH /\ 0 <= y < MAP_HEIGHT) ->
             at2 (gf_map g) x y = None).
Proof.
  intros Hfloor.
  destruct (generateMap_layout env floor character Hfloor)
    as (placed & first & g & Hgen & Hplaced & Hrooms & _ & _ & _ & Hm & _).
  destruct (carveFloor_grid placed _ _ Hplaced Hrooms Hm)
    as (m3 & last & Hgrid & _ & Hlast & Hmap).
  pose proof (roomOk_interior last _ _ Hlast (center_inRoom last Hlast))
    as Hstairs.
  exists g, (centerX last), (centerY last).
  split; [exact Hgen|].
  split; [rewrite (carveFloor_shape _ _ _ Hm); reflexivity|].
  split; [exact Hstairs|].
  intros x y. rewrite Hmap. unfold setTile.
  destruct (Z.eq_dec x (centerX last)) as [Ex|Ex];
    [destruct (Z.eq_dec y (centerY last)) as [Ey|Ey]|].
  - subst x y. split.
    + intros Hin. destruct (proj1 (Hgrid _ _) Hin) as (t & Ht & _).
      rewrite (at2_set2_same _ _ _ _ _ Ht). eexists.
      split; [reflexivity|]. cbn [t_x t_y t_type].
      repeat split; try discriminate; try reflexivity.
      intros Hout. contradiction.
    + intros Hout. exfalso. apply Hout.
      unfold interior, MAP_WIDTH, MAP_HEIGHT in *. lia.
  - rewrite at2_set2_other by (right; exact Ey). split.
    + intros Hin.
      destruct (proj1 (Hgrid _ _) Hin) as (t & Ht & Hx & Hy & Htype & Hb).
      exists t. split; [exact Ht|]. split; [exact Hx|]. split; [exact Hy|].
      split; [destruct Htype as [E|E]; rewrite E; discriminate|].
      split; [|exact Hb]. split.
      * intros Hs. destruct Htype as [E|E]; rewrite E in Hs; discriminate.
      * intros [_ E]. contradiction.
    + apply Hgrid.
  - rewrite at2_set2_other by (left; exact Ex). split.
    + intros Hin.
      destruct (proj1 (Hgrid _ _) Hin) as (t & Ht & Hx & Hy & Htype & Hb).
      exists t. split; [exact Ht|]. split; [exact Hx|]. split; [exact Hy|].
      split; [destruct Htype as [E|E]; rewrite E; discriminate|].
      split; [|exact Hb]. split.
      * intros Hs. destruct Htype as [E|E]; rewrite E in Hs; discriminate.
      * intros [E _]. contradiction.
    + apply Hgrid.
Qed.

Lemma generateMap_grid_witness :
  exists g sx sy,
    generateMap zeroEnv 1 dwarf = Some g
    /\ shape (gf_map g) = repeat (Z.to_nat MAP_WIDTH) (Z.to_nat MAP_HEIGHT)
    /\ interior sx sy
    /\ forall x y,
         (0 <= x < MAP_WIDTH /\ 0 <= y < MAP_HEIGHT ->
            exists t,
              at2 (gf_map g) x y = Some t
              /\ t_x t = x /\ t_y t = y
              /\ t_type t <> tile_door
              /\ (t_type t = tile_stairs <-> x = sx /\ y = sy)
              /\ (~ interior x y -> t_type t = tile_wall))
         /\ (~ (0 <= x < MAP_WIDTH /\ 0 <= y < MAP_HEIGHT) ->
             at2 (gf_map g) x y = None).
Proof. apply generateMap_grid. lia. Defined.


Lemma placedIn_not_first (rooms : list Room) (first : Room) (x y : Z) :
  NoDup rooms -> hd_error rooms = Some first ->
  placedIn rooms 1 x y ->
  exists room, In room rooms /\ room <> first /\ inRoom room x y.
Proof.
  intros Hnodup Hhd (k & room & Hk & Hnth & Hcell). exists room.
  split; [eapply nthZ_In; exact Hnth|]. split; [|exact Hcell].
  intros ->. apply nthZ_Some in Hnth. destruct Hnth as [_ Hnth].
  destruct rooms as [|r rs]; [discriminate|]. inversion Hhd; subst r.
  destruct (Z.to_nat k) as [|j] eqn:Hj; [lia|].
  cbn [nth_error] in Hnth. apply nth_error_In in Hnth.
  inversion Hnodup; contradiction.
Qed.

(** The rooms of a generated floor and what stands in them. *)
Lemma generateMap_rooms (env : Env) (floor : Z) (character : CharacterType) :
  1 <= floor ->
  exists g rooms first,
    generateMap env floor character = Some g
    /\ Forall roomOk rooms /\ roomsApart rooms
    /\ hd_error rooms = Some first
    /\ gf_playerStart g = {| c_x := centerX first; c_y := centerY first |}
    /\ shape (gf_map g) = shape wallMap
    /\ (forall room x y, In room rooms -> inRoom room x y ->
                         nonWall (gf_map g) (x, y))
    /\ populationOk rooms floor character g.
Proof.
  intros Hfloor.
  destruct (generateMap_layout env floor character Hfloor)
    as (placed & first & g & Hgen & Hplaced & Hrooms & Hapart & _
        & Hhd & Hm & Hstart & Hpop).
  exists g, (sortByKey roomKey placed), first.
  split; [exact Hgen|]. split; [exact Hrooms|]. split; [exact Hapart|].
  split; [exact Hhd|]. split; [exact Hstart|].
  split; [exact (carveFloor_shape _ _ _ Hm)|]. split; [|exact Hpop].
  intros room x y Hroom Hcell.
  assert (Hok : roomOk room) by (eapply Forall_forall in Hrooms; eassumption).
  pose proof (roomOk_interior room x y Hok Hcell) as Hint.
  apply (carveFloor_keeps _ _ _ Hm).
  apply (carveRooms_carves placed room x y);
    [exact (Permutation_in _ (sortByKey_perm roomKey placed) Hroom)
    | exact Hcell|].
  apply wallMap_onMap; unfold interior, MAP_WIDTH, MAP_HEIGHT in *; lia.
Qed.






(** X15. The items of a generated floor: first one to three health
    potions worth 10 hit points, then one or two pieces of equipment.
    Every piece of equipment is an entry of [EQUIPMENT_DEFINITIONS] of tier
    at most [floor + 1], the item carries its name, and a ranged weapon
    fits the character: staffs for the wizard, crossbows for the bandit,
    daggers for elf and dwarf. *)
Theorem generateMap_items (env : Env) (floor : Z) (character : CharacterType) :
  1 <= floor ->
  exists g potions equips,
    generateMap env floor character = Some g
    /\ gf_items g = potions ++ equips
    /\ 1 <= lenZ potions <= 3 /\ 1 <= lenZ equips <= 2
    /\ Forall potionItem potions
    /\ Forall (fun i =>
                 i_type i = equipment
                 /\ exists eq,
                      i_equipment i = Some eq /\ i_name i = eq_name eq
                      /\ In eq EQUIPMENT_DEFINITIONS /\ tier eq <= floor + 1
                      /\ (eq_slot eq = ranged ->
                          includes (eq_id eq)
                                   match character with
                                   | wizard => "staff"
                                   | bandit => "crossbow"
                                   | elf | dwarf => "dagger"
                                   end = true))
              equips.
Proof.
  intros Hfloor.
  destruct (generateMap_layout env floor character Hfloor)
    as (placed & first & g & Hgen & _ & _ & _ & _ & _ & _ & _ & _ & _
        & potions & equips & Hitems & Hpn & Hen & Hpotions & Hequips).
  exists g, potions, equips. split; [exact Hgen|]. split; [exact Hitems|].
  split; [exact Hpn|]. split; [exact Hen|]. split.
  - eapply Forall_impl; [|exact Hpotions]. intros i [_ Hi]. exact Hi.
  - eapply Forall_impl; [|exact Hequips].
    intros i (_ & Htype & _ & eq & Heq & Hin & Hname).
    split; [exact Htype|]. exists eq. split; [exact Heq|].
    split; [exact Hname|].
    unfold availableEquipmentFor, getEquipmentForFloor in Hin.
    apply filter_In in Hin. destruct Hin as [Hin Hfit].
    apply filter_In in Hin. destruct Hin as [Hin Htier].
    split; [exact Hin|]. split; [apply Z.leb_le, Htier|].
    intros Hslot. rewrite Hslot in Hfit. destruct character; exact Hfit.
Qed.

Lemma generateMap_items_witness :
  exists g potions equips,
    generateMap zeroEnv 1 wizard = Some g
    /\ gf_items g = potions ++ equips
    /\ 1 <= lenZ potions <= 3 /\ 1 <= lenZ equips <= 2
    /\ Forall potionItem potions
    /\ Forall (fun i =>
                 i_type i = equipment
                 /\ exists eq,
                      i_equipment i = Some eq /\ i_name i = eq_name eq
                      /\ In eq EQUIPMENT_DEFINITIONS /\ tier eq <= 1 + 1
                      /\ (eq_slot eq = ranged ->
                          includes (eq_id eq) "staff" = true))
              equips.
Proof. apply (generateMap_items zeroEnv 1 wizard). lia. Defined.

(** ** The player's tile *)

Lemma existsb_setNth_false {A} (f : A -> bool) (v : A) (l : list A) :
  forall i, existsb f l = false -> f v = false ->
            existsb f (setNth i v l) = false.
Proof.
  induction l as [|a l IH]; intros [|i] Hl Hv; cbn [setNth existsb] in *;
    try reflexivity.
  - apply orb_false_elim in Hl. destruct Hl as [_ Hl]. rewrite Hv, Hl.
    reflexivity.
  - apply orb_false_elim in Hl. destruct Hl as [Ha Hl].
    rewrite Ha, (IH i Hl Hv). reflexivity.
Qed.

Lemma existsb_nth_false {A} (f : A -> bool) (l : list A) (i : nat) (a : A) :
  existsb f l = false -> nth_error l i = Some a -> f a = false.
Proof.
  intros Hl Hi. apply nth_error_In in Hi.
  destruct (f a) eqn:Hf; [|reflexivity].
  assert (existsb f l = true) by (apply existsb_exists; eauto). congruence.
Qed.

Lemma liveEnemyAt_false (x y : Z) (e : Enemy) :
  liveEnemyAt x y e = false <-> (e_hp e > 0 -> ~ (e_x e = x /\ e_y e = y)).
Proof.
  unfold liveEnemyAt. split.
  - intros H Hlive [Hx Hy]. rewrite Hx, Hy, !Z.eqb_refl in H.
    cbn [andb] in H. rewrite Z.gtb_ltb in H. apply Z.ltb_ge in H. lia.
  - intros H.
    destruct (Z.eqb_spec (e_x e) x) as [Hx|Hx]; [|reflexivity].
    destruct (Z.eqb_spec (e_y e) y) as [Hy|Hy]; [|reflexivity].
    cbn [andb]. rewrite Z.gtb_ltb. apply Z.ltb_ge.
    destruct (Z_le_gt_dec (e_hp e) 0) as [Hle|Hgt]; [exact Hle|].
    exfalso. apply (H Hgt). split; assumption.
Qed.

(** The two readings of "no live enemy on the player's tile" agree. *)
Lemma offPlayerTile_free (s : GameState) :
  offPlayerTile s <-> playerTileFree s.
Proof.
  unfold offPlayerTile, playerTileFree. split.
  - intros H.
    destruct (existsb _ (g_enemies s)) eqn:Hex; [|reflexivity].
    apply existsb_exists in Hex. destruct Hex as (a & Ha & Hlive).
    apply In_nth_error in Ha. destruct Ha as [i Hi].
    assert (Hfalse : liveEnemyAt (p_x (g_player s)) (p_y (g_player s)) a
                     = false)
      by (apply liveEnemyAt_false; intros Hhp; exact (H i a Hi Hhp)).
    congruence.
  - intros H i a Hi. apply liveEnemyAt_false.
    eapply existsb_nth_false; eassumption.
Qed.

Lemma liveEnemyAt_weaker (x y : Z) (e e' : Enemy) :
  liveEnemyAt x y e = false ->
  e_x e' = e_x e -> e_y e' = e_y e -> e_hp e' <= e_hp e ->
  liveEnemyAt x y e' = false.
Proof.
  unfold liveEnemyAt. intros H Hx Hy Hhp. rewrite Hx, Hy.
  destruct (e_x e =? x); cbn [andb] in *; [|reflexivity].
  destruct (e_y e =? y); cbn [andb] in *; [|reflexivity].
  rewrite Z.gtb_ltb in *. apply Z.ltb_ge in H. apply Z.ltb_ge. lia.
Qed.

Lemma playerTileFree_ext (s s' : GameState) :
  g_enemies s' = g_enemies s ->
  p_x (g_player s') = p_x (g_player s) ->
  p_y (g_player s') = p_y (g_player s) ->
  playerTileFree s -> playerTileFree s'.
Proof.
  unfold playerTileFree. intros -> -> -> H. exact H.
Qed.

(** Replacing enemy [i] by an enemy that is not live on the player's
    tile. *)
Lemma playerTileFree_updEnemy (s : GameState) (i : nat) (e' : Enemy) :
  liveEnemyAt (p_x (g_player s)) (p_y (g_player s)) e' = false ->
  playerTileFree s -> playerTileFree (updEnemy i e' s).
Proof.
  intros He' Hfree. unfold playerTileFree, updEnemy.
  cbn [g_enemies g_player set_g_enemies].
  apply existsb_setNth_false; assumption.
Qed.

(** An enemy that was hit: the same tile, not more alive. *)
Lemma playerTileFree_hit (s s' : GameState) (i : nat) (e e' : Enemy) :
  playerTileFree s -> nth_error (g_enemies s) i = Some e ->
  e_x e' = e_x e -> e_y e' = e_y e -> e_hp e' <= e_hp e ->
  g_enemies s' = setNth i e' (g_enemies s) ->
  p_x (g_player s') = p_x (g_player s) ->
  p_y (g_player s') = p_y (g_player s) ->
  playerTileFree s'.
Proof.
  intros Hfree Hnth Hx Hy Hhp Hen Hpx Hpy.
  apply (playerTileFree_ext (updEnemy i e' s));
    [exact Hen | exact Hpx | exact Hpy|].
  apply playerTileFree_updEnemy; [|exact Hfree].
  eapply liveEnemyAt_weaker;
    [exact (existsb_nth_false _ _ i e Hfree Hnth) | exact Hx | exact Hy
    | exact Hhp].
Qed.

Lemma aiStep_tileFree (s s' : GameState) :
  aiStep s s' -> playerTileFree s -> playerTileFree s'.
Proof.
  induction 1 as [s|s1 s2 s3 _ IH1 _ IH2|s i e c Hnth|s i e x y Hnth Hcan|s e];
    intros Hfree.
  - exact Hfree.
  - auto.
  - apply playerTileFree_updEnemy; [|exact Hfree].
    eapply liveEnemyAt_weaker;
      [exact (existsb_nth_false _ _ i e Hfree Hnth) | reflexivity
      | reflexivity | cbn; lia].
  - apply playerTileFree_updEnemy; [|exact Hfree].
    destruct (canMoveToTile_free _ _ _ _ Hcan) as [Hp _].
    apply liveEnemyAt_false. intros _. cbn [set_e_pos e_x e_y]. exact Hp.
  - unfold enemyAttackPlayer. cbn [g_player set_g_player p_hp set_p_hp].
    destruct (_ <=? 0); cbn [snd];
      (eapply playerTileFree_ext; [| | |exact Hfree]; reflexivity).
Qed.

Lemma enemyPhase_tileFree (env : Env) (s : GameState)
    (events : list GameEvent) :
  playerTileFree s -> playerTileFree (snd (enemyPhase env s events)).
Proof.
  intros Hfree. unfold enemyPhase.
  destruct (GameStatus_eqb (g_status s) active).
  - pose proof (aiStep_tileFree _ _ (moveEnemies_step s) Hfree) as H.
    destruct (moveEnemies s) as [enemyEvents s']. cbn [snd] in *.
    eapply playerTileFree_ext; [| | |exact H]; reflexivity.
  - cbn [snd]. eapply playerTileFree_ext; [| | |exact Hfree]; reflexivity.
Qed.

Lemma attackEnemy_tileFree (s : GameState) (i : nat) (e : Enemy) :
  playerTileFree s -> nth_error (g_enemies s) i = Some e ->
  playerTileFree (snd (attackEnemy s i e)).
Proof.
  intros Hfree Hnth.
  destruct (attackEnemy_effect s i e)
    as (Hen & _ & _ & _ & _ & _ & (Hpx & Hpy & _) & _).
  cbv zeta in Hen, Hpx, Hpy.
  eapply (playerTileFree_hit s _ i e
            (set_e_hp (e_hp e - Z.max 1 (p_attack (g_player s) - e_defense e))
                      e)); try eassumption; try reflexivity.
  cbn [set_e_hp e_hp]. lia.
Qed.

(** What the shot of [processAttack] leaves alone, and whom it hits. *)
Lemma rangedAttack_place (s : GameState) :
  g_map (snd (rangedAttack s)) = g_map s
  /\ g_fog (snd (rangedAttack s)) = g_fog s
  /\ p_x (g_player (snd (rangedAttack s))) = p_x (g_player s)
  /\ p_y (g_player (snd (rangedAttack s))) = p_y (g_player s).
Proof.
  unfold rangedAttack.
  destruct (hitEnemy _) as [[j en]|]; [|repeat split; reflexivity].
  destruct (e_hp (set_e_hp _ en) <=? 0); [|repeat split; reflexivity].
  grantXp_split Hxp.
  destruct Hxp as ((Fmap & Ffog & _ & _ & _ & _ & (Fx & Fy & _)) & _ & _).
  cbn [fst snd] in *.
  split; [exact Fmap|]. split; [exact Ffog|]. split; [exact Fx | exact Fy].
Qed.

Lemma rangedAttack_tileFree (s : GameState) :
  playerTileFree s -> playerTileFree (snd (rangedAttack s)).
Proof.
  intros Hfree. unfold rangedAttack.
  match goal with
  | |- context [rangedScan ?a ?b ?c ?d ?e ?f ?g ?h] =>
      pose proof (rangedScan_hit_nth b c d e a f g h) as Hhit;
      set (hit := rangedScan a b c d e f g h) in *
  end.
  destruct (hitEnemy hit) as [[j en]|] eqn:Hh; [|exact Hfree].
  specialize (Hhit j en eq_refl).
  set (damage := Z.max 1 (rangedDamageOf (g_player s) - e_defense en)).
  assert (Hs1 : playerTileFree
                  (updEnemy j (set_e_hp (e_hp en - damage) en) s)).
  { eapply (playerTileFree_hit s _ j en (set_e_hp (e_hp en - damage) en));
      try eassumption; try reflexivity.
    cbn [set_e_hp e_hp]. lia. }
  destruct (e_hp (set_e_hp (e_hp en - damage) en) <=? 0); [|exact Hs1].
  grantXp_split Hxp.
  destruct Hxp as ((_ & _ & Fen & _ & _ & _ & (Fx & Fy & _)) & _ & _).
  cbn [fst snd] in *.
  eapply playerTileFree_ext; [exact Fen | exact Fx | exact Fy | exact Hs1].
Qed.

Lemma processAttack_tileFree (env : Env) (s : GameState) :
  playerTileFree s -> playerTileFree (snd (processAttack env s)).
Proof.
  intros Hfree. unfold processAttack.
  destruct (negb (GameStatus_eqb (g_status s) active)); [exact Hfree|].
  pose proof (rangedAttack_tileFree s Hfree) as Hr.
  destruct (rangedAttack s) as [events state1]. cbn [snd] in Hr.
  apply enemyPhase_tileFree, Hr.
Qed.

(** The step onto a tile that holds no live enemy. *)
Lemma moveStage_tileFree (state : GameState) (direction : Direction) :
  findIndex (liveEnemyAt (p_x (g_player state) + directionDx direction)
                         (p_y (g_player state) + directionDy direction))
            (g_enemies state) = None ->
  playerTileFree (snd (moveStage state direction)).
Proof.
  intros Hfind.
  destruct (moveStage_place state direction)
    as (_ & _ & _ & Sen & Sx & Sy & _).
  cbv zeta in Sen, Sx, Sy.
  unfold playerTileFree. rewrite Sen, Sx, Sy.
  destruct (existsb _ (g_enemies state)) eqn:Hex; [|reflexivity].
  apply existsb_exists in Hex. destruct Hex as (a & Ha & Hlive).
  rewrite (findIndex_None_all _ _ Hfind a Ha) in Hlive. discriminate.
Qed.

(** ** The board between turns *)

Lemma placedOk_ext (s s' : GameState) :
  g_map s' = g_map s -> g_fog s' = g_fog s ->
  p_x (g_player s') = p_x (g_player s) ->
  p_y (g_player s') = p_y (g_player s) ->
  placedOk s -> placedOk s'.
Proof.
  unfold placedOk. intros -> -> -> -> H. exact H.
Qed.

Lemma boardOk_ext (s s' : GameState) :
  g_map s' = g_map s -> g_fog s' = g_fog s ->
  p_x (g_player s') = p_x (g_player s) ->
  p_y (g_player s') = p_y (g_player s) ->
  boardOk s -> boardOk s'.
Proof.
  unfold boardOk, placedOk. intros -> -> -> -> H. exact H.
Qed.

Lemma enemyPhase_board (env : Env) (s : GameState) (events : list GameEvent) :
  boardOk s -> boardOk (snd (enemyPhase env s events)).
Proof.
  intros Hok.
  destruct (enemyPhase_frame env s events) as [Hframe _].
  destruct (aiFrame_place _ _ Hframe) as (Hx & Hy & _).
  destruct Hframe as (Hmap & Hfog & _).
  eapply boardOk_ext; [exact Hmap | exact Hfog | exact Hx | exact Hy
                      | exact Hok].
Qed.

Lemma attackEnemy_board (s : GameState) (i : nat) (e : Enemy) :
  boardOk s -> boardOk (snd (attackEnemy s i e)).
Proof.
  intros Hok.
  destruct (attackEnemy_effect s i e)
    as (_ & Hmap & Hfog & _ & _ & _ & (Hpx & Hpy & _) & _).
  cbv zeta in Hmap, Hfog, Hpx, Hpy.
  eapply boardOk_ext; [exact Hmap | exact Hfog | exact Hpx | exact Hpy
                      | exact Hok].
Qed.

Lemma processAttack_board (env : Env) (s : GameState) :
  boardOk s -> boardOk (snd (processAttack env s)).
Proof.
  intros Hok. unfold processAttack.
  destruct (negb (GameStatus_eqb (g_status s) active)); [exact Hok|].
  destruct (rangedAttack_place s) as (Hmap & Hfog & Hx & Hy).
  destruct (rangedAttack s) as [events state1]. cbn [snd] in *.
  apply enemyPhase_board.
  eapply boardOk_ext; [exact Hmap | exact Hfog | exact Hx | exact Hy
                      | exact Hok].
Qed.

(** The step onto a tile inside the map that is no wall. *)
Lemma moveStage_placed (state : GameState) (direction : Direction) :
  let newX := p_x (g_player state) + directionDx direction in
  let newY := p_y (g_player state) + directionDy direction in
  boardOk state ->
  inBounds (g_map state) newX newY = true ->
  tileIs (g_map state) newX newY tile_wall = false ->
  placedOk (snd (moveStage state direction)).
Proof.
  intros newX newY ((Hm & Hf & _) & _) Hin Hwall.
  destruct (moveStage_stage state direction)
    as ((Smap & Sfog & _ & _ & _ & _ & (Sx & Sy & _)) & _).
  cbv zeta in Smap, Sfog, Sx, Sy.
  fold newX in Smap, Sfog, Sx, Sy. fold newY in Smap, Sfog, Sx, Sy.
  destruct (turnTo_place direction (set_p_pos newX newY (g_player state)))
    as (Tx & Ty & _).
  cbn [g_map g_fog g_player set_g_player set_p_pos p_x p_y]
    in Smap, Sfog, Sx, Sy, Tx, Ty.
  unfold placedOk. rewrite Smap, Sfog, Sx, Sy, Tx, Ty.
  split; [exact Hm|]. split; [exact Hf|]. split; [exact Hin | exact Hwall].
Qed.

(** A grid of the shape of [wallMap] has a cell at every position inside
    the map, and the dimensions of the map. *)
Lemma shape_wallMap :
  shape wallMap
  = repeat (Z.to_nat MAP_WIDTH) (Z.to_nat MAP_HEIGHT).
Proof. vm_compute. reflexivity. Qed.

Lemma shape_cell {A} (g : list (list A)) (x y : Z) :
  shape g = shape wallMap ->
  0 <= x < MAP_WIDTH -> 0 <= y < MAP_HEIGHT ->
  exists v, at2 g x y = Some v.
Proof.
  intros Hs Hx Hy. rewrite shape_wallMap in Hs. unfold at2, nthZ.
  destruct (y <? 0) eqn:Hy0; [apply Z.ltb_lt in Hy0; exfalso; lia|].
  destruct (x <? 0) eqn:Hx0; [apply Z.ltb_lt in Hx0; exfalso; lia|].
  assert (Hrow : nth_error (shape g) (Z.to_nat y)
                 = Some (Z.to_nat MAP_WIDTH)).
  { rewrite Hs. apply nth_error_repeat. unfold MAP_HEIGHT in *. lia. }
  unfold shape in Hrow. rewrite nth_error_map in Hrow.
  destruct (nth_error g (Z.to_nat y)) as [row|]; [|discriminate].
  cbn [option_map] in Hrow. inversion Hrow as [Hlen].
  destruct (nth_error row (Z.to_nat x)) as [v|] eqn:Hv;
    [exists v; reflexivity|].
  apply nth_error_None in Hv. unfold MAP_WIDTH in *. lia.
Qed.

Lemma inBounds_shape (m : list (list Tile)) (x y : Z) :
  shape m = shape wallMap ->
  inBounds m x y
  = (0 <=? x) && (x <? MAP_WIDTH) && (0 <=? y) && (y <? MAP_HEIGHT).
Proof.
  intros Hm. destruct (shape_dimensions m wallMap Hm) as [Hh Hw].
  unfold inBounds. rewrite Hh, Hw, !Z.geb_leb. reflexivity.
Qed.

Lemma shape_inBounds {A} (m : list (list Tile)) (g : list (list A))
    (x y : Z) :
  shape m = shape wallMap -> shape g = shape wallMap ->
  inBounds m x y = true -> exists v, at2 g x y = Some v.
Proof.
  intros Hm Hg Hin. rewrite (inBounds_shape m x y Hm) in Hin.
  rewrite !andb_true_iff in Hin.
  destruct Hin as [[[Hx0 Hx1] Hy0] Hy1].
  apply Z.leb_le in Hx0, Hy0. apply Z.ltb_lt in Hx1, Hy1.
  apply shape_cell; [exact Hg | lia | lia].
Qed.

Lemma inVision_self (x y : Z) : inVision x y x y = true.
Proof.
  unfold inVision, VISION_RADIUS. apply Z.leb_le.
  replace (x - x) with 0 by lia. replace (y - y) with 0 by lia. lia.
Qed.

(** [updateFog] shows the tile under the player's feet. *)
Lemma updateFog_board (s : GameState) : placedOk s -> boardOk (updateFog s).
Proof.
  intros (Hm & Hf & Hin & Hw).
  unfold boardOk, placedOk, updateFog.
  cbn [g_map g_fog g_player set_g_fog].
  split.
  - split; [exact Hm|]. split; [rewrite updateFogGrid_shape; exact Hf|].
    split; [exact Hin | exact Hw].
  - destruct (shape_inBounds (g_map s) (g_fog s) _ _ Hm Hf Hin) as [b Hb].
    unfold fogAt.
    rewrite (updateFogGrid_at _ _ _ _ _ _ b Hb), Hin, inVision_self.
    rewrite orb_true_r. reflexivity.
Qed.

(** ** Where a generated floor puts the player *)

Lemma generateMap_start (env : Env) (floor : Z) (character : CharacterType) :
  1 <= floor ->
  exists g,
    generateMap env floor character = Some g
    /\ shape (gf_map g) = shape wallMap
    /\ interior (c_x (gf_playerStart g)) (c_y (gf_playerStart g))
    /\ nonWall (gf_map g) (c_x (gf_playerStart g), c_y (gf_playerStart g))
    /\ existsb (liveEnemyAt (c_x (gf_playerStart g))
                            (c_y (gf_playerStart g))) (gf_enemies g) = false.
Proof.
  intros Hfloor.
  destruct (generateMap_rooms env floor character Hfloor)
    as (g & rooms & first & Hgen & Hrooms & [Hnodup Hpairs] & Hhd & Hstart
        & Hshape & Hcells & _ & Henemies & _).
  assert (Hfirst : In first rooms)
    by (destruct rooms as [|r rs]; [discriminate|]; inversion Hhd; subst;
        left; reflexivity).
  assert (Hfirst_ok : roomOk first)
    by (eapply Forall_forall in Hrooms; eassumption).
  assert (Hin_start : inRoom first (c_x (gf_playerStart g))
                             (c_y (gf_playerStart g)))
    by (rewrite Hstart; cbn [c_x c_y]; apply center_inRoom, Hfirst_ok).
  exists g. split; [exact Hgen|]. split; [exact Hshape|].
  split; [exact (roomOk_interior _ _ _ Hfirst_ok Hin_start)|].
  split; [exact (Hcells first _ _ Hfirst Hin_start)|].
  destruct (existsb _ (gf_enemies g)) eqn:Hex; [|reflexivity].
  apply existsb_exists in Hex. destruct Hex as (e & He & Hlive).
  eapply Forall_forall in Henemies; [|exact He].
  destruct Henemies as (Hplace & _).
  destruct (placedIn_not_first rooms first _ _ Hnodup Hhd Hplace)
    as (room & Hroom & Hne & Hcell).
  unfold liveEnemyAt in Hlive. rewrite !andb_true_iff in Hlive.
  destruct Hlive as [[Hx Hy] _].
  apply Z.eqb_eq in Hx, Hy. rewrite Hx, Hy in Hcell.
  destruct (Hpairs room first Hroom Hfirst) as [E|Hapart]; [contradiction|].
  exfalso. exact (roomsApart_disjoint _ _ _ _ Hapart Hcell Hin_start).
Qed.

(** A state that has just been put on a generated floor. *)
Lemma generated_board (g : GeneratedFloor) (s : GameState) :
  shape (gf_map g) = shape wallMap ->
  interior (c_x (gf_playerStart g)) (c_y (gf_playerStart g)) ->
  nonWall (gf_map g) (c_x (gf_playerStart g), c_y (gf_playerStart g)) ->
  g_map s = gf_map g -> g_fog s = initializeFog ->
  p_x (g_player s) = c_x (gf_playerStart g) ->
  p_y (g_player s) = c_y (gf_playerStart g) ->
  boardOk (updateFog s).
Proof.
  intros Hshape Hint (t & Ht & Hty) Hmap Hfog Hx Hy.
  apply updateFog_board. unfold placedOk.
  rewrite Hmap, Hfog, Hx, Hy.
  split; [exact Hshape|]. split; [vm_compute; reflexivity|]. split.
  - rewrite (inBounds_shape _ _ _ Hshape).
    unfold interior, MAP_WIDTH, MAP_HEIGHT in *.
    rewrite !andb_true_iff.
    repeat split; try apply Z.leb_le; try apply Z.ltb_lt; lia.
  - unfold tileIs. cbn [fst snd] in Ht. rewrite Ht.
    destruct (t_type t); try reflexivity. congruence.
Qed.

(** A state whose board is that of a generated floor, seen from its
    start. *)
Lemma descended_board (g : GeneratedFloor) (s : GameState) :
  shape (gf_map g) = shape wallMap ->
  interior (c_x (gf_playerStart g)) (c_y (gf_playerStart g)) ->
  nonWall (gf_map g) (c_x (gf_playerStart g), c_y (gf_playerStart g)) ->
  g_map s = gf_map g ->
  g_fog s = updateFogGrid (gf_map g) (c_x (gf_playerStart g))
                          (c_y (gf_playerStart g)) initializeFog ->
  p_x (g_player s) = c_x (gf_playerStart g) ->
  p_y (g_player s) = c_y (gf_playerStart g) ->
  boardOk s.
Proof.
  intros Hshape Hint Hnw Hmap Hfog Hx Hy.
  pose proof (generated_board g (set_g_fog initializeFog s) Hshape Hint Hnw
                Hmap eq_refl Hx Hy) as H.
  eapply boardOk_ext; [| | | |exact H];
    unfold updateFog; cbn [g_map g_fog g_player set_g_fog];
    try reflexivity.
  rewrite Hfog, Hmap, Hx, Hy. reflexivity.
Qed.

Lemma descent_board (env : Env) (floor : Z) (character : CharacterType)
    (g : GeneratedFloor) (pre post : GameState) :
  1 <= floor ->
  generateMap env floor character = Some g ->
  descended g pre post -> boardOk post /\ playerTileFree post.
Proof.
  intros Hfloor Hgen (_ & Dmap & Den & _ & Dx & Dy & Dfog & _).
  destruct (generateMap_start env floor character Hfloor)
    as (g' & Hgen' & Hshape & Hint & Hnw & Hfree).
  assert (g' = g) by congruence. subst g'.
  split; [eapply descended_board; eassumption|].
  unfold playerTileFree. rewrite Den, Dx, Dy. exact Hfree.
Qed.

(** ** Floor, score and status over a turn *)

Lemma enemyPhase_status (env : Env) (s : GameState) (events : list GameEvent) :
  g_status (snd (enemyPhase env s events)) = g_status s
  \/ g_status (snd (enemyPhase env s events)) = dead.
Proof.
  unfold enemyPhase. destruct (GameStatus_eqb (g_status s) active).
  - pose proof (aiStep_status _ _ (moveEnemies_step s)) as H.
    destruct (moveEnemies s) as [enemyEvents s']. cbn [snd] in *. exact H.
  - left. reflexivity.
Qed.

Lemma processMove_status (env : Env) (state : GameState)
    (direction : Direction) (events : list GameEvent) (state' : GameState) :
  g_status state = active ->
  processMove env state direction = Some (events, state') ->
  (g_floor state' = g_floor state
   /\ (g_status state' = active \/ g_status state' = dead))
  \/ (g_floor state' = g_floor state + 1
      /\ g_score state + 100 <= g_score state'
      /\ g_status state'
         = if g_floor state + 1 >=? 20 then won else active).
Proof.
  intros Hst Hrun.
  destruct (processMove_cases env state direction events state' Hst Hrun)
    as [[-> ->] | [(i & enemy & _ & _ & Hphase)
                  | (_ & _ & _ & [(g & _ & _ & Hdesc & _)
                                 | (_ & Hphase)])]].
  - left. split; [reflexivity | left; exact Hst].
  - left.
    set (state1 := set_g_player (turnTo direction (g_player state)) state)
      in *.
    destruct (attackEnemy_effect state1 i enemy)
      as (_ & _ & _ & _ & Hfl & Hstatus & _).
    cbv zeta in Hfl, Hstatus.
    destruct (enemyPhase_progress env
                (updateFog (snd (attackEnemy state1 i enemy)))
                (fst (attackEnemy state1 i enemy))) as [_ Hfl2].
    pose proof (enemyPhase_status env
                  (updateFog (snd (attackEnemy state1 i enemy)))
                  (fst (attackEnemy state1 i enemy))) as Hs2.
    rewrite Hphase in Hfl2, Hs2. cbn [snd] in Hfl2, Hs2.
    cbn [updateFog g_floor g_status set_g_fog] in Hfl2, Hs2.
    rewrite Hfl in Hfl2. rewrite Hstatus in Hs2.
    cbn [state1 g_floor g_status set_g_player] in Hfl2, Hs2.
    rewrite Hst in Hs2. split; [exact Hfl2 | exact Hs2].
  - right. destruct Hdesc as (Dfl & _ & _ & _ & _ & _ & _ & Dsc & Dst).
    destruct (moveStage_place state direction) as (_ & _ & Hfl & _).
    destruct (moveStage_stage state direction) as (_ & Hsc & _).
    cbv zeta in Hfl, Hsc. rewrite Dfl, Dsc, Dst, Hfl, Hsc.
    split; [reflexivity|]. split; [|reflexivity].
    destruct (g_floor state + 1 >=? 20); lia.
  - left.
    destruct (moveStage_place state direction) as (Hstatus & _ & Hfl & _).
    cbv zeta in Hfl, Hstatus.
    destruct (enemyPhase_progress env
                (updateFog (snd (moveStage state direction)))
                (fst (moveStage state direction))) as [_ Hfl2].
    pose proof (enemyPhase_status env
                  (updateFog (snd (moveStage state direction)))
                  (fst (moveStage state direction))) as Hs2.
    rewrite Hphase in Hfl2, Hs2. cbn [snd] in Hfl2, Hs2.
    cbn [updateFog g_floor g_status set_g_fog] in Hfl2, Hs2.
    rewrite Hfl in Hfl2. rewrite Hstatus, Hst in Hs2.
    split; [exact Hfl2 | exact Hs2].
Qed.

Lemma statusOk_turn (s s' : GameState) :
  statusOk s -> g_status s = active ->
  g_floor s' = g_floor s -> g_score s <= g_score s' ->
  g_status s' = active \/ g_status s' = dead ->
  (g_status s' = dead -> p_hp (g_player s') <= 0) ->
  statusOk s'.
Proof.
  intros (Hfl & Hsc & Hwon & _) Hst Hfl' Hsc' Hst' Hdead.
  assert (Hnot : g_floor s <> 20)
    by (intros H20; apply Hwon in H20; congruence).
  unfold statusOk. rewrite Hfl'.
  split; [exact Hfl|]. split; [lia|]. split; [|exact Hdead].
  split; [intros Hw; destruct Hst'; congruence | intros H20; contradiction].
Qed.

Lemma statusOk_descent (s s' : GameState) :
  statusOk s -> g_status s = active ->
  g_floor s' = g_floor s + 1 -> g_score s + 100 <= g_score s' ->
  g_status s' = (if g_floor s + 1 >=? 20 then won else active) ->
  statusOk s'.
Proof.
  intros (Hfl & Hsc & Hwon & _) Hst Hfl' Hsc' Hst'.
  assert (Hnot : g_floor s <> 20)
    by (intros H20; apply Hwon in H20; congruence).
  unfold statusOk. rewrite Hfl', Hst'.
  split; [lia|]. split; [lia|].
  destruct (Z.geb_spec (g_floor s + 1) 20) as [Hge|Hlt].
  - split; [split; [intros _; lia | reflexivity] | discriminate].
  - split; [split; [discriminate | lia] | discriminate].
Qed.

Lemma turnEnds_dead (events : list GameEvent) (s : GameState) :
  turnEnds events s -> g_status s = dead -> p_hp (g_player s) <= 0.
Proof.
  intros [[Hnot _]|(_ & Hhp & _)] Hdead; [contradiction | exact Hhp].
Qed.

Lemma status_active_dec (s : GameState) :
  g_status s = active
  \/ negb (GameStatus_eqb (g_status s) active) = true.
Proof. destruct (g_status s); [left | right | right]; reflexivity. Qed.

(** ** The engine calls keep a game in order *)

Lemma processMove_tileFree (env : Env) (state : GameState)
    (direction : Direction) (events : list GameEvent) (state' : GameState) :
  0 <= g_floor state -> playerTileFree state ->
  processMove env state direction = Some (events, state') ->
  playerTileFree state'.
Proof.
  intros Hfloor Hfree Hrun.
  destruct (status_active_dec state) as [Hst|Hst].
  2:{ rewrite processMove_unfold, Hst in Hrun. inversion Hrun; subst.
      exact Hfree. }
  destruct (processMove_cases env state direction events state' Hst Hrun)
    as [[-> ->] | [(i & enemy & _ & Hnth & Hphase)
                  | (Hfind & _ & _ & [(g & _ & Hgen & Hdesc & _)
                                     | (_ & Hphase)])]].
  - exact Hfree.
  - set (state1 := set_g_player (turnTo direction (g_player state)) state)
      in *.
    assert (H1 : playerTileFree state1).
    { destruct (turnTo_place direction (g_player state)) as (Tx & Ty & _).
      eapply playerTileFree_ext; [| | |exact Hfree];
        cbn [state1 g_enemies g_player set_g_player];
        try reflexivity; assumption. }
    pose proof (attackEnemy_tileFree state1 i enemy H1 Hnth) as H2.
    pose proof (enemyPhase_tileFree env
                  (updateFog (snd (attackEnemy state1 i enemy)))
                  (fst (attackEnemy state1 i enemy)) H2) as H3.
    rewrite Hphase in H3. exact H3.
  - eapply (descent_board env (g_floor state + 1)); [lia | exact Hgen
                                                    | exact Hdesc].
  - pose proof (moveStage_tileFree state direction Hfind) as H2.
    pose proof (enemyPhase_tileFree env
                  (updateFog (snd (moveStage state direction)))
                  (fst (moveStage state direction)) H2) as H3.
    rewrite Hphase in H3. exact H3.
Qed.

Lemma descendStairs_cases (env : Env) (state : GameState)
    (events : list GameEvent) (state' : GameState) :
  descendStairs env state = Some (events, state') ->
  (events = [] /\ state' = state)
  \/ (g_status state = active
      /\ exists g,
           generateMap env (g_floor state + 1) (p_character (g_player state))
           = Some g
           /\ events = descendEvents (g_floor state + 1)
           /\ descended g state state'
           /\ g_player state'
              = set_p_pos (c_x (gf_playerStart g)) (c_y (gf_playerStart g))
                          (g_player state)
           /\ sameGame state state').
Proof.
  intros Hrun.
  destruct (status_active_dec state) as [Hst|Hst].
  2:{ unfold descendStairs in Hrun. rewrite Hst in Hrun.
      inversion Hrun; subst. left. split; reflexivity. }
  destruct (tileIs (g_map state) (p_x (g_player state))
                   (p_y (g_player state)) tile_stairs) eqn:Hstairs.
  2:{ unfold descendStairs in Hrun. rewrite Hst, Hstairs in Hrun.
      cbn [GameStatus_eqb negb] in Hrun. inversion Hrun; subst.
      left. split; reflexivity. }
  right. split; [exact Hst|].
  exact (descendStairs_on_stairs env state events state' Hrun Hst Hstairs).
Qed.

Lemma descendStairs_tileFree (env : Env) (state : GameState)
    (events : list GameEvent) (state' : GameState) :
  0 <= g_floor state -> playerTileFree state ->
  descendStairs env state = Some (events, state') ->
  playerTileFree state'.
Proof.
  intros Hfloor Hfree Hrun.
  destruct (descendStairs_cases env state events state' Hrun)
    as [[_ ->] | (_ & g & Hgen & _ & Hdesc & _)]; [exact Hfree|].
  eapply (descent_board env (g_floor state + 1)); [lia | exact Hgen
                                                  | exact Hdesc].
Qed.

Lemma processMove_board (env : Env) (state : GameState)
    (direction : Direction) (events : list GameEvent) (state' : GameState) :
  g_status state = active -> 0 <= g_floor state -> boardOk state ->
  processMove env state direction = Some (events, state') ->
  boardOk state'.
Proof.
  intros Hst Hfloor Hok Hrun.
  destruct (processMove_cases env state direction events state' Hst Hrun)
    as [[-> ->] | [(i & enemy & _ & Hnth & Hphase)
                  | (Hfind & Hin & Hwall & [(g & _ & Hgen & Hdesc & _)
                                           | (_ & Hphase)])]].
  - exact Hok.
  - set (state1 := set_g_player (turnTo direction (g_player state)) state)
      in *.
    assert (H1 : boardOk state1).
    { destruct (turnTo_place direction (g_player state)) as (Tx & Ty & _).
      eapply boardOk_ext; [| | | |exact Hok];
        cbn [state1 g_map g_fog g_player set_g_player];
        try reflexivity; assumption. }
    pose proof (attackEnemy_board state1 i enemy H1) as [H2 _].
    pose proof (enemyPhase_board env _ (fst (attackEnemy state1 i enemy))
                  (updateFog_board _ H2)) as H3.
    rewrite Hphase in H3. exact H3.
  - eapply (descent_board env (g_floor state + 1)); [lia | exact Hgen
                                                    | exact Hdesc].
  - pose proof (moveStage_placed state direction Hok Hin Hwall) as H2.
    pose proof (enemyPhase_board env _ (fst (moveStage state direction))
                  (updateFog_board _ H2)) as H3.
    rewrite Hphase in H3. exact H3.
Qed.

Lemma processMove_ok (env : Env) (state : GameState) (direction : Direction)
    (events : list GameEvent) (state' : GameState) :
  gameOk state ->
  processMove env state direction = Some (events, state') ->
  gameOk state'.
Proof.
  intros (Hp & Hs & Hb & Hfree) Hrun.
  assert (Hfl : 0 <= g_floor state)
    by (destruct Hs as ((H & _) & _); lia).
  assert (Hfree' : offPlayerTile state').
  { apply offPlayerTile_free.
    apply (processMove_tileFree env state direction events state' Hfl);
      [apply offPlayerTile_free, Hfree | exact Hrun]. }
  destruct (status_active_dec state) as [Hst|Hst].
  2:{ rewrite processMove_unfold, Hst in Hrun. inversion Hrun; subst.
      split; [exact Hp|]. split; [exact Hs|]. split; [exact Hb | exact Hfree]. }
  destruct (processMove_progress env state direction events state' Hrun)
    as ((Hkept & _) & Hscore & _).
  split; [exact (Hkept Hp)|]. split; [|split; [|exact Hfree']].
  - destruct (processMove_status env state direction events state' Hst Hrun)
      as [(Hfl1 & Hst') | (Hfl1 & Hsc & Hst')].
    + apply (statusOk_turn state); try assumption.
      apply (turnEnds_dead events).
      exact (processMove_ends env state direction events state' Hst Hrun).
    + apply (statusOk_descent state); assumption.
  - exact (processMove_board env state direction events state' Hst Hfl Hb
             Hrun).
Qed.

Lemma processAttack_ok (env : Env) (state : GameState) :
  gameOk state -> gameOk (snd (processAttack env state)).
Proof.
  intros (Hp & Hs & Hb & Hfree).
  destruct (processAttack_progress env state)
    as (((Hkept & _) & Hscore & _) & Hfl).
  split; [exact (Hkept Hp)|].
  split; [|split; [exact (processAttack_board env state Hb)|]].
  2:{ apply offPlayerTile_free, processAttack_tileFree, offPlayerTile_free,
        Hfree. }
  destruct (status_active_dec state) as [Hst|Hst].
  2:{ unfold processAttack. rewrite Hst. exact Hs. }
  apply (statusOk_turn state); try assumption.
  - unfold processAttack. rewrite Hst. cbn [GameStatus_eqb negb].
    destruct (rangedAttack_events state) as [_ Hst1].
    destruct (rangedAttack state) as [events state1]. cbn [snd] in *.
    pose proof (enemyPhase_status env state1 events) as H.
    rewrite Hst1, Hst in H. exact H.
  - apply (turnEnds_dead (fst (processAttack env state))).
    exact (processAttack_ends env state Hst).
Qed.

Lemma playerOk_set_pos (x y : Z) (p : Player) :
  playerOk p -> playerOk (set_p_pos x y p).
Proof. intros H. exact H. Qed.

Lemma descendStairs_ok (env : Env) (state : GameState)
    (events : list GameEvent) (state' : GameState) :
  gameOk state ->
  descendStairs env state = Some (events, state') ->
  gameOk state'.
Proof.
  intros (Hp & Hs & Hb & Hfree) Hrun.
  destruct (descendStairs_cases env state events state' Hrun)
    as [[_ ->] | (Hst & g & Hgen & _ & Hdesc & Hplayer & _)].
  { split; [exact Hp|]. split; [exact Hs|]. split; [exact Hb | exact Hfree]. }
  assert (Hfl : 1 <= g_floor state + 1)
    by (destruct Hs as ((H & _) & _); lia).
  destruct (descent_board env _ _ g state state' Hfl Hgen Hdesc)
    as [Hb' Hfree'].
  split; [rewrite Hplayer; apply playerOk_set_pos, Hp|].
  split; [|split; [exact Hb' | apply offPlayerTile_free, Hfree']].
  destruct Hdesc as (Dfl & _ & _ & _ & _ & _ & _ & Dsc & Dst).
  apply (statusOk_descent state); [exact Hs | exact Hst | exact Dfl
                                  | | exact Dst].
  rewrite Dsc. destruct (g_floor state + 1 >=? 20); lia.
Qed.

(** No call throws on a game whose floor number is at least 0. *)
Lemma descendStairs_total (env : Env) (state : GameState) :
  0 <= g_floor state -> exists r, descendStairs env state = Some r.
Proof.
  intros Hfl. unfold descendStairs.
  destruct (negb (GameStatus_eqb (g_status state) active));
    [eexists; reflexivity|].
  destruct (negb (tileIs _ _ _ _)); [eexists; reflexivity|].
  cbn [g_floor set_g_floor g_player].
  destruct (generateMap_start env (g_floor state + 1)
              (p_character (g_player state)) ltac:(lia)) as (g & Hgen & _).
  rewrite Hgen. cbv zeta.
  destruct (_ >=? 20); eexists; reflexivity.
Qed.

Lemma processMove_total (env : Env) (state : GameState)
    (direction : Direction) :
  0 <= g_floor state -> exists r, processMove env state direction = Some r.
Proof.
  intros Hfl. rewrite processMove_unfold.
  destruct (negb (GameStatus_eqb (g_status state) active));
    [eexists; reflexivity|].
  cbv zeta.
  destruct (_ || _ || _ || _); [eexists; reflexivity|].
  destruct (tileIs _ _ _ tile_wall); [eexists; reflexivity|].
  destruct (findIndex _ (g_enemies state)) as [i|].
  - destruct (nth_error _ i) as [enemy|]; [|eexists; reflexivity].
    destruct (attackEnemy _ i enemy) as [attackEvents state2].
    eexists; reflexivity.
  - destruct (moveStage_place state direction) as (_ & _ & Sfl & _).
    cbv zeta in Sfl.
    destruct (moveStage state direction) as [events2 state2].
    cbn [snd] in Sfl.
    destruct (tileIs (g_map state2) _ _ tile_stairs);
      [|eexists; reflexivity].
    destruct (descendStairs_total env state2 ltac:(lia)) as [[dev st] Hd].
    rewrite Hd. eexists; reflexivity.
Qed.

Lemma runCall_ok (env : Env) (s : GameState) (c : EngineCall) :
  gameOk s -> exists s', runCall env s c = Some s' /\ gameOk s'.
Proof.
  intros Hok.
  assert (Hfl : 0 <= g_floor s)
    by (destruct Hok as (_ & ((H & _) & _) & _); lia).
  destruct c as [direction| |]; cbn [runCall].
  - destruct (processMove_total env s direction Hfl) as [[events s'] Hrun].
    rewrite Hrun. exists s'. split; [reflexivity|].
    exact (processMove_ok env s direction events s' Hok Hrun).
  - eexists. split; [reflexivity|]. apply processAttack_ok, Hok.
  - destruct (descendStairs_total env s Hfl) as [[events s'] Hrun].
    rewrite Hrun. exists s'. split; [reflexivity|].
    exact (descendStairs_ok env s events s' Hok Hrun).
Qed.

Lemma runCalls_ok (calls : list (Env * EngineCall)) :
  forall s, gameOk s -> exists s', runCalls s calls = Some s' /\ gameOk s'.
Proof.
  induction calls as [|[env c] rest IH]; intros s Hok; cbn [runCalls].
  - exists s. split; [reflexivity | exact Hok].
  - destruct (runCall_ok env s c Hok) as (s1 & Hrun & Hok1).
    rewrite Hrun. apply IH, Hok1.
Qed.

(** ** A new game *)

Lemma generateMap_unfold (env : Env) (floor : Z) (character : CharacterType) :
  generateMap env floor character
  = match generateMapGen env floor character (O, O) with
    | Some (g, _) => Some g
    | None => None
    end.
Proof. reflexivity. Qed.

Lemma createNewGame_some (env : Env) (playerName playerId : string)
    (character : CharacterType) :
  exists g gameId,
    generateMap env 1 character = Some g
    /\ createNewGame env playerName playerId character
       = Some (updateFog (newGameState env gameId playerName playerId
                                       character g)).
Proof.
  destruct (generateMap_start env 1 character ltac:(lia)) as (g & Hgen & _).
  exists g.
  assert (Hnew : exists gameId,
             createNewGame env playerName playerId character
             = Some (updateFog (newGameState env gameId playerName playerId
                                             character g))).
  { rewrite generateMap_unfold in Hgen. unfold createNewGame.
    destruct (generateMapGen env 1 character (0%nat, 0%nat)) as [[g' st]|];
      [|discriminate].
    inversion Hgen; subst g'. eexists. reflexivity. }
  destruct Hnew as [gameId Hnew]. exists gameId.
  split; [exact Hgen | exact Hnew].
Qed.

Lemma newGameState_player (env : Env) (gameId playerName playerId : string)
    (character : CharacterType) (g : GeneratedFloor) :
  playerOk (g_player (newGameState env gameId playerName playerId
                                   character g)).
Proof.
  unfold playerOk, newGameState. cbv zeta.
  cbn [g_player p_level p_attack p_defense p_maxHp p_xpToNextLevel p_xp p_hp
       p_character p_equipment].
  destruct character; vm_compute; repeat split; discriminate.
Qed.

Lemma newGameState_ok (env : Env) (gameId playerName playerId : string)
    (character : CharacterType) (g : GeneratedFloor) :
  generateMap env 1 character = Some g ->
  gameOk (updateFog (newGameState env gameId playerName playerId
                                  character g)).
Proof.
  intros Hgen.
  destruct (generateMap_start env 1 character ltac:(lia))
    as (g' & Hgen' & Hshape & Hint & Hnw & Hfree).
  assert (g' = g) by congruence. subst g'.
  split; [exact (newGameState_player env gameId playerName playerId
                   character g)|].
  split; [|split].
  - unfold statusOk, updateFog, newGameState.
    cbn [g_floor g_score g_status g_player set_g_fog].
    split; [lia|]. split; [lia|].
    split; [split; [discriminate | lia] | discriminate].
  - apply (generated_board g); try assumption; reflexivity.
  - apply offPlayerTile_free. exact Hfree.
Qed.

(** The fog of [initializeFog]: [false] on the map, nothing elsewhere. *)
Lemma at2_initializeFog (x y : Z) :
  at2 initializeFog x y
  = if (0 <=? x) && (x <? MAP_WIDTH) && (0 <=? y) && (y <? MAP_HEIGHT)
    then Some false else None.
Proof.
  unfold at2, nthZ, initializeFog.
  destruct (Z.ltb_spec y 0) as [Hy0|Hy0].
  { destruct (Z.leb_spec 0 y); [lia|]. rewrite andb_false_r. reflexivity. }
  rewrite nth_error_map.
  destruct (nth_error (zrange 0 (Z.to_nat MAP_HEIGHT)) (Z.to_nat y))
    as [v|] eqn:Hrow; cbn [option_map].
  - assert (Hlt : (Z.to_nat y < Z.to_nat MAP_HEIGHT)%nat).
    { rewrite <- (zrange_length (Z.to_nat MAP_HEIGHT) 0).
      apply nth_error_Some. congruence. }
    destruct (Z.ltb_spec x 0) as [Hx0|Hx0].
    { destruct (Z.leb_spec 0 x); [lia | reflexivity]. }
    rewrite nth_error_map.
    destruct (nth_error (zrange 0 (Z.to_nat MAP_WIDTH)) (Z.to_nat x))
      as [w|] eqn:Hcol; cbn [option_map].
    + assert (Hltx : (Z.to_nat x < Z.to_nat MAP_WIDTH)%nat).
      { rewrite <- (zrange_length (Z.to_nat MAP_WIDTH) 0).
        apply nth_error_Some. congruence. }
      unfold MAP_WIDTH, MAP_HEIGHT in *.
      destruct (Z.leb_spec 0 x); [|lia].
      destruct (Z.ltb_spec x 40); [|lia].
      destruct (Z.leb_spec 0 y); [|lia].
      destruct (Z.ltb_spec y 24); [|lia]. reflexivity.
    + apply nth_error_None in Hcol. rewrite zrange_length in Hcol.
      unfold MAP_WIDTH in *.
      destruct (Z.ltb_spec x 40); [lia|].
      rewrite andb_false_r. reflexivity.
  - apply nth_error_None in Hrow. rewrite zrange_length in Hrow.
    unfold MAP_HEIGHT in *.
    destruct (Z.ltb_spec y 24); [lia|].
    rewrite andb_false_r. reflexivity.
Qed.

(** The cells that a grid has are those that its shape has. *)
Lemma at2_shape {A B} (g : list (list A)) (h : list (list B)) (x y : Z) :
  shape g = shape h -> at2 g x y = None -> at2 h x y = None.
Proof.
  intros Hs. unfold at2, nthZ.
  destruct (y <? 0); [reflexivity|].
  assert (Hrow : nth_error (shape g) (Z.to_nat y)
                 = nth_error (shape h) (Z.to_nat y)) by (rewrite Hs; reflexivity).
  unfold shape in Hrow. rewrite !nth_error_map in Hrow.
  destruct (nth_error g (Z.to_nat y)) as [row|],
           (nth_error h (Z.to_nat y)) as [row'|];
    cbn [option_map] in Hrow; try discriminate; try reflexivity.
  inversion Hrow as [Hlen].
  destruct (x <? 0); [reflexivity|].
  intros Hnone. apply nth_error_None in Hnone. apply nth_error_None. lia.
Qed.

(** The fog of a floor that has just been entered is the disc. *)
Lemma fresh_fog (m : list (list Tile)) (px py x y : Z) :
  shape m = shape wallMap ->
  fogAt (updateFogGrid m px py initializeFog) x y
  = inBounds m x y && inVision px py x y.
Proof.
  intros Hshape.
  pose proof (at2_initializeFog x y) as Hcell.
  rewrite <- (inBounds_shape m x y Hshape) in Hcell.
  unfold fogAt.
  destruct (inBounds m x y) eqn:Hb.
  - rewrite (updateFogGrid_at _ _ _ _ _ _ false Hcell), Hb.
    cbn [orb andb]. destruct (inVision px py x y); reflexivity.
  - rewrite (at2_shape initializeFog (updateFogGrid m px py initializeFog)
               x y); [reflexivity | | exact Hcell].
    symmetry. apply updateFogGrid_shape.
Qed.

(** X16. A new game.  [createNewGame] always returns: the floor
    generator does not throw on floor 1.  The game is active on floor 1
    with score 0, on the generated map with its enemies and items; the
    player stands on the generated start with the statistics of the class
    at full health, level 1, no XP, nothing carried or equipped; and the
    fog shows exactly the cells of the map within distance [VISION_RADIUS]
    of the start. *)
Theorem createNewGame_start (env : Env) (playerName playerId : string)
    (character : CharacterType) :
  exists g s,
    generateMap env 1 character = Some g
    /\ createNewGame env playerName playerId character = Some s
    /\ g_playerName s = playerName /\ g_playerId s = playerId
    /\ g_status s = active /\ g_floor s = 1 /\ g_score s = 0
    /\ g_map s = gf_map g /\ g_enemies s = gf_enemies g
    /\ g_items s = gf_items g
    /\ p_x (g_player s) = c_x (gf_playerStart g)
    /\ p_y (g_player s) = c_y (gf_playerStart g)
    /\ p_character (g_player s) = character
    /\ p_hp (g_player s) = p_maxHp (g_player s)
    /\ p_maxHp (g_player s) = cs_maxHp (CHARACTER_STATS character)
    /\ p_attack (g_player s) = cs_attack (CHARACTER_STATS character)
    /\ p_defense (g_player s) = cs_defense (CHARACTER_STATS character)
    /\ p_level (g_player s) = 1 /\ p_xp (g_player s) = 0
    /\ p_inventory (g_player s) = []
    /\ p_equipment (g_player s)
       = {| pe_weapon := None; pe_shield := None; pe_armor := None;
            pe_ranged := None |}
    /\ forall x y,
         fogAt (g_fog s) x y
         = inBounds (g_map s) x y
           && inVision (p_x (g_player s)) (p_y (g_player s)) x y.
Proof.
  destruct (createNewGame_some env playerName playerId character)
    as (g & gameId & Hgen & Hnew).
  destruct (generateMap_start env 1 character ltac:(lia))
    as (g' & Hgen' & Hshape & _).
  assert (g' = g) by congruence. subst g'.
  exists g, (updateFog (newGameState env gameId playerName playerId
                                     character g)).
  split; [exact Hgen|]. split; [exact Hnew|].
  unfold updateFog, newGameState. cbv zeta.
  cbn [g_playerName g_playerId g_status g_floor g_score g_map g_enemies
       g_items g_player g_fog set_g_fog p_x p_y p_character p_hp p_maxHp
       p_attack p_defense p_level p_xp p_inventory p_equipment].
  do 11 (split; [reflexivity|]).
  split; [destruct character; reflexivity|].
  do 7 (split; [reflexivity|]).
  intros x y. apply fresh_fog, Hshape.
Qed.

(** X17. A game stays in order.  Start any game with [createNewGame] and
    serve any sequence of [processMove], [processAttack] and
    [descendStairs] calls, each with its own random draws: every call
    returns (the floor generator never throws), and in the state that
    results the statistics of the player are those of class, level and
    equipment with [0 <= xp < xpToNextLevel] and [hp <= maxHp]; the floor
    is between 1 and 20 and the score at least 100 per floor descended;
    the game is won exactly on floor 20, and a dead player has [hp <= 0];
    map and fog are [MAP_HEIGHT] rows of [MAP_WIDTH] cells; and the player
    stands inside the map on a tile that is no wall, is revealed, and
    holds no live enemy ([hp > 0]). *)
Theorem game_stays_in_order (env : Env) (playerName playerId : string)
    (character : CharacterType) (calls : list (Env * EngineCall)) :
  exists s0 s,
    createNewGame env playerName playerId character = Some s0
    /\ runCalls s0 calls = Some s
    /\ gameOk s.
Proof.
  destruct (createNewGame_some env playerName playerId character)
    as (g & gameId & Hgen & Hnew).
  pose proof (newGameState_ok env gameId playerName playerId character g
                Hgen) as Hok.
  destruct (runCalls_ok calls _ Hok) as (s & Hrun & Hs).
  eexists. exists s. split; [exact Hnew|]. split; [exact Hrun | exact Hs].
Qed.

Lemma processMoveWithDeltas_in_fog_witness :
  exists r,
    processMoveWithDeltas zeroEnv fogState dir_right = Some r
    /\ Forall (deltaInFog (mr_state r)) (mr_deltas r).
Proof.
  destruct (processMoveWithDeltas zeroEnv fogState dir_right) as [r|] eqn:Hrun;
    [|vm_compute in Hrun; discriminate].
  exists r. split; [reflexivity|].
  exact (processMoveWithDeltas_in_fog zeroEnv fogState dir_right r Hrun).
Defined.

(** ** The ranged attack, case by case *)

(** The scan over clear cells up to the edge of the map. *)
Lemma rangedScan_edge (state : GameState) (dx px py k : Z) (steps : nat) :
  forall i hx,
    i <= k -> k - i < Z.of_nat steps ->
    (forall t, i <= t < k -> cellClear state (px + dx * t) py) ->
    ~ (0 <= px + dx * k < mapWidth (g_map state)) ->
    rangedScan steps state dx px py i hx py
    = {| hitEnemy := None; hitX := px + dx * (k - 1); hitY := py |}.
Proof.
  induction steps as [|steps IH]; intros i hx Hik Hsteps Hclear Hout;
    [cbn in Hsteps; lia|].
  cbn [rangedScan].
  destruct (Z.eq_dec i k) as [->|Hne].
  - replace ((px + dx * k <? 0) || (px + dx * k >=? mapWidth (g_map state)))
      with true; [reflexivity|].
    symmetry. rewrite Z.geb_leb. apply orb_true_iff.
    destruct (Z_lt_ge_dec (px + dx * k) 0) as [Hlt|Hge];
      [left; apply Z.ltb_lt; exact Hlt | right; apply Z.leb_le; lia].
  - destruct (Hclear i ltac:(lia)) as (Hb & Hw & Hf).
    replace ((px + dx * i <? 0) || (px + dx * i >=? mapWidth (g_map state)))
      with false
      by (symmetry; rewrite Z.geb_leb; apply orb_false_intro;
          [apply Z.ltb_ge | apply Z.leb_gt]; lia).
    rewrite Hw, Hf.
    apply IH; [lia | lia | intros t Ht; apply Hclear; lia | assumption].
Qed.

(** The scan over clear cells to the end of the range. *)
Lemma rangedScan_end (state : GameState) (dx px py : Z) (steps : nat) :
  forall i,
    (forall t, i <= t < i + Z.of_nat steps ->
               cellClear state (px + dx * t) py) ->
    rangedScan steps state dx px py i (px + dx * (i - 1)) py
    = {| hitEnemy := None; hitX := px + dx * (i + Z.of_nat steps - 1);
         hitY := py |}.
Proof.
  induction steps as [|steps IH]; intros i Hclear; cbn [rangedScan].
  - replace (i + Z.of_nat 0 - 1) with (i - 1) by lia. reflexivity.
  - destruct (Hclear i ltac:(lia)) as (Hb & Hw & Hf).
    replace ((px + dx * i <? 0) || (px + dx * i >=? mapWidth (g_map state)))
      with false
      by (symmetry; rewrite Z.geb_leb; apply orb_false_intro;
          [apply Z.ltb_ge | apply Z.leb_gt]; lia).
    rewrite Hw, Hf.
    pose proof (IH (i + 1)) as IH1.
    replace (i + 1 - 1) with i in IH1 by lia.
    rewrite IH1 by (intros t Ht; apply Hclear; lia).
    replace (i + 1 + Z.of_nat steps - 1) with (i + Z.of_nat (S steps) - 1)
      by lia.
    reflexivity.
Qed.

(** A shot that hits no enemy: the event, and nobody is hurt. *)
Lemma processAttack_miss (env : Env) (state : GameState) (x y : Z) :
  let p := g_player state in
  g_status state = active ->
  rangedScan (Z.to_nat (rangedRangeOf p)) state (facingDx p) (p_x p) (p_y p)
             1 (p_x p) (p_y p)
  = {| hitEnemy := None; hitX := x; hitY := y |} ->
  (exists enemyEvents,
     fst (processAttack env state)
     = eventWith ranged_missed
         (RangedAttackEventData x y 0 None (getAttackType (p_character p)))
       :: enemyEvents)
  /\ forall j e, nth_error (g_enemies state) j = Some e ->
       exists e', nth_error (g_enemies (snd (processAttack env state))) j
                  = Some e'
                  /\ e_hp e' = e_hp e.
Proof.
  intros p Hactive Hscan.
  unfold processAttack. rewrite Hactive.
  cbn [GameStatus_eqb negb]. unfold rangedAttack.
  fold p. rewrite Hscan. cbn [hitEnemy hitX hitY].
  match goal with
  | |- context [enemyPhase env state ?evs] =>
      pose proof (enemyPhase_frame env state evs)
        as [Hframe (enemyEvents & Hev)];
      destruct (enemyPhase env state evs) as [events state']
  end.
  cbn [fst snd] in *.
  destruct Hframe as (_ & _ & _ & _ & _ & _ & _ & Hall).
  split; [exists enemyEvents; exact Hev|].
  intros j e Hj.
  destruct (Forall2_nth_error_frame _ _ Hall j e Hj) as (e' & He' & Hf).
  exists e'. split; [exact He' | apply Hf].
Qed.

(** C5. The ranged attack scans the cells [(px + dx*i, py)],
    [i = 1, ..., range], where [dx] is 1 for a player facing right and -1
    for one facing left, and damage and range are those of the class plus
    the bonuses of the equipped ranged weapon.  With the cells before the
    [k]-th clear (inside the row, no wall, no live enemy):
    - a wall on the [k]-th cell, within range, stops the shot:
      [ranged_missed] with the wall cell as target and damage 0, no enemy
      loses hit points;
    - a live enemy on the [k]-th cell, within range, is hit:
      [ranged_attack] with damage [max(1, rangedDamage - enemyDefense)],
      this enemy loses exactly that many hit points, no other enemy loses
      any;
    - a [k]-th cell outside the row, within range, ends the shot on the
      cell before it: [ranged_missed] there, nobody is hurt;
    - when all the cells of the range are clear ([k = range + 1]) the shot
      ends on the last of them: [ranged_missed] there with damage 0, and
      nobody is hurt, whatever stands beyond the range.
    The map is unchanged in every case. *)
Theorem processAttack_ranged (env : Env) (state : GameState) (k : Z) :
  let p := g_player state in
  let dx := match p_facingDirection p with
            | face_right => 1
            | face_left => -1
            end in
  let bonus (f : Equipment -> Z) :=
    match pe_ranged (p_equipment p) with
    | Some e => f e
    | None => 0
    end in
  let rangedDamage :=
    cs_rangedDamage (CHARACTER_STATS (p_character p))
    + bonus rangedDamageBonus in
  let rangedRange :=
    cs_rangedRange (CHARACTER_STATS (p_character p))
    + bonus rangedRangeBonus in
  let cx := p_x p + dx * k in
  let result := processAttack env state in
  let missedAt (x : Z) :=
    exists enemyEvents,
      fst result
      = eventWith ranged_missed
          (RangedAttackEventData x (p_y p) 0 None
             (getAttackType (p_character p)))
        :: enemyEvents in
  let nobodyHurt :=
    forall j e, nth_error (g_enemies state) j = Some e ->
      exists e', nth_error (g_enemies (snd result)) j = Some e'
                 /\ e_hp e' = e_hp e in
  g_status state = active ->
  1 <= k ->
  (forall t, 1 <= t < k -> cellClear state (p_x p + dx * t) (p_y p)) ->
  g_map (snd result) = g_map state
  /\ (k <= rangedRange -> 0 <= cx < mapWidth (g_map state) ->
      tileIs (g_map state) cx (p_y p) tile_wall = true ->
      missedAt cx /\ nobodyHurt)
  /\ (k <= rangedRange -> 0 <= cx < mapWidth (g_map state) ->
      tileIs (g_map state) cx (p_y p) tile_wall = false ->
      forall i enemy,
        findIndex (liveEnemyAt cx (p_y p)) (g_enemies state) = Some i ->
        nth_error (g_enemies state) i = Some enemy ->
        let damage := Z.max 1 (rangedDamage - e_defense enemy) in
        (exists more,
           fst result
           = eventWith ranged_attack
               (RangedAttackEventData cx (p_y p) damage (Some (e_id enemy))
                  (getAttackType (p_character p)))
             :: more)
        /\ forall j e, nth_error (g_enemies state) j = Some e ->
             exists e', nth_error (g_enemies (snd result)) j = Some e'
                        /\ e_hp e' = if Nat.eqb j i then e_hp e - damage
                                     else e_hp e)
  /\ (k <= rangedRange -> ~ (0 <= cx < mapWidth (g_map state)) ->
      missedAt (p_x p + dx * (k - 1)) /\ nobodyHurt)
  /\ (k = rangedRange + 1 ->
      missedAt (p_x p + dx * rangedRange) /\ nobodyHurt).
Proof.
  intros p dx bonus rangedDamage rangedRange cx result missedAt nobodyHurt
         Hactive Hk Hclear.
  split; [apply processAttack_map|].
  split; [|split; [|split]].
  - intros Hrange Hin Hwall.
    destruct (processAttack_stops env state k Hactive (conj Hk Hrange)
                Hclear Hin) as (_ & Hw & _).
    exact (Hw Hwall).
  - intros Hrange Hin Hwall i enemy Hfind Hnth.
    destruct (processAttack_stops env state k Hactive (conj Hk Hrange)
                Hclear Hin) as (_ & _ & He).
    exact (He i enemy Hwall Hfind Hnth).
  - intros Hrange Hout.
    apply (processAttack_miss env state); [exact Hactive|].
    apply (rangedScan_edge state dx (p_x p) (p_y p) k);
      [lia | | exact Hclear | exact Hout].
    change (k - 1 < Z.of_nat (Z.to_nat rangedRange)). lia.
  - intros Hend.
    apply (processAttack_miss env state); [exact Hactive|].
    pose proof (rangedScan_end state dx (p_x p) (p_y p)
                  (Z.to_nat rangedRange) 1) as Hscan.
    replace (p_x p + dx * (1 - 1)) with (p_x p) in Hscan by lia.
    replace (1 + Z.of_nat (Z.to_nat rangedRange) - 1) with rangedRange
      in Hscan by lia.
    apply Hscan. intros t Ht. apply Hclear. lia.
Qed.

Lemma processAttack_ranged_witness :
  (* a wall within range: the wizard of [rangedWallState], wall at (8,5) *)
  ((exists enemyEvents,
      fst (processAttack zeroEnv rangedWallState)
      = eventWith ranged_missed (RangedAttackEventData 8 5 0 None spell)
        :: enemyEvents)
   /\ forall j e, nth_error (g_enemies rangedWallState) j = Some e ->
        exists e', nth_error (g_enemies (snd (processAttack zeroEnv
                                                 rangedWallState))) j = Some e'
                   /\ e_hp e' = e_hp e)
  (* an enemy within range, to the left: the rat loses 7, the orc nothing *)
  /\ ((exists more,
         fst (processAttack zeroEnv rangedFacingState)
         = eventWith ranged_attack
             (RangedAttackEventData 3 5 7 (Some "rat-1") spell) :: more)
      /\ forall j e, nth_error (g_enemies rangedFacingState) j = Some e ->
           exists e', nth_error (g_enemies (snd (processAttack zeroEnv
                                                   rangedFacingState))) j
                      = Some e'
                      /\ e_hp e' = if Nat.eqb j 0 then e_hp e - 7 else e_hp e)
  (* the edge of the map within range *)
  /\ (exists enemyEvents,
        fst (processAttack zeroEnv rangedEdgeState)
        = eventWith ranged_missed (RangedAttackEventData 0 5 0 None bolt)
          :: enemyEvents)
  (* the end of the range: the rat one cell beyond it is not hurt *)
  /\ ((exists enemyEvents,
         fst (processAttack zeroEnv rangedLimitState)
         = eventWith ranged_missed (RangedAttackEventData 7 5 0 None dagger)
           :: enemyEvents)
      /\ forall j e, nth_error (g_enemies rangedLimitState) j = Some e ->
           exists e', nth_error (g_enemies (snd (processAttack zeroEnv
                                                   rangedLimitState))) j
                      = Some e'
                      /\ e_hp e' = e_hp e).
Proof.
  split; [|split; [|split]].
  - destruct (processAttack_ranged zeroEnv rangedWallState 3)
      as (_ & Hwall & _).
    + reflexivity.
    + lia.
    + intros t Ht. assert (Hcases : t = 1 \/ t = 2) by lia.
      destruct Hcases as [-> | ->]; vm_compute; repeat split; easy.
    + apply Hwall; [vm_compute; discriminate | vm_compute; split; easy
                   | vm_compute; reflexivity].
  - destruct (processAttack_ranged zeroEnv rangedFacingState 2)
      as (_ & _ & Henemy & _).
    + reflexivity.
    + lia.
    + intros t Ht. assert (t = 1) by lia. subst t.
      vm_compute; repeat split; easy.
    + apply (Henemy ltac:(vm_compute; discriminate)
                    ltac:(vm_compute; split; easy) eq_refl
                    0%nat (set_e_hp 20 (createTestEnemy "rat-1" rat normal 3 5)));
        reflexivity.
  - destruct (processAttack_ranged zeroEnv rangedEdgeState 2)
      as (_ & _ & _ & Hedge & _).
    + reflexivity.
    + lia.
    + intros t Ht. assert (t = 1) by lia. subst t.
      vm_compute; repeat split; easy.
    + apply Hedge; [vm_compute; discriminate|].
      vm_compute. intros [H _]. apply H. reflexivity.
  - destruct (processAttack_ranged zeroEnv rangedLimitState 3)
      as (_ & _ & _ & _ & Hend).
    + reflexivity.
    + lia.
    + intros t Ht. assert (Hcases : t = 1 \/ t = 2) by lia.
      destruct Hcases as [-> | ->]; vm_compute; repeat split; easy.
    + apply Hend. reflexivity.
Defined.

(** ** The fog after a descent *)

Lemma descended_fog (env : Env) (floor : Z) (character : CharacterType)
    (g : GeneratedFloor) (pre post : GameState) :
  1 <= floor ->
  generateMap env floor character = Some g ->
  descended g pre post -> fogIsDisc post.
Proof.
  intros Hfloor Hgen (_ & _ & _ & _ & Dx & Dy & Dfog & _).
  destruct (generateMap_start env floor character Hfloor)
    as (g' & Hgen' & Hshape & _).
  assert (g' = g) by congruence. subst g'.
  intros x y. rewrite Dfog, Dx, Dy, (fresh_fog _ _ _ _ _ Hshape).
  rewrite (inBounds_shape _ _ _ Hshape). unfold inVision.
  rewrite !andb_true_iff, !Z.leb_le, !Z.ltb_lt. tauto.
Qed.

(** C6. In an active game a descent -- [descendStairs] for a player who
    stands on stairs, [processMove] for a player who steps onto them --
    adds 1 to [floor], replaces map, enemies, items and fog by those of a
    freshly generated floor, puts the player on its start, adds exactly
    100 to the score and, when the new floor is at least 20, sets
    [status = won], adds another 1000 and emits [game_won].  The fog is
    new and updated: after the turn exactly the cells of the map within
    [VISION_RADIUS] of the player's new position are revealed.  The
    enemies are the generated ones, untouched, and no enemy event is
    emitted: the enemy phase does not run. *)
Theorem descend_turn (env : Env) (state : GameState) :
  g_status state = active ->
  0 <= g_floor state ->
  exists g,
    generateMap env (g_floor state + 1) (p_character (g_player state)) = Some g
    /\ (tileIs (g_map state) (p_x (g_player state)) (p_y (g_player state))
               tile_stairs = true ->
          exists state',
            descendStairs env state
            = Some (descendEvents (g_floor state + 1), state')
            /\ descended g state state'
            /\ fogIsDisc state')
    /\ (forall direction,
          let newX := p_x (g_player state) + directionDx direction in
          let newY := p_y (g_player state) + directionDy direction in
          0 <= newX < mapWidth (g_map state) ->
          0 <= newY < mapHeight (g_map state) ->
          tileIs (g_map state) newX newY tile_stairs = true ->
          findIndex (liveEnemyAt newX newY) (g_enemies state) = None ->
          exists itemEvents state',
            processMove env state direction
            = Some (event player_moved
                    :: itemEvents ++ descendEvents (g_floor state + 1),
                    state')
            /\ descended g state state'
            /\ fogIsDisc state'
            /\ existsb isEnemyEvent
                 (itemEvents ++ descendEvents (g_floor state + 1)) = false).
Proof.
  intros Hactive Hfloor.
  destruct (descend_effect env state Hactive Hfloor)
    as (g & Hgen & Hstairs & Hmove).
  assert (Hfog : forall state', descended g state state' -> fogIsDisc state').
  { intros state'.
    apply (descended_fog env (g_floor state + 1)
             (p_character (g_player state)) g state state');
      [lia | exact Hgen]. }
  exists g. split; [exact Hgen|]. split.
  - intros Hon. destruct (Hstairs Hon) as (state' & Hrun & Hdesc).
    exists state'. split; [exact Hrun|].
    split; [exact Hdesc | exact (Hfog state' Hdesc)].
  - intros direction newX newY Hx Hy Hon Hfree.
    destruct (Hmove direction Hx Hy Hon Hfree)
      as (itemEvents & state' & Hrun & Hdesc & Hquiet).
    exists itemEvents, state'. split; [exact Hrun|].
    split; [exact Hdesc|]. split; [exact (Hfog state' Hdesc) | exact Hquiet].
Qed.

Lemma descend_turn_witness :
  exists g itemEvents state',
    generateMap zeroEnv 2 dwarf = Some g
    /\ processMove zeroEnv stairsState dir_right
       = Some (event player_moved :: itemEvents ++ descendEvents 2, state')
    /\ descended g stairsState state'
    /\ fogIsDisc state'.
Proof.
  destruct (descend_turn zeroEnv stairsState) as (g & Hgen & _ & Hmove);
    [reflexivity | vm_compute; discriminate |].
  specialize (Hmove dir_right). cbv zeta in Hmove.
  assert (Hx : 0 <= p_x (g_player stairsState) + directionDx dir_right
               < mapWidth (g_map stairsState))
    by (vm_compute; split; [discriminate | reflexivity]).
  assert (Hy : 0 <= p_y (g_player stairsState) + directionDy dir_right
               < mapHeight (g_map stairsState))
    by (vm_compute; split; [discriminate | reflexivity]).
  specialize (Hmove Hx Hy).
  destruct Hmove as (itemEvents & state' & Hrun & Hdesc & Hfog & _);
    [vm_compute; reflexivity | vm_compute; reflexivity |].
  exists g, itemEvents, state'.
  split; [exact Hgen|]. split; [exact Hrun|].
  split; [exact Hdesc | exact Hfog].
Defined.

(** ** Live enemies and tiles, every turn *)

(** C2 (as the code has it). Live enemies (hp > 0) stay off the player's
    tile over every turn: if none stands there before, none stands there
    after [processAttack], after [descendStairs] and after every
    [processMove], the turn that generates a new floor included.  If in
    addition no two live enemies share a tile before the turn, then no two
    do after [processAttack] and after every [processMove] that does not
    generate a new floor. *)
Theorem turn_keeps_live_enemies_apart (env : Env) (state : GameState) :
  0 <= g_floor state ->
  offPlayerTile state ->
  (offPlayerTile (snd (processAttack env state))
   /\ (forall events state',
         descendStairs env state = Some (events, state') ->
         offPlayerTile state')
   /\ (forall direction events state',
         processMove env state direction = Some (events, state') ->
         offPlayerTile state'))
  /\ (liveSeparated state ->
      liveSeparated (snd (processAttack env state))
      /\ forall direction events state',
           processMove env state direction = Some (events, state') ->
           existsb isFloorDescended events = false ->
           liveSeparated state').
Proof.
  intros Hfloor Hoff.
  assert (Hfree : playerTileFree state) by (apply offPlayerTile_free, Hoff).
  split; [split; [|split]|].
  - apply offPlayerTile_free, processAttack_tileFree, Hfree.
  - intros events state' Hrun. apply offPlayerTile_free.
    exact (descendStairs_tileFree env state events state' Hfloor Hfree Hrun).
  - intros direction events state' Hrun. apply offPlayerTile_free.
    exact (processMove_tileFree env state direction events state' Hfloor
             Hfree Hrun).
  - intros Hsep. exact (turn_liveSeparated env state Hsep).
Qed.

Lemma turn_keeps_live_enemies_apart_witness :
  (* two live orcs that both move: a shot, and a step to the right *)
  (liveSeparated twoOrcsState
   /\ liveSeparated (snd (processAttack zeroEnv twoOrcsState))
   /\ exists events state',
        processMove zeroEnv twoOrcsState dir_right = Some (events, state')
        /\ existsb isFloorDescended events = false
        /\ liveSeparated state')
  (* the step onto the stairs: a new floor, with two rats on one tile *)
  /\ (offPlayerTile stairsState
      /\ exists events state',
           processMove twoRoomsEnv stairsState dir_right
           = Some (events, state')
           /\ existsb isFloorDescended events = true
           /\ offPlayerTile state').
Proof.
  split.
  - assert (Hstart : liveSeparated twoOrcsState)
      by (apply liveSeparatedb_sound; vm_compute; reflexivity).
    destruct (turn_keeps_live_enemies_apart zeroEnv twoOrcsState)
      as [_ Hpairs];
      [vm_compute; discriminate | exact (proj2 Hstart)|].
    destruct (Hpairs Hstart) as [Hattack Hmove].
    split; [exact Hstart|]. split; [exact Hattack|].
    destruct (processMove zeroEnv twoOrcsState dir_right)
      as [[events state']|] eqn:Hrun; [|vm_compute in Hrun; discriminate].
    exists events, state'. split; [reflexivity|].
    assert (Hquiet : existsb isFloorDescended events = false).
    { vm_compute in Hrun. inversion Hrun as [[Hev Hst]]. reflexivity. }
    split; [exact Hquiet|].
    apply (Hmove dir_right events state' Hrun Hquiet).
  - assert (Hstart : offPlayerTile stairsState)
      by exact (proj2 liveSeparated_stairsState).
    destruct (turn_keeps_live_enemies_apart twoRoomsEnv stairsState)
      as [(_ & _ & Hmove) _];
      [vm_compute; discriminate | exact Hstart|].
    split; [exact Hstart|].
    destruct (processMove twoRoomsEnv stairsState dir_right)
      as [[events state']|] eqn:Hrun; [|vm_compute in Hrun; discriminate].
    exists events, state'. split; [reflexivity|].
    split; [|exact (Hmove dir_right events state' Hrun)].
    vm_compute in Hrun. inversion Hrun as [[Hev Hst]]. reflexivity.
Defined.
